(** * spinx: workspace graph, resolution engine and task scheduler

    A shallow embedding of the TypeScript sources of spinx:
    - [graph.ts]        the class [DependencyGraph];
    - [config.ts]       [validateWorkspaces] and [getCommand];
    - [tasks.ts]        the class [TaskRunner];
    - [resolution.ts]   [PackageResolver.analyze] and the generated
                        resolver hook ([findWorkspace], the override of
                        [Module._resolveFilename]);
    - [utils.ts]        [mapFilesToWorkspaces] and [parseFilter];
    - the command-line entry point, for the order in which it validates
      the configuration and builds the graph.

    JavaScript [Map]s and [Set]s iterate in insertion order, and several
    loops of the program depend on that order, so both are modelled as
    lists: a [Set<string>] as a duplicate-free [list string], a
    [Map<string, V>] as an association list whose [map_set] overwrites in
    place.  A plain object used as a table ([Commands], the resolution
    map) is an association list of its own properties, and reading a
    property follows the prototype chain ([js_get]).  Exceptions are
    modelled by the type [Result]; the external collaborators (file
    system, module resolution, subprocesses, the built-in objects of the
    engine) are explicit function arguments. *)

From Stdlib Require Import String Ascii.
From Stdlib Require Import List ZArith Lia Bool Arith Permutation Relations.
Import ListNotations.
Open Scope string_scope.
Open Scope list_scope.

(* ================================================================== *)
(** * Part I: the program                                              *)
(* ================================================================== *)

(** ** Errors and results *)

(** One constructor per [throw] site of the sources. *)
Inductive Error : Type :=
| CycleDetected (cycle : list string)
    (* graph.ts: "❌ Circular dependency detected: a → b → a" *)
| InconsistentGraph
    (* graph.ts: "Graph contains cycles (should have been caught earlier)" *)
| NoBatch
    (* graph.ts: "Unable to determine parallel batches" *)
| DuplicateAlias (a : string)      (* config.ts: "Duplicate alias: a" *)
| DuplicatePath (p : string)       (* config.ts: "Duplicate path: p" *)
| PathMissing (p : string)
    (* config.ts: "Workspace path does not exist: p" *)
| UnknownAlias (who dep : string)
    (* config.ts: "Workspace who depends on unknown alias: dep" *)
| WorkspaceNotFound (a : string)   (* tasks.ts: "Workspace not found: a" *)
| RunFailed (commandType : string) (* tasks.ts: "Failed to run commandType" *)
| TypeError
    (* property access on [undefined] behind a non-null assertion *)
| OutOfFuel.
    (* the loop bound of the model was reached; never the case, see
       "The loop bounds are never reached" below *)

Inductive Result (A : Type) : Type :=
| Ok (a : A)
| Err (e : Error).
Arguments Ok {A} a.
Arguments Err {A} e.

Definition bind {A B} (r : Result A) (k : A -> Result B) : Result B :=
  match r with
  | Ok a => k a
  | Err e => Err e
  end.

Notation "x <- r ;; k" := (bind r (fun x => k))
  (at level 61, r at next level, right associativity).

(** The text of the messages that the claims refer to. *)
Definition message (e : Error) : string :=
  match e with
  | RunFailed c => String.append "Failed to run " c
  | DuplicateAlias a => String.append "Duplicate alias: " a
  | DuplicatePath p => String.append "Duplicate path: " p
  | PathMissing p => String.append "Workspace path does not exist: " p
  | UnknownAlias w d =>
      String.append "Workspace "
        (String.append w (String.append " depends on unknown alias: " d))
  | WorkspaceNotFound a => String.append "Workspace not found: " a
  | NoBatch => "Unable to determine parallel batches"
  | InconsistentGraph =>
      "Graph contains cycles (should have been caught earlier)"
  | CycleDetected c =>
      String.append "❌ Circular dependency detected: " (String.concat " → " c)
  | TypeError => "TypeError"
  | OutOfFuel => "out of fuel"
  end.

(** ** JavaScript containers *)

(** [Set<string>]: a list without duplicates, in insertion order. *)
Definition mem (x : string) (s : list string) : bool :=
  existsb (String.eqb x) s.

Definition set_add (x : string) (s : list string) : list string :=
  if mem x s then s else s ++ [x].

Definition set_delete (x : string) (s : list string) : list string :=
  filter (fun y => negb (String.eqb x y)) s.

(** [new Set(array)] *)
Definition set_of (l : list string) : list string :=
  fold_left (fun s x => set_add x s) l [].

(** [Map<string, V>]: an association list in insertion order. *)
Section JsMap.
Variable V : Type.

Definition jsmap := list (string * V).

Fixpoint map_get (k : string) (m : jsmap) : option V :=
  match m with
  | [] => None
  | (k', v) :: m' => if String.eqb k k' then Some v else map_get k m'
  end.

Definition map_has (k : string) (m : jsmap) : bool :=
  match map_get k m with
  | Some _ => true
  | None => false
  end.

(** [m.set(k, v)]: an existing key keeps its position. *)
Fixpoint map_set (k : string) (v : V) (m : jsmap) : jsmap :=
  match m with
  | [] => [(k, v)]
  | (k', v') :: m' =>
      if String.eqb k k' then (k, v) :: m' else (k', v') :: map_set k v m'
  end.

Definition map_delete (k : string) (m : jsmap) : jsmap :=
  filter (fun kv => negb (String.eqb k (fst kv))) m.

Definition map_keys (m : jsmap) : list string := map fst m.

Definition map_values (m : jsmap) : list V := map snd m.

End JsMap.

Arguments map_get {V} k m.
Arguments map_has {V} k m.
Arguments map_set {V} k v m.
Arguments map_delete {V} k m.
Arguments map_keys {V} m.
Arguments map_values {V} m.

(** A JavaScript number that may be [NaN] ([undefined - 1]). *)
Inductive jsnum : Type :=
| Num (z : Z)
| NaN.

Definition jsnum_pred (n : jsnum) : jsnum :=
  match n with
  | Num z => Num (z - 1)
  | NaN => NaN
  end.

Definition jsnum_is_zero (n : jsnum) : bool :=
  match n with
  | Num z => Z.eqb z 0
  | NaN => false
  end.

(** ** Property access on plain objects *)

(** The string-keyed properties of [Object.prototype] (ECMA-262, 20.1.3
    and B.2.2).  An object made by an object literal, by [JSON.parse] or
    by the schema parser of the configuration inherits them.  Each is
    truthy on such an object: [constructor] is [Object], [__proto__] is an
    accessor that yields [Object.prototype], the others are functions. *)
Definition Object_prototype_names : list string :=
  ["constructor"; "__defineGetter__"; "__defineSetter__"; "hasOwnProperty";
   "__lookupGetter__"; "__lookupSetter__"; "isPrototypeOf";
   "propertyIsEnumerable"; "toString"; "valueOf"; "__proto__";
   "toLocaleString"].

(** The value of [obj[key]] when [obj] is a plain object: its own
    property, else the member of [Object.prototype] of that name, else
    [undefined]. *)
Inductive Lookup (A : Type) : Type :=
| Own (a : A)
| Inherited (member : string)
| Undefined.
Arguments Own {A} a.
Arguments Inherited {A} member.
Arguments Undefined {A}.

(** [obj[key]]; the own properties of [obj] are the entries of the
    association list.  A list that the program builds records its
    assignments [obj[key] = v]: each adds or overwrites the own property
    [key], except for the key [__proto__], where the assignment replaces
    the prototype of [obj] instead.  Reading such a list with [js_get] is
    what the code does as long as no assignment went to that key
    ([no_proto_key]). *)
Definition js_get {A : Type} (key : string) (obj : jsmap A) : Lookup A :=
  match map_get key obj with
  | Some a => Own a
  | None => if mem key Object_prototype_names then Inherited key else Undefined
  end.

(** The members of [Object.prototype] are objects of the engine.  What
    indexing one of them by a string gives depends on the engine (the
    static methods of [Object], the [length] of a function) and may throw
    (the accessors [caller] and [arguments] of [Function.prototype]), so
    the functions that index twice take it as an argument:
    [member_index m key] tells how [Object.prototype[m][key]] ends. *)
Inductive MemberIndex : Type :=
| MemberThrows     (* a [TypeError] *)
| MemberFalsy
| MemberTruthy.

(** ** types.ts *)

(** [Commands]: an object indexed by command name. *)
Definition Commands := jsmap string.

Record Workspace : Type := mkWorkspace {
  path : string;
  alias : option string;
  dependsOn : option (list string);
  command : option Commands
}.

(** The fields [manager] and [watch] are read by none of the modelled
    functions. *)
Record spinxConfig : Type := mkConfig {
  concurrency : option nat;
  workspace : list Workspace;
  defaults : option Commands
}.

Record GraphNode : Type := mkNode {
  node_workspace : Workspace;
  dependencies : list string;
  dependents : list string
}.

Record TaskResult : Type := mkTaskResult {
  task_workspace : string;
  success : bool;
  duration : Z;
  error : option string
}.

Record Resolution : Type := mkResolution {
  version : string;
  resolvedPath : string
}.

Definition ResolutionMap := jsmap (jsmap Resolution).

Record ConflictInfo : Type := mkConflict {
  packageName : string;
  versions : jsmap (list string)
}.

Record PackageJson : Type := mkPackageJson {
  pkg_dependencies : option (jsmap string);
  pkg_devDependencies : option (jsmap string)
}.

(** ** config.ts *)

(** JavaScript truthiness of what a [Commands] object gives for a name:
    [undefined] and the empty string are falsy, a member of
    [Object.prototype] is truthy. *)
Definition truthy (s : Lookup string) : bool :=
  match s with
  | Own s' => negb (String.eqb s' "")
  | Inherited _ => true
  | Undefined => false
  end.

(** [a || b] *)
Definition or_else (a b : Lookup string) : Lookup string :=
  if truthy a then a else b.

(** [obj?.[key]] on an optional object. *)
Definition opt_index (obj : option Commands) (key : string) : Lookup string :=
  match obj with
  | Some o => js_get key o
  | None => Undefined
  end.

(** [workspace.alias || workspace.path], the key of a workspace in the
    graph and in the resolution map. *)
Definition identity (ws : Workspace) : string :=
  match alias ws with
  | Some a => if String.eqb a "" then path ws else a
  | None => path ws
  end.

(** [workspace.dependsOn || []] *)
Definition dependsOn_list (ws : Workspace) : list string :=
  match dependsOn ws with
  | Some l => l
  | None => []
  end.

(** [config.workspace.some((w) => w.alias === dep)] *)
Definition alias_declared (wss : list Workspace) (dep : string) : bool :=
  existsb (fun w => match alias w with
                    | Some a => String.eqb a dep
                    | None => false
                    end) wss.

(** The loop over [ws.dependsOn] of [validateWorkspaces]. *)
Fixpoint validate_deps (all : list Workspace) (ws : Workspace)
    (deps : list string) : Result unit :=
  match deps with
  | [] => Ok tt
  | dep :: rest =>
      if alias_declared all dep then validate_deps all ws rest
      else Err (UnknownAlias (identity ws) dep)
  end.

(** The body of the loop of [validateWorkspaces] for one workspace; the
    state is the pair of sets [aliases], [paths]. *)
Definition validate_one (existsSync : string -> bool) (all : list Workspace)
    (ws : Workspace) (st : list string * list string)
    : Result (list string * list string) :=
  let '(aliases, paths) := st in
  aliases' <-
    (match alias ws with
     | Some a =>
         if negb (String.eqb a "") then
           if mem a aliases then Err (DuplicateAlias a)
           else Ok (set_add a aliases)
         else Ok aliases
     | None => Ok aliases
     end) ;;
  if mem (path ws) paths then Err (DuplicatePath (path ws))
  else
    let paths' := set_add (path ws) paths in
    if negb (existsSync (path ws)) then Err (PathMissing (path ws))
    else
      _ <- (match dependsOn ws with
            | Some deps => validate_deps all ws deps
            | None => Ok tt
            end) ;;
      Ok (aliases', paths').

Fixpoint validate_loop (existsSync : string -> bool) (all : list Workspace)
    (wss : list Workspace) (st : list string * list string) : Result unit :=
  match wss with
  | [] => Ok tt
  | ws :: rest =>
      st' <- validate_one existsSync all ws st ;;
      validate_loop existsSync all rest st'
  end.

Definition validateWorkspaces (existsSync : string -> bool)
    (config : spinxConfig) : Result unit :=
  validate_loop existsSync (workspace config) (workspace config) ([], []).

Definition getCommand (ws : Workspace) (commandType : string)
    (config : spinxConfig) : Lookup string :=
  or_else (opt_index (command ws) commandType)
          (opt_index (defaults config) commandType).

(** ** graph.ts *)

(** The private field [nodes] of the class; the field [config] is only
    read by [buildGraph]. *)
Definition Graph := jsmap GraphNode.

(** First loop of [buildGraph]. *)
Definition init_nodes (wss : list Workspace) : Graph :=
  fold_left
    (fun nodes ws =>
       map_set (identity ws)
         (mkNode ws (set_of (dependsOn_list ws)) []) nodes)
    wss [].

(** [depNode.dependents.add(alias)] when [depNode] is defined. *)
Definition add_dependent (alias dep : string) (nodes : Graph) : Graph :=
  match map_get dep nodes with
  | Some depNode =>
      map_set dep
        (mkNode (node_workspace depNode) (dependencies depNode)
                (set_add alias (dependents depNode)))
        nodes
  | None => nodes
  end.

(** Second loop of [buildGraph].  The node objects are mutated while the
    map is iterated; neither the keys nor the [dependencies] sets change,
    so the iteration runs over the entries of the first loop. *)
Definition add_reverse_edges (nodes0 : Graph) : Graph :=
  fold_left
    (fun nodes entry =>
       fold_left (fun nodes' dep => add_dependent (fst entry) dep nodes')
                 (dependencies (snd entry)) nodes)
    nodes0 nodes0.

Definition buildGraph (config : spinxConfig) : Graph :=
  add_reverse_edges (init_nodes (workspace config)).

(** *** detectCycles *)

(** [array.indexOf(x)]: [-1] when absent. *)
Fixpoint index_of (x : string) (l : list string) : Z :=
  match l with
  | [] => (-1)%Z
  | y :: l' =>
      if String.eqb x y then 0%Z
      else let i := index_of x l' in
           if (i <? 0)%Z then (-1)%Z else (i + 1)%Z
  end.

(** [array.slice(start)]: a negative [start] counts from the end. *)
Definition slice_from (start : Z) (l : list string) : list string :=
  if (start <? 0)%Z
  then skipn (Z.to_nat (Z.max (Z.of_nat (length l) + start) 0)) l
  else skipn (Z.to_nat start) l.

(** The three mutable locals of [detectCycles]. *)
Record DfsState : Type := mkDfs {
  visited : list string;
  recStack : list string;
  dfs_path : list string
}.

(** What a call of the closure [dfs] does: it returns a boolean, throws
    the cycle error, or (in the model only) exhausts its fuel. *)
Inductive DfsOutcome : Type :=
| DfsReturn (b : bool) (st : DfsState)
| DfsThrow (cycle : list string)
| DfsFuel.

(** The [for] loop over [node.dependencies]; [rec] is the recursive call.
    The result [DfsReturn true] stands for the [return true] inside the
    loop, [DfsReturn false] for reaching the end of the loop. *)
Fixpoint dfs_loop (rec : string -> DfsState -> DfsOutcome)
    (deps : list string) (st : DfsState) : DfsOutcome :=
  match deps with
  | [] => DfsReturn false st
  | dep :: rest =>
      if negb (mem dep (visited st)) then
        match rec dep st with
        | DfsReturn true st' => DfsReturn true st'
        | DfsReturn false st' => dfs_loop rec rest st'
        | other => other
        end
      else if mem dep (recStack st) then
        let cycleStart := index_of dep (dfs_path st) in
        DfsThrow (slice_from cycleStart (dfs_path st) ++ [dep])
      else dfs_loop rec rest st
  end.

Fixpoint dfs (nodes : Graph) (fuel : nat) (alias : string) (st : DfsState)
    : DfsOutcome :=
  match fuel with
  | O => DfsFuel
  | S fuel' =>
      let st1 := mkDfs (set_add alias (visited st))
                       (set_add alias (recStack st))
                       (dfs_path st ++ [alias]) in
      match map_get alias nodes with
      | None => DfsReturn false st1
      | Some node =>
          match dfs_loop (dfs nodes fuel') (dependencies node) st1 with
          | DfsReturn true st2 => DfsReturn true st2
          | DfsReturn false st2 =>
              DfsReturn false
                (mkDfs (visited st2)
                       (set_delete alias (recStack st2))
                       (removelast (dfs_path st2)))
          | other => other
          end
      end
  end.

(** Every call of [dfs] marks a fresh alias taken from the keys or from a
    dependency set, so the recursion depth is below this bound. *)
Definition dfs_fuel (nodes : Graph) : nat :=
  S (length nodes + length (concat (map (fun e => dependencies (snd e)) nodes))).

(** The loop over [this.nodes.keys()]; the value returned by [dfs] is
    dropped there. *)
Fixpoint detect_loop (nodes : Graph) (keys : list string) (st : DfsState)
    : DfsOutcome :=
  match keys with
  | [] => DfsReturn false st
  | alias :: rest =>
      if negb (mem alias (visited st)) then
        match dfs nodes (dfs_fuel nodes) alias st with
        | DfsReturn _ st' => detect_loop nodes rest st'
        | other => other
        end
      else detect_loop nodes rest st
  end.

Definition detectCycles (nodes : Graph) : Result unit :=
  match detect_loop nodes (map_keys nodes) (mkDfs [] [] []) with
  | DfsReturn _ _ => Ok tt
  | DfsThrow cycle => Err (CycleDetected cycle)
  | DfsFuel => Err OutOfFuel
  end.

(** [new DependencyGraph(config)] *)
Definition newDependencyGraph (config : spinxConfig) : Result Graph :=
  let nodes := buildGraph config in
  _ <- detectCycles nodes ;;
  Ok nodes.

(** *** getTopologicalOrder *)

(** The loop "Calculate in-degrees": the state is [(inDegree, queue)]. *)
Definition topo_init (nodes : Graph) : jsmap jsnum * list string :=
  fold_left
    (fun st entry =>
       let '(inDegree, queue) := st in
       let size := length (dependencies (snd entry)) in
       (map_set (fst entry) (Num (Z.of_nat size)) inDegree,
        if Nat.eqb size 0 then queue ++ [fst entry] else queue))
    nodes ([], []).

(** [inDegree.get(dependent)! - 1]; [undefined - 1] is [NaN]. *)
Definition decremented (inDegree : jsmap jsnum) (dependent : string) : jsnum :=
  match map_get dependent inDegree with
  | Some n => jsnum_pred n
  | None => NaN
  end.

(** The loop over [node.dependents] inside the [while] loop. *)
Definition topo_relax (ds : list string) (st : jsmap jsnum * list string)
    : jsmap jsnum * list string :=
  fold_left
    (fun st dependent =>
       let '(inDegree, queue) := st in
       let degree := decremented inDegree dependent in
       (map_set dependent degree inDegree,
        if jsnum_is_zero degree then queue ++ [dependent] else queue))
    ds st.

(** The [while (queue.length > 0)] loop; returns [result]. *)
Fixpoint topo_loop (nodes : Graph) (fuel : nat) (inDegree : jsmap jsnum)
    (queue result : list string) : Result (list string) :=
  match queue with
  | [] => Ok result
  | alias :: queue' =>
      match fuel with
      | O => Err OutOfFuel
      | S fuel' =>
          match map_get alias nodes with
          | None => Err TypeError
          | Some node =>
              let '(inDegree', queue'') :=
                topo_relax (dependents node) (inDegree, queue') in
              topo_loop nodes fuel' inDegree' queue'' (result ++ [alias])
          end
      end
  end.

Definition getTopologicalOrder (nodes : Graph) : Result (list string) :=
  let '(inDegree, queue) := topo_init nodes in
  result <- topo_loop nodes (length nodes) inDegree queue [] ;;
  if negb (Nat.eqb (length result) (length nodes))
  then Err InconsistentGraph
  else Ok result.

(** *** getParallelBatches *)

(** The loop "Calculate in-degrees". *)
Definition batch_init (nodes : Graph) : jsmap Z :=
  fold_left
    (fun inDegree entry =>
       map_set (fst entry)
               (Z.of_nat (length (dependencies (snd entry)))) inDegree)
    nodes [].

(** "Find all nodes with in-degree 0". *)
Definition zero_degree (inDegree : jsmap Z) : list string :=
  map fst (filter (fun e => Z.eqb (snd e) 0) inDegree).

(** The loop over [node.dependents] for one member of the batch. *)
Definition batch_relax (ds : list string) (inDegree : jsmap Z) : jsmap Z :=
  fold_left
    (fun inDegree dependent =>
       match map_get dependent inDegree with
       | Some d => map_set dependent (d - 1)%Z inDegree
       | None => inDegree
       end)
    ds inDegree.

(** "Remove processed nodes and update in-degrees". *)
Fixpoint batch_remove (nodes : Graph) (batch : list string)
    (inDegree : jsmap Z) : Result (jsmap Z) :=
  match batch with
  | [] => Ok inDegree
  | alias :: rest =>
      match map_get alias nodes with
      | None => Err TypeError
      | Some node =>
          batch_remove nodes rest
            (batch_relax (dependents node) (map_delete alias inDegree))
      end
  end.

(** The [while (inDegree.size > 0)] loop. *)
Fixpoint batch_loop (nodes : Graph) (fuel : nat) (inDegree : jsmap Z)
    (batches : list (list string)) : Result (list (list string)) :=
  match inDegree with
  | [] => Ok batches
  | _ :: _ =>
      match fuel with
      | O => Err OutOfFuel
      | S fuel' =>
          let batch := zero_degree inDegree in
          match batch with
          | [] => Err NoBatch
          | _ :: _ =>
              inDegree' <- batch_remove nodes batch inDegree ;;
              batch_loop nodes fuel' inDegree' (batches ++ [batch])
          end
      end
  end.

Definition getParallelBatches (nodes : Graph) : Result (list (list string)) :=
  batch_loop nodes (length nodes) (batch_init nodes) [].

(** *** getAffected *)

(** The loop over [node.dependents]: the state is [(affected, queue)]. *)
Definition affected_relax (ds : list string) (st : list string * list string)
    : list string * list string :=
  fold_left
    (fun st dependent =>
       let '(affected, queue) := st in
       if negb (mem dependent affected)
       then (set_add dependent affected, queue ++ [dependent])
       else st)
    ds st.

Fixpoint affected_loop (nodes : Graph) (fuel : nat)
    (affected queue : list string) : Result (list string) :=
  match queue with
  | [] => Ok affected
  | alias :: queue' =>
      match fuel with
      | O => Err OutOfFuel
      | S fuel' =>
          match map_get alias nodes with
          | Some node =>
              let '(affected', queue'') :=
                affected_relax (dependents node) (affected, queue') in
              affected_loop nodes fuel' affected' queue''
          | None => affected_loop nodes fuel' affected queue'
          end
      end
  end.

(** Every queue entry is either one of [changedAliases] or a dependent
    that was new to [affected] when it was pushed. *)
Definition affected_fuel (nodes : Graph) (changedAliases : list string) : nat :=
  length changedAliases
  + length (concat (map (fun e => dependents (snd e)) nodes)).

Definition getAffected (nodes : Graph) (changedAliases : list string)
    : Result (list string) :=
  affected_loop nodes (affected_fuel nodes changedAliases)
                (set_of changedAliases) changedAliases.

Definition getDependencies (nodes : Graph) (alias : string) : list string :=
  match map_get alias nodes with
  | Some node => dependencies node
  | None => []
  end.

Definition getWorkspace (nodes : Graph) (alias : string) : option Workspace :=
  option_map node_workspace (map_get alias nodes).

Definition getAllAliases (nodes : Graph) : list string := map_keys nodes.

Definition getDependents (nodes : Graph) (alias : string) : list string :=
  match map_get alias nodes with
  | Some node => dependents node
  | None => []
  end.

Definition has (nodes : Graph) (alias : string) : bool := map_has alias nodes.

(** ** The command-line entry point *)

(** How every command of the CLI obtains its graph:
    [validateWorkspaces(config); const graph = new DependencyGraph(config)]. *)
Definition loadGraph (existsSync : string -> bool) (config : spinxConfig)
    : Result Graph :=
  _ <- validateWorkspaces existsSync config ;;
  newDependencyGraph config.

(** The check of the action of [spinx run <commandName>]:
    [config.workspace.some((ws) => ws.command?.[commandName] ||
    config.defaults?.[commandName])]. *)
Definition hasCommand (config : spinxConfig) (commandName : string) : bool :=
  existsb
    (fun ws => truthy (or_else (opt_index (command ws) commandName)
                               (opt_index (defaults config) commandName)))
    (workspace config).

(** ** tasks.ts *)

(** The fields of a [TaskRunner]. *)
Record TaskRunner : Type := mkRunner {
  runner_config : spinxConfig;
  runner_graph : Graph;
  nodeOptions : string
}.

(** The process executor and the clock, external to the program:
    [execa command cwd NODE_OPTIONS] is [None] when the subprocess exits
    with success and [Some e] when the call throws or the promise is
    rejected with [e]; [command] is the value that [getCommand] returned,
    a string or a member of [Object.prototype].  [elapsed alias] is the
    difference of the two readings of [Date.now()] around the subprocess
    of [alias]. *)
Record Host : Type := mkHost {
  execa : Lookup string -> string -> option string -> option string;
  elapsed : string -> Z;
  env_NODE_OPTIONS : option string
}.

(** [env.NODE_OPTIONS] as passed to the subprocess. *)
Definition task_env (r : TaskRunner) (h : Host) : option string :=
  if negb (String.eqb (nodeOptions r) "") then
    Some (String.append (nodeOptions r)
            (match env_NODE_OPTIONS h with
             | Some o => if String.eqb o "" then "" else String.append " " o
             | None => ""
             end))
  else env_NODE_OPTIONS h.

Definition runTask (r : TaskRunner) (h : Host) (alias commandType : string)
    : Result TaskResult :=
  match getWorkspace (runner_graph r) alias with
  | None => Err (WorkspaceNotFound alias)
  | Some ws =>
      let command := getCommand ws commandType (runner_config r) in
      if negb (truthy command) then Ok (mkTaskResult alias true 0 None)
      else
        match execa h command (path ws) (task_env r h) with
        | None => Ok (mkTaskResult alias true (elapsed h alias) None)
        | Some e => Ok (mkTaskResult alias false (elapsed h alias) (Some e))
        end
  end.

(** [runBatch]: every task of the batch is started ([pLimit] only bounds
    how many run at once, and there is no cancellation).  Each task stores
    its result under its own key, so the order of completion only shows in
    the iteration order of the returned map; the tasks are taken in array
    order here.  The second component is the list of aliases for which
    [runTask] was called.  A rejected task rejects [Promise.all]; the
    first rejection is the error of the batch. *)
Fixpoint run_tasks (r : TaskRunner) (h : Host) (commandType : string)
    (aliases : list string) (results : jsmap TaskResult)
    : jsmap TaskResult * option Error :=
  match aliases with
  | [] => (results, None)
  | alias :: rest =>
      match runTask r h alias commandType with
      | Ok result => run_tasks r h commandType rest (map_set alias result results)
      | Err e =>
          let '(results', _) := run_tasks r h commandType rest results in
          (results', Some e)
      end
  end.

Definition runBatch (r : TaskRunner) (h : Host) (aliases : list string)
    (commandType : string) (concurrency : nat)
    : Result (jsmap TaskResult) * list string :=
  match run_tasks r h commandType aliases [] with
  | (results, None) => (Ok results, aliases)
  | (_, Some e) => (Err e, aliases)
  end.

(** "Merge results". *)
Definition merge_results (batchResults results : jsmap TaskResult)
    : jsmap TaskResult :=
  fold_left (fun acc e => map_set (fst e) (snd e) acc) batchResults results.

(** The [for] loop of [runAll] over [batches]; [started] accumulates the
    aliases handed to [runTask]. *)
Fixpoint run_batches (r : TaskRunner) (h : Host) (commandType : string)
    (filter_ : option (list string)) (concurrency : nat)
    (batches : list (list string)) (results : jsmap TaskResult)
    (started : list string) : Result (jsmap TaskResult) * list string :=
  match batches with
  | [] => (Ok results, started)
  | batch0 :: rest =>
      let batch :=
        match filter_ with
        | Some f => filter (fun alias => mem alias f) batch0
        | None => batch0
        end in
      match batch with
      | [] => run_batches r h commandType filter_ concurrency rest
                          results started
      | _ :: _ =>
          match runBatch r h batch commandType concurrency with
          | (Err e, ran) => (Err e, started ++ ran)
          | (Ok batchResults, ran) =>
              let results' := merge_results batchResults results in
              let failed :=
                filter (fun res => negb (success res))
                       (map_values batchResults) in
              match failed with
              | _ :: _ => (Err (RunFailed commandType), started ++ ran)
              | [] => run_batches r h commandType filter_ concurrency rest
                                  results' (started ++ ran)
              end
          end
      end
  end.

(** [this.config.concurrency || this.config.workspace.length] *)
Definition effective_concurrency (config : spinxConfig) : nat :=
  match concurrency config with
  | Some (S n) => S n
  | _ => length (workspace config)
  end.

Definition runAll (r : TaskRunner) (h : Host) (commandType : string)
    (filter_ : option (list string))
    : Result (jsmap TaskResult) * list string :=
  match getParallelBatches (runner_graph r) with
  | Err e => (Err e, [])
  | Ok batches =>
      run_batches r h commandType filter_
                  (effective_concurrency (runner_config r)) batches [] []
  end.

(** [runAffected]: [Array.from(affected)] is the filter. *)
Definition runAffected (r : TaskRunner) (h : Host)
    (changedAliases : list string) (commandType : string)
    : Result (jsmap TaskResult) * list string :=
  match getAffected (runner_graph r) changedAliases with
  | Err e => (Err e, [])
  | Ok affected => runAll r h commandType (Some affected)
  end.

(** The loop [for (const dep of deps) await this.runTask(dep, commandType)]
    of [runSingle]: the results are dropped, a rejection ends the loop.
    [started] accumulates the aliases handed to [runTask]. *)
Fixpoint run_deps (r : TaskRunner) (h : Host) (commandType : string)
    (deps : list string) (started : list string) : Result unit * list string :=
  match deps with
  | [] => (Ok tt, started)
  | dep :: rest =>
      match runTask r h dep commandType with
      | Ok _ => run_deps r h commandType rest (started ++ [dep])
      | Err e => (Err e, started ++ [dep])
      end
  end.

Definition runSingle (r : TaskRunner) (h : Host) (alias commandType : string)
    (withDeps : bool) : Result unit * list string :=
  if negb (has (runner_graph r) alias) then (Err (WorkspaceNotFound alias), [])
  else
    match (if withDeps
           then run_deps r h commandType
                  (getDependencies (runner_graph r) alias) []
           else (Ok tt, [])) with
    | (Err e, started) => (Err e, started)
    | (Ok _, started) =>
        match runTask r h alias commandType with
        | Ok _ => (Ok tt, started ++ [alias])
        | Err e => (Err e, started ++ [alias])
        end
    end.

(** The numbers that the private method [printSummary] of the runner
    computes and prints: the size of [results], the lengths of
    [successful] and [failed], and [totalTime]. *)
Record Summary : Type := mkSummary {
  summary_total : nat;
  summary_successful : nat;
  summary_failed : nat;
  summary_totalTime : Z
}.

Definition printSummary (results : jsmap TaskResult) : Summary :=
  mkSummary
    (length results)
    (length (filter (fun r => success r) (map_values results)))
    (length (filter (fun r => negb (success r)) (map_values results)))
    (fold_left (fun sum r => (sum + duration r)%Z) (map_values results) 0%Z).

(** ** resolution.ts *)

(** The private fields [resolutionMap] and [conflicts] of a
    [PackageResolver]. *)
Record ResolverState : Type := mkResolver {
  resolutionMap : ResolutionMap;
  conflicts : list ConflictInfo
}.

(** [new PackageResolver(config, rootDir)] *)
Definition newPackageResolver : ResolverState := mkResolver [] [].

(** What [analyze] reads from disk: [readManifest p] is the parsed
    [package.json] of the workspace at path [p], [None] when the file does
    not exist; [resolveInstalledVersion p name range] is the private
    method of that name, which walks the installed tree and returns the
    pair of the version and the directory of the package, if any. *)
Record Disk : Type := mkDisk {
  readManifest : string -> option PackageJson;
  resolveInstalledVersion : string -> string -> string -> option (string * string)
}.

(** [{ ...a, ...b }]: the own properties of [a], then those of [b], are
    copied into a fresh object. *)
Definition spread (a b : option (jsmap string)) : jsmap string :=
  fold_left (fun obj e => map_set (fst e) (snd e) obj)
    ((match a with Some o => o | None => [] end)
     ++ (match b with Some o => o | None => [] end))
    [].

(** "Track for conflict detection". *)
Definition track (pkgName ver alias : string)
    (allPackages : jsmap (jsmap (list string))) : jsmap (jsmap (list string)) :=
  let versionMap :=
    match map_get pkgName allPackages with
    | Some vm => vm
    | None => []
    end in
  let users :=
    match map_get ver versionMap with
    | Some ws => ws
    | None => []
    end in
  map_set pkgName (map_set ver (users ++ [alias]) versionMap) allPackages.

(** The loop over [Object.entries(allDeps)] for one workspace; the state
    is the object stored at [resolutionMap[alias]] and [allPackages]. *)
Definition analyze_deps (d : Disk) (ws : Workspace) (alias : string)
    (allDeps : jsmap string)
    (st : jsmap Resolution * jsmap (jsmap (list string)))
    : jsmap Resolution * jsmap (jsmap (list string)) :=
  fold_left
    (fun st entry =>
       let '(pkgName, versionRange) := entry in
       let '(resolved, allPackages) := st in
       if String.prefix "workspace:" versionRange then st
       else
         match resolveInstalledVersion d (path ws) pkgName versionRange with
         | Some (ver, dir) =>
             (map_set pkgName (mkResolution ver dir) resolved,
              track pkgName ver alias allPackages)
         | None => st
         end)
    allDeps st.

(** The loop over [this.config.workspace]. *)
Definition analyze_workspaces (d : Disk) (wss : list Workspace)
    (st : ResolutionMap * jsmap (jsmap (list string)))
    : ResolutionMap * jsmap (jsmap (list string)) :=
  fold_left
    (fun st ws =>
       let '(rmap, allPackages) := st in
       let alias := identity ws in
       match readManifest d (path ws) with
       | None => st
       | Some pkgJson =>
           let allDeps :=
             spread (pkg_dependencies pkgJson) (pkg_devDependencies pkgJson) in
           let '(resolved, allPackages') :=
             analyze_deps d ws alias allDeps ([], allPackages) in
           (map_set alias resolved rmap, allPackages')
       end)
    wss st.

(** "Detect conflicts (same package, different versions)". *)
Definition detect_conflicts (allPackages : jsmap (jsmap (list string)))
    : list ConflictInfo :=
  map (fun e => mkConflict (fst e) (snd e))
      (filter (fun e => Nat.ltb 1 (length (snd e))) allPackages).

Definition analyze (config : spinxConfig) (d : Disk) (st : ResolverState)
    : ResolverState :=
  let '(rmap, allPackages) :=
    analyze_workspaces d (workspace config) (resolutionMap st, []) in
  mkResolver rmap (conflicts st ++ detect_conflicts allPackages).

(** What [resolutions[workspace]?.[pkgName]] gives, for the resolution
    map of the class and for the object that the hook parses from
    [resolutions.json]. *)
Inductive Found : Type :=
| FoundThrows
    (* the second access throws a [TypeError] *)
| FoundNothing
    (* a falsy value *)
| FoundEntry (resolution : Resolution)
    (* an entry of the map *)
| FoundMember.
    (* an object of the engine: truthy, and its properties [version] and
       [resolvedPath] read [undefined] *)

Definition resolution_at (member_index : string -> string -> MemberIndex)
    (rmap : ResolutionMap) (ws pkg : string) : Found :=
  match js_get ws rmap with
  | Own table =>
      match js_get pkg table with
      | Own resolution => FoundEntry resolution
      | Inherited _ => FoundMember
      | Undefined => FoundNothing
      end
  | Inherited m =>
      match member_index m pkg with
      | MemberThrows => FoundThrows
      | MemberFalsy => FoundNothing
      | MemberTruthy => FoundMember
      end
  | Undefined => FoundNothing
  end.

(** The lines that [explainResolution] prints, by kind; [None] is printed
    as [undefined]. *)
Inductive ExplainLine : Type :=
| ExplainHeader (pkg ws : string)
    (* "🔍 Resolution for pkg in ws:" *)
| ExplainNotFound (ws : string)
    (* "   ❌ Package not found in ws" *)
| ExplainVersion (v : option string)      (* "   Version: v" *)
| ExplainPath (dir : option string)       (* "   Path: dir" *)
| ExplainConflict                         (* "   ⚠️  Conflict detected:" *)
| ExplainGroup (marked : bool) (v : string) (users : list string)
    (* "   marker v: w1, w2", the marker an arrow or a space *)
| ExplainNoConflict
    (* "   ✅ No conflicts (all workspaces use same version)" *)
| ExplainBlank.

(** [version === resolution.version] *)
Definition same_version (v : string) (own : option string) : bool :=
  match own with
  | Some v' => String.eqb v v'
  | None => false
  end.

(** What [explainResolution] prints once [resolution] is truthy; [ver]
    and [dir] are [resolution.version] and [resolution.resolvedPath]. *)
Definition explain_found (st : ResolverState) (pkg : string)
    (ver dir : option string) : list ExplainLine :=
  ExplainVersion ver ::
  ExplainPath dir ::
  (match find (fun c => String.eqb (packageName c) pkg) (conflicts st) with
   | Some conflict =>
       ExplainConflict ::
       map (fun e => ExplainGroup (same_version (fst e) ver)
                                  (fst e) (snd e))
           (versions conflict)
   | None => [ExplainNoConflict]
   end) ++ [ExplainBlank].

(** [explainResolution(workspace, packageName)]; the two arguments are
    called [ws] and [pkg] here.  The second component is what was
    printed. *)
Definition explainResolution (member_index : string -> string -> MemberIndex)
    (st : ResolverState) (ws pkg : string) : Result unit * list ExplainLine :=
  match resolution_at member_index (resolutionMap st) ws pkg with
  | FoundThrows => (Err TypeError, [ExplainHeader pkg ws])
  | FoundNothing => (Ok tt, [ExplainHeader pkg ws; ExplainNotFound ws])
  | FoundEntry resolution =>
      (Ok tt,
       ExplainHeader pkg ws ::
       explain_found st pkg (Some (version resolution))
                     (Some (resolvedPath resolution)))
  | FoundMember =>
      (Ok tt, ExplainHeader pkg ws :: explain_found st pkg None None)
  end.

(** *** The generated resolver hook *)

Record WorkspaceRoot : Type := mkRoot {
  root_alias : string;
  root_path : string
}.

(** The constant [workspaceRoots] written into the hook. *)
Definition workspaceRoots (config : spinxConfig) : list WorkspaceRoot :=
  map (fun ws => mkRoot (identity ws) (path ws)) (workspace config).

Fixpoint findWorkspace (roots : list WorkspaceRoot) (filePath : string)
    : option string :=
  match roots with
  | [] => None
  | ws :: rest =>
      if String.prefix (root_path ws) filePath then Some (root_alias ws)
      else findWorkspace rest filePath
  end.

(** [request.split('/')] *)
Fixpoint split_slash (s : string) : list string :=
  match s with
  | EmptyString => [""]
  | String c s' =>
      let parts := split_slash s' in
      if Ascii.eqb c "/"%char then "" :: parts
      else match parts with
           | p :: ps => String c p :: ps
           | [] => [String c ""]
           end
  end.

(** "Extract package name (handle scoped packages)". *)
Definition package_of (request : string) : string :=
  if String.prefix "@" request
  then String.concat "/" (firstn 2 (split_slash request))
  else hd "" (split_slash request).

(** [request.slice(pkgName.length)] *)
Definition sub_path (request pkgName : string) : string :=
  String.substring (String.length pkgName)
    (String.length request - String.length pkgName) request.

(** [try { return originalResolve(resolvedRequest) } catch {}] followed
    by the default resolution. *)
Definition try_redirect (originalResolve : string -> option string)
    (resolvedRequest request : string) : option string :=
  match originalResolve resolvedRequest with
  | Some file => Some file
  | None => originalResolve request
  end.

(** The replacement of [Module._resolveFilename].  [originalResolve] is
    the loader's own function, [cwd] is [process.cwd()], [parentFilename]
    is [parent?.filename]; the result is [None] when the call throws.
    [resolution.resolvedPath + subPath] starts with the text [undefined]
    when [resolution] is no entry of the map. *)
Definition resolveFilename (member_index : string -> string -> MemberIndex)
    (originalResolve : string -> option string)
    (resolutions : ResolutionMap) (roots : list WorkspaceRoot) (cwd : string)
    (request : string) (parentFilename : option string) : option string :=
  if String.prefix "." request || String.prefix "/" request
     || String.prefix "node:" request
  then originalResolve request
  else
    let callerPath :=
      match parentFilename with
      | Some f => if String.eqb f "" then cwd else f
      | None => cwd
      end in
    match findWorkspace roots callerPath with
    | Some ws =>
        if String.eqb ws "" then originalResolve request
        else
          let pkgName := package_of request in
          match resolution_at member_index resolutions ws pkgName with
          | FoundThrows => None
          | FoundNothing => originalResolve request
          | FoundEntry resolution =>
              try_redirect originalResolve
                (String.append (resolvedPath resolution)
                               (sub_path request pkgName))
                request
          | FoundMember =>
              try_redirect originalResolve
                (String.append "undefined" (sub_path request pkgName))
                request
          end
    | None => originalResolve request
    end.

(** ** utils.ts *)

(** The inner loop of [mapFilesToWorkspaces]: the identity of the first
    workspace whose [path] is a prefix of [absolutePath], if any. *)
Fixpoint first_workspace (workspaces : list Workspace) (absolutePath : string)
    : option string :=
  match workspaces with
  | [] => None
  | ws :: rest =>
      if String.prefix (path ws) absolutePath then Some (identity ws)
      else first_workspace rest absolutePath
  end.

(** [join] is the function of that name of the module [path]. *)
Definition mapFilesToWorkspaces (join : string -> string -> string)
    (changedFiles : list string) (workspaces : list Workspace)
    (rootDir : string) : list string :=
  fold_left
    (fun changedWorkspaces file =>
       match first_workspace workspaces (join rootDir file) with
       | Some a => set_add a changedWorkspaces
       | None => changedWorkspaces
       end)
    changedFiles [].

(** [s.split(sep)] for a separator of one character. *)
Fixpoint split_on (sep : ascii) (s : string) : list string :=
  match s with
  | EmptyString => [""]
  | String c s' =>
      let parts := split_on sep s' in
      if Ascii.eqb c sep then "" :: parts
      else match parts with
           | p :: ps => String c p :: ps
           | [] => [String c ""]
           end
  end.

(** [trim] is [String.prototype.trim]. *)
Definition parseFilter (trim : string -> string) (filterArg : option string)
    : option (list string) :=
  match filterArg with
  | None => None
  | Some s =>
      if String.eqb s "" then None
      else Some (filter (fun f => negb (String.eqb f ""))
                        (map trim (split_on "," s)))
  end.

(** ** The command-line entry point: the filter of a run *)

(** What the actions of [spinx build] and [spinx run] do between the
    construction of the runner and the call of [runAll]: they return early
    when [--since] finds no changed workspace, and otherwise pass a
    filter. *)
Inductive Selection : Type :=
| NothingToDo
| RunWith (filter_ : option (list string)).

(** [filterOption] is [options.filter]; [changedFiles] is what
    [getChangedFiles] returned when [options.since] is given. *)
Definition selectFilter (trim : string -> string)
    (join : string -> string -> string) (config : spinxConfig) (graph : Graph)
    (rootDir : string) (filterOption : option string)
    (changedFiles : option (list string)) : Result Selection :=
  let filter_ := parseFilter trim filterOption in
  match changedFiles with
  | None => Ok (RunWith filter_)
  | Some files =>
      let changedWorkspaces :=
        mapFilesToWorkspaces join files (workspace config) rootDir in
      if Nat.eqb (length changedWorkspaces) 0 then Ok NothingToDo
      else
        affected <- getAffected graph changedWorkspaces ;;
        Ok (RunWith (Some affected))
  end.

(* ================================================================== *)
(** * Part II: vocabulary of the specification                         *)
(* ================================================================== *)

(** [depends g a b]: the node [a] of the graph lists [b] among its
    dependencies. *)
Definition depends (g : Graph) (a b : string) : Prop :=
  exists node, map_get a g = Some node /\ In b (dependencies node).

(** [dependent_of g a b]: the node [a] lists [b] among its dependents. *)
Definition dependent_of (g : Graph) (a b : string) : Prop :=
  exists node, map_get a g = Some node /\ In b (dependents node).

Definition acyclic (g : Graph) : Prop :=
  forall a, ~ clos_trans string (depends g) a a.

(** Every declared dependency is the key of a node. *)
Definition deps_known (g : Graph) : Prop :=
  forall a b, depends g a b -> In b (map_keys g).

(** [before l b a]: [b] occurs in [l] strictly before an occurrence
    of [a]. *)
Definition before (l : list string) (b a : string) : Prop :=
  exists l1 l2, l = l1 ++ a :: l2 /\ In b l1.

(** Every member of [l] comes after all its dependencies. *)
Definition topological (g : Graph) (l : list string) : Prop :=
  forall a b, In a l -> depends g a b -> before l b a.

(** [in_batch bs i a]: [a] is a member of the batch of index [i]. *)
Definition in_batch (bs : list (list string)) (i : nat) (a : string) : Prop :=
  exists b, nth_error bs i = Some b /\ In a b.

(** Consecutive elements of [l] are related by [R]. *)
Fixpoint chain (R : string -> string -> Prop) (l : list string) : Prop :=
  match l with
  | x :: ((y :: _) as t) => R x y /\ chain R t
  | _ => True
  end.

(** [p] is [x0; x1; ...; xn; x0] where each element depends on the
    next. *)
Definition valid_cycle (g : Graph) (p : list string) : Prop :=
  2 <= length p /\ chain (depends g) p /\ hd_error p = last (map Some p) None.

(** All dependents recorded in the graph, with repetitions. *)
Definition all_dependents (g : Graph) : list string :=
  concat (map (fun e => dependents (snd e)) g).

(** How many recorded dependents are not yet in [affected]: the measure
    that bounds the loop of [getAffected]. *)
Definition unreached (g : Graph) (affected : list string) : nat :=
  length (filter (fun d => negb (mem d affected)) (all_dependents g)).

(** The invariant of the loop of [getAffected] started from
    [changedAliases]. *)
Definition affected_inv (g : Graph) (changedAliases affected queue : list string)
    : Prop :=
  NoDup affected /\
  (forall a, In a queue -> In a affected) /\
  (forall a, In a changedAliases -> In a affected) /\
  (forall a, In a affected ->
     exists x, In x changedAliases /\
               clos_refl_trans string (dependent_of g) x a) /\
  (forall a, In a affected -> ~ In a queue ->
     forall b, dependent_of g a b -> In b affected).

(** [s] contains the dependents of each of its members. *)
Definition closed_under_dependents (g : Graph) (s : list string) : Prop :=
  forall a b, In a s -> dependent_of g a b -> In b s.

(** What [buildGraph] establishes: the keys are distinct, the two sets of
    a node have no repetition, and [dependents] holds exactly the reverse
    edges between nodes. *)
Definition graph_wf (g : Graph) : Prop :=
  NoDup (map_keys g) /\
  (forall a n, map_get a g = Some n ->
     NoDup (dependencies n) /\ NoDup (dependents n)) /\
  (forall a b, dependent_of g a b <-> depends g b a /\ In a (map_keys g)).

(** The dependencies of [a] that are not in [done]. *)
Definition remaining_deps (g : Graph) (done : list string) (a : string)
    : list string :=
  filter (fun d => negb (mem d done)) (getDependencies g a).

(** The invariant of the loop of [getTopologicalOrder]: [inDegree] counts
    the dependencies that are not yet in [result]; the keys with none left
    are exactly those in [result] or in [queue]; [result] is in
    dependency order. *)
Definition topo_inv (g : Graph) (inDegree : jsmap jsnum)
    (queue result : list string) : Prop :=
  NoDup (result ++ queue) /\
  (forall a, In a (result ++ queue) -> In a (map_keys g)) /\
  (forall a, In a (map_keys g) ->
     map_get a inDegree
     = Some (Num (Z.of_nat (length (remaining_deps g result a))))) /\
  (forall a, In a (map_keys g) ->
     (In a (result ++ queue) <-> remaining_deps g result a = [])) /\
  topological g result.

(** The invariant of the loop of [getParallelBatches]: the keys of
    [inDegree] are those not yet in a batch, with the number of their
    dependencies outside the batches; every member of a batch has its
    dependencies in earlier batches. *)
Definition batch_inv (g : Graph) (inDegree : jsmap Z)
    (batches : list (list string)) : Prop :=
  NoDup (map_keys inDegree) /\
  (forall a, In a (map_keys g) ->
     (In a (map_keys inDegree) <-> ~ In a (concat batches))) /\
  (forall a, In a (map_keys inDegree) -> In a (map_keys g)) /\
  (forall a, In a (map_keys inDegree) ->
     map_get a inDegree
     = Some (Z.of_nat (length (remaining_deps g (concat batches) a)))) /\
  (forall i a b, in_batch batches i a -> depends g a b ->
     exists j, j < i /\ in_batch batches j b).

(** Checkers: [ranked order g] holds when every dependency of a node
    stands before the node in [order], which rules out cycles;
    [deps_knownb g] decides [deps_known g]. *)
Fixpoint position (order : list string) (a : string) : nat :=
  match order with
  | [] => 0
  | x :: l => if String.eqb a x then 0 else S (position l a)
  end.

Definition ranked (order : list string) (g : Graph) : bool :=
  forallb
    (fun e =>
       forallb (fun b => Nat.ltb (position order b) (position order (fst e)))
               (dependencies (snd e)))
    g.

Definition deps_knownb (g : Graph) : bool :=
  forallb (fun e => forallb (fun b => mem b (map_keys g)) (dependencies (snd e))) g.

(** Vocabulary for [detectCycles].  A node is finished once it is
    visited and off the recursion stack. *)
Definition finished (st : DfsState) (x : string) : Prop :=
  In x (visited st) /\ ~ In x (recStack st).

(** The invariant of the traversal: [dfs_path] is the recursion stack, in
    order and without repetition, each of its elements depending on the
    next; finished nodes have finished dependencies and lie on no
    cycle. *)
Definition dfs_inv (g : Graph) (st : DfsState) : Prop :=
  NoDup (dfs_path st) /\
  (forall x, In x (recStack st) <-> In x (dfs_path st)) /\
  chain (depends g) (dfs_path st) /\
  (forall x, In x (recStack st) -> In x (visited st)) /\
  (forall x y, finished st x -> depends g x y -> finished st y) /\
  (forall x, finished st x -> ~ clos_trans string (depends g) x x).

(** What a completed call leaves unchanged. *)
Definition dfs_frame (st st' : DfsState) : Prop :=
  dfs_path st' = dfs_path st /\
  (forall x, In x (recStack st') <-> In x (recStack st)) /\
  (forall x, In x (visited st) -> In x (visited st')).

(** The number of keys not yet visited bounds the depth of the
    recursion. *)
Definition unvisited (g : Graph) (st : DfsState) : nat :=
  length (filter (fun k => negb (mem k (visited st))) (map_keys g)).

(** The specification of a call of [dfs] on [a], and of the loop over a
    list [deps] of dependencies: it returns [false] with the invariant
    restored and the nodes finished, or throws a valid cycle. *)
Definition dfs_post (g : Graph) (st : DfsState) (targets : list string)
    (o : DfsOutcome) : Prop :=
  match o with
  | DfsReturn false st' =>
      dfs_frame st st' /\ dfs_inv g st' /\
      forall d, In d targets -> finished st' d
  | DfsThrow cycle => valid_cycle g cycle
  | _ => False
  end.

(** Every alias that [dfs] can be called on: the keys and the declared
    dependencies. *)
Definition dfs_universe (g : Graph) : list string :=
  map_keys g ++ concat (map (fun e => dependencies (snd e)) g).

Definition unvisited_in (u : list string) (st : DfsState) : nat :=
  length (filter (fun k => negb (mem k (visited st))) u).

(** A call of [dfs] or a loop of it that does not exhaust the fuel and
    forgets no visited alias. *)
Definition dfs_total (st : DfsState) (o : DfsOutcome) : Prop :=
  match o with
  | DfsReturn _ st' => forall x, In x (visited st) -> In x (visited st')
  | DfsThrow _ => True
  | DfsFuel => False
  end.

(** [dependsb] decides [depends]. *)
Definition dependsb (g : Graph) (a b : string) : bool :=
  match map_get a g with
  | Some node => mem b (dependencies node)
  | None => false
  end.

(** The members of a batch that pass the filter of [runAll]. *)
Definition apply_filter (filter_ : option (list string)) (batch : list string)
    : list string :=
  match filter_ with
  | Some f => filter (fun alias => mem alias f) batch
  | None => batch
  end.

(** The aliases that [runAll] hands to [runTask] when it goes through
    all of [batches]. *)
Definition selected (filter_ : option (list string))
    (batches : list (list string)) : list string :=
  concat (map (apply_filter filter_) batches).

(** The object [obj] gives nothing for the command name [c]: it is
    missing, or it holds the empty string for [c], or it has no property
    [c] and [c] is none of the names that every object inherits. *)
Definition no_command (obj : option Commands) (c : string) : Prop :=
  match obj with
  | None => True
  | Some o =>
      match map_get c o with
      | Some s => s = ""
      | None => ~ In c Object_prototype_names
      end
  end.

(** The [TaskResult] of [runTask] for [alias] when the process executor
    ended with [outcome]. *)
Definition executed (h : Host) (alias : string) (outcome : option string)
    : TaskResult :=
  match outcome with
  | None => mkTaskResult alias true (elapsed h alias) None
  | Some e => mkTaskResult alias false (elapsed h alias) (Some e)
  end.

Definition task_ok (r : TaskRunner) (h : Host) (commandType a : string) : Prop :=
  exists res, runTask r h a commandType = Ok res /\ success res = true.

Definition task_failed (r : TaskRunner) (h : Host) (commandType a : string)
    : Prop :=
  exists res, runTask r h a commandType = Ok res /\ success res = false.

(** What [runAll] maintains about [results]: one entry per key, each the
    result of [runTask] for that key. *)
Definition results_sound (r : TaskRunner) (h : Host) (commandType : string)
    (results : jsmap TaskResult) : Prop :=
  NoDup (map_keys results) /\
  forall a res, map_get a results = Some res ->
                runTask r h a commandType = Ok res /\ task_workspace res = a.

(** [root] is a matching root of maximal length for [filePath]. *)
Definition longest_match (roots : list WorkspaceRoot) (filePath : string)
    (root : WorkspaceRoot) : Prop :=
  In root roots /\ String.prefix (root_path root) filePath = true /\
  forall other, In other roots ->
    String.prefix (root_path other) filePath = true ->
    String.length (root_path other) <= String.length (root_path root).

(** No root path is a prefix of the path of another root. *)
Definition no_overlap (roots : list WorkspaceRoot) : Prop :=
  forall pre r1 mid r2 post,
    roots = pre ++ r1 :: mid ++ r2 :: post ->
    String.prefix (root_path r1) (root_path r2) = false /\
    String.prefix (root_path r2) (root_path r1) = false.

(** Two declarations of [wss] carry the same non-empty alias or the same
    path. *)
Definition duplicate_declared (wss : list Workspace) : Prop :=
  exists pre w1 mid w2 post,
    wss = pre ++ w1 :: mid ++ w2 :: post /\
    ((exists a, alias w1 = Some a /\ alias w2 = Some a /\ a <> "") \/
     path w1 = path w2).

(** Two declarations of [wss] resolve to the same identity. *)
Definition same_identity (wss : list Workspace) : Prop :=
  exists pre w1 mid w2 post,
    wss = pre ++ w1 :: mid ++ w2 :: post /\ identity w1 = identity w2.

(** The next declaration to validate clashes with the sets collected so
    far, or two of the remaining declarations clash. *)
Definition clash (aliases paths : list string) (wss : list Workspace) : Prop :=
  (exists w, In w wss /\
     ((exists a, alias w = Some a /\ a <> "" /\ In a aliases) \/
      In (path w) paths)) \/
  duplicate_declared wss.

(** The version that the resolution map gives workspace [w] for
    package [p]. *)
Definition resolved_version (rmap : ResolutionMap) (w p : string)
    : option string :=
  match map_get w rmap with
  | Some table => option_map version (map_get p table)
  | None => None
  end.

(** Workspace [w] is listed under version [v] of package [p] in the map
    [allPackages] of [analyze]. *)
Definition listed_in (allPackages : jsmap (jsmap (list string)))
    (p v w : string) : Prop :=
  exists vm users,
    map_get p allPackages = Some vm /\ map_get v vm = Some users /\ In w users.

(** [allPackages] has one entry per package, one group per version of a
    package, and no empty group. *)
Definition packages_wf (allPackages : jsmap (jsmap (list string))) : Prop :=
  NoDup (map_keys allPackages) /\
  forall p vm, map_get p allPackages = Some vm ->
    NoDup (map_keys vm) /\
    forall v users, map_get v vm = Some users -> users <> [].

(** [allPackages] is the inverse of the resolution map. *)
Definition inverse_of (allPackages : jsmap (jsmap (list string)))
    (rmap : ResolutionMap) : Prop :=
  forall p v w, listed_in allPackages p v w <-> resolved_version rmap w p = Some v.


(** ** Example configurations *)

(** The scenario of the documentation: [@utils], [@orders] depending on
    it, [@cart] depending on both. *)
Definition ex_workspace (a : string) (deps : list string)
    (cmds : option Commands) : Workspace :=
  mkWorkspace (String.append "/repo/" a) (Some a) (Some deps) cmds.

Definition ex_config : spinxConfig :=
  mkConfig None
    [ex_workspace "@utils" [] (Some [("build", ""); ("lint", "")]);
     ex_workspace "@orders" ["@utils"] None;
     ex_workspace "@cart" ["@orders"; "@utils"] (Some [("build", "make")])]
    (Some [("build", "npm run build")]).

Definition ex_runner : TaskRunner :=
  mkRunner ex_config (buildGraph ex_config) "--require /repo/.spinx/resolver.js".

(** A host on which every command succeeds but [make]; a command that
    is no string is refused. *)
Definition ex_host : Host :=
  mkHost (fun cmd _ _ =>
            match cmd with
            | Own c => if String.eqb c "make" then Some "exit 2" else None
            | _ => Some "ERR_INVALID_ARG_TYPE"
            end)
         (fun _ => 7%Z) None.

(** A host on which [npm run build] fails. *)
Definition ex_host_failing : Host :=
  mkHost (fun cmd _ _ =>
            match cmd with
            | Own c => if String.eqb c "npm run build" then Some "exit 1"
                       else None
            | _ => Some "ERR_INVALID_ARG_TYPE"
            end)
         (fun _ => 7%Z) None.


(** An engine for the examples: indexing a member of [Object.prototype]
    by [caller] throws, by [name] gives a truthy value, and no other key
    is looked up in the examples. *)
Definition ex_member_index (member key : string) : MemberIndex :=
  if String.eqb key "caller" then MemberThrows
  else if String.eqb key "name" then MemberTruthy
  else MemberFalsy.

(** Two workspaces, the root of the second below the root of the
    first. *)
Definition ex_nested_config : spinxConfig :=
  mkConfig None
    [mkWorkspace "/repo/a" (Some "@a") None None;
     mkWorkspace "/repo/a/b" (Some "@ab") None None]
    None.

(** A resolution map in which the two workspaces hold different versions
    of [express]. *)
Definition ex_nested_resolutions : ResolutionMap :=
  [("@a", [("express", mkResolution "5.0.0" "/repo/a/node_modules/express")]);
   ("@ab", [("express",
             mkResolution "4.18.3" "/repo/a/b/node_modules/express")])].

(** Two workspaces with disjoint roots. *)
Definition ex_flat_config : spinxConfig :=
  mkConfig None
    [mkWorkspace "/repo/a" (Some "@a") None None;
     mkWorkspace "/repo/b" (Some "@b") None None]
    None.


(** The alias of the second workspace is the path of the first, which
    has no alias. *)
Definition ex_collision_config : spinxConfig :=
  mkConfig None
    [mkWorkspace "/repo/x" None None None;
     mkWorkspace "/repo/y" (Some "/repo/x") None None]
    None.

(** Two workspaces with the alias [@a]. *)
Definition ex_duplicate_config : spinxConfig :=
  mkConfig None
    [mkWorkspace "/repo/a" (Some "@a") None None;
     mkWorkspace "/repo/b" (Some "@a") None None]
    None.


(** A filter naming [@utils] and [@cart] but not [@orders], on which
    [@cart] depends. *)
Definition ex_filter : list string := ["@utils"; "@cart"].


(** The scenario of the documentation: [@orders] resolves [express] to
    5.0.0 and [@cart] resolves it to 4.18.3. *)
Definition ex_disk : Disk :=
  mkDisk
    (fun p =>
       if String.eqb p "/repo/@orders"
       then Some (mkPackageJson (Some [("express", "^5.0.0")]) None)
       else if String.eqb p "/repo/@cart"
       then Some (mkPackageJson (Some [("express", "^4.18.0");
                                       ("@utils", "workspace:*")]) None)
       else None)
    (fun p name _ =>
       if String.eqb name "express" then
         if String.eqb p "/repo/@orders"
         then Some ("5.0.0", "/repo/@orders/node_modules/express")
         else Some ("4.18.3", "/repo/@cart/node_modules/express")
       else None).



(** One workspace that depends on an alias nobody declares. *)
Definition ex_dangling_config : spinxConfig :=
  mkConfig None [mkWorkspace "/repo/a" (Some "A") (Some ["X"]) None] None.


(** [A] depends on the undeclared [X] and on [B], which depends on [A]. *)
Definition ex_stale_config : spinxConfig :=
  mkConfig None
    [mkWorkspace "/repo/a" (Some "A") (Some ["X"; "B"]) None;
     mkWorkspace "/repo/b" (Some "B") (Some ["A"]) None]
    None.

(** The same cycle, with the empty alias of a third workspace in the
    place of [X]: the validation finds the alias [""] declared, while the
    key of that workspace in the graph is its path. *)
Definition ex_stale_validated_config : spinxConfig :=
  mkConfig None
    [mkWorkspace "/repo/p" (Some "") None None;
     mkWorkspace "/repo/a" (Some "A") (Some [""; "B"]) None;
     mkWorkspace "/repo/b" (Some "B") (Some ["A"]) None]
    None.

(** Two workspaces that depend on the undeclared [X], and on nothing
    else. *)
Definition ex_shared_dangling_config : spinxConfig :=
  mkConfig None
    [mkWorkspace "/repo/a" (Some "A") (Some ["X"]) None;
     mkWorkspace "/repo/b" (Some "B") (Some ["X"]) None]
    None.

(** The cycle of the documentation: [@a] and [@b] depend on each
    other. *)
Definition ex_cyclic_config : spinxConfig :=
  mkConfig None
    [mkWorkspace "/repo/a" (Some "@a") (Some ["@b"]) None;
     mkWorkspace "/repo/b" (Some "@b") (Some ["@a"]) None]
    None.


(** [A] depends on the empty alias, which a workspace declares; that
    workspace is keyed by its path, so the dependency names no node
    although the validation accepts it. *)
Definition ex_empty_alias_config : spinxConfig :=
  mkConfig None
    [mkWorkspace "/repo/p" (Some "") None None;
     mkWorkspace "/repo/a" (Some "A") (Some [""]) None]
    None.

(** ** Vocabulary of Part IV *)

(** The declaration of [wss] that [buildGraph] keeps for the key [a]: the
    last one whose identity is [a]. *)
Definition declaration (wss : list Workspace) (a : string) : option Workspace :=
  find (fun ws => String.eqb (identity ws) a) (rev wss).

(** [a] is a node outside [done] all of whose dependencies are in
    [done]. *)
Definition ready (g : Graph) (done : list string) (a : string) : Prop :=
  In a (map_keys g) /\ ~ In a done /\ forall b, depends g a b -> In b done.

(** Every batch is non-empty and holds exactly the nodes that are ready
    once the batches before it are done. *)
Definition greedy (g : Graph) (batches : list (list string)) : Prop :=
  forall i batch, nth_error batches i = Some batch ->
    batch <> [] /\
    forall a, In a batch <-> ready g (concat (firstn i batches)) a.

(** The fields [workspace] and [dependencies] of the nodes of [m'] are
    those of [m]. *)
Definition same_fields (m m' : Graph) : Prop :=
  forall x,
    option_map node_workspace (map_get x m')
    = option_map node_workspace (map_get x m) /\
    option_map dependencies (map_get x m')
    = option_map dependencies (map_get x m).

(** The alias that the validation records for a declaration: none when
    the alias is missing or empty. *)
Definition own_alias (ws : Workspace) : list string :=
  match alias ws with
  | Some a => if String.eqb a "" then [] else [a]
  | None => []
  end.

(** The non-empty aliases of the declarations, in order, with
    repetitions. *)
Definition declared_aliases (wss : list Workspace) : list string :=
  flat_map own_alias wss.

(** The alias [a] passes the filter of [runAll]. *)
Definition passes (filter_ : option (list string)) (a : string) : Prop :=
  match filter_ with
  | Some f => In a f
  | None => True
  end.

(** The character [c] occurs in [s]. *)
Fixpoint mentions (c : ascii) (s : string) : bool :=
  match s with
  | EmptyString => false
  | String c' s' => Ascii.eqb c' c || mentions c s'
  end.

(** [parent?.filename || process.cwd()] *)
Definition caller_path (cwd : string) (parentFilename : option string) : string :=
  match parentFilename with
  | Some f => if String.eqb f "" then cwd else f
  | None => cwd
  end.

(** The request is one that the hook does not look at. *)
Definition bypassed (request : string) : bool :=
  String.prefix "." request || String.prefix "/" request
  || String.prefix "node:" request.

(** What [analyze] records for package [p] in the table of a workspace
    with manifest [pkgJson]: the installed version and directory, when the
    merged dependencies declare [p] with a range outside the workspace
    protocol and the package is installed. *)
Definition expected_resolution (d : Disk) (ws : Workspace)
    (pkgJson : PackageJson) (p : string) : option Resolution :=
  match map_get p (spread (pkg_dependencies pkgJson)
                          (pkg_devDependencies pkgJson)) with
  | Some range =>
      if String.prefix "workspace:" range then None
      else match resolveInstalledVersion d (path ws) p range with
           | Some (ver, dir) => Some (mkResolution ver dir)
           | None => None
           end
  | None => None
  end.

(** Every workspace listed in [allPackages] satisfies [P]. *)
Definition users_satisfy (P : string -> Prop)
    (allPackages : jsmap (jsmap (list string))) : Prop :=
  forall p v w, listed_in allPackages p v w -> P w.

(** What an error of [validateWorkspaces] says about the declarations
    [wss]: two declarations with that alias, two with that path, a
    declared path that does not exist, a dependency of a declaration that
    is no declared alias. *)
Definition truthful (existsSync : string -> bool) (wss : list Workspace)
    (e : Error) : Prop :=
  match e with
  | DuplicateAlias a =>
      a <> "" /\
      exists pre w1 mid w2 post,
        wss = pre ++ w1 :: mid ++ w2 :: post /\
        alias w1 = Some a /\ alias w2 = Some a
  | DuplicatePath p =>
      exists pre w1 mid w2 post,
        wss = pre ++ w1 :: mid ++ w2 :: post /\ path w1 = p /\ path w2 = p
  | PathMissing p =>
      exists ws, In ws wss /\ path ws = p /\ existsSync p = false
  | UnknownAlias who dep =>
      exists ws, In ws wss /\ identity ws = who /\
                 In dep (dependsOn_list ws) /\ alias_declared wss dep = false
  | _ => False
  end.

(** The part of the invariant of [detectCycles] that survives a
    dependency naming no node: the stack is visited, finished aliases are
    nodes, their dependencies among the nodes are finished, and they lie
    on no cycle. *)
Definition dfs_safe (g : Graph) (st : DfsState) : Prop :=
  (forall x, In x (recStack st) -> In x (visited st)) /\
  (forall x, finished st x -> In x (map_keys g)) /\
  (forall x y, finished st x -> depends g x y -> In y (map_keys g) ->
               finished st y) /\
  (forall x, finished st x -> ~ clos_trans string (depends g) x x).

(** What a completed call leaves unchanged: nothing visited is forgotten
    and the nodes on the stack are the same. *)
Definition dfs_keeps (g : Graph) (st st' : DfsState) : Prop :=
  (forall x, In x (visited st) -> In x (visited st')) /\
  (forall x, In x (map_keys g) ->
             (In x (recStack st') <-> In x (recStack st))).

(** A call of [dfs], or the loop over [targets], either throws or returns
    [false] with the nodes among [targets] finished. *)
Definition dfs_sound (g : Graph) (st : DfsState) (targets : list string)
    (o : DfsOutcome) : Prop :=
  match o with
  | DfsReturn false st' =>
      dfs_keeps g st st' /\ dfs_safe g st' /\
      forall d, In d targets -> In d (map_keys g) -> finished st' d
  | DfsReturn true _ => False
  | DfsThrow _ => True
  | DfsFuel => False
  end.

(** The lookup of [pkg] under [ws] in [rmap] throws: [ws] is no property
    of [rmap] but the name of a member of [Object.prototype], and indexing
    that member by [pkg] throws. *)
Definition lookup_throws (member_index : string -> string -> MemberIndex)
    (rmap : ResolutionMap) (ws pkg : string) : Prop :=
  map_get ws rmap = None /\ In ws Object_prototype_names /\
  member_index ws pkg = MemberThrows.

(** The lookup of [pkg] under [ws] in [rmap] ends at an object of the
    engine: the table of [ws] has no property [pkg] but inherits one, or
    [ws] itself is only inherited and indexing that member by [pkg] gives
    a truthy value. *)
Definition finds_member (member_index : string -> string -> MemberIndex)
    (rmap : ResolutionMap) (ws pkg : string) : Prop :=
  (exists table, map_get ws rmap = Some table /\ map_get pkg table = None /\
                 In pkg Object_prototype_names) \/
  (map_get ws rmap = None /\ In ws Object_prototype_names /\
   member_index ws pkg = MemberTruthy).

(** No assignment that built [rmap] went to the key [__proto__]; such an
    assignment replaces the prototype of the object and adds no
    property. *)
Definition no_proto_key (rmap : ResolutionMap) : Prop :=
  ~ In "__proto__" (map_keys rmap) /\
  forall w table, map_get w rmap = Some table ->
                  ~ In "__proto__" (map_keys table).

(* ================================================================== *)
(** * Part III: properties                                             *)
(* ================================================================== *)

(** ** Containers *)

Lemma mem_In x s : mem x s = true <-> In x s.
Proof.
  unfold mem. rewrite existsb_exists. split.
  - intros (y & Hy & E). apply String.eqb_eq in E. now subst.
  - intros H. exists x. split; [assumption | apply String.eqb_refl].
Qed.

Lemma mem_false x s : mem x s = false <-> ~ In x s.
Proof.
  rewrite <- mem_In. destruct (mem x s); split; congruence.
Qed.

Lemma set_add_In x y s : In y (set_add x s) <-> y = x \/ In y s.
Proof.
  unfold set_add. destruct (mem x s) eqn:E.
  - apply mem_In in E. split; [now right | intros [-> | H]; assumption].
  - rewrite in_app_iff. simpl. intuition.
Qed.

Lemma set_add_NoDup x s : NoDup s -> NoDup (set_add x s).
Proof.
  intros H. unfold set_add. destruct (mem x s) eqn:E; [assumption |].
  apply mem_false in E. apply NoDup_app; [assumption | constructor; [easy | constructor] |].
  intros y Hy [<- | []]. contradiction.
Qed.

Lemma set_of_acc_In l : forall acc y,
  In y (fold_left (fun s x => set_add x s) l acc) <-> In y acc \/ In y l.
Proof.
  induction l as [| x l IH]; intros acc y; simpl.
  - intuition.
  - rewrite IH, set_add_In. intuition.
Qed.

Lemma set_of_In l y : In y (set_of l) <-> In y l.
Proof. unfold set_of. rewrite set_of_acc_In. simpl. intuition. Qed.

Lemma set_of_acc_NoDup l : forall acc,
  NoDup acc -> NoDup (fold_left (fun s x => set_add x s) l acc).
Proof.
  induction l as [| x l IH]; intros acc H; simpl; [assumption |].
  apply IH, set_add_NoDup, H.
Qed.

Lemma set_of_NoDup l : NoDup (set_of l).
Proof. apply set_of_acc_NoDup. constructor. Qed.

Lemma set_delete_In x y s : In y (set_delete x s) <-> In y s /\ y <> x.
Proof.
  unfold set_delete. rewrite filter_In. split.
  - intros [H E]. split; [assumption |]. intros ->.
    rewrite String.eqb_refl in E. discriminate.
  - intros [H N]. split; [assumption |].
    destruct (String.eqb_spec x y); [congruence | reflexivity].
Qed.

Section MapFacts.
Context {V : Type}.
Implicit Types (m : jsmap V) (k : string) (v : V).

Lemma map_get_In_keys k m : map_get k m <> None <-> In k (map_keys m).
Proof.
  induction m as [| [k' v'] m IH]; simpl.
  - intuition.
  - destruct (String.eqb_spec k k') as [-> | N].
    + split; [now left | discriminate].
    + rewrite IH. intuition congruence.
Qed.

Lemma map_get_Some_keys k v m : map_get k m = Some v -> In k (map_keys m).
Proof. intros H. apply map_get_In_keys. congruence. Qed.

Lemma map_get_None_keys k m : map_get k m = None <-> ~ In k (map_keys m).
Proof.
  rewrite <- map_get_In_keys. destruct (map_get k m); split; intros; try congruence.
  exfalso. apply H. discriminate.
Qed.

Lemma map_keys_get k m : In k (map_keys m) -> exists v, map_get k m = Some v.
Proof.
  intros H. apply map_get_In_keys in H.
  destruct (map_get k m) as [v |]; [now exists v | congruence].
Qed.

Lemma map_has_In k m : map_has k m = true <-> In k (map_keys m).
Proof.
  unfold map_has. rewrite <- map_get_In_keys.
  destruct (map_get k m); split; intros; congruence.
Qed.

Lemma map_get_In k v m : map_get k m = Some v -> In (k, v) m.
Proof.
  induction m as [| [k' v'] m IH]; simpl; [discriminate |].
  destruct (String.eqb_spec k k') as [-> | N].
  - intros [= ->]. now left.
  - intros H. right. now apply IH.
Qed.

Lemma map_In_get k v m : NoDup (map_keys m) -> In (k, v) m -> map_get k m = Some v.
Proof.
  induction m as [| [k' v'] m IH]; simpl; [easy |].
  intros Hnd [E | H].
  - injection E as -> ->. now rewrite String.eqb_refl.
  - inversion Hnd as [| ? ? Hnot Hnd']. subst.
    destruct (String.eqb_spec k k') as [-> | N].
    + exfalso. apply Hnot. change k' with (fst (k', v)). now apply in_map.
    + now apply IH.
Qed.

Lemma map_get_set_eq k v m : map_get k (map_set k v m) = Some v.
Proof.
  induction m as [| [k' v'] m IH]; simpl.
  - now rewrite String.eqb_refl.
  - destruct (String.eqb_spec k k') as [-> | N]; simpl.
    + now rewrite String.eqb_refl.
    + destruct (String.eqb_spec k k'); [contradiction | assumption].
Qed.

Lemma map_get_set_neq k k' v m : k' <> k -> map_get k' (map_set k v m) = map_get k' m.
Proof.
  intros N. induction m as [| [k0 v0] m IH]; simpl.
  - destruct (String.eqb_spec k' k); [contradiction | reflexivity].
  - destruct (String.eqb_spec k k0) as [-> | N0]; simpl.
    + destruct (String.eqb_spec k' k0); [contradiction | reflexivity].
    + now rewrite IH.
Qed.

Lemma map_get_set k k' v m :
  map_get k' (map_set k v m) = if String.eqb k' k then Some v else map_get k' m.
Proof.
  destruct (String.eqb_spec k' k) as [-> | N].
  - apply map_get_set_eq.
  - now apply map_get_set_neq.
Qed.

Lemma map_keys_set k v m :
  map_keys (map_set k v m) = if mem k (map_keys m) then map_keys m else map_keys m ++ [k].
Proof.
  induction m as [| [k' v'] m IH]; simpl; [reflexivity |].
  destruct (String.eqb_spec k k') as [-> | N]; simpl; [reflexivity |].
  unfold map_keys in *. rewrite IH. unfold mem.
  now destruct (existsb (String.eqb k) (map fst m)).
Qed.

Lemma map_keys_set_In k k' v m :
  In k' (map_keys (map_set k v m)) <-> k' = k \/ In k' (map_keys m).
Proof.
  rewrite map_keys_set. destruct (mem k (map_keys m)) eqn:E.
  - apply mem_In in E. split; [now right | intros [-> | H]; assumption].
  - rewrite in_app_iff. simpl. intuition.
Qed.

Lemma map_keys_set_present k v m :
  In k (map_keys m) -> map_keys (map_set k v m) = map_keys m.
Proof. intros H. rewrite map_keys_set. apply mem_In in H. now rewrite H. Qed.

Lemma map_keys_set_NoDup k v m : NoDup (map_keys m) -> NoDup (map_keys (map_set k v m)).
Proof.
  intros H. rewrite map_keys_set. destruct (mem k (map_keys m)) eqn:E; [assumption |].
  apply mem_false in E. apply NoDup_app; [assumption | constructor; [easy | constructor] |].
  intros y Hy [<- | []]. contradiction.
Qed.

Lemma map_length_set_present k v m :
  In k (map_keys m) -> length (map_set k v m) = length m.
Proof.
  intros H. apply map_keys_set_present with (v := v) in H.
  unfold map_keys in H. rewrite <- (length_map fst), H. apply length_map.
Qed.

Lemma map_keys_delete k m : map_keys (map_delete k m) = set_delete k (map_keys m).
Proof.
  unfold map_keys, map_delete, set_delete.
  induction m as [| [k' v'] m IH]; simpl; [reflexivity |].
  destruct (String.eqb k k'); simpl; now rewrite IH.
Qed.

Lemma map_get_delete k k' m :
  map_get k' (map_delete k m) = if String.eqb k' k then None else map_get k' m.
Proof.
  unfold map_delete. induction m as [| [k0 v0] m IH]; simpl.
  - now destruct (String.eqb k' k).
  - destruct (String.eqb_spec k k0) as [-> | N]; simpl.
    + rewrite IH. destruct (String.eqb_spec k' k0); reflexivity.
    + rewrite IH. destruct (String.eqb_spec k' k0) as [-> | N'].
      * destruct (String.eqb_spec k0 k); [congruence | reflexivity].
      * reflexivity.
Qed.

End MapFacts.

(** ** Command resolution (config.ts, tasks.ts) *)

Lemma or_else_falsy a b : truthy a = false -> or_else a b = b.
Proof. unfold or_else. now intros ->. Qed.

Lemma or_else_truthy a b : truthy a = true -> or_else a b = a.
Proof. unfold or_else. now intros ->. Qed.

Lemma truthy_or_else a b : truthy (or_else a b) = truthy a || truthy b.
Proof.
  unfold or_else. destruct (truthy a) eqn:E; [now rewrite E | reflexivity].
Qed.

Lemma opt_index_falsy obj c :
  truthy (opt_index obj c) = false <-> no_command obj c.
Proof.
  unfold opt_index, no_command, js_get. destruct obj as [o |]; [| now split].
  destruct (map_get c o) as [s |]; cbn [truthy].
  - rewrite negb_false_iff. apply String.eqb_eq.
  - rewrite <- mem_false.
    destruct (mem c Object_prototype_names); cbn [truthy]; split; congruence.
Qed.

Lemma getCommand_falsy ws commandType config :
  truthy (opt_index (command ws) commandType) = false ->
  truthy (opt_index (defaults config) commandType) = false ->
  truthy (getCommand ws commandType config) = false.
Proof.
  intros H1 H2. unfold getCommand. now rewrite or_else_falsy.
Qed.

Lemma runTask_no_command r h alias commandType ws :
  getWorkspace (runner_graph r) alias = Some ws ->
  truthy (getCommand ws commandType (runner_config r)) = false ->
  runTask r h alias commandType = Ok (mkTaskResult alias true 0 None).
Proof.
  intros Hws Hc. unfold runTask. rewrite Hws. cbv zeta. now rewrite Hc.
Qed.

Lemma runTask_command r h alias commandType ws :
  getWorkspace (runner_graph r) alias = Some ws ->
  truthy (getCommand ws commandType (runner_config r)) = true ->
  runTask r h alias commandType
  = Ok (executed h alias
          (execa h (getCommand ws commandType (runner_config r)) (path ws)
                 (task_env r h))).
Proof.
  intros Hws Hc. unfold runTask, executed. rewrite Hws. cbv zeta. rewrite Hc.
  cbn [negb].
  now destruct (execa h (getCommand ws commandType (runner_config r)) (path ws)
                      (task_env r h)).
Qed.

(** C10.  When the command override of a workspace maps the command name
    to the empty string, [getCommand] yields whatever the shared defaults
    give for that name (the lookup tests truthiness, not presence of the
    key); and when the lookup gives nothing or the empty string at both
    levels, [runTask] returns a successful [TaskResult] of duration [0],
    for any process executor.  The lookup follows the prototype chain, so
    a level gives nothing exactly when its object is missing, when it
    holds the empty string for the name, or when it has no property of
    that name and the name is none of the members that every object
    inherits.  As soon as one level gives something, [runTask] hands the
    value found to the process executor and returns its outcome, and the
    value is the one of the override whenever the override gives
    something. *)
Theorem getCommand_empty_override_falls_through :
  forall (r : TaskRunner) (h : Host) (alias commandType : string) (ws : Workspace),
    getWorkspace (runner_graph r) alias = Some ws ->
    (opt_index (command ws) commandType = Own "" ->
     getCommand ws commandType (runner_config r)
       = opt_index (defaults (runner_config r)) commandType) /\
    (truthy (opt_index (command ws) commandType) = false ->
     truthy (opt_index (defaults (runner_config r)) commandType) = false ->
     runTask r h alias commandType = Ok (mkTaskResult alias true 0 None)) /\
    (forall obj, truthy (opt_index obj commandType) = false <->
                 no_command obj commandType) /\
    (truthy (opt_index (command ws) commandType) = true \/
     truthy (opt_index (defaults (runner_config r)) commandType) = true ->
     runTask r h alias commandType
     = Ok (executed h alias
             (execa h (getCommand ws commandType (runner_config r)) (path ws)
                    (task_env r h)))) /\
    (truthy (opt_index (command ws) commandType) = true ->
     getCommand ws commandType (runner_config r)
       = opt_index (command ws) commandType).
Proof.
  intros r h alias commandType ws Hws.
  split; [| split; [| split; [| split]]].
  - intros E. unfold getCommand. rewrite E. reflexivity.
  - intros H1 H2. eapply runTask_no_command; [eassumption |].
    now apply getCommand_falsy.
  - intros obj. apply opt_index_falsy.
  - intros Hn. apply runTask_command; [assumption |].
    unfold getCommand. rewrite truthy_or_else.
    destruct Hn as [-> | ->]; [reflexivity | apply orb_true_r].
  - intros Ht. unfold getCommand. now apply or_else_truthy.
Qed.

Lemma getCommand_empty_override_falls_through_witness :
  getCommand (ex_workspace "@utils" [] (Some [("build", ""); ("lint", "")]))
             "build" ex_config = Own "npm run build" /\
  runTask ex_runner ex_host "@utils" "lint"
    = Ok (mkTaskResult "@utils" true 0 None).
Proof.
  split.
  - exact (eq_trans
             (proj1 (getCommand_empty_override_falls_through
                       ex_runner ex_host "@utils" "build"
                       (ex_workspace "@utils" [] (Some [("build", ""); ("lint", "")]))
                       eq_refl) eq_refl)
             eq_refl).
  - exact (proj1 (proj2 (getCommand_empty_override_falls_through
                           ex_runner ex_host "@utils" "lint"
                           (ex_workspace "@utils" []
                              (Some [("build", ""); ("lint", "")]))
                           eq_refl))
                 eq_refl eq_refl).
Defined.

(** A command name that every object inherits is found although no
    level declares it: neither the commands of [@utils] nor the defaults
    have a property [toString], the lookup yields the function
    [Object.prototype.toString] at the first level, and [runTask] hands it
    to the process executor instead of skipping the workspace; on a host
    that refuses a command that is no string the result is a failure. *)
Lemma getCommand_finds_inherited_member :
  map_get "toString" [("build", ""); ("lint", "")] = None /\
  defaults ex_config = Some [("build", "npm run build")] /\
  map_get "toString" [("build", "npm run build")] = None /\
  getCommand (ex_workspace "@utils" [] (Some [("build", ""); ("lint", "")]))
             "toString" ex_config = Inherited "toString" /\
  (forall h : Host,
     runTask ex_runner h "@utils" "toString"
     = Ok (executed h "@utils"
             (execa h (Inherited "toString") "/repo/@utils"
                    (task_env ex_runner h)))) /\
  runTask ex_runner ex_host "@utils" "toString"
    = Ok (mkTaskResult "@utils" false 7 (Some "ERR_INVALID_ARG_TYPE")) /\
  runTask ex_runner ex_host "@utils" "toString"
    <> Ok (mkTaskResult "@utils" true 0 None).
Proof.
  split; [reflexivity |]. split; [reflexivity |]. split; [reflexivity |].
  split; [reflexivity |]. split.
  - intros h. apply (runTask_command ex_runner h "@utils" "toString"
                       (ex_workspace "@utils" []
                          (Some [("build", ""); ("lint", "")])));
      reflexivity.
  - split; [reflexivity | discriminate].
Qed.

(** ** The resolver hook (resolution.ts) *)

Lemma prefix_empty b : String.prefix "" b = true.
Proof. now destruct b. Qed.

Lemma prefix_comparable : forall f a b,
  String.prefix a f = true -> String.prefix b f = true ->
  String.prefix a b = true \/ String.prefix b a = true.
Proof.
  induction f as [| c f IH]; intros a b Ha Hb.
  - destruct a; simpl in *; [left; apply prefix_empty | discriminate].
  - destruct a as [| ca a]; [left; apply prefix_empty |].
    destruct b as [| cb b]; [right; apply prefix_empty |].
    simpl in *.
    destruct (ascii_dec ca c) as [-> |]; [| discriminate].
    destruct (ascii_dec cb c) as [-> |]; [| discriminate].
    destruct (ascii_dec c c); [| contradiction].
    now apply IH.
Qed.

Lemma findWorkspace_first roots filePath a :
  findWorkspace roots filePath = Some a <->
  exists pre ws post,
    roots = pre ++ ws :: post /\
    String.prefix (root_path ws) filePath = true /\
    root_alias ws = a /\
    Forall (fun w => String.prefix (root_path w) filePath = false) pre.
Proof.
  induction roots as [| r roots IH]; simpl.
  - split; [discriminate |]. intros (pre & ws & post & E & _). now destruct pre.
  - destruct (String.prefix (root_path r) filePath) eqn:Hr.
    + split.
      * intros [= <-]. exists [], r, roots. repeat split; auto.
      * intros (pre & ws & post & E & Hp & Ha & Hpre).
        destruct pre as [| r' pre]; simpl in E; injection E as -> E.
        -- now subst.
        -- inversion Hpre; subst. congruence.
    + rewrite IH. split.
      * intros (pre & ws & post & -> & Hp & Ha & Hpre).
        exists (r :: pre), ws, post. repeat split; auto.
      * intros (pre & ws & post & E & Hp & Ha & Hpre).
        destruct pre as [| r' pre]; simpl in E; injection E as -> E.
        -- congruence.
        -- inversion Hpre; subst. now exists pre, ws, post.
Qed.

Lemma findWorkspace_none roots filePath :
  findWorkspace roots filePath = None <->
  Forall (fun w => String.prefix (root_path w) filePath = false) roots.
Proof.
  induction roots as [| r roots IH]; simpl.
  - split; auto.
  - destruct (String.prefix (root_path r) filePath) eqn:Hr.
    + split; [discriminate |]. intros H. inversion H; congruence.
    + rewrite IH. split; [now constructor | intros H; now inversion H].
Qed.

(** C3, as the code has it.  [findWorkspace] returns the alias of the
    first workspace root, in declaration order, whose path is a string
    prefix of the caller's file path, and nothing when no root is.  When
    no root path is a prefix of another, that root is the only match and
    so the longest one. *)
Theorem findWorkspace_first_match :
  forall (roots : list WorkspaceRoot) (filePath : string),
    (forall a, findWorkspace roots filePath = Some a <->
       exists pre ws post,
         roots = pre ++ ws :: post /\
         String.prefix (root_path ws) filePath = true /\
         root_alias ws = a /\
         Forall (fun w => String.prefix (root_path w) filePath = false) pre) /\
    (findWorkspace roots filePath = None <->
       Forall (fun w => String.prefix (root_path w) filePath = false) roots) /\
    (no_overlap roots ->
     forall a, findWorkspace roots filePath = Some a ->
       exists ws, longest_match roots filePath ws /\ root_alias ws = a).
Proof.
  intros roots filePath. split; [| split].
  - intros a. apply findWorkspace_first.
  - apply findWorkspace_none.
  - intros Hno a Ha. apply findWorkspace_first in Ha.
    destruct Ha as (pre & ws & post & E & Hp & Hal & Hpre).
    exists ws. split; [| assumption]. repeat split.
    + subst roots. apply in_elt.
    + assumption.
    + intros other Hin Hother. subst roots.
      apply in_app_or in Hin. destruct Hin as [Hin | [<- | Hin]].
      * rewrite Forall_forall in Hpre. apply Hpre in Hin. congruence.
      * apply le_n.
      * apply in_split in Hin. destruct Hin as (mid & post' & ->).
        destruct (Hno pre ws mid other post' eq_refl) as [H1 H2].
        destruct (prefix_comparable _ _ _ Hp Hother); congruence.
Qed.

Lemma findWorkspace_first_match_witness :
  findWorkspace (workspaceRoots ex_flat_config) "/repo/b/src/index.js"
    = Some "@b" /\
  exists ws, longest_match (workspaceRoots ex_flat_config)
                           "/repo/b/src/index.js" ws /\
             root_alias ws = "@b".
Proof.
  split; [reflexivity |].
  apply (proj2 (proj2 (findWorkspace_first_match
                         (workspaceRoots ex_flat_config)
                         "/repo/b/src/index.js"))).
  - intros pre r1 mid r2 post E.
    destruct pre as [| p0 pre]; simpl in E.
    + injection E as <- E. destruct mid as [| m0 mid]; simpl in E.
      * injection E as <- E. split; reflexivity.
      * injection E as _ E. destruct mid; discriminate.
    + injection E as _ E. destruct pre as [| p1 pre]; simpl in E.
      * injection E as _ E. destruct mid; discriminate.
      * injection E as _ E. destruct pre; discriminate.
  - reflexivity.
Defined.

(** C3 as stated fails: with the roots [/repo/a] and [/repo/a/b] declared
    in this order, a file below [/repo/a/b] is attributed to [@a], whose
    root is not the longest matching one, and its import of [express] is
    redirected to the copy resolved for [@a]. *)
Lemma findWorkspace_not_longest_prefix :
  findWorkspace (workspaceRoots ex_nested_config) "/repo/a/b/x.js" = Some "@a" /\
  (forall member_index,
     resolveFilename member_index (fun file => Some file) ex_nested_resolutions
                     (workspaceRoots ex_nested_config) "/"
                     "express/lib/router" (Some "/repo/a/b/x.js")
       = Some "/repo/a/node_modules/express/lib/router") /\
  ~ (exists ws, longest_match (workspaceRoots ex_nested_config)
                              "/repo/a/b/x.js" ws /\
                root_alias ws = "@a").
Proof.
  split; [reflexivity | split; [intros member_index; reflexivity |]].
  intros (ws & (Hin & _ & Hmax) & Hal).
  specialize (Hmax (mkRoot "@ab" "/repo/a/b")).
  simpl in Hin. destruct Hin as [<- | [<- | []]].
  - assert (H : String.length "/repo/a/b" <= String.length "/repo/a").
    { apply Hmax; [simpl; auto | reflexivity]. }
    simpl in H. lia.
  - discriminate.
Qed.

(** ** Validation of the declarations (config.ts) *)

Lemma validate_deps_kind all ws deps e :
  validate_deps all ws deps = Err e -> exists d, e = UnknownAlias (identity ws) d /\ In d deps /\ alias_declared all d = false.
Proof.
  induction deps as [| d deps IH]; simpl; [discriminate |].
  destruct (alias_declared all d) eqn:E.
  - intros H. destruct (IH H) as (d' & -> & Hin & Hd). exists d'. auto.
  - intros [= <-]. exists d. auto.
Qed.

Lemma validate_deps_ok all ws deps :
  (forall d, In d deps -> alias_declared all d = true) ->
  validate_deps all ws deps = Ok tt.
Proof.
  induction deps as [| d deps IH]; simpl; intros H; [reflexivity |].
  rewrite (H d) by now left. apply IH. intros d' Hd'. apply H. now right.
Qed.

Lemma validate_one_ok existsSync all ws aliases paths aliases' paths' :
  validate_one existsSync all ws (aliases, paths) = Ok (aliases', paths') ->
  (forall a, alias ws = Some a -> a <> "" -> ~ In a aliases /\ In a aliases') /\
  (forall a, In a aliases -> In a aliases') /\
  ~ In (path ws) paths /\ In (path ws) paths' /\
  (forall p, In p paths -> In p paths').
Proof.
  unfold validate_one.
  assert (Hpaths : forall al,
    (if mem (path ws) paths then Err (DuplicatePath (path ws))
     else if negb (existsSync (path ws)) then Err (PathMissing (path ws))
     else _ <- match dependsOn ws with
               | Some deps => validate_deps all ws deps
               | None => Ok tt
               end ;; Ok (al, set_add (path ws) paths))
    = Ok (aliases', paths') ->
    al = aliases' /\ ~ In (path ws) paths /\ In (path ws) paths' /\
    (forall p, In p paths -> In p paths')).
  { intros al. destruct (mem (path ws) paths) eqn:Ep; [discriminate |].
    destruct (existsSync (path ws)); simpl; [| discriminate].
    destruct (match dependsOn ws with
              | Some deps => validate_deps all ws deps
              | None => Ok tt
              end); simpl; [| discriminate].
    intros [= <- <-]. apply mem_false in Ep.
    repeat split; auto.
    - apply set_add_In. now left.
    - intros p Hp. apply set_add_In. now right. }
  destruct (alias ws) as [a |] eqn:Ea.
  - destruct (String.eqb_spec a "") as [-> | Na]; simpl.
    + intros H. apply Hpaths in H. destruct H as (<- & H2 & H3 & H4).
      split; [intros a0 E N; congruence | auto].
    + destruct (mem a aliases) eqn:Em; simpl; [discriminate |].
      intros H. apply Hpaths in H. destruct H as (<- & H2 & H3 & H4).
      apply mem_false in Em.
      split; [| split; [| auto]].
      * intros a0 [= <-] _. split; [assumption |]. apply set_add_In. now left.
      * intros a0 Ha0. apply set_add_In. now right.
  - simpl. intros H. apply Hpaths in H. destruct H as (<- & H2 & H3 & H4).
    split; [intros a0 E N; congruence | auto].
Qed.

Lemma validate_one_kind existsSync all ws aliases paths e :
  existsSync (path ws) = true ->
  (forall d, In d (dependsOn_list ws) -> alias_declared all d = true) ->
  validate_one existsSync all ws (aliases, paths) = Err e ->
  exists s, e = DuplicateAlias s \/ e = DuplicatePath s.
Proof.
  intros Hex Hdeps. unfold validate_one. rewrite Hex. simpl.
  assert (Hd : match dependsOn ws with
               | Some deps => validate_deps all ws deps
               | None => Ok tt
               end = Ok tt).
  { unfold dependsOn_list in Hdeps. destruct (dependsOn ws); [| reflexivity].
    now apply validate_deps_ok. }
  rewrite Hd. simpl.
  destruct (alias ws) as [a |].
  - destruct (String.eqb a ""); simpl.
    + destruct (mem (path ws) paths); [| discriminate].
      intros [= <-]. eauto.
    + destruct (mem a aliases); simpl.
      * intros [= <-]. eauto.
      * destruct (mem (path ws) paths); [| discriminate].
        intros [= <-]. eauto.
  - simpl. destruct (mem (path ws) paths); [| discriminate].
    intros [= <-]. eauto.
Qed.

Lemma duplicate_declared_nil : ~ duplicate_declared [].
Proof. intros (pre & w1 & mid & w2 & post & E & _). now destruct pre. Qed.

Lemma validate_loop_clash existsSync all : forall wss aliases paths,
  clash aliases paths wss ->
  exists e, validate_loop existsSync all wss (aliases, paths) = Err e.
Proof.
  induction wss as [| ws rest IH]; intros aliases paths Hc.
  - destruct Hc as [(w & [] & _) | Hd]. now apply duplicate_declared_nil in Hd.
  - cbn [validate_loop].
    destruct (validate_one existsSync all ws (aliases, paths))
      as [[aliases' paths'] | e] eqn:E; cbn [bind].
    2: { now exists e. }
    apply IH. apply validate_one_ok in E.
    destruct E as (Hal & Hmono & Hnp & Hp & Hpmono).
    destruct Hc as [(w & [<- | Hin] & Hw) | (pre & w1 & mid & w2 & post & Ew & Hdup)].
    + exfalso. destruct Hw as [(a & Ea & Na & Hina) | Hinp]; [| contradiction].
      destruct (Hal a Ea Na). contradiction.
    + left. exists w. split; [assumption |].
      destruct Hw as [(a & Ea & Na & Hina) | Hinp]; [left | right]; eauto.
    + destruct pre as [| p0 pre]; simpl in Ew; injection Ew as <- ->.
      * left. exists w2. split; [apply in_elt |].
        destruct Hdup as [(a & E1 & E2 & Na) | Epath].
        -- left. exists a. repeat split; auto. now apply (Hal a E1 Na).
        -- right. now rewrite <- Epath.
      * right. now exists pre, w1, mid, w2, post.
Qed.

Lemma validate_loop_kind existsSync all : forall wss st e,
  (forall ws, In ws wss -> existsSync (path ws) = true) ->
  (forall ws d, In ws wss -> In d (dependsOn_list ws) ->
                alias_declared all d = true) ->
  validate_loop existsSync all wss st = Err e ->
  exists s, e = DuplicateAlias s \/ e = DuplicatePath s.
Proof.
  induction wss as [| ws rest IH]; intros [aliases paths] e Hex Hdeps;
    cbn [validate_loop].
  - discriminate.
  - destruct (validate_one existsSync all ws (aliases, paths)) as [st' | e'] eqn:E;
      cbn [bind].
    + apply IH; intros; [apply Hex | eapply Hdeps]; simpl; eauto.
    + intros [= <-]. eapply validate_one_kind; [| | exact E].
      * apply Hex. now left.
      * intros d Hd. apply (Hdeps ws d); [now left | assumption].
Qed.

(** C7, as the code has it.  When two declarations carry the same
    non-empty alias, or the same path, [validateWorkspaces] raises an
    error and so does the construction of the graph that follows it; the
    error is the duplicate-alias or the duplicate-path error whenever
    every workspace path exists and every [dependsOn] entry is the alias
    of a workspace (so that no other check fails first). *)
Theorem validateWorkspaces_rejects_duplicates :
  forall (existsSync : string -> bool) (config : spinxConfig),
    duplicate_declared (workspace config) ->
    (exists e, validateWorkspaces existsSync config = Err e /\
               loadGraph existsSync config = Err e) /\
    ((forall ws, In ws (workspace config) -> existsSync (path ws) = true) ->
     (forall ws d, In ws (workspace config) -> In d (dependsOn_list ws) ->
                   alias_declared (workspace config) d = true) ->
     exists s,
       loadGraph existsSync config = Err (DuplicateAlias s) \/
       loadGraph existsSync config = Err (DuplicatePath s)).
Proof.
  intros existsSync config Hdup.
  destruct (validate_loop_clash existsSync (workspace config)
              (workspace config) [] [] (or_intror Hdup)) as [e He].
  assert (Hload : loadGraph existsSync config = Err e).
  { unfold loadGraph, validateWorkspaces. now rewrite He. }
  split.
  - exists e. split; assumption.
  - intros Hex Hdeps.
    destruct (validate_loop_kind existsSync (workspace config)
                (workspace config) ([], []) e Hex Hdeps He) as [s [E | E]];
      exists s; rewrite Hload, E; auto.
Qed.

Lemma validateWorkspaces_rejects_duplicates_witness :
  duplicate_declared (workspace ex_duplicate_config) /\
  loadGraph (fun _ => true) ex_duplicate_config = Err (DuplicateAlias "@a").
Proof.
  assert (Hdup : duplicate_declared (workspace ex_duplicate_config)).
  { exists [], (mkWorkspace "/repo/a" (Some "@a") None None), [],
           (mkWorkspace "/repo/b" (Some "@a") None None), [].
    split; [reflexivity |]. left. exists "@a". repeat split. discriminate. }
  split; [exact Hdup |].
  destruct (proj2 (validateWorkspaces_rejects_duplicates
                     (fun _ => true) ex_duplicate_config Hdup)
                  (fun _ _ => eq_refl)) as [s Hs].
  - intros ws d [<- | [<- | []]] [].
  - reflexivity.
Defined.

(** C7 as stated fails: the second declaration has the path of the first
    as its alias, both resolve to the identity [/repo/x], the validation
    accepts them and the graph is built, with a single node. *)
Lemma alias_path_collision_accepted :
  same_identity (workspace ex_collision_config) /\
  validateWorkspaces (fun _ => true) ex_collision_config = Ok tt /\
  loadGraph (fun _ => true) ex_collision_config
    = Ok [("/repo/x",
           mkNode (mkWorkspace "/repo/y" (Some "/repo/x") None None) [] [])].
Proof.
  split; [| split; reflexivity].
  exists [], (mkWorkspace "/repo/x" None None None), [],
         (mkWorkspace "/repo/y" (Some "/repo/x") None None), [].
  split; reflexivity.
Qed.

(** ** getParallelBatches: the batches are made of keys, without repetition *)

Lemma batch_init_acc_keys : forall (g : Graph) (acc : jsmap Z) k,
  In k (map_keys
          (fold_left
             (fun inDegree entry =>
                map_set (fst entry)
                  (Z.of_nat (length (dependencies (snd entry)))) inDegree)
             g acc))
  <-> In k (map_keys acc) \/ In k (map_keys g).
Proof.
  induction g as [| [a n] g IH]; intros acc k; simpl.
  - intuition.
  - rewrite IH, map_keys_set_In. intuition.
Qed.

Lemma batch_init_acc_NoDup : forall (g : Graph) (acc : jsmap Z),
  NoDup (map_keys acc) ->
  NoDup (map_keys
           (fold_left
              (fun inDegree entry =>
                 map_set (fst entry)
                   (Z.of_nat (length (dependencies (snd entry)))) inDegree)
              g acc)).
Proof.
  induction g as [| [a n] g IH]; intros acc H; simpl; [assumption |].
  apply IH, map_keys_set_NoDup, H.
Qed.

Lemma batch_init_keys g k : In k (map_keys (batch_init g)) <-> In k (map_keys g).
Proof. unfold batch_init. rewrite batch_init_acc_keys. simpl. intuition. Qed.

Lemma batch_init_NoDup g : NoDup (map_keys (batch_init g)).
Proof. apply batch_init_acc_NoDup. constructor. Qed.

Lemma zero_degree_In (m : jsmap Z) a :
  In a (zero_degree m) <-> In (a, 0%Z) m.
Proof.
  unfold zero_degree. rewrite in_map_iff. split.
  - intros ([k d] & <- & H). apply filter_In in H. destruct H as [H E].
    simpl in *. apply Z.eqb_eq in E. now subst.
  - intros H. exists (a, 0%Z). split; [reflexivity |].
    apply filter_In. split; [assumption | reflexivity].
Qed.

Lemma zero_degree_keys (m : jsmap Z) a :
  In a (zero_degree m) -> In a (map_keys m).
Proof.
  intros H. apply zero_degree_In in H.
  change a with (fst (a, 0%Z)). now apply in_map.
Qed.

Lemma NoDup_map_filter {A B} (f : A -> B) (p : A -> bool) l :
  NoDup (map f l) -> NoDup (map f (filter p l)).
Proof.
  induction l as [| x l IH]; simpl; intros H; [constructor |].
  inversion H as [| ? ? Hn Hnd]; subst.
  destruct (p x); simpl; [| now apply IH].
  constructor; [| now apply IH].
  intros Hin. apply Hn. apply in_map_iff in Hin.
  destruct Hin as (y & E & Hy). apply filter_In in Hy.
  apply in_map_iff. exists y. tauto.
Qed.

Lemma zero_degree_NoDup (m : jsmap Z) :
  NoDup (map_keys m) -> NoDup (zero_degree m).
Proof. apply NoDup_map_filter. Qed.

Lemma batch_relax_keys ds : forall (m : jsmap Z),
  map_keys (batch_relax ds m) = map_keys m.
Proof.
  unfold batch_relax. induction ds as [| d ds IH]; intros m; simpl; [reflexivity |].
  destruct (map_get d m) as [z |] eqn:E; rewrite IH; [| reflexivity].
  apply map_keys_set_present. eapply map_get_Some_keys, E.
Qed.

Lemma batch_remove_keys g : forall batch (m m' : jsmap Z),
  batch_remove g batch m = Ok m' ->
  map_keys m' = filter (fun k => negb (mem k batch)) (map_keys m).
Proof.
  induction batch as [| a batch IH]; intros m m'; simpl.
  - intros [= <-]. induction (map_keys m) as [| k l IHl]; simpl; congruence.
  - destruct (map_get a g) as [node |]; [| discriminate].
    intros H. apply IH in H. rewrite H, batch_relax_keys, map_keys_delete.
    unfold set_delete. induction (map_keys m) as [| k l IHl]; simpl; [reflexivity |].
    rewrite (String.eqb_sym k a).
    destruct (String.eqb a k); simpl; rewrite IHl; reflexivity.
Qed.

Lemma batch_remove_ok g : forall batch (m : jsmap Z),
  (forall a, In a batch -> In a (map_keys g)) ->
  exists m', batch_remove g batch m = Ok m'.
Proof.
  induction batch as [| a batch IH]; intros m H; simpl.
  - now exists m.
  - destruct (map_keys_get a g) as [node ->]; [apply H; now left |].
    apply IH. intros b Hb. apply H. now right.
Qed.

Lemma NoDup_app_disjoint {A} (l1 l2 : list A) a :
  NoDup (l1 ++ l2) -> In a l1 -> In a l2 -> False.
Proof.
  induction l1 as [| x l1 IH]; simpl; intros H H1 H2; [contradiction |].
  inversion H as [| ? ? Hn Hnd]; subst. destruct H1 as [-> | H1].
  - apply Hn, in_or_app. now right.
  - now apply IH.
Qed.

Lemma NoDup_filter {A} (p : A -> bool) l : NoDup l -> NoDup (filter p l).
Proof.
  intros H. rewrite <- (map_id (filter p l)). apply NoDup_map_filter.
  now rewrite map_id.
Qed.

Lemma batch_loop_nil g fuel bs : batch_loop g fuel [] bs = Ok bs.
Proof. now destruct fuel. Qed.

Lemma batch_loop_step g fuel (m : jsmap Z) bs :
  m <> [] -> zero_degree m <> [] ->
  batch_loop g (S fuel) m bs =
  (m' <- batch_remove g (zero_degree m) m ;;
   batch_loop g fuel m' (bs ++ [zero_degree m])).
Proof.
  intros Hm Hz. destruct m as [| e m]; [contradiction |].
  cbn [batch_loop]. destruct (zero_degree (e :: m)); [contradiction | reflexivity].
Qed.

Lemma batch_loop_stuck g fuel (m : jsmap Z) bs :
  m <> [] -> zero_degree m = [] -> batch_loop g (S fuel) m bs = Err NoBatch.
Proof.
  intros Hm Hz. destruct m as [| e m]; [contradiction |].
  cbn [batch_loop]. now rewrite Hz.
Qed.

Lemma batch_loop_keys g : forall fuel (m : jsmap Z) bs res,
  NoDup (map_keys m) ->
  (forall a, In a (map_keys m) -> In a (map_keys g)) ->
  NoDup (concat bs) ->
  (forall a, In a (concat bs) -> In a (map_keys g) /\ ~ In a (map_keys m)) ->
  batch_loop g fuel m bs = Ok res ->
  NoDup (concat res) /\ forall a, In a (concat res) -> In a (map_keys g).
Proof.
  induction fuel as [| fuel IH]; intros m bs res Hnd Hsub Hbs Hdisj.
  - destruct m; simpl; [| discriminate].
    intros [= <-]. split; [assumption |]. intros a Ha. now apply Hdisj.
  - destruct (Nat.eq_dec (length m) 0) as [Hm | Hm].
    { apply length_zero_iff_nil in Hm. subst m. rewrite batch_loop_nil. intros [= <-]. split; [assumption |].
      intros a Ha. now apply Hdisj. }
    assert (Hm' : m <> []) by (intros ->; now apply Hm).
    destruct (list_eq_dec string_dec (zero_degree m) []) as [Hz | Hz].
    { rewrite batch_loop_stuck by assumption. discriminate. }
    rewrite batch_loop_step by assumption.
    destruct (batch_remove g (zero_degree m) m) as [m' | e'] eqn:Er;
      cbn [bind]; [| discriminate].
    pose proof (batch_remove_keys _ _ _ _ Er) as Hk.
    apply IH.
    + rewrite Hk. now apply NoDup_filter.
    + intros a Ha. rewrite Hk in Ha. apply filter_In in Ha. now apply Hsub.
    + rewrite concat_app. simpl. rewrite app_nil_r.
      apply NoDup_app; [assumption | now apply zero_degree_NoDup |].
      intros a Ha Hz'. apply zero_degree_keys in Hz'.
      now apply (proj2 (Hdisj a Ha)).
    + intros a Ha. rewrite concat_app in Ha. simpl in Ha. rewrite app_nil_r in Ha.
      rewrite Hk. apply in_app_or in Ha. destruct Ha as [Ha | Ha].
      * split; [now apply Hdisj |]. intros Hf. apply filter_In in Hf.
        now apply (proj2 (Hdisj a Ha)).
      * split; [now apply Hsub, zero_degree_keys |].
        intros Hf. apply filter_In in Hf. destruct Hf as [_ Hf].
        apply mem_In in Ha. rewrite Ha in Hf. discriminate.
Qed.

Lemma getParallelBatches_keys g batches :
  getParallelBatches g = Ok batches ->
  NoDup (concat batches) /\ forall a, In a (concat batches) -> In a (map_keys g).
Proof.
  unfold getParallelBatches. apply batch_loop_keys.
  - apply batch_init_NoDup.
  - intros a. apply batch_init_keys.
  - constructor.
  - intros a [].
Qed.

(** ** The task scheduler (tasks.ts) *)

Lemma runTask_known r h a commandType :
  In a (map_keys (runner_graph r)) ->
  exists res, runTask r h a commandType = Ok res /\ task_workspace res = a.
Proof.
  intros H. apply map_keys_get in H. destruct H as [node Hn].
  unfold runTask, getWorkspace. rewrite Hn. cbn [option_map]. cbv zeta.
  destruct (truthy (getCommand (node_workspace node) commandType
                               (runner_config r))); cbn [negb]; [| eauto].
  destruct (execa h (getCommand (node_workspace node) commandType
                                (runner_config r))
                  (path (node_workspace node)) (task_env r h)); eauto.
Qed.

Lemma task_ok_or_failed r h commandType a :
  In a (map_keys (runner_graph r)) ->
  task_ok r h commandType a \/ task_failed r h commandType a.
Proof.
  intros H. destruct (runTask_known r h a commandType H) as (res & E & _).
  unfold task_ok, task_failed. destruct (success res) eqn:S; eauto.
Qed.

Lemma task_ok_not_failed r h commandType a :
  task_ok r h commandType a -> task_failed r h commandType a -> False.
Proof.
  intros (res & E & S) (res' & E' & S'). congruence.
Qed.

Lemma run_tasks_spec r h commandType : forall aliases results,
  (forall a, In a aliases -> In a (map_keys (runner_graph r))) ->
  results_sound r h commandType results ->
  exists results',
    run_tasks r h commandType aliases results = (results', None) /\
    results_sound r h commandType results' /\
    (forall a, In a (map_keys results') <->
               In a (map_keys results) \/ In a aliases).
Proof.
  induction aliases as [| a aliases IH]; intros results Hk Hs.
  - exists results. cbn [run_tasks].
    split; [reflexivity | split; [assumption | simpl; intuition]].
  - destruct (runTask_known r h a commandType (Hk a (or_introl eq_refl)))
      as (res & E & Ew).
    cbn [run_tasks]. rewrite E.
    destruct (IH (map_set a res results)) as (results' & Er & Hs' & Hkeys).
    + intros b Hb. apply Hk. now right.
    + destruct Hs as [Hnd Hget]. split; [now apply map_keys_set_NoDup |].
      intros b res'. rewrite map_get_set.
      destruct (String.eqb_spec b a) as [-> | N]; [| apply Hget].
      intros [= <-]. auto.
    + exists results'. split; [assumption | split; [assumption |]].
      intros b. rewrite Hkeys, map_keys_set_In. simpl. intuition.
Qed.

Lemma results_sound_nil r h commandType : results_sound r h commandType [].
Proof. split; [constructor | discriminate]. Qed.

Lemma runBatch_spec r h commandType concurrency aliases :
  (forall a, In a aliases -> In a (map_keys (runner_graph r))) ->
  exists batchResults,
    runBatch r h aliases commandType concurrency = (Ok batchResults, aliases) /\
    results_sound r h commandType batchResults /\
    (forall a, In a (map_keys batchResults) <-> In a aliases).
Proof.
  intros Hk.
  destruct (run_tasks_spec r h commandType aliases [] Hk
              (results_sound_nil r h commandType)) as (br & E & Hs & Hkeys).
  exists br. unfold runBatch. rewrite E.
  split; [reflexivity | split; [assumption |]].
  intros a. rewrite Hkeys. simpl. intuition.
Qed.

Lemma filter_length_lt {A} (p : A -> bool) l x :
  In x l -> p x = false -> length (filter p l) < length l.
Proof.
  intros Hx Hp. induction l as [| y l IH]; [destruct Hx |].
  simpl. destruct Hx as [-> | Hx].
  - rewrite Hp. pose proof (filter_length_le p l). lia.
  - specialize (IH Hx). destruct (p y); simpl; lia.
Qed.

Lemma filter_nil {A} (p : A -> bool) l :
  (forall x, In x l -> p x = false) -> filter p l = [].
Proof.
  induction l as [| x l IH]; intros H; simpl; [reflexivity |].
  rewrite (H x) by now left. apply IH. intros y Hy. apply H. now right.
Qed.

Lemma failed_nil r h commandType batchResults aliases :
  results_sound r h commandType batchResults ->
  (forall a, In a (map_keys batchResults) <-> In a aliases) ->
  (forall a, In a aliases -> task_ok r h commandType a) ->
  filter (fun res => negb (success res)) (map_values batchResults) = [].
Proof.
  intros [Hnd Hget] Hkeys Hok.
  apply filter_nil. intros res Hres.
  unfold map_values in Hres. apply in_map_iff in Hres.
  destruct Hres as ([a res'] & <- & Hin). simpl.
  apply map_In_get in Hin; [| assumption].
  destruct (Hget a res' Hin) as [E _].
  destruct (Hok a) as (res'' & E' & S).
  - apply Hkeys. eapply map_get_Some_keys, Hin.
  - rewrite E in E'. injection E' as <-. now rewrite S.
Qed.

Lemma failed_cons r h commandType batchResults aliases :
  results_sound r h commandType batchResults ->
  (forall a, In a (map_keys batchResults) <-> In a aliases) ->
  (exists a, In a aliases /\ task_failed r h commandType a) ->
  filter (fun res => negb (success res)) (map_values batchResults) <> [].
Proof.
  intros [Hnd Hget] Hkeys (a & Ha & res & E & S) Hnil.
  apply Hkeys, map_keys_get in Ha. destruct Ha as [res' Hres'].
  destruct (Hget a res' Hres') as [E' _].
  rewrite E in E'. injection E' as <-.
  assert (Hin : In res (filter (fun res => negb (success res))
                               (map_values batchResults))).
  { apply filter_In. split; [| now rewrite S].
    unfold map_values. apply in_map_iff. exists (a, res).
    split; [reflexivity | now apply map_get_In]. }
  rewrite Hnil in Hin. destruct Hin.
Qed.

Lemma merge_results_spec r h commandType : forall batchResults results,
  (forall a res, In (a, res) batchResults ->
     runTask r h a commandType = Ok res /\ task_workspace res = a) ->
  results_sound r h commandType results ->
  results_sound r h commandType (merge_results batchResults results) /\
  (forall a, In a (map_keys (merge_results batchResults results)) <->
             In a (map_keys results) \/ In a (map_keys batchResults)).
Proof.
  unfold merge_results.
  induction batchResults as [| [b res] l IH]; intros results Hl Hs; simpl.
  - split; [assumption | intuition].
  - destruct (IH (map_set b res results)) as [Hs' Hkeys].
    + intros a res' Hin. apply Hl. now right.
    + destruct Hs as [Hnd Hget]. split; [now apply map_keys_set_NoDup |].
      intros a res'. rewrite map_get_set.
      destruct (String.eqb_spec a b) as [-> | N]; [| apply Hget].
      intros [= <-]. apply Hl. now left.
    + split; [assumption |].
      intros a. rewrite Hkeys, map_keys_set_In. intuition.
Qed.

Lemma run_batches_skip r h commandType filter_ concurrency batch rest
    results started :
  apply_filter filter_ batch = [] ->
  run_batches r h commandType filter_ concurrency (batch :: rest)
              results started
  = run_batches r h commandType filter_ concurrency rest results started.
Proof.
  intros E. cbn [run_batches].
  change (match filter_ with
          | Some f => filter (fun alias => mem alias f) batch
          | None => batch
          end) with (apply_filter filter_ batch).
  now rewrite E.
Qed.

Lemma run_batches_run r h commandType filter_ concurrency batch rest
    results started :
  apply_filter filter_ batch <> [] ->
  run_batches r h commandType filter_ concurrency (batch :: rest)
              results started
  = match runBatch r h (apply_filter filter_ batch) commandType concurrency with
    | (Err e, ran) => (Err e, started ++ ran)
    | (Ok batchResults, ran) =>
        match filter (fun res => negb (success res))
                     (map_values batchResults) with
        | _ :: _ => (Err (RunFailed commandType), started ++ ran)
        | [] => run_batches r h commandType filter_ concurrency rest
                            (merge_results batchResults results)
                            (started ++ ran)
        end
    end.
Proof.
  intros N. cbn [run_batches].
  change (match filter_ with
          | Some f => filter (fun alias => mem alias f) batch
          | None => batch
          end) with (apply_filter filter_ batch).
  destruct (apply_filter filter_ batch); [contradiction | reflexivity].
Qed.

Lemma run_batches_cons r h commandType filter_ concurrency batch rest
    results started :
  (forall a, In a (apply_filter filter_ batch) ->
             In a (map_keys (runner_graph r))) ->
  results_sound r h commandType results ->
  ((forall a, In a (apply_filter filter_ batch) -> task_ok r h commandType a) ->
   exists results',
     run_batches r h commandType filter_ concurrency (batch :: rest)
                 results started
     = run_batches r h commandType filter_ concurrency rest results'
                   (started ++ apply_filter filter_ batch) /\
     results_sound r h commandType results' /\
     (forall a, In a (map_keys results') <->
                In a (map_keys results) \/ In a (apply_filter filter_ batch))) /\
  ((exists a, In a (apply_filter filter_ batch) /\
              task_failed r h commandType a) ->
   run_batches r h commandType filter_ concurrency (batch :: rest)
               results started
   = (Err (RunFailed commandType), started ++ apply_filter filter_ batch)).
Proof.
  intros Hk Hs.
  destruct (apply_filter filter_ batch) as [| a0 sel] eqn:Esel.
  - rewrite run_batches_skip by assumption. split.
    + intros _. exists results. rewrite app_nil_r.
      split; [reflexivity | split; [assumption | simpl; intuition]].
    + intros (a & [] & _).
  - rewrite run_batches_run by (rewrite Esel; discriminate).
    rewrite <- Esel in *.
    destruct (runBatch_spec r h commandType concurrency _ Hk)
      as (br & Eb & Hbs & Hbk).
    rewrite Eb.
    split.
    + intros Hok. rewrite (failed_nil r h commandType br _ Hbs Hbk Hok).
      exists (merge_results br results).
      destruct (merge_results_spec r h commandType br results) as [Hm Hmk].
      * intros a res Hin. apply Hbs. apply map_In_get; [apply Hbs | assumption].
      * assumption.
      * split; [reflexivity | split; [assumption |]].
        intros a. rewrite Hmk, Hbk. reflexivity.
    + intros Hfail.
      destruct (filter (fun res => negb (success res)) (map_values br)) eqn:Ef.
      * exfalso. now apply (failed_cons r h commandType br _ Hbs Hbk Hfail).
      * reflexivity.
Qed.

(** A prefix of batches whose tasks all succeed is gone through. *)
Lemma run_batches_prefix r h commandType filter_ concurrency :
  forall pre rest results started,
    (forall a, In a (selected filter_ pre) ->
               In a (map_keys (runner_graph r))) ->
    results_sound r h commandType results ->
    (forall a, In a (selected filter_ pre) -> task_ok r h commandType a) ->
    exists results',
      run_batches r h commandType filter_ concurrency (pre ++ rest)
                  results started
      = run_batches r h commandType filter_ concurrency rest results'
                    (started ++ selected filter_ pre) /\
      results_sound r h commandType results' /\
      (forall a, In a (map_keys results') <->
                 In a (map_keys results) \/ In a (selected filter_ pre)).
Proof.
  unfold selected.
  induction pre as [| b pre IH]; intros rest results started Hk Hs Hok.
  - exists results. simpl. rewrite app_nil_r.
    split; [reflexivity | split; [assumption | intuition]].
  - simpl in Hk, Hok.
    destruct (run_batches_cons r h commandType filter_ concurrency b
                (pre ++ rest) results started) as [Hstep _].
    + intros a Ha. apply Hk, in_or_app. now left.
    + assumption.
    + destruct Hstep as (results1 & E1 & Hs1 & Hk1).
      * intros a Ha. apply Hok, in_or_app. now left.
      * destruct (IH rest results1 (started ++ apply_filter filter_ b))
          as (results' & E' & Hs' & Hk').
        -- intros a Ha. apply Hk, in_or_app. now right.
        -- assumption.
        -- intros a Ha. apply Hok, in_or_app. now right.
        -- exists results'.
           change ((b :: pre) ++ rest) with (b :: (pre ++ rest)).
           rewrite E1, E'. cbn [map concat]. rewrite <- app_assoc.
           split; [reflexivity | split; [assumption |]].
           intros a. rewrite Hk', Hk1, in_app_iff. intuition.
Qed.

Lemma batch_ok_or_failed r h commandType : forall l,
  (forall a, In a l -> In a (map_keys (runner_graph r))) ->
  (forall a, In a l -> task_ok r h commandType a) \/
  (exists a, In a l /\ task_failed r h commandType a).
Proof.
  induction l as [| x l IHl]; intros Hk.
  - left. intros a [].
  - destruct (task_ok_or_failed r h commandType x) as [Hx | Hx].
    + apply Hk. now left.
    + destruct IHl as [Hl | (a & Ha & Hf)].
      * intros a Ha. apply Hk. now right.
      * left. intros a [<- | Ha]; auto.
      * right. exists a. split; [now right | assumption].
    + right. exists x. split; [now left | assumption].
Qed.

(** Either every selected task succeeds, or there is a first batch with a
    failed task. *)
Lemma first_failure r h commandType filter_ : forall batches,
  (forall a, In a (selected filter_ batches) ->
             In a (map_keys (runner_graph r))) ->
  (forall a, In a (selected filter_ batches) -> task_ok r h commandType a) \/
  (exists pre b post,
     batches = pre ++ b :: post /\
     (forall a, In a (selected filter_ pre) -> task_ok r h commandType a) /\
     (exists a, In a (apply_filter filter_ b) /\ task_failed r h commandType a)).
Proof.
  unfold selected.
  induction batches as [| b batches IH]; intros Hk; simpl in *.
  - left. intros a [].
  - destruct (batch_ok_or_failed r h commandType (apply_filter filter_ b))
      as [Hb | Hb].
    { intros a Ha. apply Hk, in_or_app. now left. }
    + destruct IH as [Hall | (pre & b' & post & -> & Hpre & Hfail)].
      * intros a Ha. apply Hk, in_or_app. now right.
      * left. intros a Ha. apply in_app_or in Ha. destruct Ha; auto.
      * right. exists (b :: pre), b', post. split; [reflexivity |].
        split; [| assumption]. simpl. intros a Ha.
        apply in_app_or in Ha. destruct Ha; auto.
    + right. exists [], b, batches. split; [reflexivity |].
      split; [intros a [] | assumption].
Qed.

Lemma apply_filter_In filter_ batch a :
  In a (apply_filter filter_ batch) -> In a batch.
Proof.
  unfold apply_filter. destruct filter_ as [f |]; [| auto].
  intros H. now apply filter_In in H.
Qed.

Lemma selected_In filter_ batches a :
  In a (selected filter_ batches) -> In a (concat batches).
Proof.
  unfold selected. induction batches as [| b batches IH]; simpl; [auto |].
  rewrite !in_app_iff. intros [H | H]; [left | right; auto].
  eapply apply_filter_In, H.
Qed.

Lemma selected_app filter_ l1 l2 :
  selected filter_ (l1 ++ l2) = selected filter_ l1 ++ selected filter_ l2.
Proof. unfold selected. now rewrite map_app, concat_app. Qed.

Lemma selected_filter_In f batches a :
  In a (selected (Some f) batches) -> In a f.
Proof.
  unfold selected. induction batches as [| b batches IH]; simpl; [intros [] |].
  rewrite in_app_iff. intros [H | H]; [| auto].
  apply filter_In in H. now apply mem_In.
Qed.

Lemma runAll_batches r h commandType filter_ batches :
  getParallelBatches (runner_graph r) = Ok batches ->
  runAll r h commandType filter_
  = run_batches r h commandType filter_
      (effective_concurrency (runner_config r)) batches [] [].
Proof. intros E. unfold runAll. now rewrite E. Qed.

(** C2.  [runAll] goes through the batches in order.  If a batch is
    reached (all tasks of the batches before it succeeded) and one of its
    tasks has [success = false], [runAll] raises the error "Failed to run
    <commandType>", the tasks started are exactly those of the batches up
    to this one, and no member of a later batch is started.  If every task
    succeeds, [runAll] returns a map with exactly one [TaskResult] for
    each executed workspace, the one returned by [runTask] for it. *)
Theorem runAll_fail_fast :
  forall (r : TaskRunner) (h : Host) (commandType : string)
         (filter_ : option (list string)) (batches : list (list string)),
    getParallelBatches (runner_graph r) = Ok batches ->
    (forall pre b post,
       batches = pre ++ b :: post ->
       (forall a, In a (selected filter_ pre) -> task_ok r h commandType a) ->
       (exists a, In a (apply_filter filter_ b) /\
                  task_failed r h commandType a) ->
       runAll r h commandType filter_
         = (Err (RunFailed commandType), selected filter_ (pre ++ [b])) /\
       message (RunFailed commandType)
         = String.append "Failed to run " commandType /\
       (forall a, In a (concat post) ->
                  ~ In a (snd (runAll r h commandType filter_)))) /\
    ((forall a, In a (selected filter_ batches) -> task_ok r h commandType a) ->
     exists results,
       runAll r h commandType filter_
         = (Ok results, selected filter_ batches) /\
       NoDup (map_keys results) /\
       (forall a, In a (map_keys results) <-> In a (selected filter_ batches)) /\
       (forall a res, map_get a results = Some res ->
          runTask r h a commandType = Ok res /\ task_workspace res = a /\
          success res = true)).
Proof.
  intros r h commandType filter_ batches Hb.
  destruct (getParallelBatches_keys _ _ Hb) as [Hnd Hkeys].
  rewrite (runAll_batches r h commandType filter_ _ Hb).
  split.
  - intros pre b post -> Hok Hfail.
    destruct (run_batches_prefix r h commandType filter_
                (effective_concurrency (runner_config r)) pre (b :: post) [] [])
      as (results' & E & Hs & _).
    + intros a Ha. apply Hkeys. rewrite concat_app. apply in_or_app. left.
      eapply selected_In, Ha.
    + apply results_sound_nil.
    + assumption.
    + rewrite E.
      destruct (run_batches_cons r h commandType filter_
                  (effective_concurrency (runner_config r)) b post results'
                  ([] ++ selected filter_ pre)) as [_ Hstep].
      * intros a Ha. apply Hkeys. rewrite concat_app. apply in_or_app. right.
        simpl. apply in_or_app. left. eapply apply_filter_In, Ha.
      * assumption.
      * rewrite (Hstep Hfail). simpl.
        assert (Esel : selected filter_ pre ++ apply_filter filter_ b
                       = selected filter_ (pre ++ [b])).
        { rewrite selected_app. unfold selected at 3. simpl.
          now rewrite app_nil_r. }
        rewrite Esel. split; [reflexivity | split; [reflexivity |]].
        intros a Ha Hin. apply selected_In in Hin.
        rewrite concat_app in Hnd. simpl in Hnd.
        rewrite concat_app in Hin. simpl in Hin. rewrite app_nil_r in Hin.
        apply NoDup_app_remove_l in Hnd as Hnd2.
        apply in_app_or in Hin. destruct Hin as [Hin | Hin].
        -- apply (NoDup_app_disjoint _ _ a Hnd Hin).
           apply in_or_app. now right.
        -- apply (NoDup_app_disjoint _ _ a Hnd2 Hin Ha).
  - intros Hok.
    destruct (run_batches_prefix r h commandType filter_
                (effective_concurrency (runner_config r)) batches [] [] [])
      as (results' & E & Hs & Hk).
    + intros a Ha. apply Hkeys. eapply selected_In, Ha.
    + apply results_sound_nil.
    + assumption.
    + rewrite app_nil_r in E. rewrite E. exists results'. cbn [run_batches].
      split; [reflexivity | split; [apply Hs | split]].
      * intros a. rewrite Hk. simpl. intuition.
      * intros a res Hget. destruct (proj2 Hs a res Hget) as [E1 E2].
        split; [assumption | split; [assumption |]].
        assert (Hin : In a (selected filter_ batches)).
        { pose proof (map_get_Some_keys _ _ _ Hget) as Hin.
          apply Hk in Hin. destruct Hin as [[] | Hin]. exact Hin. }
        destruct (Hok a Hin) as (res' & E' & S). congruence.
Qed.

Lemma runAll_fail_fast_witness :
  (runAll ex_runner ex_host_failing "build" None
     = (Err (RunFailed "build"), ["@utils"]) /\
   ~ In "@cart" (snd (runAll ex_runner ex_host_failing "build" None))) /\
  exists results,
    runAll ex_runner ex_host "lint" None
      = (Ok results, ["@utils"; "@orders"; "@cart"]) /\
    map_keys results = ["@utils"; "@orders"; "@cart"].
Proof.
  split.
  - destruct (proj1 (runAll_fail_fast ex_runner ex_host_failing "build" None
                       [["@utils"]; ["@orders"]; ["@cart"]] eq_refl)
                    [] ["@utils"] [["@orders"]; ["@cart"]] eq_refl)
      as (H1 & _ & H3).
    + intros a [].
    + exists "@utils". split; [now left |].
      exists (mkTaskResult "@utils" false 7 (Some "exit 1")).
      split; reflexivity.
    + split; [exact H1 |]. apply H3. simpl. auto.
  - destruct (proj2 (runAll_fail_fast ex_runner ex_host "lint" None
                       [["@utils"]; ["@orders"]; ["@cart"]] eq_refl))
      as (results & E & _).
    + intros a [<- | [<- | [<- | []]]];
        (eexists; split; [reflexivity | reflexivity]).
    + exists results. split; [exact E |].
      assert (E' : runAll ex_runner ex_host "lint" None
                   = (Ok [("@utils", mkTaskResult "@utils" true 0 None);
                          ("@orders", mkTaskResult "@orders" true 0 None);
                          ("@cart", mkTaskResult "@cart" true 0 None)],
                      ["@utils"; "@orders"; "@cart"])) by reflexivity.
      rewrite E' in E. injection E as <-. reflexivity.
Defined.

Lemma runAll_failure r h commandType filter_ pre b post :
  getParallelBatches (runner_graph r) = Ok (pre ++ b :: post) ->
  (forall a, In a (selected filter_ pre) -> task_ok r h commandType a) ->
  (exists a, In a (apply_filter filter_ b) /\ task_failed r h commandType a) ->
  runAll r h commandType filter_
  = (Err (RunFailed commandType), selected filter_ (pre ++ [b])).
Proof.
  intros Hb Hok Hfail.
  destruct (getParallelBatches_keys _ _ Hb) as [_ Hkeys].
  rewrite (runAll_batches r h commandType filter_ _ Hb).
  destruct (run_batches_prefix r h commandType filter_
              (effective_concurrency (runner_config r)) pre (b :: post) [] [])
    as (results' & E & Hs & _).
  - intros a Ha. apply Hkeys. rewrite concat_app. apply in_or_app. left.
    eapply selected_In, Ha.
  - apply results_sound_nil.
  - assumption.
  - rewrite E.
    destruct (run_batches_cons r h commandType filter_
                (effective_concurrency (runner_config r)) b post results'
                ([] ++ selected filter_ pre)) as [_ Hstep].
    + intros a Ha. apply Hkeys. rewrite concat_app. apply in_or_app. right.
      simpl. apply in_or_app. left. eapply apply_filter_In, Ha.
    + assumption.
    + rewrite (Hstep Hfail). simpl. rewrite selected_app.
      unfold selected at 3. simpl. now rewrite app_nil_r.
Qed.

Lemma runAll_success r h commandType filter_ batches :
  getParallelBatches (runner_graph r) = Ok batches ->
  (forall a, In a (selected filter_ batches) -> task_ok r h commandType a) ->
  exists results,
    runAll r h commandType filter_ = (Ok results, selected filter_ batches).
Proof.
  intros Hb Hok.
  destruct (getParallelBatches_keys _ _ Hb) as [_ Hkeys].
  rewrite (runAll_batches r h commandType filter_ _ Hb).
  destruct (run_batches_prefix r h commandType filter_
              (effective_concurrency (runner_config r)) batches [] [] [])
    as (results' & E & _).
  - intros a Ha. apply Hkeys. eapply selected_In, Ha.
  - apply results_sound_nil.
  - assumption.
  - rewrite app_nil_r in E. rewrite E. now exists results'.
Qed.

(** C9, as the code has it.  With a filter [f], the workspaces that
    [runAll] executes are exactly the members of [f] in the batches it goes
    through, batch by batch: all the batches when every executed task
    succeeds (the run then returns its results), and otherwise the batches
    up to and including the first one with a failed task (every task of
    the batches before it succeeded, and the run ends with the error
    "Failed to run <commandType>").  Every
    executed workspace is a member of [f]; in particular a dependency of
    an executed workspace that is not in [f] is not executed. *)
Theorem runAll_filter_no_closure :
  forall (r : TaskRunner) (h : Host) (commandType : string)
         (f : list string) (batches : list (list string)),
    getParallelBatches (runner_graph r) = Ok batches ->
    (exists k, k <= length batches /\
       snd (runAll r h commandType (Some f))
         = concat (map (filter (fun alias => mem alias f)) (firstn k batches)) /\
       ((k = length batches /\
         (exists results, fst (runAll r h commandType (Some f)) = Ok results) /\
         forall a, In a (snd (runAll r h commandType (Some f))) ->
                   task_ok r h commandType a) \/
        (exists pre b post a,
           batches = pre ++ b :: post /\ k = S (length pre) /\
           (forall a', In a' (selected (Some f) pre) ->
                       task_ok r h commandType a') /\
           In a b /\ In a f /\ task_failed r h commandType a /\
           fst (runAll r h commandType (Some f))
             = Err (RunFailed commandType)))) /\
    (forall a, In a (snd (runAll r h commandType (Some f))) ->
               In a f /\ In a (map_keys (runner_graph r))) /\
    (forall a b, In a (snd (runAll r h commandType (Some f))) ->
                 depends (runner_graph r) a b -> ~ In b f ->
                 ~ In b (snd (runAll r h commandType (Some f)))).
Proof.
  intros r h commandType f batches Hb.
  destruct (getParallelBatches_keys _ _ Hb) as [_ Hkeys].
  assert (Hex : exists k, k <= length batches /\
       snd (runAll r h commandType (Some f))
         = selected (Some f) (firstn k batches) /\
       ((k = length batches /\
         (exists results, fst (runAll r h commandType (Some f)) = Ok results) /\
         forall a, In a (snd (runAll r h commandType (Some f))) ->
                   task_ok r h commandType a) \/
        (exists pre b post a,
           batches = pre ++ b :: post /\ k = S (length pre) /\
           (forall a', In a' (selected (Some f) pre) ->
                       task_ok r h commandType a') /\
           In a b /\ In a f /\ task_failed r h commandType a /\
           fst (runAll r h commandType (Some f))
             = Err (RunFailed commandType)))).
  { destruct (first_failure r h commandType (Some f) batches)
      as [Hok | (pre & b & post & E & Hok & a & Ha & Hf)].
    - intros a Ha. apply Hkeys. eapply selected_In, Ha.
    - destruct (runAll_success r h commandType (Some f) _ Hb Hok)
        as [results E].
      exists (length batches). rewrite firstn_all, E. simpl.
      split; [apply le_n | split; [reflexivity |]]. left.
      split; [reflexivity |]. split; [now exists results | exact Hok].
    - subst batches.
      rewrite (runAll_failure r h commandType (Some f) pre b post Hb Hok
                 (ex_intro _ a (conj Ha Hf))).
      exists (S (length pre)). cbn [snd fst].
      assert (Ef : firstn (S (length pre)) (pre ++ b :: post) = pre ++ [b]).
      { replace (S (length pre)) with (length (pre ++ [b]))
          by (rewrite length_app; simpl; lia).
        change (pre ++ b :: post) with (pre ++ [b] ++ post).
        rewrite app_assoc, firstn_app, firstn_all, Nat.sub_diag.
        simpl. now rewrite app_nil_r. }
      split; [rewrite length_app; simpl; lia |].
      split.
      + now rewrite Ef.
      + right. exists pre, b, post, a.
        apply filter_In in Ha. destruct Ha as [Ha Hm]. apply mem_In in Hm.
        split; [reflexivity |]. split; [reflexivity |].
        split; [exact Hok |]. repeat split; auto. }
  assert (Hsub : forall a, In a (snd (runAll r h commandType (Some f))) ->
                           In a f /\ In a (map_keys (runner_graph r))).
  { destruct Hex as (k & _ & E & _). rewrite E. intros a Ha. split.
    - eapply selected_filter_In, Ha.
    - apply Hkeys. apply selected_In in Ha.
      rewrite <- (firstn_skipn k batches), concat_app.
      apply in_or_app. now left. }
  split; [exact Hex | split; [exact Hsub |]].
  intros a b _ _ Hnf Hin. apply Hnf. now apply Hsub.
Qed.

Lemma runAll_filter_no_closure_witness :
  snd (runAll ex_runner ex_host "lint" (Some ex_filter)) = ["@utils"; "@cart"] /\
  depends (runner_graph ex_runner) "@cart" "@orders" /\
  ~ In "@orders" (snd (runAll ex_runner ex_host "lint" (Some ex_filter))).
Proof.
  destruct (runAll_filter_no_closure ex_runner ex_host "lint" ex_filter
              [["@utils"]; ["@orders"]; ["@cart"]] eq_refl)
    as (_ & _ & H).
  assert (Hdep : depends (runner_graph ex_runner) "@cart" "@orders").
  { eexists. split; [reflexivity | simpl; auto]. }
  split; [reflexivity | split; [exact Hdep |]].
  apply (H "@cart" "@orders").
  - simpl. auto.
  - exact Hdep.
  - unfold ex_filter. simpl. intros [E | [E | []]]; discriminate.
Defined.

(** C9 as stated fails for a run that aborts: [@utils] and [@cart] pass
    the filter and lie in the first and the third batch, the build of
    [@utils] fails, and [@cart] is not executed although it belongs to
    the union of the filtered batches. *)
Lemma runAll_filter_stops_at_failure :
  getParallelBatches (runner_graph ex_runner)
    = Ok [["@utils"]; ["@orders"]; ["@cart"]] /\
  concat (map (filter (fun alias => mem alias ex_filter))
              [["@utils"]; ["@orders"]; ["@cart"]]) = ["@utils"; "@cart"] /\
  runAll ex_runner ex_host_failing "build" (Some ex_filter)
    = (Err (RunFailed "build"), ["@utils"]) /\
  ~ In "@cart" (snd (runAll ex_runner ex_host_failing "build" (Some ex_filter))).
Proof.
  repeat split. simpl. intros [E | []]. discriminate.
Qed.

(** ** Conflict detection (resolution.ts) *)

Lemma resolved_version_set rmap a table w p :
  resolved_version (map_set a table rmap) w p
  = if String.eqb w a then option_map version (map_get p table)
    else resolved_version rmap w p.
Proof.
  unfold resolved_version. rewrite map_get_set.
  now destruct (String.eqb w a).
Qed.

Lemma spread_NoDup a b : NoDup (map_keys (spread a b)).
Proof.
  unfold spread.
  generalize ((match a with Some o => o | None => [] end)
              ++ (match b with Some o => o | None => [] end)).
  assert (H : forall (l acc : jsmap string),
             NoDup (map_keys acc) ->
             NoDup (map_keys (fold_left (fun obj e => map_set (fst e) (snd e) obj) l acc))).
  { induction l as [| e l IH]; intros acc Hacc; simpl; [assumption |].
    apply IH, map_keys_set_NoDup, Hacc. }
  intros l. apply H. constructor.
Qed.

Lemma track_listed p v a allPackages p' v' w' :
  listed_in (track p v a allPackages) p' v' w' <->
  listed_in allPackages p' v' w' \/ (p' = p /\ v' = v /\ w' = a).
Proof.
  unfold listed_in, track.
  destruct (String.eqb_spec p' p) as [-> | Np].
  - rewrite map_get_set_eq.
    destruct (String.eqb_spec v' v) as [-> | Nv].
    + split.
      * intros (vm & users & [= <-] & Hu & Hin).
        rewrite map_get_set_eq in Hu. injection Hu as <-.
        apply in_app_or in Hin. destruct Hin as [Hin | [<- | []]]; [| auto].
        left. destruct (map_get p allPackages) as [vm |]; [| destruct Hin].
        destruct (map_get v vm) as [users |] eqn:Ev; [| destruct Hin].
        eauto.
      * intros [(vm & users & Ep & Ev & Hin) | (_ & _ & ->)].
        -- rewrite Ep, Ev. do 2 eexists. split; [reflexivity |].
           rewrite map_get_set_eq. split; [reflexivity |].
           apply in_or_app. now left.
        -- do 2 eexists. split; [reflexivity |].
           rewrite map_get_set_eq. split; [reflexivity |].
           apply in_or_app. right. now left.
    + split.
      * intros (vm & users & [= <-] & Hu & Hin).
        rewrite map_get_set_neq in Hu by assumption. left.
        destruct (map_get p allPackages) as [vm |]; [eauto | discriminate].
      * intros [(vm & users & Ep & Ev & Hin) | (_ & E & _)]; [| contradiction].
        rewrite Ep. do 2 eexists. split; [reflexivity |].
        rewrite map_get_set_neq by assumption. eauto.
  - rewrite map_get_set_neq by assumption. intuition.
Qed.

Lemma track_wf p v a allPackages :
  packages_wf allPackages -> packages_wf (track p v a allPackages).
Proof.
  intros [Hnd Hvm]. unfold track. split; [now apply map_keys_set_NoDup |].
  intros p' vm'. rewrite map_get_set.
  destruct (String.eqb_spec p' p) as [-> | Np]; [| apply Hvm].
  intros [= <-].
  assert (Hold : NoDup (map_keys (match map_get p allPackages with
                                  | Some vm => vm | None => [] end)) /\
                 forall v' users,
                   map_get v' (match map_get p allPackages with
                               | Some vm => vm | None => [] end) = Some users ->
                   users <> []).
  { destruct (map_get p allPackages) as [vm |] eqn:Ep; [now apply (Hvm p) |].
    split; [constructor | discriminate]. }
  destruct Hold as [Hnd' Hne]. split; [now apply map_keys_set_NoDup |].
  intros v' users. rewrite map_get_set.
  destruct (String.eqb_spec v' v) as [-> | Nv]; [| apply Hne].
  intros [= <-]. now destruct (match map_get v _ with Some ws => ws | None => [] end).
Qed.

Lemma analyze_deps_cons d ws a p range rest resolved allPackages :
  analyze_deps d ws a ((p, range) :: rest) (resolved, allPackages)
  = analyze_deps d ws a rest
      (if String.prefix "workspace:" range then (resolved, allPackages)
       else match resolveInstalledVersion d (path ws) p range with
            | Some (ver, dir) =>
                (map_set p (mkResolution ver dir) resolved,
                 track p ver a allPackages)
            | None => (resolved, allPackages)
            end).
Proof.
  unfold analyze_deps. cbn [fold_left].
  destruct (String.prefix "workspace:" range); [reflexivity |].
  now destruct (resolveInstalledVersion d (path ws) p range) as [[ver dir] |].
Qed.

Lemma analyze_deps_spec d ws a rmap : forall allDeps resolved allPackages,
  NoDup (map_keys allDeps) ->
  (forall p, In p (map_keys allDeps) -> map_get p resolved = None) ->
  packages_wf allPackages ->
  inverse_of allPackages (map_set a resolved rmap) ->
  packages_wf (snd (analyze_deps d ws a allDeps (resolved, allPackages))) /\
  inverse_of (snd (analyze_deps d ws a allDeps (resolved, allPackages)))
             (map_set a (fst (analyze_deps d ws a allDeps (resolved, allPackages)))
                      rmap).
Proof.
  induction allDeps as [| [p range] rest IH];
    intros resolved allPackages Hnd Hfresh Hwf Hinv.
  - split; assumption.
  - rewrite analyze_deps_cons. simpl in Hnd.
    inversion Hnd as [| ? ? Hp Hnd']; subst.
    assert (Hfresh' : forall q, In q (map_keys rest) -> map_get q resolved = None).
    { intros q Hq. apply Hfresh. now right. }
    destruct (String.prefix "workspace:" range); [now apply IH |].
    destruct (resolveInstalledVersion d (path ws) p range) as [[ver dir] |];
      [| now apply IH].
    apply IH; try assumption.
    + intros q Hq. rewrite map_get_set_neq; [now apply Hfresh' |].
      intros ->. contradiction.
    + now apply track_wf.
    + intros p' v' w'. rewrite track_listed, (Hinv p' v' w').
      rewrite !resolved_version_set.
      destruct (String.eqb_spec w' a) as [-> | Nw].
      * rewrite map_get_set.
        destruct (String.eqb_spec p' p) as [-> | Np].
        -- rewrite (Hfresh p (or_introl eq_refl)). simpl.
           split; [intros [H | (_ & -> & _)]; [discriminate | reflexivity] |].
           intros [= ->]. right. auto.
        -- split; [intros [H | (E & _)]; [assumption | contradiction] | auto].
      * split; [intros [H | (_ & _ & E)]; [assumption | contradiction] | auto].
Qed.

Lemma analyze_workspaces_cons d ws rest rmap allPackages :
  analyze_workspaces d (ws :: rest) (rmap, allPackages)
  = analyze_workspaces d rest
      match readManifest d (path ws) with
      | None => (rmap, allPackages)
      | Some pkgJson =>
          let r := analyze_deps d ws (identity ws)
                     (spread (pkg_dependencies pkgJson)
                             (pkg_devDependencies pkgJson))
                     ([], allPackages) in
          (map_set (identity ws) (fst r) rmap, snd r)
      end.
Proof.
  unfold analyze_workspaces. cbn [fold_left].
  destruct (readManifest d (path ws)) as [pkgJson |]; [| reflexivity].
  now destruct (analyze_deps d ws (identity ws) _ ([], allPackages)).
Qed.

Lemma analyze_workspaces_spec d : forall wss rmap allPackages,
  NoDup (map identity wss) ->
  (forall ws, In ws wss -> map_get (identity ws) rmap = None) ->
  packages_wf allPackages ->
  inverse_of allPackages rmap ->
  packages_wf (snd (analyze_workspaces d wss (rmap, allPackages))) /\
  inverse_of (snd (analyze_workspaces d wss (rmap, allPackages)))
             (fst (analyze_workspaces d wss (rmap, allPackages))).
Proof.
  induction wss as [| ws rest IH]; intros rmap allPackages Hnd Hfresh Hwf Hinv.
  - split; assumption.
  - rewrite analyze_workspaces_cons. simpl in Hnd.
    inversion Hnd as [| ? ? Hid Hnd']; subst.
    assert (Hfresh' : forall w, In w rest -> map_get (identity w) rmap = None).
    { intros w Hw. apply Hfresh. now right. }
    destruct (readManifest d (path ws)) as [pkgJson |]; [| now apply IH].
    destruct (analyze_deps_spec d ws (identity ws) rmap
                (spread (pkg_dependencies pkgJson) (pkg_devDependencies pkgJson))
                [] allPackages) as [Hwf1 Hinv1].
    + apply spread_NoDup.
    + reflexivity.
    + assumption.
    + intros p v w. rewrite (Hinv p v w), resolved_version_set.
      destruct (String.eqb_spec w (identity ws)) as [-> | N]; [| reflexivity].
      unfold resolved_version. rewrite (Hfresh ws (or_introl eq_refl)).
      simpl. reflexivity.
    + cbv zeta. apply IH; try assumption.
      intros w Hw. cbn [fst]. rewrite map_get_set_neq; [now apply Hfresh' |].
      intros E. apply Hid. rewrite <- E. now apply in_map.
Qed.

Lemma detect_conflicts_In allPackages c :
  In c (detect_conflicts allPackages) <->
  In (packageName c, versions c) allPackages /\ 1 < length (versions c).
Proof.
  unfold detect_conflicts. rewrite in_map_iff. split.
  - intros ([p vm] & <- & H). apply filter_In in H. destruct H as [H L].
    simpl in *. apply Nat.ltb_lt in L. auto.
  - intros [H L]. exists (packageName c, versions c). split; [now destruct c |].
    apply filter_In. split; [assumption |]. now apply Nat.ltb_lt.
Qed.

Lemma detect_conflicts_NoDup allPackages :
  NoDup (map_keys allPackages) ->
  NoDup (map packageName (detect_conflicts allPackages)).
Proof.
  intros H. unfold detect_conflicts. rewrite map_map. simpl.
  now apply NoDup_map_filter.
Qed.

Lemma two_keys_length {V} (m : jsmap V) k1 k2 v1 v2 :
  map_get k1 m = Some v1 -> map_get k2 m = Some v2 -> k1 <> k2 ->
  1 < length m.
Proof.
  destruct m as [| [ka va] [| [kb vb] m]]; simpl; try discriminate; [| lia].
  destruct (String.eqb_spec k1 ka), (String.eqb_spec k2 ka);
    try discriminate; congruence.
Qed.

Lemma length_two_keys {V} (m : jsmap V) :
  NoDup (map_keys m) -> 1 < length m ->
  exists k1 k2 v1 v2,
    k1 <> k2 /\ map_get k1 m = Some v1 /\ map_get k2 m = Some v2.
Proof.
  destruct m as [| [ka va] [| [kb vb] m]]; simpl; try lia.
  intros Hnd _. inversion Hnd as [| ? ? Hn _]; subst.
  assert (N : kb <> ka) by (intros ->; apply Hn; now left).
  exists ka, kb, va, vb. split; [congruence |].
  rewrite String.eqb_refl. split; [reflexivity |].
  destruct (String.eqb_spec kb ka); [contradiction |].
  now rewrite String.eqb_refl.
Qed.

Lemma analyze_fresh config d :
  resolutionMap (analyze config d newPackageResolver)
    = fst (analyze_workspaces d (workspace config) ([], [])) /\
  conflicts (analyze config d newPackageResolver)
    = detect_conflicts (snd (analyze_workspaces d (workspace config) ([], []))).
Proof.
  unfold analyze.
  change (resolutionMap newPackageResolver, @nil (string * jsmap (list string)))
    with (@nil (string * jsmap Resolution), @nil (string * jsmap (list string))).
  destruct (analyze_workspaces d (workspace config) ([], [])).
  split; reflexivity.
Qed.




(** ** getAffected *)

Section Affected.
Variable g : Graph.

Lemma affected_relax_cons d ds affected queue :
  affected_relax (d :: ds) (affected, queue)
  = affected_relax ds
      (if negb (mem d affected)
       then (set_add d affected, queue ++ [d])
       else (affected, queue)).
Proof. reflexivity. Qed.

Lemma affected_relax_spec : forall ds affected queue,
  (forall x, In x (fst (affected_relax ds (affected, queue))) <->
             In x affected \/ In x ds) /\
  (forall x, In x (snd (affected_relax ds (affected, queue))) <->
             In x queue \/ (In x ds /\ ~ In x affected)) /\
  (NoDup affected -> NoDup (fst (affected_relax ds (affected, queue)))).
Proof.
  induction ds as [| d ds IH]; intros affected queue.
  - simpl. intuition.
  - rewrite affected_relax_cons. destruct (mem d affected) eqn:E; simpl negb; cbv iota.
    + apply mem_In in E. destruct (IH affected queue) as (H1 & H2 & H3).
      split; [| split; [| assumption]].
      * intros x. rewrite H1. simpl.
        split; [tauto | intros [H | [-> | H]]; tauto].
      * intros x. rewrite H2. simpl.
        split; [tauto | intros [H | [[-> | H] Hn]]; [tauto | contradiction | tauto]].
    + apply mem_false in E.
      destruct (IH (set_add d affected) (queue ++ [d])) as (H1 & H2 & H3).
      split; [| split].
      * intros x. rewrite H1, set_add_In. simpl. intuition.
      * intros x. rewrite H2, set_add_In, in_app_iff. simpl.
        destruct (string_dec x d) as [-> | N]; [intuition |].
        intuition congruence.
      * intros Hnd. apply H3. now apply set_add_NoDup.
Qed.

Lemma affected_relax_noop : forall ds affected queue,
  (forall d, In d ds -> In d affected) ->
  affected_relax ds (affected, queue) = (affected, queue).
Proof.
  induction ds as [| d ds IH]; intros affected queue H; [reflexivity |].
  rewrite affected_relax_cons.
  assert (E : mem d affected = true) by (apply mem_In, H; now left).
  rewrite E. simpl. apply IH. intros x Hx. apply H. now right.
Qed.

Lemma unreached_add d affected :
  In d (all_dependents g) -> ~ In d affected ->
  S (unreached g (set_add d affected)) <= unreached g affected.
Proof.
  unfold unreached. intros Hd Hn.
  induction (all_dependents g) as [| x l IH]; [destruct Hd |].
  assert (Hmono : forall l',
    length (filter (fun d' => negb (mem d' (set_add d affected))) l')
    <= length (filter (fun d' => negb (mem d' affected)) l')).
  { induction l' as [| y l' IH']; simpl; [lia |].
    destruct (mem y affected) eqn:Ey.
    - assert (Ey' : mem y (set_add d affected) = true).
      { apply mem_In, set_add_In. right. now apply mem_In. }
      rewrite Ey'. simpl. exact IH'.
    - destruct (mem y (set_add d affected)); simpl; lia. }
  simpl. destruct Hd as [-> | Hd].
  - assert (E1 : mem d (set_add d affected) = true).
    { apply mem_In, set_add_In. now left. }
    assert (E2 : mem d affected = false) by now apply mem_false.
    rewrite E1, E2. simpl. specialize (Hmono l). lia.
  - specialize (IH Hd). destruct (mem x affected) eqn:Ex.
    + assert (Ex' : mem x (set_add d affected) = true).
      { apply mem_In, set_add_In. right. now apply mem_In. }
      rewrite Ex'. simpl. exact IH.
    + destruct (mem x (set_add d affected)); simpl; lia.
Qed.

Lemma affected_relax_measure : forall ds affected queue,
  (forall d, In d ds -> In d (all_dependents g)) ->
  length (snd (affected_relax ds (affected, queue)))
  + unreached g (fst (affected_relax ds (affected, queue)))
  <= length queue + unreached g affected.
Proof.
  induction ds as [| d ds IH]; intros affected queue H; [simpl; lia |].
  rewrite affected_relax_cons.
  assert (Hds : forall x, In x ds -> In x (all_dependents g)).
  { intros x Hx. apply H. now right. }
  destruct (mem d affected) eqn:E; simpl negb; cbv iota.
  - now apply IH.
  - apply mem_false in E.
    specialize (IH (set_add d affected) (queue ++ [d]) Hds).
    pose proof (unreached_add d affected (H d (or_introl eq_refl)) E).
    rewrite length_app in IH. simpl in IH. lia.
Qed.

Lemma dependents_recorded a node d :
  map_get a g = Some node -> In d (dependents node) -> In d (all_dependents g).
Proof.
  intros Hget Hd. unfold all_dependents. apply in_concat.
  exists (dependents node). split; [| assumption].
  apply in_map_iff. exists (a, node). split; [reflexivity |].
  now apply map_get_In.
Qed.

Lemma affected_loop_cons fuel affected a queue :
  affected_loop g (S fuel) affected (a :: queue)
  = match map_get a g with
    | Some node =>
        affected_loop g fuel
          (fst (affected_relax (dependents node) (affected, queue)))
          (snd (affected_relax (dependents node) (affected, queue)))
    | None => affected_loop g fuel affected queue
    end.
Proof.
  cbn [affected_loop]. destruct (map_get a g) as [node |]; [| reflexivity].
  now destruct (affected_relax (dependents node) (affected, queue)).
Qed.

Lemma affected_inv_step changed affected a queue node :
  map_get a g = Some node ->
  affected_inv g changed affected (a :: queue) ->
  affected_inv g changed
    (fst (affected_relax (dependents node) (affected, queue)))
    (snd (affected_relax (dependents node) (affected, queue))).
Proof.
  intros Hget (Hnd & Hq & Hx & Hsound & Hclosed).
  destruct (affected_relax_spec (dependents node) affected queue)
    as (H1 & H2 & H3).
  assert (Ha : In a affected) by (apply Hq; now left).
  split; [auto | split; [| split; [| split]]].
  - intros x Hxq. apply H2 in Hxq. apply H1.
    destruct Hxq as [Hxq | [Hxd _]]; [left; apply Hq; now right | now right].
  - intros x Hxc. apply H1. left. now apply Hx.
  - intros x Hxa. apply H1 in Hxa. destruct Hxa as [Hxa | Hxd]; [now apply Hsound |].
    destruct (Hsound a Ha) as (x0 & Hx0 & Hreach).
    exists x0. split; [assumption |].
    apply rt_trans with a; [assumption |]. apply rt_step. now exists node.
  - intros x Hxa Hxq b (node' & Hget' & Hb). apply H1.
    destruct (string_dec x a) as [-> | N].
    + right. congruence.
    + apply H1 in Hxa. destruct Hxa as [Hxa | Hxd].
      * left. apply (Hclosed x Hxa); [| now exists node'].
        intros [E | Hin]; [congruence |]. apply Hxq, H2. now left.
      * destruct (in_dec string_dec x affected) as [Hin | Hnin].
        -- left. apply (Hclosed x Hin); [| now exists node'].
           intros [E | Hin']; [congruence |]. apply Hxq, H2. now left.
        -- exfalso. apply Hxq, H2. right. auto.
Qed.

Lemma affected_inv_skip changed affected a queue :
  map_get a g = None ->
  affected_inv g changed affected (a :: queue) ->
  affected_inv g changed affected queue.
Proof.
  intros Hget (Hnd & Hq & Hx & Hsound & Hclosed).
  split; [auto | split; [| split; [| split]]]; auto.
  - intros x Hxq. apply Hq. now right.
  - intros x Hxa Hxq b Hb.
    destruct (string_dec x a) as [-> | N].
    + destruct Hb as (node & Hn & _). congruence.
    + apply (Hclosed x Hxa); [| assumption].
      intros [E | Hin]; [congruence | contradiction].
Qed.

Lemma affected_loop_spec changed : forall fuel affected queue,
  affected_inv g changed affected queue ->
  length queue + unreached g affected <= fuel ->
  exists s, affected_loop g fuel affected queue = Ok s /\
            affected_inv g changed s [].
Proof.
  induction fuel as [| fuel IH]; intros affected queue Hinv Hfuel.
  - destruct queue; [| simpl in Hfuel; lia]. exists affected. now split.
  - destruct queue as [| a queue]; [exists affected; now split |].
    rewrite affected_loop_cons. destruct (map_get a g) as [node |] eqn:Hget.
    + apply IH; [now apply (affected_inv_step changed affected a queue node) |].
      pose proof (affected_relax_measure (dependents node) affected queue) as Hm.
      simpl in Hfuel. specialize (Hm (fun d Hd => dependents_recorded a node d Hget Hd)).
      lia.
    + apply IH; [eapply affected_inv_skip; eassumption |].
      simpl in Hfuel. lia.
Qed.

Lemma affected_loop_closed s : forall queue fuel,
  closed_under_dependents g s ->
  (forall a, In a queue -> In a s) ->
  length queue <= fuel ->
  affected_loop g fuel s queue = Ok s.
Proof.
  induction queue as [| a queue IH]; intros fuel Hc Hq Hfuel.
  - now destruct fuel.
  - destruct fuel as [| fuel]; [simpl in Hfuel; lia |].
    rewrite affected_loop_cons.
    assert (Hq' : forall x, In x queue -> In x s) by (intros x Hx; apply Hq; now right).
    simpl in Hfuel.
    destruct (map_get a g) as [node |] eqn:Hget; [| apply IH; auto; lia].
    rewrite affected_relax_noop.
    + apply IH; auto; lia.
    + intros d Hd. apply (Hc a d); [apply Hq; now left | now exists node].
Qed.

Lemma set_of_acc_NoDup_id : forall l acc,
  NoDup (acc ++ l) -> fold_left (fun s x => set_add x s) l acc = acc ++ l.
Proof.
  induction l as [| x l IH]; intros acc H; simpl; [now rewrite app_nil_r |].
  assert (E : set_add x acc = acc ++ [x]).
  { unfold set_add. destruct (mem x acc) eqn:Em; [| reflexivity].
    apply mem_In in Em. exfalso.
    apply (NoDup_app_disjoint acc (x :: l) x H Em). now left. }
  rewrite E, IH; rewrite <- app_assoc; [reflexivity | exact H].
Qed.

Lemma set_of_NoDup_id l : NoDup l -> set_of l = l.
Proof. intros H. unfold set_of. now rewrite set_of_acc_NoDup_id. Qed.

Lemma affected_inv_init changed :
  affected_inv g changed (set_of changed) changed.
Proof.
  split; [apply set_of_NoDup | split; [| split; [| split]]].
  - intros a. apply set_of_In.
  - intros a. apply set_of_In.
  - intros a Ha. exists a. split; [now apply set_of_In | apply rt_refl].
  - intros a Ha Hn. exfalso. apply Hn. now apply set_of_In.
Qed.

Lemma affected_inv_final changed s :
  affected_inv g changed s [] ->
  NoDup s /\ closed_under_dependents g s /\
  forall a, In a s <->
            exists x, In x changed /\ clos_refl_trans string (dependent_of g) x a.
Proof.
  intros (Hnd & _ & Hx & Hsound & Hclosed).
  assert (Hc : closed_under_dependents g s).
  { intros a b Ha Hb. apply (Hclosed a Ha); [intros [] | assumption]. }
  split; [assumption | split; [assumption |]].
  intros a. split; [apply Hsound |].
  intros (x & Hxc & Hreach). apply Hx in Hxc.
  apply clos_rt_rt1n in Hreach.
  induction Hreach as [| x y z Hxy _ IH]; [assumption |].
  apply IH. eapply Hc; eassumption.
Qed.

End Affected.

(** C8.  For every graph and every list [X] of changed aliases,
    [getAffected] returns a set [s] that consists exactly of the members of
    [X] and of their transitive dependents, and running [getAffected] on
    [s] returns [s] again. *)
Theorem getAffected_fixed_point :
  forall (g : Graph) (X : list string),
    exists s,
      getAffected g X = Ok s /\
      getAffected g s = Ok s /\
      NoDup s /\
      forall a, In a s <->
                exists x, In x X /\ clos_refl_trans string (dependent_of g) x a.
Proof.
  intros g X.
  destruct (affected_loop_spec g X (affected_fuel g X) (set_of X) X)
    as (s & Hrun & Hinv).
  - apply affected_inv_init.
  - unfold affected_fuel, unreached, all_dependents.
    pose proof (filter_length_le (fun d => negb (mem d (set_of X)))
                  (concat (map (fun e => dependents (snd e)) g))).
    lia.
  - destruct (affected_inv_final g X s Hinv) as (Hnd & Hclosed & Hchar).
    exists s. split; [exact Hrun | split; [| split; assumption]].
    unfold getAffected. rewrite (set_of_NoDup_id s Hnd).
    apply affected_loop_closed; [assumption | auto |].
    unfold affected_fuel. lia.
Qed.

(** ** buildGraph *)

Lemma init_nodes_acc_NoDup : forall wss (acc : Graph),
  NoDup (map_keys acc) ->
  NoDup (map_keys
           (fold_left
              (fun nodes ws =>
                 map_set (identity ws)
                   (mkNode ws (set_of (dependsOn_list ws)) []) nodes)
              wss acc)).
Proof.
  induction wss as [| ws wss IH]; intros acc H; simpl; [assumption |].
  apply IH, map_keys_set_NoDup, H.
Qed.

Lemma init_nodes_acc_nodes : forall wss (acc : Graph),
  (forall a n, map_get a acc = Some n ->
     NoDup (dependencies n) /\ dependents n = []) ->
  forall a n,
    map_get a (fold_left
                 (fun nodes ws =>
                    map_set (identity ws)
                      (mkNode ws (set_of (dependsOn_list ws)) []) nodes)
                 wss acc) = Some n ->
    NoDup (dependencies n) /\ dependents n = [].
Proof.
  induction wss as [| ws wss IH]; intros acc H; simpl; [assumption |].
  apply IH. intros a n. rewrite map_get_set.
  destruct (String.eqb a (identity ws)); [| apply H].
  intros [= <-]. simpl. split; [apply set_of_NoDup | reflexivity].
Qed.

Lemma init_nodes_acc_keys : forall wss (acc : Graph) a,
  In a (map_keys
          (fold_left
             (fun nodes ws =>
                map_set (identity ws)
                  (mkNode ws (set_of (dependsOn_list ws)) []) nodes)
             wss acc))
  <-> In a (map_keys acc) \/ In a (map identity wss).
Proof.
  induction wss as [| ws wss IH]; intros acc a; simpl; [intuition |].
  rewrite IH, map_keys_set_In. intuition.
Qed.

Lemma init_nodes_keys wss a :
  In a (map_keys (init_nodes wss)) <-> In a (map identity wss).
Proof. unfold init_nodes. rewrite init_nodes_acc_keys. simpl. intuition. Qed.

Lemma add_dependent_keys alias dep (m : Graph) :
  map_keys (add_dependent alias dep m) = map_keys m.
Proof.
  unfold add_dependent. destruct (map_get dep m) as [n |] eqn:E; [| reflexivity].
  apply map_keys_set_present. eapply map_get_Some_keys, E.
Qed.

Lemma add_dependent_get alias dep (m : Graph) x :
  map_get x (add_dependent alias dep m)
  = match map_get x m with
    | Some n =>
        Some (if String.eqb x dep
              then mkNode (node_workspace n) (dependencies n)
                          (set_add alias (dependents n))
              else n)
    | None => None
    end.
Proof.
  unfold add_dependent. destruct (map_get dep m) as [n |] eqn:E.
  - rewrite map_get_set. destruct (String.eqb_spec x dep) as [-> | N].
    + now rewrite E.
    + now destruct (map_get x m).
  - destruct (String.eqb_spec x dep) as [-> | N].
    + now rewrite E.
    + now destruct (map_get x m).
Qed.

Lemma add_dependent_depends alias dep (m : Graph) a b :
  depends (add_dependent alias dep m) a b <-> depends m a b.
Proof.
  unfold depends. split.
  - intros (n & Hn & Hb). rewrite add_dependent_get in Hn.
    destruct (map_get a m) as [n0 |]; [| discriminate].
    injection Hn as <-. exists n0. split; [reflexivity |].
    now destruct (String.eqb a dep).
  - intros (n & Hn & Hb). rewrite add_dependent_get, Hn.
    eexists. split; [reflexivity |]. now destruct (String.eqb a dep).
Qed.

Lemma add_dependent_dependent_of alias dep (m : Graph) a b :
  dependent_of (add_dependent alias dep m) a b <->
  dependent_of m a b \/ (a = dep /\ b = alias /\ In dep (map_keys m)).
Proof.
  unfold dependent_of. split.
  - intros (n & Hn & Hb). rewrite add_dependent_get in Hn.
    destruct (map_get a m) as [n0 |] eqn:E; [| discriminate].
    injection Hn as <-. destruct (String.eqb_spec a dep) as [-> | N].
    + simpl in Hb. apply set_add_In in Hb. destruct Hb as [-> | Hb].
      * right. repeat split. eapply map_get_Some_keys, E.
      * left. eauto.
    + left. eauto.
  - intros [(n & Hn & Hb) | (-> & -> & Hk)].
    + rewrite add_dependent_get, Hn. eexists. split; [reflexivity |].
      destruct (String.eqb a dep); [| assumption].
      simpl. apply set_add_In. now right.
    + apply map_keys_get in Hk. destruct Hk as [n Hn].
      rewrite add_dependent_get, Hn, String.eqb_refl.
      eexists. split; [reflexivity |]. simpl. apply set_add_In. now left.
Qed.

Lemma add_dependent_NoDup alias dep (m : Graph) :
  (forall a n, map_get a m = Some n ->
     NoDup (dependencies n) /\ NoDup (dependents n)) ->
  forall a n, map_get a (add_dependent alias dep m) = Some n ->
    NoDup (dependencies n) /\ NoDup (dependents n).
Proof.
  intros H a n. rewrite add_dependent_get.
  destruct (map_get a m) as [n0 |] eqn:E; [| discriminate].
  intros [= <-]. destruct (H a n0 E) as [H1 H2].
  destruct (String.eqb a dep); simpl; [| auto].
  split; [assumption | now apply set_add_NoDup].
Qed.

Lemma add_dependents_spec alias : forall ds (m : Graph),
  let m' := fold_left (fun nodes' dep => add_dependent alias dep nodes') ds m in
  map_keys m' = map_keys m /\
  (forall a b, depends m' a b <-> depends m a b) /\
  (forall a b, dependent_of m' a b <->
     dependent_of m a b \/ (b = alias /\ In a ds /\ In a (map_keys m))) /\
  ((forall a n, map_get a m = Some n ->
      NoDup (dependencies n) /\ NoDup (dependents n)) ->
   forall a n, map_get a m' = Some n ->
      NoDup (dependencies n) /\ NoDup (dependents n)).
Proof.
  induction ds as [| d ds IH]; intros m; cbv zeta.
  - simpl. split; [reflexivity | split; [reflexivity | split; [| auto]]].
    intros a b. split; [auto | intros [H | (_ & [] & _)]; exact H].
  - cbn [fold_left].
    destruct (IH (add_dependent alias d m)) as (Hk & Hd & Hr & Hn).
    rewrite add_dependent_keys in Hk, Hr.
    split; [assumption | split; [| split]].
    + intros a b. rewrite Hd. apply add_dependent_depends.
    + intros a b. rewrite Hr, add_dependent_dependent_of. simpl.
      split.
      * intros [[H | (-> & -> & H)] | (-> & H1 & H2)]; auto.
      * intros [H | (-> & [-> | H1] & H2)]; auto.
    + intros H. apply Hn. now apply add_dependent_NoDup.
Qed.

Lemma add_reverse_edges_spec : forall (l m : Graph),
  let m' := fold_left
              (fun nodes entry =>
                 fold_left (fun nodes' dep => add_dependent (fst entry) dep nodes')
                           (dependencies (snd entry)) nodes)
              l m in
  map_keys m' = map_keys m /\
  (forall a b, depends m' a b <-> depends m a b) /\
  (forall a b, dependent_of m' a b <->
     dependent_of m a b \/
     (exists n, In (b, n) l /\ In a (dependencies n) /\ In a (map_keys m))) /\
  ((forall a n, map_get a m = Some n ->
      NoDup (dependencies n) /\ NoDup (dependents n)) ->
   forall a n, map_get a m' = Some n ->
      NoDup (dependencies n) /\ NoDup (dependents n)).
Proof.
  induction l as [| [alias node] l IH]; intros m; cbv zeta.
  - simpl. split; [reflexivity | split; [reflexivity | split; [| auto]]].
    intros a b. split; [auto | intros [H | (n & [] & _)]; exact H].
  - cbn [fold_left fst snd].
    destruct (add_dependents_spec alias (dependencies node) m)
      as (Hk1 & Hd1 & Hr1 & Hn1).
    destruct (IH (fold_left (fun nodes' dep => add_dependent alias dep nodes')
                            (dependencies node) m)) as (Hk & Hd & Hr & Hn).
    rewrite Hk1 in Hk, Hr.
    split; [assumption | split; [| split]].
    + intros a b. now rewrite Hd, Hd1.
    + intros a b. rewrite Hr, Hr1. split.
      * intros [[H | (-> & H1 & H2)] | (n & H1 & H2 & H3)]; auto.
        -- right. exists node. split; [now left | auto].
        -- right. exists n. split; [now right | auto].
      * intros [H | (n & [E | H1] & H2 & H3)]; auto.
        -- injection E as -> ->. auto.
        -- right. exists n. auto.
    + intros H. apply Hn. now apply Hn1.
Qed.

Lemma init_nodes_wf wss :
  NoDup (map_keys (init_nodes wss)) /\
  forall a n, map_get a (init_nodes wss) = Some n ->
    NoDup (dependencies n) /\ dependents n = [].
Proof.
  split.
  - apply init_nodes_acc_NoDup. constructor.
  - apply init_nodes_acc_nodes. discriminate.
Qed.

Lemma buildGraph_wf config : graph_wf (buildGraph config).
Proof.
  unfold buildGraph, add_reverse_edges.
  destruct (init_nodes_wf (workspace config)) as [Hnd Hnodes].
  destruct (add_reverse_edges_spec (init_nodes (workspace config))
              (init_nodes (workspace config))) as (Hk & Hd & Hr & Hn).
  split; [now rewrite Hk | split].
  - apply Hn. intros a n Hget. destruct (Hnodes a n Hget) as [H1 H2].
    split; [assumption |]. rewrite H2. constructor.
  - intros a b. rewrite Hr, Hk, Hd. split.
    + intros [(n & Hget & Hb) | (n & Hin & Ha & Hka)].
      * destruct (Hnodes a n Hget) as [_ E]. rewrite E in Hb. destruct Hb.
      * split; [| assumption]. exists n. split; [| assumption].
        now apply map_In_get.
    + intros [(n & Hget & Ha) Hka]. right. exists n.
      split; [now apply map_get_In | auto].
Qed.

Lemma buildGraph_keys config a :
  In a (map_keys (buildGraph config)) <-> In a (map identity (workspace config)).
Proof.
  unfold buildGraph, add_reverse_edges.
  destruct (add_reverse_edges_spec (init_nodes (workspace config))
              (init_nodes (workspace config))) as (Hk & _).
  rewrite Hk. apply init_nodes_keys.
Qed.

(** ** Acyclic graphs have minimal elements *)

Lemma dependsb_spec g a b : dependsb g a b = true <-> depends g a b.
Proof.
  unfold dependsb, depends. destruct (map_get a g) as [n |].
  - rewrite mem_In. split; [eauto |]. now intros (n' & [= <-] & H).
  - split; [discriminate | now intros (n' & E & _)].
Qed.

Lemma depends_dec g a b : {depends g a b} + {~ depends g a b}.
Proof.
  destruct (dependsb g a b) eqn:E.
  - left. now apply dependsb_spec.
  - right. intros H. apply dependsb_spec in H. congruence.
Qed.

(** Either [a] has a dependency in [u], or it has none there. *)
Lemma dependency_in_dec g (u : list string) a :
  {b | depends g a b /\ In b u} + {forall b, depends g a b -> ~ In b u}.
Proof.
  induction u as [| x u IH].
  - right. intros b _ [].
  - destruct (depends_dec g a x) as [Hx | Hx].
    + left. exists x. split; [assumption | now left].
    + destruct IH as [(b & Hb & Hin) | Hnone].
      * left. exists b. split; [assumption | now right].
      * right. intros b Hb [<- | Hin]; [contradiction | now apply (Hnone b)].
Qed.

Lemma remove_length_lt (x : string) (l : list string) :
  In x l -> length (remove string_dec x l) < length l.
Proof.
  induction l as [| y l IH]; simpl; [intros [] |].
  intros [-> | H].
  - destruct (string_dec x x); [| contradiction].
    pose proof (remove_length_le string_dec l x). lia.
  - destruct (string_dec x y); simpl.
    + pose proof (remove_length_le string_dec l x). lia.
    + specialize (IH H). lia.
Qed.

Lemma minimal_from g : acyclic g ->
  forall n (u : list string) x, length u <= n -> In x u ->
    exists m, In m u /\ clos_refl_trans string (depends g) x m /\
              forall b, depends g m b -> ~ In b u.
Proof.
  intros Hacyc. induction n as [| n IH]; intros u x Hlen Hx.
  - destruct u; [destruct Hx | simpl in Hlen; lia].
  - destruct (dependency_in_dec g u x) as [(y & Hxy & Hy) | Hmin].
    + assert (Nyx : y <> x).
      { intros ->. apply (Hacyc x). now apply t_step. }
      destruct (IH (remove string_dec x u) y) as (m & Hm & Hreach & Hmin).
      * pose proof (remove_length_lt x u Hx). lia.
      * now apply in_in_remove.
      * apply in_remove in Hm. destruct Hm as [Hm Nm].
        exists m. split; [assumption | split].
        -- apply rt_trans with y; [now apply rt_step | assumption].
        -- intros b Hb Hbu.
           destruct (string_dec b x) as [-> | Nb].
           ++ apply (Hacyc x).
              apply clos_rt_t with y; [now apply rt_step |].
              apply clos_rt_t with m; [assumption | now apply t_step].
           ++ apply (Hmin b Hb). now apply in_in_remove.
    + exists x. split; [assumption | split; [apply rt_refl | assumption]].
Qed.

Lemma minimal_element g (u : list string) :
  acyclic g -> u <> [] ->
  exists m, In m u /\ forall b, depends g m b -> ~ In b u.
Proof.
  intros Hacyc Hu. destruct u as [| x u]; [contradiction |].
  destruct (minimal_from g Hacyc (length (x :: u)) (x :: u) x (le_n _)
              (or_introl eq_refl)) as (m & Hm & _ & Hmin).
  eauto.
Qed.

(** ** getTopologicalOrder (Kahn's algorithm) *)

Lemma topo_relax_cons d ds inDegree queue :
  topo_relax (d :: ds) (inDegree, queue)
  = topo_relax ds
      (map_set d (decremented inDegree d) inDegree,
       if jsnum_is_zero (decremented inDegree d) then queue ++ [d] else queue).
Proof. reflexivity. Qed.

(** The loop over the dependents decrements each of them once and pushes
    those that reach zero, in order. *)
Lemma topo_relax_spec : forall ds inDegree queue,
  NoDup ds ->
  (forall x, map_get x (fst (topo_relax ds (inDegree, queue)))
             = if mem x ds then Some (decremented inDegree x)
               else map_get x inDegree) /\
  snd (topo_relax ds (inDegree, queue))
  = queue ++ filter (fun d => jsnum_is_zero (decremented inDegree d)) ds.
Proof.
  induction ds as [| d ds IH]; intros inDegree queue Hnd.
  - simpl. split; [reflexivity | now rewrite app_nil_r].
  - rewrite topo_relax_cons. inversion Hnd as [| ? ? Hd Hnd']; subst.
    destruct (IH (map_set d (decremented inDegree d) inDegree)
                 (if jsnum_is_zero (decremented inDegree d)
                  then queue ++ [d] else queue) Hnd') as [H1 H2].
    assert (Hdec : forall x, In x ds ->
              decremented (map_set d (decremented inDegree d) inDegree) x
              = decremented inDegree x).
    { intros x Hx. unfold decremented at 1 3.
      rewrite map_get_set_neq; [reflexivity |]. intros ->. contradiction. }
    split.
    + intros x. rewrite H1. simpl. rewrite (String.eqb_sym x d).
      destruct (mem x ds) eqn:Ex.
      * apply mem_In in Ex. rewrite Hdec by assumption.
        now destruct (String.eqb d x).
      * rewrite map_get_set. rewrite (String.eqb_sym x d).
        destruct (String.eqb_spec d x) as [-> | N]; reflexivity.
    + rewrite H2. simpl.
      assert (Ef : filter (fun d0 => jsnum_is_zero
                    (decremented (map_set d (decremented inDegree d) inDegree) d0)) ds
                   = filter (fun d0 => jsnum_is_zero (decremented inDegree d0)) ds).
      { apply filter_ext_in. intros x Hx. now rewrite Hdec. }
      rewrite Ef. destruct (jsnum_is_zero (decremented inDegree d)).
      * now rewrite <- app_assoc.
      * reflexivity.
Qed.

Lemma topo_loop_cons g fuel inDegree a queue result :
  topo_loop g (S fuel) inDegree (a :: queue) result
  = match map_get a g with
    | None => Err TypeError
    | Some node =>
        topo_loop g fuel
          (fst (topo_relax (dependents node) (inDegree, queue)))
          (snd (topo_relax (dependents node) (inDegree, queue)))
          (result ++ [a])
    end.
Proof.
  cbn [topo_loop]. destruct (map_get a g) as [node |]; [| reflexivity].
  now destruct (topo_relax (dependents node) (inDegree, queue)).
Qed.

Lemma topo_init_acc : forall (l : Graph) inDegree queue,
  fold_left
    (fun st entry =>
       let '(inDegree, queue) := st in
       let size := length (dependencies (snd entry)) in
       (map_set (fst entry) (Num (Z.of_nat size)) inDegree,
        if Nat.eqb size 0 then queue ++ [fst entry] else queue))
    l (inDegree, queue)
  = (fold_left
       (fun m entry =>
          map_set (fst entry)
                  (Num (Z.of_nat (length (dependencies (snd entry))))) m)
       l inDegree,
     queue ++ map fst (filter (fun e => Nat.eqb (length (dependencies (snd e))) 0) l)).
Proof.
  induction l as [| e l IH]; intros inDegree queue; simpl.
  - now rewrite app_nil_r.
  - rewrite IH. destruct (Nat.eqb (length (dependencies (snd e))) 0); simpl.
    + now rewrite <- app_assoc.
    + reflexivity.
Qed.

Lemma fold_set_get {V W} (f : W -> V) : forall (l : jsmap W) (acc : jsmap V) a,
  NoDup (map_keys l) ->
  map_get a (fold_left (fun m entry => map_set (fst entry) (f (snd entry)) m) l acc)
  = match map_get a l with
    | Some w => Some (f w)
    | None => map_get a acc
    end.
Proof.
  induction l as [| [k w] l IH]; intros acc a Hnd; simpl; [reflexivity |].
  inversion Hnd as [| ? ? Hk Hnd']; subst. rewrite IH by assumption.
  destruct (String.eqb_spec a k) as [-> | N].
  - apply map_get_None_keys in Hk. rewrite Hk. apply map_get_set_eq.
  - rewrite map_get_set_neq by assumption. reflexivity.
Qed.

Lemma depends_getDependencies g a b :
  depends g a b <-> In b (getDependencies g a).
Proof.
  unfold depends, getDependencies. destruct (map_get a g) as [n |].
  - split; [now intros (n' & [= <-] & H) | eauto].
  - split; [now intros (n' & E & _) | intros []].
Qed.

Lemma remaining_deps_nil g done a :
  remaining_deps g done a = [] <-> forall b, depends g a b -> In b done.
Proof.
  unfold remaining_deps. split.
  - intros E b Hb. apply depends_getDependencies in Hb.
    destruct (mem b done) eqn:Em; [now apply mem_In |].
    assert (Hin : In b (filter (fun d => negb (mem d done)) (getDependencies g a))).
    { apply filter_In. split; [assumption | now rewrite Em]. }
    rewrite E in Hin. destruct Hin.
  - intros H. apply filter_nil. intros b Hb.
    apply depends_getDependencies, H, mem_In in Hb. now rewrite Hb.
Qed.

Lemma remaining_deps_In g done a b :
  In b (remaining_deps g done a) <-> depends g a b /\ ~ In b done.
Proof.
  unfold remaining_deps. rewrite filter_In, depends_getDependencies.
  rewrite negb_true_iff, mem_false. reflexivity.
Qed.

Lemma filter_add_count (done l : list string) x :
  NoDup l -> ~ In x done ->
  length (filter (fun d => negb (mem d (done ++ [x]))) l)
  + (if mem x l then 1 else 0)
  = length (filter (fun d => negb (mem d done)) l).
Proof.
  intros Hnd Hx. induction l as [| y l IH]; simpl; [reflexivity |].
  inversion Hnd as [| ? ? Hy Hnd']; subst. specialize (IH Hnd').
  assert (Emem : mem y (done ++ [x]) = mem y done || String.eqb y x).
  { unfold mem. rewrite existsb_app. simpl. now rewrite orb_false_r. }
  rewrite Emem. rewrite (String.eqb_sym y x).
  destruct (String.eqb_spec x y) as [-> | N].
  - assert (E1 : mem y done = false) by now apply mem_false.
    assert (E2 : mem y l = false) by now apply mem_false.
    rewrite E1. rewrite E2 in IH. simpl. lia.
  - rewrite orb_false_r. destruct (mem y done); simpl; lia.
Qed.

Lemma remaining_deps_add g done a x :
  NoDup (getDependencies g a) -> ~ In x done ->
  Z.of_nat (length (remaining_deps g (done ++ [x]) a))
  = (Z.of_nat (length (remaining_deps g done a))
     - (if mem x (getDependencies g a) then 1 else 0))%Z.
Proof.
  intros Hnd Hx. unfold remaining_deps.
  pose proof (filter_add_count done (getDependencies g a) x Hnd Hx) as H.
  destruct (mem x (getDependencies g a)); lia.
Qed.

Lemma remaining_deps_nil_mono g done a x :
  remaining_deps g done a = [] -> remaining_deps g (done ++ [x]) a = [].
Proof.
  rewrite !remaining_deps_nil. intros H b Hb. apply in_or_app. left. auto.
Qed.

Lemma before_app_r l l' b a : before l b a -> before (l ++ l') b a.
Proof.
  intros (l1 & l2 & -> & Hb). exists l1, (l2 ++ l').
  split; [now rewrite <- app_assoc | assumption].
Qed.

Section Topo.
Variable g : Graph.
Hypothesis Hwf : graph_wf g.

Lemma wf_getDependencies_NoDup a : NoDup (getDependencies g a).
Proof.
  unfold getDependencies. destruct (map_get a g) as [n |] eqn:E; [| constructor].
  now apply (proj1 (proj2 Hwf) a n).
Qed.

Lemma wf_dependents a node d :
  map_get a g = Some node ->
  (In d (dependents node) <-> depends g d a).
Proof.
  intros Hget. destruct Hwf as (_ & _ & Hrev). split.
  - intros Hd. apply (Hrev a d). now exists node.
  - intros Hd. destruct (proj2 (Hrev a d)) as (n & Hn & Hin).
    + split; [assumption | eapply map_get_Some_keys, Hget].
    + congruence.
Qed.

Lemma depends_key a b : depends g a b -> In a (map_keys g).
Proof. intros (n & Hn & _). eapply map_get_Some_keys, Hn. Qed.

Lemma topo_inv_step inDegree a queue result node :
  map_get a g = Some node ->
  topo_inv g inDegree (a :: queue) result ->
  topo_inv g
    (fst (topo_relax (dependents node) (inDegree, queue)))
    (snd (topo_relax (dependents node) (inDegree, queue)))
    (result ++ [a]).
Proof.
  intros Hget (Hnd & Hkeys & Hdeg & Hready & Htopo).
  assert (Hnd_ds : NoDup (dependents node)) by now apply (proj1 (proj2 Hwf) a node).
  destruct (topo_relax_spec (dependents node) inDegree queue Hnd_ds) as [Hm Hq].
  assert (Ha_res : ~ In a result).
  { intros Hin. apply (NoDup_app_disjoint result (a :: queue) a Hnd Hin). now left. }
  assert (Ha_key : In a (map_keys g)) by (eapply map_get_Some_keys, Hget).
  assert (Hmem : forall x, mem a (getDependencies g x) = mem x (dependents node)).
  { intros x. apply eq_true_iff_eq. rewrite !mem_In.
    rewrite <- depends_getDependencies. symmetry. now apply wf_dependents. }
  assert (Hdeg' : forall x, In x (map_keys g) ->
            map_get x (fst (topo_relax (dependents node) (inDegree, queue)))
            = Some (Num (Z.of_nat (length (remaining_deps g (result ++ [a]) x))))).
  { intros x Hx. rewrite Hm.
    rewrite (remaining_deps_add g result x a (wf_getDependencies_NoDup x) Ha_res).
    rewrite Hmem. destruct (mem x (dependents node)).
    - unfold decremented. rewrite (Hdeg x Hx). reflexivity.
    - rewrite (Hdeg x Hx). now rewrite Z.sub_0_r. }
  assert (Hnew : forall x,
            In x (filter (fun d => jsnum_is_zero (decremented inDegree d))
                         (dependents node)) <->
            In x (map_keys g) /\ depends g x a /\
            remaining_deps g (result ++ [a]) x = []).
  { intros x. rewrite filter_In. split.
    - intros [Hx Hz]. apply (wf_dependents a node x Hget) in Hx as Hdep.
      pose proof (depends_key x a Hdep) as Hk.
      split; [assumption | split; [assumption |]].
      apply mem_In in Hx.
      pose proof (Hdeg' x Hk) as E. rewrite Hm, Hx in E.
      injection E as E. rewrite E in Hz. simpl in Hz.
      apply Z.eqb_eq in Hz. apply length_zero_iff_nil. lia.
    - intros (Hk & Hdep & Hnil).
      apply (wf_dependents a node x Hget) in Hdep as Hx.
      split; [assumption |]. apply mem_In in Hx.
      pose proof (Hdeg' x Hk) as E. rewrite Hm, Hx in E.
      injection E as E. rewrite E, Hnil. reflexivity. }
  rewrite Hq.
  split; [| split; [| split; [assumption | split]]].
  - rewrite <- app_assoc. simpl.
    replace (result ++ a :: queue
             ++ filter (fun d => jsnum_is_zero (decremented inDegree d))
                       (dependents node))
      with ((result ++ a :: queue)
            ++ filter (fun d => jsnum_is_zero (decremented inDegree d))
                      (dependents node))
      by (now rewrite <- app_assoc).
    apply NoDup_app; [assumption | now apply NoDup_filter |].
    intros x Hx Hf. apply Hnew in Hf. destruct Hf as (Hk & Hdep & _).
    apply (Hready x Hk) in Hx. rewrite remaining_deps_nil in Hx.
    apply Ha_res. now apply (Hx a).
  - intros x Hx. rewrite <- app_assoc in Hx. simpl in Hx.
    apply in_app_or in Hx. destruct Hx as [Hx | [<- | Hx]].
    + apply Hkeys, in_or_app. now left.
    + assumption.
    + apply in_app_or in Hx. destruct Hx as [Hx | Hx].
      * apply Hkeys, in_or_app. right. now right.
      * now apply Hnew in Hx.
  - intros x Hk. split.
    + intros Hx. rewrite <- app_assoc in Hx. simpl in Hx.
      assert (Hold : In x (result ++ a :: queue) \/
                     In x (filter (fun d => jsnum_is_zero (decremented inDegree d))
                                  (dependents node))).
      { rewrite !in_app_iff in *. simpl in *. rewrite in_app_iff in Hx. tauto. }
      destruct Hold as [Hold | Hf].
      * apply remaining_deps_nil_mono. now apply (Hready x Hk).
      * now apply Hnew in Hf.
    + intros Hnil. rewrite <- app_assoc. simpl.
      destruct (depends_dec g x a) as [Hdep | Hdep].
      * destruct (in_dec string_dec x (result ++ a :: queue)) as [Hin | Hnin].
        -- rewrite !in_app_iff in *. simpl in *. rewrite in_app_iff. tauto.
        -- assert (Hf : In x (filter (fun d => jsnum_is_zero (decremented inDegree d))
                                     (dependents node))) by (apply Hnew; auto).
           rewrite !in_app_iff. simpl. rewrite in_app_iff. tauto.
      * assert (Hold : In x (result ++ a :: queue)).
        { apply (Hready x Hk). apply remaining_deps_nil.
          rewrite remaining_deps_nil in Hnil. intros b Hb.
          specialize (Hnil b Hb). apply in_app_or in Hnil.
          destruct Hnil as [Hnil | [<- | []]]; [assumption | contradiction]. }
        rewrite !in_app_iff in *. simpl in *. rewrite in_app_iff. tauto.
  - intros x b Hx Hb. apply in_app_or in Hx. destruct Hx as [Hx | [<- | []]].
    + apply before_app_r. now apply Htopo.
    + exists result, []. split; [reflexivity |].
      assert (Hnil : remaining_deps g result a = []).
      { apply (Hready a Ha_key), in_or_app. right. now left. }
      rewrite remaining_deps_nil in Hnil. now apply Hnil.
Qed.

Lemma filter_all {A} (p : A -> bool) l :
  (forall x, In x l -> p x = true) -> filter p l = l.
Proof.
  induction l as [| x l IH]; intros H; simpl; [reflexivity |].
  rewrite (H x) by now left. f_equal. apply IH. intros y Hy. apply H. now right.
Qed.

Lemma remaining_deps_start a : remaining_deps g [] a = getDependencies g a.
Proof. unfold remaining_deps. now apply filter_all. Qed.

Lemma topo_init_inv :
  topo_inv g (fst (topo_init g)) (snd (topo_init g)) [].
Proof.
  unfold topo_init. rewrite topo_init_acc. cbn [fst snd app].
  destruct Hwf as (Hnd & _ & _).
  assert (Hq : forall a,
            In a (map fst (filter (fun e => Nat.eqb (length (dependencies (snd e))) 0) g))
            <-> In a (map_keys g) /\ getDependencies g a = []).
  { intros a. rewrite in_map_iff. unfold getDependencies. split.
    - intros ([k n] & <- & Hin). apply filter_In in Hin. destruct Hin as [Hin E].
      simpl in *. apply Nat.eqb_eq, length_zero_iff_nil in E.
      rewrite (map_In_get k n g Hnd Hin).
      split; [| assumption]. change k with (fst (k, n)). now apply in_map.
    - intros [Hk E]. apply map_keys_get in Hk. destruct Hk as [n Hn].
      rewrite Hn in E. exists (a, n). split; [reflexivity |].
      apply filter_In. split; [now apply map_get_In |]. simpl. now rewrite E. }
  split; [| split; [| split; [| split]]].
  - simpl. now apply NoDup_map_filter.
  - simpl. intros a Ha. now apply Hq in Ha.
  - intros a Ha.
    rewrite (fold_set_get (fun n => Num (Z.of_nat (length (dependencies n)))) g [] a Hnd).
    rewrite remaining_deps_start. unfold getDependencies.
    apply map_keys_get in Ha. destruct Ha as [n Hn]. now rewrite Hn.
  - intros a Ha. simpl. rewrite Hq, remaining_deps_start. tauto.
  - intros a b [].
Qed.

Lemma topo_loop_spec : forall fuel inDegree queue result,
  topo_inv g inDegree queue result ->
  length g <= fuel + length result ->
  exists res inDegree',
    topo_loop g fuel inDegree queue result = Ok res /\
    topo_inv g inDegree' [] res.
Proof.
  induction fuel as [| fuel IH]; intros inDegree queue result Hinv Hfuel.
  - destruct queue as [| a queue]; [exists result, inDegree; now split |].
    exfalso. destruct Hinv as (Hnd & Hkeys & _).
    pose proof (NoDup_incl_length Hnd Hkeys) as Hlen.
    rewrite length_app in Hlen. unfold map_keys in Hlen.
    rewrite length_map in Hlen. simpl in *. lia.
  - destruct queue as [| a queue]; [exists result, inDegree; now split |].
    rewrite topo_loop_cons.
    destruct (map_keys_get a g) as [node Hget].
    { apply (proj1 (proj2 Hinv)), in_or_app. right. now left. }
    rewrite Hget. apply IH.
    + now apply topo_inv_step.
    + rewrite length_app. simpl. lia.
Qed.

Lemma topo_inv_complete inDegree res :
  deps_known g -> acyclic g ->
  topo_inv g inDegree [] res ->
  NoDup res /\ Permutation res (map_keys g) /\ topological g res.
Proof.
  intros Hknown Hacyc (Hnd & Hkeys & _ & Hready & Htopo).
  rewrite app_nil_r in Hnd.
  assert (Hsub : forall a, In a res -> In a (map_keys g)).
  { intros a Ha. apply Hkeys. now rewrite app_nil_r. }
  assert (Hall : forall a, In a (map_keys g) -> In a res).
  { intros a Ha.
    destruct (in_dec string_dec a res) as [Hin | Hnin]; [assumption |].
    exfalso.
    set (u := filter (fun k => negb (mem k res)) (map_keys g)).
    assert (Hu : forall x, In x u <-> In x (map_keys g) /\ ~ In x res).
    { intros x. unfold u. rewrite filter_In, negb_true_iff, mem_false. tauto. }
    destruct (minimal_element g u Hacyc) as (m & Hm & Hmin).
    { intros E. assert (Hau : In a u) by (apply Hu; auto).
      rewrite E in Hau. destruct Hau. }
    apply Hu in Hm. destruct Hm as [Hmk Hmr]. apply Hmr.
    rewrite <- (app_nil_r res). apply (Hready m Hmk).
    apply remaining_deps_nil. intros b Hb.
    destruct (in_dec string_dec b res) as [Hb' | Hb']; [assumption |].
    exfalso. apply (Hmin b Hb). apply Hu. split; [| assumption].
    now apply (Hknown m b). }
  split; [assumption | split; [| assumption]].
  apply NoDup_Permutation; [assumption | apply (proj1 Hwf) |].
  intros a. split; auto.
Qed.

End Topo.

Lemma getTopologicalOrder_spec g :
  graph_wf g -> deps_known g -> acyclic g ->
  exists order,
    getTopologicalOrder g = Ok order /\
    NoDup order /\ Permutation order (getAllAliases g) /\ topological g order.
Proof.
  intros Hwf Hknown Hacyc.
  destruct (topo_loop_spec g Hwf (length g) (fst (topo_init g))
              (snd (topo_init g)) []) as (res & m' & Hrun & Hinv).
  - now apply topo_init_inv.
  - simpl. lia.
  - destruct (topo_inv_complete g Hwf m' res Hknown Hacyc Hinv)
      as (Hnd & Hperm & Htopo).
    exists res. split; [| auto].
    unfold getTopologicalOrder.
    destruct (topo_init g) as [inDegree queue]. simpl in Hrun.
    rewrite Hrun. cbn [bind].
    assert (E : length res = length g).
    { apply Permutation_length in Hperm. unfold map_keys in Hperm.
      now rewrite length_map in Hperm. }
    rewrite E, Nat.eqb_refl. reflexivity.
Qed.

(** ** getParallelBatches *)

Lemma batch_relax_get : forall ds (m : jsmap Z) x,
  NoDup ds ->
  map_get x (batch_relax ds m)
  = if mem x ds then option_map (fun z => (z - 1)%Z) (map_get x m)
    else map_get x m.
Proof.
  unfold batch_relax.
  induction ds as [| d ds IH]; intros m x Hnd; [reflexivity |].
  inversion Hnd as [| ? ? Hd Hnd']; subst. cbn [fold_left].
  rewrite IH by assumption. simpl. rewrite (String.eqb_sym x d).
  destruct (mem x ds) eqn:Ex.
  - apply mem_In in Ex.
    assert (N : x <> d) by (intros ->; contradiction).
    destruct (String.eqb_spec d x); [congruence |].
    destruct (map_get d m); [now rewrite map_get_set_neq | reflexivity].
  - destruct (String.eqb_spec d x) as [-> | N].
    + destruct (map_get x m) eqn:E; [now rewrite map_get_set_eq | now rewrite E].
    + destruct (map_get d m); [| reflexivity].
      rewrite map_get_set_neq; [reflexivity | congruence].
Qed.

Section Batches.
Variable g : Graph.
Hypothesis Hwf : graph_wf g.

Lemma batch_remove_spec : forall batch (m m' : jsmap Z) done,
  NoDup batch ->
  (forall a, In a batch -> ~ In a done) ->
  (forall x, In x (map_keys m) ->
     map_get x m = Some (Z.of_nat (length (remaining_deps g done x)))) ->
  batch_remove g batch m = Ok m' ->
  forall x, In x (map_keys m') ->
    map_get x m' = Some (Z.of_nat (length (remaining_deps g (done ++ batch) x))).
Proof.
  induction batch as [| a batch IH]; intros m m' done Hnd Hfresh Hdeg.
  - simpl. intros [= <-] x Hx. rewrite app_nil_r. now apply Hdeg.
  - cbn [batch_remove]. destruct (map_get a g) as [node |] eqn:Hget; [| discriminate].
    intros Hrun x Hx. inversion Hnd as [| ? ? Ha Hnd']; subst.
    replace (done ++ a :: batch) with ((done ++ [a]) ++ batch)
      by (now rewrite <- app_assoc).
    apply (IH (batch_relax (dependents node) (map_delete a m)) m' (done ++ [a]));
      try assumption.
    + intros b Hb Hin. apply in_app_or in Hin. destruct Hin as [Hin | [<- | []]].
      * apply (Hfresh b); [now right | assumption].
      * contradiction.
    + intros y Hy. rewrite batch_relax_keys, map_keys_delete in Hy.
      apply set_delete_In in Hy. destruct Hy as [Hy Nya].
      rewrite batch_relax_get by now apply (proj1 (proj2 Hwf) a node).
      rewrite map_get_delete.
      destruct (String.eqb_spec y a) as [-> | _]; [contradiction |].
      rewrite (Hdeg y Hy).
      rewrite (remaining_deps_add g done y a (wf_getDependencies_NoDup g Hwf y));
        [| apply Hfresh; now left].
      assert (Hmem : mem a (getDependencies g y) = mem y (dependents node)).
      { apply eq_true_iff_eq. rewrite !mem_In, <- depends_getDependencies.
        symmetry. now apply wf_dependents. }
      rewrite Hmem. destruct (mem y (dependents node)); simpl; [reflexivity |].
      now rewrite Z.sub_0_r.
Qed.

Lemma in_batch_concat (bs : list (list string)) a :
  In a (concat bs) <-> exists i, in_batch bs i a.
Proof.
  rewrite in_concat. unfold in_batch. split.
  - intros (b & Hb & Ha). apply In_nth_error in Hb. destruct Hb as [i Hi]. eauto.
  - intros (i & b & Hi & Ha). apply nth_error_In in Hi. eauto.
Qed.

Lemma in_batch_app_l (bs : list (list string)) b i a :
  in_batch bs i a -> in_batch (bs ++ [b]) i a.
Proof.
  intros (b' & Hi & Ha). exists b'. split; [| assumption].
  rewrite nth_error_app1; [assumption |]. apply nth_error_Some. congruence.
Qed.

Lemma in_batch_app_inv (bs : list (list string)) b i a :
  in_batch (bs ++ [b]) i a ->
  in_batch bs i a \/ (i = length bs /\ In a b).
Proof.
  intros (b' & Hi & Ha).
  destruct (Nat.lt_ge_cases i (length bs)) as [Hlt | Hge].
  - left. exists b'. now rewrite nth_error_app1 in Hi.
  - right. rewrite nth_error_app2 in Hi by assumption.
    destruct (i - length bs) as [| k] eqn:Ek; simpl in Hi.
    + injection Hi as <-. split; [lia | assumption].
    + now destruct k.
Qed.

Lemma in_batch_lt (bs : list (list string)) i a :
  in_batch bs i a -> i < length bs.
Proof. intros (b & Hi & _). apply nth_error_Some. congruence. Qed.

Lemma batch_inv_init : batch_inv g (batch_init g) [].
Proof.
  destruct Hwf as (Hnd & _ & _).
  split; [apply batch_init_NoDup | split; [| split; [| split]]].
  - intros a Ha. rewrite batch_init_keys. simpl. tauto.
  - intros a. apply batch_init_keys.
  - intros a Ha. apply batch_init_keys in Ha. unfold batch_init.
    rewrite (fold_set_get (fun n => Z.of_nat (length (dependencies n))) g [] a Hnd).
    simpl. rewrite remaining_deps_start. unfold getDependencies.
    apply map_keys_get in Ha. destruct Ha as [n Hn]. now rewrite Hn.
  - intros i a b (b' & Hi & _). now destruct i.
Qed.

Lemma batch_inv_step (m m' : jsmap Z) batches :
  batch_inv g m batches ->
  batch_remove g (zero_degree m) m = Ok m' ->
  batch_inv g m' (batches ++ [zero_degree m]).
Proof.
  intros (Hnd & Hpart & Hsub & Hdeg & Hord) Hrun.
  pose proof (batch_remove_keys _ _ _ _ Hrun) as Hk.
  assert (Hkeys' : forall a, In a (map_keys m') <->
                             In a (map_keys m) /\ ~ In a (zero_degree m)).
  { intros a. rewrite Hk, filter_In, negb_true_iff, mem_false. tauto. }
  assert (Hcat : concat (batches ++ [zero_degree m])
                 = concat batches ++ zero_degree m).
  { rewrite concat_app. simpl. now rewrite app_nil_r. }
  split; [| split; [| split; [| split]]].
  - rewrite Hk. now apply NoDup_filter.
  - intros a Ha. rewrite Hkeys', Hcat, in_app_iff, (Hpart a Ha).
    split; [tauto |]. intros H. split; [tauto |]. intros Hz. apply H. now right.
  - intros a Ha. apply Hkeys' in Ha. now apply Hsub.
  - rewrite Hcat. apply (batch_remove_spec (zero_degree m) m m' (concat batches)).
    + now apply zero_degree_NoDup.
    + intros a Ha. apply zero_degree_keys in Ha as Hkm.
      now apply (Hpart a (Hsub a Hkm)).
    + assumption.
    + assumption.
  - intros i a b Hi Hab. apply in_batch_app_inv in Hi.
    destruct Hi as [Hi | [-> Ha]].
    + destruct (Hord i a b Hi Hab) as (j & Hj & Hjb).
      exists j. split; [assumption | now apply in_batch_app_l].
    + apply zero_degree_In in Ha as Hzero.
      apply map_In_get in Hzero; [| assumption].
      apply zero_degree_keys in Ha as Hkm.
      rewrite (Hdeg a Hkm) in Hzero. injection Hzero as Hzero.
      assert (Hnil : remaining_deps g (concat batches) a = []).
      { apply length_zero_iff_nil. lia. }
      rewrite remaining_deps_nil in Hnil. specialize (Hnil b Hab).
      apply in_batch_concat in Hnil. destruct Hnil as (j & Hj).
      exists j. split; [now apply in_batch_lt in Hj as Hlt |].
      now apply in_batch_app_l.
Qed.

Lemma batch_progress (m : jsmap Z) batches :
  deps_known g -> acyclic g ->
  batch_inv g m batches -> m <> [] -> zero_degree m <> [].
Proof.
  intros Hknown Hacyc (Hnd & Hpart & Hsub & Hdeg & _) Hm Hz.
  destruct (minimal_element g (map_keys m) Hacyc) as (u & Hu & Hmin).
  { destruct m; [contradiction | discriminate]. }
  assert (Hnil : remaining_deps g (concat batches) u = []).
  { apply remaining_deps_nil. intros b Hb.
    destruct (in_dec string_dec b (concat batches)) as [Hin | Hnin]; [assumption |].
    exfalso. apply (Hmin b Hb). apply (Hpart b); [| assumption].
    now apply (Hknown u b). }
  pose proof (Hdeg u Hu) as E. rewrite Hnil in E. simpl in E.
  apply map_get_In in E. apply zero_degree_In in E. rewrite Hz in E. destruct E.
Qed.

Lemma batch_loop_spec : forall fuel (m : jsmap Z) batches,
  deps_known g -> acyclic g ->
  batch_inv g m batches -> length m <= fuel ->
  exists res, batch_loop g fuel m batches = Ok res /\ batch_inv g [] res.
Proof.
  induction fuel as [| fuel IH]; intros m batches Hknown Hacyc Hinv Hfuel.
  - destruct m; [| simpl in Hfuel; lia]. exists batches. now split.
  - destruct (Nat.eq_dec (length m) 0) as [Hm | Hm].
    { apply length_zero_iff_nil in Hm. subst m. rewrite batch_loop_nil.
      exists batches. now split. }
    assert (Hm' : m <> []) by (intros ->; now apply Hm).
    pose proof (batch_progress m batches Hknown Hacyc Hinv Hm') as Hz.
    rewrite batch_loop_step by assumption.
    destruct (batch_remove_ok g (zero_degree m) m) as [m' Hrun].
    { intros a Ha. apply (proj1 (proj2 (proj2 Hinv))). now apply zero_degree_keys. }
    rewrite Hrun. cbn [bind]. apply IH; try assumption.
    + now apply batch_inv_step.
    + pose proof (batch_remove_keys _ _ _ _ Hrun) as Hk.
      assert (Hlen : length (map_keys m') < length (map_keys m)).
      { rewrite Hk. destruct (zero_degree m) as [| z zs] eqn:Ez; [contradiction |].
        apply (filter_length_lt _ _ z).
        - apply zero_degree_keys. rewrite Ez. now left.
        - simpl. now rewrite String.eqb_refl. }
      unfold map_keys in Hlen. rewrite !length_map in Hlen. lia.
Qed.

End Batches.

Lemma in_batch_unique : forall (bs : list (list string)) i j a,
  NoDup (concat bs) -> in_batch bs i a -> in_batch bs j a -> i = j.
Proof.
  induction bs as [| b bs IH]; intros i j a Hnd (bi & Hi & Hai) (bj & Hj & Haj).
  - now destruct i.
  - simpl in Hnd.
    assert (Htail : forall k bk, nth_error bs k = Some bk -> In a bk ->
                                 In a (concat bs)).
    { intros k bk Hk Hak. apply in_concat. exists bk.
      split; [eapply nth_error_In, Hk | assumption]. }
    destruct i as [| i], j as [| j]; simpl in Hi, Hj.
    + reflexivity.
    + injection Hi as <-. exfalso.
      apply (NoDup_app_disjoint b (concat bs) a Hnd Hai). eauto.
    + injection Hj as <-. exfalso.
      apply (NoDup_app_disjoint b (concat bs) a Hnd Haj). eauto.
    + f_equal. apply (IH i j a).
      * now apply NoDup_app_remove_l in Hnd.
      * now exists bi.
      * now exists bj.
Qed.

Lemma in_batch_before (bs : list (list string)) i j a b :
  in_batch bs i a -> in_batch bs j b -> j < i -> before (concat bs) b a.
Proof.
  intros (bi & Hi & Hai) (bj & Hj & Hbj) Hlt.
  apply nth_error_split in Hi. destruct Hi as (l1 & l2 & -> & Hlen).
  apply in_split in Hai. destruct Hai as (p & q & ->).
  exists (concat l1 ++ p), (q ++ concat l2). split.
  - rewrite concat_app. simpl. now rewrite <- !app_assoc.
  - apply in_or_app. left. apply in_concat. exists bj. split; [| assumption].
    rewrite nth_error_app1 in Hj by lia. eapply nth_error_In, Hj.
Qed.

Lemma in_batch_trans g (bs : list (list string)) :
  (forall i a b, in_batch bs i a -> depends g a b ->
                 exists j, j < i /\ in_batch bs j b) ->
  forall a b, clos_trans string (depends g) a b ->
  forall i, in_batch bs i a -> exists j, j < i /\ in_batch bs j b.
Proof.
  intros Hord a b Hab.
  induction Hab as [a b Hab | a c b _ IH1 _ IH2]; intros i Hi.
  - now apply (Hord i a b).
  - destruct (IH1 i Hi) as (k & Hk & Hkc).
    destruct (IH2 k Hkc) as (j & Hj & Hjb).
    exists j. split; [lia | assumption].
Qed.

Lemma getParallelBatches_spec g :
  graph_wf g -> deps_known g -> acyclic g ->
  exists batches,
    getParallelBatches g = Ok batches /\
    NoDup (concat batches) /\
    (forall a, In a (concat batches) <-> In a (map_keys g)) /\
    (forall i a b, in_batch batches i a -> depends g a b ->
                   exists j, j < i /\ in_batch batches j b).
Proof.
  intros Hwf Hknown Hacyc.
  destruct (batch_loop_spec g Hwf (length g) (batch_init g) [] Hknown Hacyc)
    as (res & Hrun & Hinv).
  - now apply batch_inv_init.
  - pose proof (batch_init_NoDup g) as Hnd.
    assert (Hincl : incl (map_keys (batch_init g)) (map_keys g)).
    { intros a. apply batch_init_keys. }
    pose proof (NoDup_incl_length Hnd Hincl) as Hlen.
    unfold map_keys in Hlen. now rewrite !length_map in Hlen.
  - exists res. split; [exact Hrun |].
    destruct (getParallelBatches_keys g res Hrun) as [Hnd Hsub].
    destruct Hinv as (_ & Hpart & _ & _ & Hord).
    split; [assumption | split; [| assumption]].
    intros a. split; [apply Hsub |]. intros Ha.
    destruct (in_dec string_dec a (concat res)) as [Hin | Hnin]; [assumption |].
    apply (Hpart a Ha) in Hnin. destruct Hnin.
Qed.

(** ** detectCycles *)

Lemma chain_app_l R : forall l1 l2, chain R (l1 ++ l2) -> chain R l1.
Proof.
  induction l1 as [| x l1 IH]; intros l2 H; [exact I |].
  destruct l1 as [| y l1]; [exact I |].
  simpl in H. destruct H as [Hxy H]. split; [assumption |].
  now apply (IH l2).
Qed.

Lemma chain_app_r R : forall l1 l2, chain R (l1 ++ l2) -> chain R l2.
Proof.
  induction l1 as [| x l1 IH]; intros l2 H; [exact H |].
  apply IH. destruct l1 as [| y l1]; simpl in *.
  - destruct l2; [exact I | now destruct H].
  - now destruct H.
Qed.

Lemma chain_snoc R : forall l a b,
  chain R (l ++ [a]) -> R a b -> chain R ((l ++ [a]) ++ [b]).
Proof.
  induction l as [| x l IH]; intros a b H Hab.
  - simpl. auto.
  - destruct l as [| y l]; simpl in *.
    + destruct H as [Hxa _]. auto.
    + destruct H as [Hxy H]. split; [assumption |]. now apply (IH a b).
Qed.

Lemma chain_clos_trans R : forall l x y,
  chain R (x :: l ++ [y]) -> clos_trans string R x y.
Proof.
  induction l as [| z l IH]; intros x y H; simpl in H.
  - apply t_step. now destruct H.
  - destruct H as [Hxz H]. apply t_trans with z; [now apply t_step |].
    now apply IH.
Qed.

Lemma index_of_app x : forall l1 l2,
  ~ In x l1 -> index_of x (l1 ++ x :: l2) = Z.of_nat (length l1).
Proof.
  induction l1 as [| y l1 IH]; intros l2 H.
  - simpl. now rewrite String.eqb_refl.
  - cbn [app index_of length].
    destruct (String.eqb_spec x y) as [-> | N]; [exfalso; apply H; now left |].
    rewrite IH by (intros Hin; apply H; now right).
    destruct (Z.ltb_spec (Z.of_nat (length l1)) 0); lia.
Qed.

Lemma slice_from_app l1 l2 :
  slice_from (Z.of_nat (length l1)) (l1 ++ l2) = l2.
Proof.
  unfold slice_from. destruct (Z.ltb_spec (Z.of_nat (length l1)) 0); [lia |].
  rewrite Nat2Z.id. rewrite skipn_app, skipn_all, Nat.sub_diag. reflexivity.
Qed.

Lemma in_split_first (x : string) : forall l,
  In x l -> exists l1 l2, l = l1 ++ x :: l2 /\ ~ In x l1.
Proof.
  induction l as [| y l IH]; intros H; [destruct H |].
  destruct (string_dec y x) as [-> | N].
  - exists [], l. split; [reflexivity | intros []].
  - destruct H as [E | H]; [contradiction |].
    destruct (IH H) as (l1 & l2 & -> & Hn).
    exists (y :: l1), l2. split; [reflexivity |].
    intros [E | Hin]; [contradiction | now apply Hn].
Qed.

(** The path thrown when the dependency [dep] of the node on top of the
    stack is found on the stack. *)
Lemma thrown_cycle_valid g (stack : list string) a dep :
  chain (depends g) (stack ++ [a]) ->
  depends g a dep ->
  In dep (stack ++ [a]) ->
  valid_cycle g (slice_from (index_of dep (stack ++ [a])) (stack ++ [a]) ++ [dep]).
Proof.
  intros Hchain Hdep Hin.
  destruct (in_split_first dep _ Hin) as (l1 & l2 & E & Hn).
  rewrite E, index_of_app, slice_from_app by assumption.
  assert (Hsuffix : exists l', dep :: l2 = l' ++ [a]).
  { destruct (exists_last (l := dep :: l2)) as (l' & z & E'); [discriminate |].
    exists l'. rewrite E'. rewrite E' in E.
    rewrite app_assoc in E. apply app_inj_tail in E. now destruct E as [_ ->]. }
  destruct Hsuffix as (l' & E').
  split; [| split].
  - simpl. rewrite length_app. simpl. lia.
  - rewrite E'. apply chain_snoc; [| assumption].
    rewrite <- E'. rewrite E in Hchain. now apply chain_app_r in Hchain.
  - simpl. rewrite map_app. simpl.
    destruct (map Some l2 ++ [Some dep]) eqn:El.
    + now destruct (map Some l2).
    + rewrite <- El. now rewrite last_last.
Qed.

Lemma valid_cycle_clos_trans g p :
  valid_cycle g p -> exists a, clos_trans string (depends g) a a.
Proof.
  intros (Hlen & Hchain & Hends).
  destruct p as [| x p]; [simpl in Hlen; lia |].
  destruct (exists_last (l := p)) as (l & y & ->).
  { intros ->. simpl in Hlen. lia. }
  exists x. apply (chain_clos_trans (depends g) l x).
  simpl in Hends. rewrite map_app in Hends. simpl in Hends.
  assert (E : Some x = Some y).
  { destruct (map Some l ++ [Some y]) eqn:El.
    - now destruct (map Some l).
    - rewrite <- El in Hends. now rewrite last_last in Hends. }
  injection E as ->. exact Hchain.
Qed.

Lemma finished_frame st st' x :
  dfs_frame st st' -> finished st x -> finished st' x.
Proof.
  intros (_ & Hrec & Hvis) [Hv Hr]. split; [now apply Hvis |].
  intros H. apply Hr. now apply Hrec.
Qed.

Lemma dfs_frame_refl st : dfs_frame st st.
Proof. split; [reflexivity | split; [reflexivity | auto]]. Qed.

Lemma dfs_frame_trans st1 st2 st3 :
  dfs_frame st1 st2 -> dfs_frame st2 st3 -> dfs_frame st1 st3.
Proof.
  intros (Hp & Hr & Hv) (Hp' & Hr' & Hv').
  split; [congruence | split; [| auto]].
  intros x. now rewrite Hr', Hr.
Qed.

Lemma filter_length_mono (v v' l : list string) :
  (forall x, In x v -> In x v') ->
  length (filter (fun k => negb (mem k v')) l)
  <= length (filter (fun k => negb (mem k v)) l).
Proof.
  intros Hsub. induction l as [| y l IH]; simpl; [lia |].
  destruct (mem y v) eqn:E.
  - apply mem_In, Hsub, mem_In in E. rewrite E. simpl. exact IH.
  - destruct (mem y v'); simpl; lia.
Qed.

Lemma filter_length_strict (v v' l : list string) a :
  (forall x, In x v -> In x v') ->
  In a l -> ~ In a v -> In a v' ->
  length (filter (fun k => negb (mem k v')) l)
  < length (filter (fun k => negb (mem k v)) l).
Proof.
  intros Hsub Hal Hav Hav'. induction l as [| y l IH]; [destruct Hal |].
  simpl. pose proof (filter_length_mono v v' l Hsub) as Hmono.
  destruct Hal as [-> | Hal].
  - apply mem_false in Hav. apply mem_In in Hav'. rewrite Hav, Hav'. simpl. lia.
  - specialize (IH Hal). destruct (mem y v) eqn:E.
    + apply mem_In, Hsub, mem_In in E. rewrite E. simpl. exact IH.
    + destruct (mem y v'); simpl; lia.
Qed.

Lemma unvisited_frame g st st' :
  dfs_frame st st' -> unvisited g st' <= unvisited g st.
Proof. intros (_ & _ & Hv). now apply filter_length_mono. Qed.

Lemma clos_trans_refl_trans (R : relation string) x y :
  clos_trans string R x y -> clos_refl_trans string R x y.
Proof.
  intros H. induction H as [x y H | x z y _ IH1 _ IH2].
  - now apply rt_step.
  - now apply rt_trans with z.
Qed.

Lemma depends_clos_key g a b :
  clos_trans string (depends g) a b -> In a (map_keys g).
Proof.
  intros H. induction H as [a b (n & Hn & _) | a c b _ IH _ _].
  - eapply map_get_Some_keys, Hn.
  - exact IH.
Qed.

Section Dfs.
Variable g : Graph.
Hypothesis Hknown : deps_known g.

Lemma dfs_inv_enter st a :
  dfs_inv g st -> ~ In a (visited st) ->
  chain (depends g) (dfs_path st ++ [a]) ->
  dfs_inv g (mkDfs (set_add a (visited st)) (set_add a (recStack st))
                   (dfs_path st ++ [a])).
Proof.
  intros (Hnd & Hrec & Hchain & Hsub & Hclosed & Hnocycle) Ha Hch.
  assert (Hfin : forall x,
            finished (mkDfs (set_add a (visited st)) (set_add a (recStack st))
                            (dfs_path st ++ [a])) x ->
            finished st x /\ x <> a).
  { intros x [Hv Hr]. simpl in *. rewrite set_add_In in Hv, Hr.
    assert (N : x <> a) by tauto.
    split; [split; tauto | assumption]. }
  split; [| split; [| split; [| split; [| split]]]]; simpl.
  - apply NoDup_app; [assumption | constructor; [easy | constructor] |].
    intros x Hx [<- | []]. apply Ha, Hsub, Hrec, Hx.
  - intros x. rewrite set_add_In, in_app_iff, Hrec. simpl. intuition.
  - assumption.
  - intros x. rewrite !set_add_In. intros [-> | Hx]; auto.
  - intros x y Hx Hxy. apply Hfin in Hx. destruct Hx as [Hx _].
    destruct (Hclosed x y Hx Hxy) as [Hv Hr].
    split; simpl; rewrite set_add_In; [auto |].
    intros [-> | Hin]; [contradiction | contradiction].
  - intros x Hx. apply Hfin in Hx. now apply Hnocycle.
Qed.

Lemma finished_reach st :
  dfs_inv g st ->
  forall x y, clos_refl_trans string (depends g) x y ->
              finished st x -> finished st y.
Proof.
  intros (_ & _ & _ & _ & Hclosed & _) x y Hxy.
  apply clos_rt_rt1n in Hxy.
  induction Hxy as [| x z y Hxz _ IH]; intros Hx; [assumption |].
  apply IH. now apply (Hclosed x z).
Qed.

Lemma dfs_inv_leave st st2 a node :
  dfs_inv g st -> ~ In a (visited st) ->
  map_get a g = Some node ->
  dfs_frame (mkDfs (set_add a (visited st)) (set_add a (recStack st))
                   (dfs_path st ++ [a])) st2 ->
  dfs_inv g st2 ->
  (forall d, In d (dependencies node) -> finished st2 d) ->
  let st' := mkDfs (visited st2) (set_delete a (recStack st2))
                   (removelast (dfs_path st2)) in
  dfs_frame st st' /\ dfs_inv g st' /\ finished st' a.
Proof.
  intros (Hnd & Hrec & Hchain & Hsub & _ & _) Ha Hget (Hp & Hr & Hv) Hinv2 Hdeps.
  simpl in Hp, Hr, Hv.
  pose proof Hinv2 as (Hnd2 & Hrec2 & Hchain2 & Hsub2 & Hclosed2 & Hnocycle2).
  assert (Hapath : ~ In a (dfs_path st)).
  { intros Hin. apply Ha, Hsub, Hrec, Hin. }
  assert (Hrec' : forall x, In x (set_delete a (recStack st2)) <-> In x (dfs_path st)).
  { intros x. rewrite set_delete_In, Hr, set_add_In, Hrec.
    split; [tauto |]. intros Hx. split; [now right |]. now intros ->. }
  assert (Hav2 : In a (visited st2)) by (apply Hv, set_add_In; now left).
  assert (Har2 : In a (recStack st2)) by (apply Hr, set_add_In; now left).
  assert (Hfin : forall x,
            finished (mkDfs (visited st2) (set_delete a (recStack st2))
                            (removelast (dfs_path st2))) x ->
            x = a \/ finished st2 x).
  { intros x [Hxv Hxr]. simpl in *.
    destruct (string_dec x a) as [-> | N]; [now left |].
    right. split; [assumption |]. intros Hin. apply Hxr, set_delete_In. auto. }
  assert (Hfin' : forall x, finished st2 x ->
            finished (mkDfs (visited st2) (set_delete a (recStack st2))
                            (removelast (dfs_path st2))) x).
  { intros x [Hxv Hxr]. split; simpl; [assumption |].
    intros Hin. apply set_delete_In in Hin. tauto. }
  cbv zeta. rewrite Hp, removelast_last.
  split; [| split].
  - split; [reflexivity | split]; simpl.
    + intros x. now rewrite Hrec', Hrec.
    + intros x Hx. apply Hv, set_add_In. now right.
  - split; [| split; [| split; [| split; [| split]]]]; simpl.
    + assumption.
    + exact Hrec'.
    + assumption.
    + intros x Hx. apply set_delete_In in Hx. now apply Hsub2.
    + intros x y Hx Hxy. apply Hfin'. apply Hfin in Hx.
      destruct Hx as [-> | Hx].
      * apply Hdeps. destruct Hxy as (n & Hn & Hy). congruence.
      * now apply (Hclosed2 x y).
    + intros x Hx. apply Hfin in Hx. destruct Hx as [-> | Hx]; [| now apply Hnocycle2].
      intros Hcycle. apply clos_trans_t1n in Hcycle.
      assert (Hy : exists y, depends g a y /\ clos_refl_trans string (depends g) y a).
      { inversion Hcycle as [y Hay | y z Hay Hya]; subst.
        - exists a. split; [assumption | apply rt_refl].
        - exists y. split; [assumption |].
          now apply clos_trans_refl_trans, clos_t1n_trans. }
      destruct Hy as (y & Hay & Hya).
      assert (Hyfin : finished st2 y).
      { apply Hdeps. destruct Hay as (n & Hn & Hy). congruence. }
      destruct (finished_reach st2 Hinv2 y a Hya Hyfin) as [_ Hnot].
      contradiction.
  - split; simpl; [assumption |]. intros Hin. apply set_delete_In in Hin. tauto.
Qed.

Lemma dfs_loop_cons rec dep rest st :
  dfs_loop rec (dep :: rest) st
  = if negb (mem dep (visited st)) then
      match rec dep st with
      | DfsReturn true st' => DfsReturn true st'
      | DfsReturn false st' => dfs_loop rec rest st'
      | other => other
      end
    else if mem dep (recStack st) then
      DfsThrow (slice_from (index_of dep (dfs_path st)) (dfs_path st) ++ [dep])
    else dfs_loop rec rest st.
Proof. reflexivity. Qed.

(** The loop over the dependencies of the node [a] on top of the stack,
    given the specification of the recursive calls. *)
Lemma dfs_loop_spec (rec : string -> DfsState -> DfsOutcome) (bound : nat) :
  (forall d st,
     dfs_inv g st -> In d (map_keys g) -> ~ In d (visited st) ->
     chain (depends g) (dfs_path st ++ [d]) -> unvisited g st <= bound ->
     dfs_post g st [d] (rec d st)) ->
  forall deps st stack a,
    dfs_inv g st -> dfs_path st = stack ++ [a] ->
    (forall d, In d deps -> depends g a d) ->
    unvisited g st <= bound ->
    dfs_post g st deps (dfs_loop rec deps st).
Proof.
  intros Hrec. induction deps as [| dep rest IH]; intros st stack a Hinv Hpath Hdeps Hb.
  - simpl. split; [apply dfs_frame_refl | split; [assumption | intros d []]].
  - rewrite dfs_loop_cons.
    assert (Hrest : forall d, In d rest -> depends g a d).
    { intros d Hd. apply Hdeps. now right. }
    assert (Hdep : depends g a dep) by (apply Hdeps; now left).
    destruct (mem dep (visited st)) eqn:Ev; simpl negb; cbv iota.
    + apply mem_In in Ev. destruct (mem dep (recStack st)) eqn:Er.
      * apply mem_In in Er. simpl. rewrite Hpath.
        apply thrown_cycle_valid.
        -- rewrite <- Hpath. apply Hinv.
        -- assumption.
        -- rewrite <- Hpath. now apply (proj1 (proj2 Hinv)).
      * apply mem_false in Er.
        specialize (IH st stack a Hinv Hpath Hrest Hb).
        destruct (dfs_loop rec rest st) as [[|] st' | cycle |]; simpl in *; try assumption.
        destruct IH as (Hframe & Hinv' & Hfin).
        split; [assumption | split; [assumption |]].
        intros d [<- | Hd]; [| now apply Hfin].
        apply (finished_frame st st'); [assumption | now split].
    + apply mem_false in Ev.
      assert (Hcall : dfs_post g st [dep] (rec dep st)).
      { apply Hrec; try assumption.
        - now apply (Hknown a dep).
        - rewrite Hpath. apply chain_snoc; [| assumption].
          rewrite <- Hpath. apply Hinv. }
      destruct (rec dep st) as [[|] st1 | cycle |]; simpl in Hcall; try assumption;
        try contradiction.
      destruct Hcall as (Hframe1 & Hinv1 & Hfin1).
      assert (Hpath1 : dfs_path st1 = stack ++ [a]).
      { rewrite <- Hpath. apply Hframe1. }
      assert (Hb1 : unvisited g st1 <= bound).
      { pose proof (unvisited_frame g st st1 Hframe1). lia. }
      specialize (IH st1 stack a Hinv1 Hpath1 Hrest Hb1).
      destruct (dfs_loop rec rest st1) as [[|] st2 | cycle |]; simpl in *; try assumption.
      destruct IH as (Hframe2 & Hinv2 & Hfin2).
      split; [now apply (dfs_frame_trans st st1 st2) | split; [assumption |]].
      intros d [<- | Hd]; [| now apply Hfin2].
      apply (finished_frame st1 st2); [assumption |]. apply Hfin1. now left.
Qed.

Lemma dfs_spec : forall fuel a st,
  dfs_inv g st -> In a (map_keys g) -> ~ In a (visited st) ->
  chain (depends g) (dfs_path st ++ [a]) -> unvisited g st <= fuel ->
  dfs_post g st [a] (dfs g fuel a st).
Proof.
  induction fuel as [| fuel IH]; intros a st Hinv Hkey Ha Hchain Hb.
  - exfalso.
    assert (Hpos : 0 < unvisited g st).
    { unfold unvisited.
      assert (Hin : In a (filter (fun k => negb (mem k (visited st))) (map_keys g))).
      { apply filter_In. split; [assumption |].
        apply negb_true_iff. now apply mem_false. }
      destruct (filter (fun k => negb (mem k (visited st))) (map_keys g));
        [destruct Hin | simpl; lia]. }
    lia.
  - cbn [dfs]. destruct (map_keys_get a g Hkey) as [node Hget]. rewrite Hget.
    set (st1 := mkDfs (set_add a (visited st)) (set_add a (recStack st))
                      (dfs_path st ++ [a])).
    assert (Hinv1 : dfs_inv g st1) by now apply dfs_inv_enter.
    assert (Hb1 : unvisited g st1 <= fuel).
    { assert (Hlt : unvisited g st1 < unvisited g st).
      { unfold unvisited. apply (filter_length_strict _ _ _ a); try assumption.
        - intros x Hx. simpl. apply set_add_In. now right.
        - simpl. apply set_add_In. now left. }
      lia. }
    pose proof (dfs_loop_spec (dfs g fuel) fuel IH (dependencies node) st1
                  (dfs_path st) a Hinv1 eq_refl) as Hloop.
    assert (Hdeps : forall d, In d (dependencies node) -> depends g a d).
    { intros d Hd. now exists node. }
    specialize (Hloop Hdeps Hb1).
    destruct (dfs_loop (dfs g fuel) (dependencies node) st1)
      as [[|] st2 | cycle |]; simpl in Hloop; try assumption; try contradiction.
    destruct Hloop as (Hframe & Hinv2 & Hfin).
    destruct (dfs_inv_leave st st2 a node Hinv Ha Hget Hframe Hinv2 Hfin)
      as (Hframe' & Hinv' & Hfin').
    simpl. split; [assumption | split; [assumption |]].
    intros d [<- | []]. assumption.
Qed.

Lemma unvisited_le st : unvisited g st <= dfs_fuel g.
Proof.
  unfold unvisited, dfs_fuel.
  pose proof (filter_length_le (fun k => negb (mem k (visited st))) (map_keys g)) as H.
  unfold map_keys in *. rewrite length_map in H. lia.
Qed.

Lemma detect_loop_spec : forall keys st,
  (forall k, In k keys -> In k (map_keys g)) ->
  dfs_inv g st -> dfs_path st = [] ->
  match detect_loop g keys st with
  | DfsReturn _ st' =>
      dfs_inv g st' /\ dfs_path st' = [] /\
      (forall x, In x (visited st) -> In x (visited st')) /\
      forall k, In k keys -> In k (visited st')
  | DfsThrow cycle => valid_cycle g cycle
  | DfsFuel => False
  end.
Proof.
  induction keys as [| k keys IH]; intros st Hkeys Hinv Hpath.
  - simpl. split; [assumption | split; [assumption | split; [auto | intros k []]]].
  - cbn [detect_loop].
    assert (Hkeys' : forall x, In x keys -> In x (map_keys g)).
    { intros x Hx. apply Hkeys. now right. }
    destruct (mem k (visited st)) eqn:Ev; simpl negb; cbv iota.
    + apply mem_In in Ev. specialize (IH st Hkeys' Hinv Hpath).
      destruct (detect_loop g keys st) as [b st' | cycle |]; try assumption.
      destruct IH as (Hinv' & Hpath' & Hmono & Hall).
      split; [assumption | split; [assumption | split; [assumption |]]].
      intros x [<- | Hx]; auto.
    + apply mem_false in Ev.
      pose proof (dfs_spec (dfs_fuel g) k st Hinv (Hkeys k (or_introl eq_refl)) Ev)
        as Hcall.
      rewrite Hpath in Hcall. specialize (Hcall I (unvisited_le st)).
      destruct (dfs g (dfs_fuel g) k st) as [[|] st1 | cycle |];
        simpl in Hcall; try assumption; try contradiction.
      destruct Hcall as ((Hp1 & Hr1 & Hv1) & Hinv1 & Hfin1).
      assert (Hpath1 : dfs_path st1 = []) by congruence.
      specialize (IH st1 Hkeys' Hinv1 Hpath1).
      destruct (detect_loop g keys st1) as [b st' | cycle |]; try assumption.
      destruct IH as (Hinv' & Hpath' & Hmono & Hall).
      split; [assumption | split; [assumption | split; [auto |]]].
      intros x [<- | Hx]; [| auto].
      apply Hmono. apply Hfin1. now left.
Qed.

End Dfs.

Lemma dfs_inv_start g : dfs_inv g (mkDfs [] [] []).
Proof.
  split; [constructor | split; [reflexivity | split; [exact I |]]].
  split; [intros x [] | split; intros x; [intros y [[] _] | intros [[] _]]].
Qed.

(** Under [deps_known], [detectCycles] succeeds on acyclic graphs only,
    and the path it throws is a cycle of the graph. *)
Lemma detectCycles_spec g :
  deps_known g ->
  match detectCycles g with
  | Ok _ => acyclic g
  | Err (CycleDetected cycle) => valid_cycle g cycle
  | Err _ => False
  end.
Proof.
  intros Hknown. unfold detectCycles.
  pose proof (detect_loop_spec g Hknown (map_keys g) (mkDfs [] [] [])
                (fun k H => H) (dfs_inv_start g) eq_refl) as H.
  destruct (detect_loop g (map_keys g) (mkDfs [] [] [])) as [b st' | cycle |];
    try assumption.
  destruct H as (Hinv & Hpath & _ & Hall).
  intros a Hcycle.
  pose proof (depends_clos_key g a a Hcycle) as Hkey.
  destruct Hinv as (_ & Hrec & _ & _ & _ & Hnocycle).
  apply (Hnocycle a); [| assumption].
  split; [now apply Hall |]. intros Hin. apply Hrec in Hin.
  rewrite Hpath in Hin. destruct Hin.
Qed.

(** ** The loop bounds are never reached *)

(** [getAffected] is total by [getAffected_fixed_point]. *)

Lemma getTopologicalOrder_total g :
  graph_wf g ->
  (exists order, getTopologicalOrder g = Ok order) \/
  getTopologicalOrder g = Err InconsistentGraph.
Proof.
  intros Hwf.
  destruct (topo_loop_spec g Hwf (length g) (fst (topo_init g))
              (snd (topo_init g)) []) as (res & m' & Hrun & _).
  - now apply topo_init_inv.
  - simpl. lia.
  - unfold getTopologicalOrder.
    destruct (topo_init g) as [inDegree queue]. simpl in Hrun.
    rewrite Hrun. cbn [bind].
    destruct (negb (Nat.eqb (length res) (length g))); eauto.
Qed.

Lemma batch_remove_error g : forall batch (m : jsmap Z) e,
  batch_remove g batch m = Err e -> e = TypeError.
Proof.
  induction batch as [| a batch IH]; intros m e; simpl; [discriminate |].
  destruct (map_get a g) as [node |]; [apply IH | now intros [= <-]].
Qed.

Lemma batch_remove_shrinks g (m m' : jsmap Z) :
  zero_degree m <> [] ->
  batch_remove g (zero_degree m) m = Ok m' -> length m' < length m.
Proof.
  intros Hz Hrun. pose proof (batch_remove_keys _ _ _ _ Hrun) as Hk.
  assert (Hlen : length (map_keys m') < length (map_keys m)).
  { rewrite Hk. destruct (zero_degree m) as [| z zs] eqn:Ez; [contradiction |].
    apply (filter_length_lt _ _ z).
    - apply zero_degree_keys. rewrite Ez. now left.
    - simpl. now rewrite String.eqb_refl. }
  unfold map_keys in Hlen. now rewrite !length_map in Hlen.
Qed.

Lemma batch_loop_total g : forall fuel (m : jsmap Z) batches,
  length m <= fuel -> batch_loop g fuel m batches <> Err OutOfFuel.
Proof.
  induction fuel as [| fuel IH]; intros m batches Hfuel.
  - destruct m; [discriminate | simpl in Hfuel; lia].
  - destruct (Nat.eq_dec (length m) 0) as [Hm | Hm].
    { apply length_zero_iff_nil in Hm. subst m. now rewrite batch_loop_nil. }
    assert (Hm' : m <> []) by (intros ->; now apply Hm).
    destruct (list_eq_dec string_dec (zero_degree m) []) as [Hz | Hz].
    { now rewrite batch_loop_stuck. }
    rewrite batch_loop_step by assumption.
    destruct (batch_remove g (zero_degree m) m) as [m' | e] eqn:Hrun; cbn [bind].
    + apply IH. pose proof (batch_remove_shrinks g m m' Hz Hrun). lia.
    + apply batch_remove_error in Hrun. now subst e.
Qed.

Lemma map_set_length {V} k (v : V) (m : jsmap V) :
  length (map_set k v m) <= S (length m).
Proof.
  induction m as [| [k' v'] m IH]; simpl; [lia |].
  destruct (String.eqb k k'); simpl; lia.
Qed.

Lemma batch_init_length g : length (batch_init g) <= length g.
Proof.
  unfold batch_init.
  assert (H : forall (l : Graph) (acc : jsmap Z),
            length (fold_left
                      (fun inDegree entry =>
                         map_set (fst entry)
                           (Z.of_nat (length (dependencies (snd entry)))) inDegree)
                      l acc) <= length acc + length l).
  { induction l as [| e l IH]; intros acc; simpl; [lia |].
    specialize (IH (map_set (fst e)
                      (Z.of_nat (length (dependencies (snd e)))) acc)).
    pose proof (map_set_length (fst e)
                  (Z.of_nat (length (dependencies (snd e)))) acc).
    lia. }
  specialize (H g []). simpl in H. lia.
Qed.

Lemma getParallelBatches_total g : getParallelBatches g <> Err OutOfFuel.
Proof. apply batch_loop_total, batch_init_length. Qed.

Section DfsTotal.
Variable g : Graph.

Lemma dfs_loop_total (rec : string -> DfsState -> DfsOutcome) (bound : nat) :
  (forall d st, In d (dfs_universe g) -> ~ In d (visited st) ->
                unvisited_in (dfs_universe g) st <= bound ->
                dfs_total st (rec d st)) ->
  forall deps st,
    (forall d, In d deps -> In d (dfs_universe g)) ->
    unvisited_in (dfs_universe g) st <= bound ->
    dfs_total st (dfs_loop rec deps st).
Proof.
  intros Hrec. induction deps as [| dep rest IH]; intros st Hdeps Hb.
  - simpl. auto.
  - rewrite dfs_loop_cons.
    assert (Hrest : forall d, In d rest -> In d (dfs_universe g)).
    { intros d Hd. apply Hdeps. now right. }
    destruct (mem dep (visited st)) eqn:Ev; simpl negb; cbv iota.
    + destruct (mem dep (recStack st)); [exact I | now apply IH].
    + apply mem_false in Ev.
      pose proof (Hrec dep st (Hdeps dep (or_introl eq_refl)) Ev Hb) as Hcall.
      destruct (rec dep st) as [[|] st1 | cycle |]; simpl in Hcall; try assumption.
      assert (Hb1 : unvisited_in (dfs_universe g) st1 <= bound).
      { pose proof (filter_length_mono (visited st) (visited st1)
                      (dfs_universe g) Hcall).
        unfold unvisited_in in *. lia. }
      specialize (IH st1 Hrest Hb1).
      destruct (dfs_loop rec rest st1) as [b st2 | cycle |]; simpl in *; auto.
Qed.

Lemma dfs_total_spec : forall fuel a st,
  In a (dfs_universe g) -> ~ In a (visited st) ->
  unvisited_in (dfs_universe g) st <= fuel ->
  dfs_total st (dfs g fuel a st).
Proof.
  induction fuel as [| fuel IH]; intros a st Hu Ha Hb.
  - exfalso. unfold unvisited_in in Hb.
    assert (Hin : In a (filter (fun k => negb (mem k (visited st)))
                               (dfs_universe g))).
    { apply filter_In. split; [assumption |].
      apply negb_true_iff. now apply mem_false. }
    destruct (filter (fun k => negb (mem k (visited st))) (dfs_universe g));
      [destruct Hin | simpl in Hb; lia].
  - cbn [dfs].
    set (st1 := mkDfs (set_add a (visited st)) (set_add a (recStack st))
                      (dfs_path st ++ [a])).
    assert (Hmono : forall x, In x (visited st) -> In x (visited st1)).
    { intros x Hx. simpl. apply set_add_In. now right. }
    destruct (map_get a g) as [node |] eqn:Hget; [| exact Hmono].
    assert (Hb1 : unvisited_in (dfs_universe g) st1 <= fuel).
    { assert (Hlt : unvisited_in (dfs_universe g) st1
                    < unvisited_in (dfs_universe g) st).
      { unfold unvisited_in. apply (filter_length_strict _ _ _ a); try assumption.
        simpl. apply set_add_In. now left. }
      lia. }
    assert (Hdeps : forall d, In d (dependencies node) -> In d (dfs_universe g)).
    { intros d Hd. unfold dfs_universe. apply in_or_app. right.
      apply in_concat. exists (dependencies node). split; [| assumption].
      apply in_map_iff. exists (a, node). split; [reflexivity |].
      now apply map_get_In. }
    pose proof (dfs_loop_total (dfs g fuel) fuel IH (dependencies node) st1
                  Hdeps Hb1) as Hloop.
    destruct (dfs_loop (dfs g fuel) (dependencies node) st1)
      as [[|] st2 | cycle |]; simpl in *; auto.
Qed.

Lemma detect_loop_total : forall keys st,
  (forall k, In k keys -> In k (map_keys g)) ->
  detect_loop g keys st <> DfsFuel.
Proof.
  induction keys as [| k keys IH]; intros st Hkeys; [discriminate |].
  cbn [detect_loop].
  assert (Hkeys' : forall x, In x keys -> In x (map_keys g)).
  { intros x Hx. apply Hkeys. now right. }
  destruct (mem k (visited st)) eqn:Ev; simpl negb; cbv iota; [now apply IH |].
  apply mem_false in Ev.
  assert (Hb : unvisited_in (dfs_universe g) st <= dfs_fuel g).
  { unfold unvisited_in, dfs_fuel, dfs_universe.
    pose proof (filter_length_le (fun k0 => negb (mem k0 (visited st)))
                  (map_keys g ++ concat (map (fun e => dependencies (snd e)) g)))
      as H.
    rewrite length_app in H.
    assert (El : length (map_keys g) = length g) by apply length_map.
    lia. }
  assert (Hu : In k (dfs_universe g)).
  { unfold dfs_universe. apply in_or_app. left. apply Hkeys. now left. }
  pose proof (dfs_total_spec (dfs_fuel g) k st Hu Ev Hb) as Hcall.
  destruct (dfs g (dfs_fuel g) k st) as [b st1 | cycle |]; simpl in Hcall;
    [now apply IH | discriminate | contradiction].
Qed.

End DfsTotal.

Lemma detectCycles_total g : detectCycles g <> Err OutOfFuel.
Proof.
  unfold detectCycles.
  pose proof (detect_loop_total g (map_keys g) (mkDfs [] [] []) (fun k H => H)) as H.
  destruct (detect_loop g (map_keys g) (mkDfs [] [] [])); congruence.
Qed.

(** ** The constructor *)

Lemma ranked_sound order g : ranked order g = true -> acyclic g.
Proof.
  intros H.
  assert (Hstep : forall a b, depends g a b -> position order b < position order a).
  { intros a b (n & Hn & Hb). unfold ranked in H.
    rewrite forallb_forall in H. specialize (H (a, n) (map_get_In a n g Hn)).
    simpl in H. rewrite forallb_forall in H. now apply Nat.ltb_lt, H. }
  assert (Htrans : forall a b, clos_trans string (depends g) a b ->
                               position order b < position order a).
  { intros a b Hab. induction Hab as [a b Hab | a b c _ IH1 _ IH2].
    - now apply Hstep.
    - lia. }
  intros a Ha. apply Htrans in Ha. lia.
Qed.

Lemma deps_knownb_sound g : deps_knownb g = true -> deps_known g.
Proof.
  intros H a b (n & Hn & Hb). unfold deps_knownb in H.
  rewrite forallb_forall in H. specialize (H (a, n) (map_get_In a n g Hn)).
  simpl in H. rewrite forallb_forall in H. now apply mem_In, H.
Qed.

Lemma detectCycles_cyclic_fails g :
  deps_known g ->
  (exists a, clos_trans string (depends g) a a) ->
  exists cycle, detectCycles g = Err (CycleDetected cycle) /\ valid_cycle g cycle.
Proof.
  intros Hknown (a & Ha). pose proof (detectCycles_spec g Hknown) as H.
  destruct (detectCycles g) as [[] | e].
  - exfalso. now apply (H a).
  - destruct e; try contradiction. eauto.
Qed.

Lemma detectCycles_acyclic_ok g :
  deps_known g -> acyclic g -> detectCycles g = Ok tt.
Proof.
  intros Hknown Hacyc. pose proof (detectCycles_spec g Hknown) as H.
  destruct (detectCycles g) as [[] | e]; [reflexivity |].
  destruct e; try contradiction.
  apply valid_cycle_clos_trans in H. destruct H as [a Ha].
  exfalso. now apply (Hacyc a).
Qed.

Lemma newDependencyGraph_acyclic config :
  deps_known (buildGraph config) -> acyclic (buildGraph config) ->
  newDependencyGraph config = Ok (buildGraph config).
Proof.
  intros Hknown Hacyc. unfold newDependencyGraph.
  now rewrite (detectCycles_acyclic_ok _ Hknown Hacyc).
Qed.

(** When every dependency is declared, the construction of a graph with
    a cycle fails, and the path of the error is a cycle of the graph. *)
Lemma newDependencyGraph_cyclic config :
  deps_known (buildGraph config) ->
  (exists a, clos_trans string (depends (buildGraph config)) a a) ->
  exists cycle,
    newDependencyGraph config = Err (CycleDetected cycle) /\
    valid_cycle (buildGraph config) cycle.
Proof.
  intros Hknown Hcyc.
  destruct (detectCycles_cyclic_fails _ Hknown Hcyc) as (cycle & E & Hv).
  exists cycle. split; [| assumption]. unfold newDependencyGraph. now rewrite E.
Qed.

Lemma newDependencyGraph_cyclic_example :
  newDependencyGraph ex_cyclic_config = Err (CycleDetected ["@a"; "@b"; "@a"]) /\
  valid_cycle (buildGraph ex_cyclic_config) ["@a"; "@b"; "@a"].
Proof.
  destruct (newDependencyGraph_cyclic ex_cyclic_config) as (cycle & E & Hv).
  - apply deps_knownb_sound. reflexivity.
  - exists "@a". apply t_trans with "@b"; apply t_step;
      (eexists; split; [reflexivity | simpl; auto]).
  - assert (E' : newDependencyGraph ex_cyclic_config
                 = Err (CycleDetected ["@a"; "@b"; "@a"])) by reflexivity.
    split; [exact E' |]. rewrite E' in E. injection E as <-. exact Hv.
Qed.

(** C5: the defect.  [dfs] returns early on an alias that is no key of the
    graph, after pushing it on [recStack] and [path] and without popping
    it.  With [A] depending on the undeclared [X] and on [B], and [B] on
    [A], the dependency relation has the cycle [A; B; A] and the
    construction fails, but the reported path is [A; X; B; A], in which
    [X] does not depend on [B].  The same happens on a configuration that
    [validateWorkspaces] accepts, where the dangling dependency is the
    empty alias of a workspace keyed by its path. *)
Theorem detectCycles_stale_stack_entry :
  (exists a, clos_trans string (depends (buildGraph ex_stale_config)) a a) /\
  newDependencyGraph ex_stale_config
    = Err (CycleDetected ["A"; "X"; "B"; "A"]) /\
  ~ valid_cycle (buildGraph ex_stale_config) ["A"; "X"; "B"; "A"] /\
  validateWorkspaces (fun _ => true) ex_stale_validated_config = Ok tt /\
  loadGraph (fun _ => true) ex_stale_validated_config
    = Err (CycleDetected ["A"; ""; "B"; "A"]) /\
  ~ valid_cycle (buildGraph ex_stale_validated_config) ["A"; ""; "B"; "A"].
Proof.
  split; [| split; [reflexivity | split; [| split; [reflexivity | split; [reflexivity |]]]]].
  - exists "A". apply t_trans with "B"; apply t_step;
      (eexists; split; [reflexivity | simpl; auto]).
  - intros (_ & (_ & (n & Hn & _) & _) & _). discriminate.
  - intros (_ & (_ & (n & Hn & _) & _) & _). discriminate.
Qed.

(** The same defect makes the construction fail on an acyclic graph: the
    second visit of the undeclared [X] finds it on [recStack]. *)
Lemma detectCycles_false_cycle :
  acyclic (buildGraph ex_shared_dangling_config) /\
  newDependencyGraph ex_shared_dangling_config
    = Err (CycleDetected ["B"; "X"]).
Proof.
  split; [| reflexivity].
  apply (ranked_sound ["X"; "A"; "B"]). reflexivity.
Qed.

(** C6, as the code has it.  For every configuration whose graph is
    acyclic and in which every declared dependency is the identity of a
    workspace, the graph is constructed (no cycle is reported) and
    [getTopologicalOrder] returns a list without repetition
    that is a permutation of the aliases of the graph, that is of the
    identities of the declared workspaces, and in which every alias comes
    strictly after each of its dependencies. *)
Theorem getTopologicalOrder_sorts :
  forall (config : spinxConfig),
    let g := buildGraph config in
    deps_known g -> acyclic g ->
    newDependencyGraph config = Ok g /\
    exists order,
      getTopologicalOrder g = Ok order /\
      NoDup order /\
      Permutation order (getAllAliases g) /\
      (forall a, In a order <-> In a (map identity (workspace config))) /\
      (forall a b, In a order -> depends g a b -> before order b a).
Proof.
  intros config g Hknown Hacyc.
  split; [now apply newDependencyGraph_acyclic |].
  destruct (getTopologicalOrder_spec g (buildGraph_wf config) Hknown Hacyc)
    as (order & Hrun & Hnd & Hperm & Htopo).
  exists order. split; [assumption | split; [assumption | split; [assumption |]]].
  split; [| exact Htopo].
  intros a. rewrite <- (buildGraph_keys config a). split.
  - now apply Permutation_in.
  - apply Permutation_in. now apply Permutation_sym.
Qed.

Lemma getTopologicalOrder_sorts_witness :
  getTopologicalOrder (buildGraph ex_config) = Ok ["@utils"; "@orders"; "@cart"] /\
  before ["@utils"; "@orders"; "@cart"] "@orders" "@cart".
Proof.
  destruct (getTopologicalOrder_sorts ex_config)
    as (_ & order & Hrun & _ & _ & _ & Htopo).
  - apply deps_knownb_sound. reflexivity.
  - apply (ranked_sound ["@utils"; "@orders"; "@cart"]). reflexivity.
  - assert (E : getTopologicalOrder (buildGraph ex_config)
                = Ok ["@utils"; "@orders"; "@cart"]) by reflexivity.
    split; [exact E |].
    rewrite E in Hrun. injection Hrun as <-.
    apply Htopo; [simpl; auto |].
    eexists. split; [reflexivity | simpl; auto].
Defined.

(** C6 as stated fails when a dependency is declared that names no
    workspace: the graph of [A], which depends on the undeclared [X], is
    acyclic and its construction succeeds, but the in-degree of [A] never
    reaches zero and [getTopologicalOrder] raises its error.  The same
    happens after a successful validation when the dependency is the
    empty alias of a workspace, which is keyed by its path. *)
Lemma getTopologicalOrder_dangling_dependency :
  (acyclic (buildGraph ex_dangling_config) /\
   newDependencyGraph ex_dangling_config = Ok (buildGraph ex_dangling_config) /\
   getTopologicalOrder (buildGraph ex_dangling_config) = Err InconsistentGraph) /\
  (acyclic (buildGraph ex_empty_alias_config) /\
   loadGraph (fun _ => true) ex_empty_alias_config
     = Ok (buildGraph ex_empty_alias_config) /\
   getTopologicalOrder (buildGraph ex_empty_alias_config)
     = Err InconsistentGraph).
Proof.
  split; (split; [| split; reflexivity]).
  - apply (ranked_sound ["X"; "A"]). reflexivity.
  - apply (ranked_sound [""; "A"]). reflexivity.
Qed.


(** C1, as the code has it.  For every configuration whose graph is
    acyclic and in which every declared dependency is the identity of a
    workspace, the graph is constructed (no cycle is reported) and
    [getParallelBatches] returns batches such that: every
    workspace is a member of exactly one batch, and the batches hold
    nothing else; every dependency of a member of a batch is a member of
    a strictly earlier batch; hence no workspace shares a batch with a
    direct or transitive dependency, and the concatenation of the batches
    is a permutation of the aliases in which every alias comes after its
    dependencies. *)
Theorem getParallelBatches_layers :
  forall (config : spinxConfig),
    let g := buildGraph config in
    deps_known g -> acyclic g ->
    newDependencyGraph config = Ok g /\
    exists batches,
      getParallelBatches g = Ok batches /\
      (forall a, In a (getAllAliases g) ->
         exists i, in_batch batches i a /\
                   forall j, in_batch batches j a -> j = i) /\
      (forall i a, in_batch batches i a -> In a (getAllAliases g)) /\
      (forall i a b, in_batch batches i a -> depends g a b ->
         exists j, j < i /\ in_batch batches j b) /\
      (forall i a b, in_batch batches i a ->
         clos_trans string (depends g) a b -> ~ in_batch batches i b) /\
      Permutation (concat batches) (getAllAliases g) /\
      topological g (concat batches).
Proof.
  intros config g Hknown Hacyc.
  split; [now apply newDependencyGraph_acyclic |].
  pose proof (buildGraph_wf config) as Hwf. fold g in Hwf.
  destruct (getParallelBatches_spec g Hwf Hknown Hacyc)
    as (batches & Hrun & Hnd & Hkeys & Hord).
  exists batches. split; [exact Hrun |].
  split; [| split; [| split; [exact Hord | split; [| split]]]].
  - intros a Ha. apply Hkeys, in_batch_concat in Ha. destruct Ha as [i Hi].
    exists i. split; [assumption |]. intros j Hj.
    now apply (in_batch_unique batches j i a).
  - intros i a Hi. apply Hkeys, in_batch_concat. now exists i.
  - intros i a b Hi Hab Hib.
    destruct (in_batch_trans g batches Hord a b Hab i Hi) as (j & Hj & Hjb).
    pose proof (in_batch_unique batches i j b Hnd Hib Hjb). lia.
  - apply NoDup_Permutation; [assumption | apply (proj1 Hwf) | exact Hkeys].
  - intros a b Ha Hab. apply in_batch_concat in Ha. destruct Ha as [i Hi].
    destruct (Hord i a b Hi Hab) as (j & Hj & Hjb).
    now apply (in_batch_before batches i j a b).
Qed.

Lemma getParallelBatches_layers_witness :
  getParallelBatches (buildGraph ex_config)
    = Ok [["@utils"]; ["@orders"]; ["@cart"]] /\
  exists j, j < 2 /\ in_batch [["@utils"]; ["@orders"]; ["@cart"]] j "@orders".
Proof.
  destruct (getParallelBatches_layers ex_config)
    as (_ & batches & Hrun & _ & _ & Hord & _).
  - apply deps_knownb_sound. reflexivity.
  - apply (ranked_sound ["@utils"; "@orders"; "@cart"]). reflexivity.
  - assert (E : getParallelBatches (buildGraph ex_config)
                = Ok [["@utils"]; ["@orders"]; ["@cart"]]) by reflexivity.
    split; [exact E |].
    rewrite E in Hrun. injection Hrun as <-.
    apply (Hord 2 "@cart" "@orders").
    + exists ["@cart"]. split; [reflexivity | now left].
    + eexists. split; [reflexivity | simpl; auto].
Defined.

(** C1 as stated fails when a dependency is declared that names no
    workspace: the graph of [A], which depends on the undeclared [X], is
    acyclic and its construction succeeds, but no key ever has in-degree
    zero and [getParallelBatches] raises its error.  The same happens
    after a successful validation when the dependency is the empty alias
    of a workspace, which is keyed by its path; [runAll] then starts no
    task. *)
Lemma getParallelBatches_dangling_dependency :
  (acyclic (buildGraph ex_dangling_config) /\
   newDependencyGraph ex_dangling_config = Ok (buildGraph ex_dangling_config) /\
   getParallelBatches (buildGraph ex_dangling_config) = Err NoBatch) /\
  (acyclic (buildGraph ex_empty_alias_config) /\
   loadGraph (fun _ => true) ex_empty_alias_config
     = Ok (buildGraph ex_empty_alias_config) /\
   getParallelBatches (buildGraph ex_empty_alias_config) = Err NoBatch /\
   runAll (mkRunner ex_empty_alias_config (buildGraph ex_empty_alias_config) "")
          ex_host "build" None = (Err NoBatch, [])).
Proof.
  split; (split; [| repeat split]).
  - apply (ranked_sound ["X"; "A"]). reflexivity.
  - apply (ranked_sound [""; "A"]). reflexivity.
Qed.

(* ================================================================== *)
(** * Part IV: further properties                                      *)
(* ================================================================== *)

(** ** The graph that [buildGraph] builds *)

Lemma set_add_keys_set {V} k (v : V) (m : jsmap V) :
  map_keys (map_set k v m) = set_add k (map_keys m).
Proof. rewrite map_keys_set. reflexivity. Qed.

Lemma init_nodes_acc_order : forall wss (acc : Graph),
  map_keys
    (fold_left
       (fun nodes ws =>
          map_set (identity ws) (mkNode ws (set_of (dependsOn_list ws)) []) nodes)
       wss acc)
  = fold_left (fun s x => set_add x s) (map identity wss) (map_keys acc).
Proof.
  induction wss as [| ws wss IH]; intros acc; [reflexivity |].
  cbn [fold_left map]. rewrite IH, set_add_keys_set. reflexivity.
Qed.

Lemma find_app {A} (p : A -> bool) : forall l1 l2,
  find p (l1 ++ l2) = match find p l1 with
                      | Some x => Some x
                      | None => find p l2
                      end.
Proof.
  induction l1 as [| x l1 IH]; intros l2; [reflexivity |].
  cbn [app find]. destruct (p x); [reflexivity | apply IH].
Qed.

Lemma init_nodes_acc_get : forall wss (acc : Graph) a,
  map_get a
    (fold_left
       (fun nodes ws =>
          map_set (identity ws) (mkNode ws (set_of (dependsOn_list ws)) []) nodes)
       wss acc)
  = match declaration wss a with
    | Some ws => Some (mkNode ws (set_of (dependsOn_list ws)) [])
    | None => map_get a acc
    end.
Proof.
  induction wss as [| ws wss IH]; intros acc a; [reflexivity |].
  cbn [fold_left]. rewrite IH. unfold declaration. cbn [rev].
  rewrite find_app. destruct (find _ (rev wss)) as [w |]; [reflexivity |].
  cbn [find]. rewrite map_get_set, String.eqb_sym.
  destruct (String.eqb (identity ws) a); reflexivity.
Qed.

Lemma same_fields_refl m : same_fields m m.
Proof. intros x. split; reflexivity. Qed.

Lemma same_fields_trans m1 m2 m3 :
  same_fields m1 m2 -> same_fields m2 m3 -> same_fields m1 m3.
Proof.
  intros H12 H23 x. destruct (H12 x) as [A B], (H23 x) as [C D].
  split; congruence.
Qed.

Lemma add_dependent_fields alias dep (m : Graph) :
  same_fields m (add_dependent alias dep m).
Proof.
  intros x. rewrite add_dependent_get.
  destruct (map_get x m) as [n |]; [| split; reflexivity].
  destruct (String.eqb x dep); split; reflexivity.
Qed.

Lemma add_dependents_fields alias : forall ds (m : Graph),
  same_fields m (fold_left (fun nodes' dep => add_dependent alias dep nodes') ds m).
Proof.
  induction ds as [| d ds IH]; intros m; [apply same_fields_refl |].
  cbn [fold_left].
  eapply same_fields_trans; [apply (add_dependent_fields alias d) | apply IH].
Qed.

Lemma add_reverse_edges_fields : forall (l m : Graph),
  same_fields m
    (fold_left
       (fun nodes entry =>
          fold_left (fun nodes' dep => add_dependent (fst entry) dep nodes')
                    (dependencies (snd entry)) nodes)
       l m).
Proof.
  induction l as [| e l IH]; intros m; [apply same_fields_refl |].
  cbn [fold_left].
  eapply same_fields_trans; [apply add_dependents_fields | apply IH].
Qed.

Lemma buildGraph_fields config :
  same_fields (init_nodes (workspace config)) (buildGraph config).
Proof. apply add_reverse_edges_fields. Qed.

Lemma buildGraph_order config :
  map_keys (buildGraph config) = set_of (map identity (workspace config)).
Proof.
  unfold buildGraph, add_reverse_edges.
  rewrite (proj1 (add_reverse_edges_spec _ _)).
  unfold init_nodes. now rewrite init_nodes_acc_order.
Qed.

Lemma buildGraph_getWorkspace config a :
  getWorkspace (buildGraph config) a = declaration (workspace config) a.
Proof.
  unfold getWorkspace. rewrite (proj1 (buildGraph_fields config a)).
  unfold init_nodes. rewrite init_nodes_acc_get.
  destruct (declaration (workspace config) a); reflexivity.
Qed.

Lemma buildGraph_getDependencies config a :
  getDependencies (buildGraph config) a
  = match declaration (workspace config) a with
    | Some ws => set_of (dependsOn_list ws)
    | None => []
    end.
Proof.
  unfold getDependencies.
  pose proof (proj2 (buildGraph_fields config a)) as E.
  unfold init_nodes in E. rewrite init_nodes_acc_get in E.
  destruct (declaration (workspace config) a) as [ws |];
    destruct (map_get a (buildGraph config)) as [n |];
    cbn in E; congruence.
Qed.

Lemma declaration_In wss a ws :
  declaration wss a = Some ws -> In ws wss /\ identity ws = a.
Proof.
  unfold declaration. intros E. apply find_some in E. destruct E as [Hin E].
  apply in_rev in Hin. apply String.eqb_eq in E. now split.
Qed.

Lemma has_In (g : Graph) a : has g a = true <-> In a (map_keys g).
Proof. apply map_has_In. Qed.

Lemma getDependents_dependent_of g a b :
  dependent_of g a b <-> In b (getDependents g a).
Proof.
  unfold dependent_of, getDependents. split.
  - intros (n & E & Hin). now rewrite E.
  - destruct (map_get a g) as [n |]; [| intros []]. intros Hin. now exists n.
Qed.

(** X1.  In the graph built from any configuration the keys are
    pairwise distinct, the two sets of a node hold no alias twice, and
    [getDependents] is the exact mirror of [getDependencies] between
    nodes: [b] is a dependent of [a] if and only if [a] and [b] are nodes
    and [a] is a dependency of [b].  A dependency that names no node has
    no dependents. *)
Theorem buildGraph_reverse_edges :
  forall (config : spinxConfig),
    let g := buildGraph config in
    NoDup (getAllAliases g) /\
    (forall a, NoDup (getDependencies g a) /\ NoDup (getDependents g a)) /\
    (forall a b, In b (getDependents g a) <->
                 In a (getAllAliases g) /\ In b (getAllAliases g) /\
                 In a (getDependencies g b)) /\
    (forall a, has g a = false -> getDependents g a = []).
Proof.
  intros config g. destruct (buildGraph_wf config) as (Hnd & Hsets & Hrev).
  fold g in Hnd, Hsets, Hrev.
  split; [exact Hnd |]. split; [| split].
  - intros a. unfold getDependencies, getDependents.
    destruct (map_get a g) as [n |] eqn:E.
    + apply (Hsets a n E).
    + split; constructor.
  - intros a b. rewrite <- getDependents_dependent_of, Hrev.
    rewrite <- depends_getDependencies. unfold getAllAliases. split.
    + intros [Hd Ha]. split; [assumption | split; [| assumption]].
      destruct Hd as (n & E & _). now apply map_get_Some_keys in E.
    + tauto.
  - intros a Ha. unfold getDependents, has, map_has in *.
    destruct (map_get a g); [discriminate | reflexivity].
Qed.

(** X2.  The keys of the built graph are the identities of the
    declarations in the order of their first occurrence; when several
    declarations share an identity, the node keeps the position of the
    first and the contents of the last: [getWorkspace] returns the last
    declaration with that identity and [getDependencies] its [dependsOn]
    without repetitions. *)
Theorem buildGraph_last_declaration_wins :
  forall (config : spinxConfig),
    let g := buildGraph config in
    getAllAliases g = set_of (map identity (workspace config)) /\
    (forall a, getWorkspace g a = declaration (workspace config) a) /\
    (forall a, getDependencies g a
               = match declaration (workspace config) a with
                 | Some ws => set_of (dependsOn_list ws)
                 | None => []
                 end) /\
    (forall a, has g a = true <->
               exists ws, In ws (workspace config) /\ identity ws = a).
Proof.
  intros config g. split; [apply buildGraph_order |].
  split; [apply buildGraph_getWorkspace |].
  split; [apply buildGraph_getDependencies |].
  intros a. unfold g. rewrite has_In, buildGraph_keys, in_map_iff.
  split; intros (ws & H1 & H2); exists ws; auto.
Qed.

(** ** The two schedulers succeed on the same graphs *)

Section BatchOutcome.
Variable g : Graph.
Hypothesis Hwf : graph_wf g.

Lemma batch_loop_outcome : forall fuel (m : jsmap Z) batches,
  batch_inv g m batches -> length m <= fuel ->
  (exists res, batch_loop g fuel m batches = Ok res /\ batch_inv g [] res) \/
  batch_loop g fuel m batches = Err NoBatch.
Proof.
  induction fuel as [| fuel IH]; intros m batches Hinv Hfuel.
  - destruct m; [| simpl in Hfuel; lia]. left. exists batches. now split.
  - destruct (Nat.eq_dec (length m) 0) as [Hm | Hm].
    { apply length_zero_iff_nil in Hm. subst m. rewrite batch_loop_nil.
      left. exists batches. now split. }
    assert (Hm' : m <> []) by (intros ->; now apply Hm).
    destruct (list_eq_dec string_dec (zero_degree m) []) as [Hz | Hz].
    { right. now apply batch_loop_stuck. }
    rewrite batch_loop_step by assumption.
    destruct (batch_remove_ok g (zero_degree m) m) as [m' Hrun].
    { intros a Ha. apply (proj1 (proj2 (proj2 Hinv))). now apply zero_degree_keys. }
    rewrite Hrun. cbn [bind]. apply IH.
    + now apply batch_inv_step.
    + pose proof (batch_remove_shrinks g m m' Hz Hrun). lia.
Qed.

Lemma greedy_step (m : jsmap Z) batches :
  batch_inv g m batches -> greedy g batches -> zero_degree m <> [] ->
  greedy g (batches ++ [zero_degree m]).
Proof.
  intros (Hnd & Hpart & Hsub & Hdeg & _) Hgr Hz i batch Hi.
  destruct (Nat.lt_ge_cases i (length batches)) as [Hlt | Hge].
  - rewrite nth_error_app1 in Hi by assumption.
    rewrite firstn_app.
    replace (i - length batches) with 0 by lia.
    cbn [firstn]. rewrite app_nil_r. now apply Hgr.
  - rewrite nth_error_app2 in Hi by assumption.
    destruct (i - length batches) as [| k] eqn:Ek.
    2:{ cbn in Hi. destruct k; discriminate. }
    cbn in Hi. injection Hi as <-.
    assert (i = length batches) by lia. subst i.
    rewrite firstn_app, firstn_all, Nat.sub_diag. cbn [firstn].
    rewrite app_nil_r. split; [assumption |].
    intros a. rewrite zero_degree_In. unfold ready. split.
    + intros Hin. apply (map_In_get _ _ _ Hnd) in Hin.
      assert (Hk : In a (map_keys m)) by (eapply map_get_Some_keys; eassumption).
      split; [now apply Hsub |]. split; [now apply Hpart; auto |].
      apply remaining_deps_nil.
      rewrite (Hdeg a Hk) in Hin. injection Hin as E.
      apply length_zero_iff_nil. lia.
    + intros (Hk & Hnin & Hdeps).
      apply map_get_In. apply (Hpart a Hk) in Hnin. rewrite (Hdeg a Hnin).
      apply remaining_deps_nil in Hdeps. now rewrite Hdeps.
Qed.

Lemma batch_loop_greedy : forall fuel (m : jsmap Z) batches res,
  batch_inv g m batches -> greedy g batches ->
  batch_loop g fuel m batches = Ok res -> greedy g res.
Proof.
  induction fuel as [| fuel IH]; intros m batches res Hinv Hgr Hrun.
  - destruct m; [| discriminate]. cbn in Hrun. now injection Hrun as <-.
  - destruct m as [| e m0] eqn:Em.
    { cbn in Hrun. now injection Hrun as <-. }
    rewrite <- Em in *.
    assert (Hm' : m <> []) by (rewrite Em; discriminate).
    destruct (list_eq_dec string_dec (zero_degree m) []) as [Hz | Hz].
    { rewrite batch_loop_stuck in Hrun by assumption. discriminate. }
    rewrite batch_loop_step in Hrun by assumption.
    destruct (batch_remove g (zero_degree m) m) as [m' |] eqn:Hrem;
      [| discriminate].
    cbn [bind] in Hrun. apply (IH m' (batches ++ [zero_degree m]) res).
    + now apply batch_inv_step.
    + now apply greedy_step.
    + assumption.
Qed.

Lemma greedy_nil : greedy g [].
Proof. intros i batch Hi. destruct i; discriminate. Qed.

Lemma batch_inv_final res :
  batch_inv g [] res ->
  NoDup (concat res) ->
  (forall a, In a (concat res) -> In a (map_keys g)) ->
  (forall a, In a (concat res) <-> In a (map_keys g)) /\
  deps_known g /\ acyclic g.
Proof.
  intros (_ & Hpart & _ & _ & Hord) Hnd Hsub.
  assert (Hall : forall a, In a (map_keys g) -> In a (concat res)).
  { intros a Ha.
    destruct (in_dec string_dec a (concat res)) as [Hin | Hnin]; [assumption |].
    apply (Hpart a Ha) in Hnin. destruct Hnin. }
  split; [intros a; split; auto |]. split.
  - intros a b Hd.
    assert (Ha : In a (map_keys g)).
    { destruct Hd as (n & E & _). now apply map_get_Some_keys in E. }
    apply Hall, in_batch_concat in Ha. destruct Ha as [i Hi].
    destruct (Hord i a b Hi Hd) as (j & _ & Hj).
    apply Hsub, in_batch_concat. now exists j.
  - intros a Hc.
    assert (Ha : In a (map_keys g)) by (eapply depends_clos_key; eassumption).
    apply Hall, in_batch_concat in Ha. destruct Ha as [i Hi].
    destruct (in_batch_trans g res Hord a a Hc i Hi) as (j & Hlt & Hj).
    pose proof (in_batch_unique res i j a Hnd Hi Hj). lia.
Qed.

End BatchOutcome.

Lemma getParallelBatches_outcome g :
  graph_wf g ->
  (exists res, getParallelBatches g = Ok res /\ batch_inv g [] res) \/
  getParallelBatches g = Err NoBatch.
Proof.
  intros Hwf. apply (batch_loop_outcome g Hwf).
  - now apply batch_inv_init.
  - apply batch_init_length.
Qed.

Lemma getParallelBatches_sound g batches :
  graph_wf g -> getParallelBatches g = Ok batches ->
  NoDup (concat batches) /\
  (forall a, In a (concat batches) <-> In a (map_keys g)) /\
  (forall i a b, in_batch batches i a -> depends g a b ->
                 exists j, j < i /\ in_batch batches j b) /\
  deps_known g /\ acyclic g.
Proof.
  intros Hwf Hrun.
  destruct (getParallelBatches_keys g batches Hrun) as [Hnd Hsub].
  destruct (getParallelBatches_outcome g Hwf) as [(res & E & Hinv) | E];
    [| congruence].
  assert (res = batches) by congruence. subst res.
  destruct (batch_inv_final g batches Hinv Hnd Hsub) as (Hall & Hk & Hac).
  split; [assumption |]. split; [assumption |].
  split; [apply Hinv | now split].
Qed.

(** X3.  On the graph built from any configuration,
    [getParallelBatches] returns if and only if every declared dependency
    names a node and the dependencies form no cycle; in every other case
    it throws "Unable to determine parallel batches", and never anything
    else.  What it returns covers exactly the nodes. *)
Theorem getParallelBatches_succeeds_iff :
  forall (config : spinxConfig),
    let g := buildGraph config in
    ((exists batches, getParallelBatches g = Ok batches) <->
     deps_known g /\ acyclic g) /\
    (forall e, getParallelBatches g = Err e ->
       e = NoBatch /\ message e = "Unable to determine parallel batches") /\
    (forall batches, getParallelBatches g = Ok batches ->
       NoDup (concat batches) /\
       forall a, In a (concat batches) <-> In a (getAllAliases g)).
Proof.
  intros config g. pose proof (buildGraph_wf config) as Hwf. fold g in Hwf.
  split; [split |]; [| | split].
  - intros (batches & Hrun).
    now destruct (getParallelBatches_sound g batches Hwf Hrun)
      as (_ & _ & _ & Hk & Hac).
  - intros [Hk Hac].
    destruct (getParallelBatches_spec g Hwf Hk Hac) as (batches & Hrun & _).
    now exists batches.
  - intros e He.
    destruct (getParallelBatches_outcome g Hwf) as [(res & E & _) | E].
    + congruence.
    + assert (e = NoBatch) by congruence. subst e. now split.
  - intros batches Hrun.
    destruct (getParallelBatches_sound g batches Hwf Hrun)
      as (Hnd & Hall & _).
    now split.
Qed.

(** X4.  Every batch that [getParallelBatches] returns for a built graph
    is non-empty and greedy: the batch of index [i] holds exactly the
    nodes that are in no earlier batch and whose dependencies all lie in
    earlier batches.  So each workspace runs in the earliest batch that
    its dependencies allow. *)
Theorem getParallelBatches_greedy :
  forall (config : spinxConfig) (batches : list (list string)),
    getParallelBatches (buildGraph config) = Ok batches ->
    forall i batch, nth_error batches i = Some batch ->
      batch <> [] /\
      forall a, In a batch <->
                ready (buildGraph config) (concat (firstn i batches)) a.
Proof.
  intros config batches Hrun.
  pose proof (buildGraph_wf config) as Hwf.
  apply (batch_loop_greedy (buildGraph config) Hwf
           (length (buildGraph config)) (batch_init (buildGraph config)) []).
  - now apply batch_inv_init.
  - apply greedy_nil.
  - exact Hrun.
Qed.

Lemma getParallelBatches_greedy_witness :
  ["@orders"] <> [] /\
  forall a, In a ["@orders"] <-> ready (buildGraph ex_config) ["@utils"] a.
Proof.
  apply (getParallelBatches_greedy ex_config
           [["@utils"]; ["@orders"]; ["@cart"]] eq_refl 1 ["@orders"] eq_refl).
Defined.

(** *** getTopologicalOrder *)

Lemma position_app_lt : forall (l1 l2 : list string) b,
  In b l1 -> position (l1 ++ l2) b < length l1.
Proof.
  induction l1 as [| x l1 IH]; intros l2 b Hb; [destruct Hb |].
  cbn [app position length]. destruct (String.eqb b x) eqn:E; [lia |].
  destruct Hb as [-> | Hb]; [now rewrite String.eqb_refl in E |].
  specialize (IH l2 b Hb). lia.
Qed.

Lemma position_app_notin : forall (l1 l2 : list string) a,
  ~ In a l1 -> position (l1 ++ a :: l2) a = length l1.
Proof.
  induction l1 as [| x l1 IH]; intros l2 a Ha.
  - cbn. now rewrite String.eqb_refl.
  - cbn [app position length]. destruct (String.eqb a x) eqn:E.
    + apply String.eqb_eq in E. subst. exfalso. apply Ha. now left.
    + rewrite IH; [reflexivity |]. intros H. apply Ha. now right.
Qed.

Lemma before_position l b a :
  NoDup l -> before l b a -> position l b < position l a.
Proof.
  intros Hnd (l1 & l2 & -> & Hb).
  rewrite (position_app_notin l1 l2 a).
  - now apply position_app_lt.
  - intros Ha. apply NoDup_remove_2 in Hnd. apply Hnd.
    apply in_or_app. now left.
Qed.

Lemma before_In_l l b a : before l b a -> In b l.
Proof. intros (l1 & l2 & -> & Hb). apply in_or_app. now left. Qed.

Lemma topological_acyclic g l :
  NoDup l -> topological g l ->
  (forall a, In a (map_keys g) -> In a l) ->
  acyclic g.
Proof.
  intros Hnd Htopo Hall.
  assert (Hlt : forall a b, clos_trans string (depends g) a b ->
                  position l b < position l a /\ In b l).
  { induction 1 as [a b Hd | a b c _ [IH1 IH1'] _ [IH2 IH2']].
    - assert (Ha : In a l).
      { apply Hall. destruct Hd as (n & E & _). now apply map_get_Some_keys in E. }
      pose proof (Htopo a b Ha Hd) as Hb. split.
      + now apply before_position.
      + now apply before_In_l in Hb.
    - split; [lia | assumption]. }
  intros a Hc. apply Hlt in Hc. lia.
Qed.

Lemma getTopologicalOrder_sound g order :
  graph_wf g -> getTopologicalOrder g = Ok order ->
  NoDup order /\ Permutation order (map_keys g) /\ topological g order /\
  deps_known g /\ acyclic g.
Proof.
  intros Hwf Hrun.
  destruct (topo_loop_spec g Hwf (length g) (fst (topo_init g))
              (snd (topo_init g)) []) as (res & m' & Hloop & Hinv).
  { now apply topo_init_inv. }
  { simpl. lia. }
  unfold getTopologicalOrder in Hrun.
  destruct (topo_init g) as [inDegree queue]. simpl in Hloop.
  rewrite Hloop in Hrun. cbn [bind] in Hrun.
  destruct (Nat.eqb (length res) (length g)) eqn:Elen; [| discriminate].
  cbn in Hrun. injection Hrun as <-. apply Nat.eqb_eq in Elen.
  destruct Hinv as (Hnd & Hkeys & _ & _ & Htopo).
  rewrite app_nil_r in Hnd.
  assert (Hsub : incl res (map_keys g)).
  { intros a Ha. apply Hkeys. now rewrite app_nil_r. }
  assert (Hperm : Permutation res (map_keys g)).
  { apply NoDup_Permutation_bis; [assumption | | assumption].
    unfold map_keys. rewrite length_map. lia. }
  assert (Hall : forall a, In a (map_keys g) -> In a res).
  { intros a Ha. apply Permutation_sym in Hperm.
    now apply (Permutation_in _ Hperm). }
  split; [assumption |]. split; [assumption |]. split; [assumption |]. split.
  - intros a b Hd. apply Hsub.
    apply (before_In_l res b a). apply Htopo; [| assumption].
    apply Hall. destruct Hd as (n & E & _). now apply map_get_Some_keys in E.
  - now apply (topological_acyclic g res).
Qed.

(** X5.  On the graph built from any configuration,
    [getTopologicalOrder] returns if and only if every declared
    dependency names a node and the dependencies form no cycle, which are
    the graphs on which [getParallelBatches] returns; otherwise it throws
    "Graph contains cycles (should have been caught earlier)".  Whatever it
    returns is a permutation of the nodes with every node after its
    dependencies. *)
Theorem getTopologicalOrder_succeeds_iff :
  forall (config : spinxConfig),
    let g := buildGraph config in
    ((exists order, getTopologicalOrder g = Ok order) <->
     deps_known g /\ acyclic g) /\
    ((exists order, getTopologicalOrder g = Ok order) <->
     (exists batches, getParallelBatches g = Ok batches)) /\
    (forall e, getTopologicalOrder g = Err e -> e = InconsistentGraph) /\
    (forall order, getTopologicalOrder g = Ok order ->
       NoDup order /\ Permutation order (getAllAliases g) /\
       topological g order).
Proof.
  intros config g. pose proof (buildGraph_wf config) as Hwf. fold g in Hwf.
  assert (H1 : (exists order, getTopologicalOrder g = Ok order) <->
               deps_known g /\ acyclic g).
  { split.
    - intros (order & Hrun).
      now destruct (getTopologicalOrder_sound g order Hwf Hrun)
        as (_ & _ & _ & Hk & Hac).
    - intros [Hk Hac].
      destruct (getTopologicalOrder_spec g Hwf Hk Hac) as (order & Hrun & _).
      now exists order. }
  split; [exact H1 |]. split; [| split].
  - rewrite H1. split.
    + intros [Hk Hac].
      destruct (getParallelBatches_spec g Hwf Hk Hac) as (batches & Hrun & _).
      now exists batches.
    + intros (batches & Hrun).
      now destruct (getParallelBatches_sound g batches Hwf Hrun)
        as (_ & _ & _ & Hk & Hac).
  - intros e He.
    destruct (getTopologicalOrder_total g Hwf) as [(order & E) | E]; congruence.
  - intros order Hrun.
    destruct (getTopologicalOrder_sound g order Hwf Hrun)
      as (Hnd & Hperm & Htopo & _).
    now split.
Qed.

(** ** The constructor on graphs without dangling dependencies *)

(** X6.  When every declared dependency names a node, the constructor
    of [DependencyGraph] succeeds exactly on the acyclic configurations,
    and what it throws otherwise is the cycle error whose path, joined by
    arrows in the message, starts and ends with the same alias and has
    each alias depending on the next. *)
Theorem newDependencyGraph_detects_cycles :
  forall (config : spinxConfig),
    let g := buildGraph config in
    deps_known g ->
    (acyclic g <-> newDependencyGraph config = Ok g) /\
    (forall e, newDependencyGraph config = Err e ->
       exists cycle,
         e = CycleDetected cycle /\ valid_cycle g cycle /\
         message e = String.append "❌ Circular dependency detected: "
                                   (String.concat " → " cycle)).
Proof.
  intros config g Hk. pose proof (detectCycles_spec g Hk) as Hspec.
  unfold newDependencyGraph. fold g. split; [split |].
  - intros Hac. now rewrite (detectCycles_acyclic_ok g Hk Hac).
  - intros Hrun. destruct (detectCycles g) as [[] | e]; [assumption | discriminate].
  - intros e He. destruct (detectCycles g) as [[] | e']; [discriminate |].
    cbn [bind] in He. injection He as <-.
    destruct e'; try contradiction. exists cycle. now split.
Qed.

Lemma newDependencyGraph_detects_cycles_witness :
  (acyclic (buildGraph ex_config) <->
   newDependencyGraph ex_config = Ok (buildGraph ex_config)) /\
  (forall e, newDependencyGraph ex_cyclic_config = Err e ->
     exists cycle,
       e = CycleDetected cycle /\
       valid_cycle (buildGraph ex_cyclic_config) cycle /\
       message e = String.append "❌ Circular dependency detected: "
                                 (String.concat " → " cycle)).
Proof.
  split.
  - apply (newDependencyGraph_detects_cycles ex_config).
    apply deps_knownb_sound. reflexivity.
  - apply (newDependencyGraph_detects_cycles ex_cyclic_config).
    apply deps_knownb_sound. reflexivity.
Defined.

(** ** getAffected on a built graph *)

Lemma getAffected_members g X :
  exists s,
    getAffected g X = Ok s /\ NoDup s /\
    forall a, In a s <->
              exists x, In x X /\ clos_refl_trans string (dependent_of g) x a.
Proof.
  destruct (affected_loop_spec g X (affected_fuel g X) (set_of X) X)
    as (s & Hrun & Hinv).
  - apply affected_inv_init.
  - unfold affected_fuel, unreached, all_dependents.
    pose proof (filter_length_le
                  (fun d => negb (mem d (set_of X)))
                  (concat (map (fun e => dependents (snd e)) g))).
    lia.
  - exists s. split; [exact Hrun |].
    destruct (affected_inv_final g X s Hinv) as (Hnd & _ & Hmem).
    now split.
Qed.

Section Reverse.
Variable g : Graph.
Hypothesis Hwf : graph_wf g.

Lemma dependents_reverse_path x a :
  clos_refl_trans string (dependent_of g) x a ->
  x = a \/ (In x (map_keys g) /\ clos_trans string (depends g) a x).
Proof.
  intros H. apply clos_rt_rt1n in H.
  induction H as [x | x y a Hxy _ IH]; [now left |].
  right. apply (proj2 (proj2 Hwf)) in Hxy. destruct Hxy as [Hd Hx].
  split; [assumption |].
  destruct IH as [<- | [_ Hc]].
  - now apply t_step.
  - eapply t_trans; [exact Hc | now apply t_step].
Qed.

Lemma dependencies_reverse_path a x :
  clos_trans string (depends g) a x -> In x (map_keys g) ->
  clos_trans string (dependent_of g) x a.
Proof.
  intros H. apply clos_trans_t1n in H.
  induction H as [a x Hd | a y x Hd Hc IH]; intros Hx.
  - apply t_step. apply (proj2 (proj2 Hwf)). now split.
  - eapply t_trans; [now apply IH |].
    apply t_step. apply (proj2 (proj2 Hwf)). split; [assumption |].
    apply clos_t1n_trans in Hc. eapply depends_clos_key; eassumption.
Qed.

End Reverse.

Lemma dependents_forward g (X : list string) a :
  graph_wf g ->
  ((exists x, In x X /\ clos_refl_trans string (dependent_of g) x a) <->
   In a X \/
   exists x, In x X /\ has g x = true /\ clos_trans string (depends g) a x).
Proof.
  intros Hwf. split.
  - intros (x & Hx & Hc).
    destruct (dependents_reverse_path g Hwf x a Hc) as [<- | [Hk Hp]].
    + now left.
    + right. exists x. rewrite has_In. now split.
  - intros [Ha | (x & Hx & Hk & Hp)].
    + exists a. split; [assumption | apply rt_refl].
    + exists x. split; [assumption |]. apply clos_trans_refl_trans.
      apply has_In in Hk. now apply dependencies_reverse_path.
Qed.

(** X7.  On the graph built from any configuration, [getAffected]
    returns, without repetition, the changed aliases themselves (also
    those that name no workspace) together with exactly the workspaces
    that depend, directly or through other workspaces, on a changed
    workspace. *)
Theorem getAffected_transitive_dependents :
  forall (config : spinxConfig) (changedAliases : list string),
    let g := buildGraph config in
    exists affected,
      getAffected g changedAliases = Ok affected /\
      NoDup affected /\
      forall a, In a affected <->
                In a changedAliases \/
                exists x, In x changedAliases /\ has g x = true /\
                          clos_trans string (depends g) a x.
Proof.
  intros config X g. pose proof (buildGraph_wf config) as Hwf. fold g in Hwf.
  destruct (getAffected_members g X) as (s & Hrun & Hnd & Hmem).
  exists s. split; [exact Hrun |]. split; [exact Hnd |].
  intros a. rewrite Hmem. now apply dependents_forward.
Qed.

(** X8.  [getAffected] always returns, keeps every alias it is given,
    and distributes over the concatenation of two lists of changed
    aliases: an alias is affected by [X ++ Y] exactly when it is affected
    by [X] or by [Y].  The empty list affects nothing. *)
Theorem getAffected_union :
  forall (g : Graph) (X Y : list string),
    exists sx sy sxy,
      getAffected g X = Ok sx /\ getAffected g Y = Ok sy /\
      getAffected g (X ++ Y) = Ok sxy /\
      (forall a, In a X -> In a sx) /\
      (forall a, In a sxy <-> In a sx \/ In a sy) /\
      getAffected g [] = Ok [].
Proof.
  intros g X Y.
  destruct (getAffected_members g X) as (sx & Hx & _ & Mx).
  destruct (getAffected_members g Y) as (sy & Hy & _ & My).
  destruct (getAffected_members g (X ++ Y)) as (sxy & Hxy & _ & Mxy).
  exists sx, sy, sxy. split; [exact Hx |]. split; [exact Hy |].
  split; [exact Hxy |]. split; [| split].
  3:{ unfold getAffected. now destruct (affected_fuel g []). }
  - intros a Ha. apply Mx. exists a. split; [assumption | apply rt_refl].
  - intros a. rewrite Mxy, Mx, My. split.
    + intros (x & Hin & Hc). apply in_app_or in Hin.
      destruct Hin as [Hin | Hin]; [left | right]; now exists x.
    + intros [(x & Hin & Hc) | (x & Hin & Hc)]; exists x;
        (split; [apply in_or_app; auto | assumption]).
Qed.

(** ** What validateWorkspaces accepts *)

Lemma validate_deps_iff all ws deps :
  validate_deps all ws deps = Ok tt <->
  forall d, In d deps -> alias_declared all d = true.
Proof.
  split; [| apply validate_deps_ok].
  induction deps as [| d deps IH]; intros H x Hx; [destruct Hx |].
  cbn [validate_deps] in H.
  destruct (alias_declared all d) eqn:E; [| discriminate].
  destruct Hx as [<- | Hx]; [assumption | now apply IH].
Qed.

Lemma alias_declared_iff wss d :
  alias_declared wss d = true <-> exists w, In w wss /\ alias w = Some d.
Proof.
  unfold alias_declared. rewrite existsb_exists.
  split; intros (w & Hin & H); exists w; (split; [assumption |]).
  - destruct (alias w) as [a |]; [| discriminate].
    apply String.eqb_eq in H. now subst.
  - rewrite H. apply String.eqb_refl.
Qed.

Lemma own_alias_In ws a :
  In a (own_alias ws) <-> alias ws = Some a /\ a <> "".
Proof.
  unfold own_alias. destruct (alias ws) as [a' |].
  - destruct (String.eqb a' "") eqn:E.
    + apply String.eqb_eq in E. subst. split; [intros [] |].
      intros [H1 H2]. injection H1 as <-. now destruct H2.
    + apply String.eqb_neq in E. split.
      * intros [<- | []]. now split.
      * intros [H1 _]. injection H1 as <-. now left.
  - split; [intros [] | intros [H _]; discriminate].
Qed.

(** The body of the loop accepts a declaration exactly when its own alias
    and its path are new, the path exists and every dependency is a
    declared alias; it then records the alias and the path. *)
Lemma validate_one_iff existsSync all ws aliases paths st' :
  validate_one existsSync all ws (aliases, paths) = Ok st' <->
  (forall a, In a (own_alias ws) -> ~ In a aliases) /\
  ~ In (path ws) paths /\
  existsSync (path ws) = true /\
  (forall d, In d (dependsOn_list ws) -> alias_declared all d = true) /\
  st' = (fold_left (fun s x => set_add x s) (own_alias ws) aliases,
         set_add (path ws) paths).
Proof.
  unfold validate_one, own_alias, dependsOn_list.
  assert (Hdeps : forall deps,
            validate_deps all ws deps = Ok tt <->
            forall d, In d deps -> alias_declared all d = true)
    by (intros; apply validate_deps_iff).
  destruct (alias ws) as [a |]; [destruct (String.eqb a "") eqn:Ea |];
    cbn [negb bind fold_left].
  2:{ destruct (mem a aliases) eqn:Em.
      { cbn [bind]. split; [discriminate |]. intros (H & _).
        exfalso. apply (H a); [now left | now apply mem_In]. }
      cbn [bind]. apply mem_false in Em.
      destruct (mem (path ws) paths) eqn:Ep.
      { split; [discriminate |]. intros (_ & H & _). apply mem_In in Ep. tauto. }
      apply mem_false in Ep.
      destruct (existsSync (path ws)); cbn [negb].
      2:{ split; [discriminate |]. intros (_ & _ & H & _). discriminate. }
      destruct (dependsOn ws) as [deps |].
      - destruct (validate_deps all ws deps) as [[] | e] eqn:Ev; cbn [bind].
        + pose proof (proj1 (Hdeps deps) Ev) as Hd. split.
          * intros H. injection H as <-.
            split; [intros x [<- | []]; assumption |]. auto.
          * intros (_ & _ & _ & _ & ->). reflexivity.
        + split; [discriminate |]. intros (_ & _ & _ & H & _).
          apply (proj2 (Hdeps deps)) in H. congruence.
      - cbn [bind]. split.
        + intros H. injection H as <-.
          split; [intros x [<- | []]; assumption |].
          split; [assumption |]. split; [reflexivity |].
          split; [intros d [] | reflexivity].
        + intros (_ & _ & _ & _ & ->). reflexivity. }
  all: destruct (mem (path ws) paths) eqn:Ep;
    [ split; [discriminate |]; intros (_ & H & _); apply mem_In in Ep; tauto |];
    apply mem_false in Ep;
    destruct (existsSync (path ws)); cbn [negb];
    [| split; [discriminate |]; intros (_ & _ & H & _); discriminate ];
    destruct (dependsOn ws) as [deps |];
    [ destruct (validate_deps all ws deps) as [[] | e] eqn:Ev; cbn [bind];
      [ pose proof (proj1 (Hdeps deps) Ev) as Hd; split;
        [ intros H; injection H as <-; split; [intros x [] |]; auto
        | intros (_ & _ & _ & _ & ->); reflexivity ]
      | split; [discriminate |]; intros (_ & _ & _ & H & _);
        apply (proj2 (Hdeps deps)) in H; congruence ]
    | cbn [bind]; split;
      [ intros H; injection H as <-; split; [intros x [] |];
        split; [assumption |]; split; [reflexivity |];
        split; [intros d [] | reflexivity]
      | intros (_ & _ & _ & _ & ->); reflexivity ] ].
Qed.

Lemma validate_loop_iff existsSync all : forall wss aliases paths,
  validate_loop existsSync all wss (aliases, paths) = Ok tt <->
  NoDup (declared_aliases wss) /\
  (forall a, In a (declared_aliases wss) -> ~ In a aliases) /\
  NoDup (map path wss) /\
  (forall ws, In ws wss -> ~ In (path ws) paths) /\
  (forall ws, In ws wss -> existsSync (path ws) = true) /\
  (forall ws d, In ws wss -> In d (dependsOn_list ws) ->
                alias_declared all d = true).
Proof.
  induction wss as [| ws wss IH]; intros aliases paths.
  - cbn. split; [intros _ | reflexivity].
    split; [constructor |]. split; [intros a [] |].
    split; [constructor |]. split; [intros w [] |].
    split; [intros w [] | intros w d []].
  - cbn [validate_loop].
    assert (Hdecl : declared_aliases (ws :: wss)
                    = own_alias ws ++ declared_aliases wss) by reflexivity.
    rewrite Hdecl. cbn [map].
    assert (Hown : NoDup (own_alias ws)).
    { unfold own_alias. destruct (alias ws) as [a |]; [| constructor].
      destruct (String.eqb a ""); [constructor |].
      constructor; [intros [] | constructor]. }
    split.
    + intros H.
      destruct (validate_one existsSync all ws (aliases, paths))
        as [[aliases' paths'] | e] eqn:E1; [| discriminate].
      cbn [bind] in H. apply validate_one_iff in E1.
      destruct E1 as (Ha & Hp & He & Hd & Est). injection Est as -> ->.
      apply IH in H. destruct H as (N1 & D1 & N2 & D2 & E2 & K2).
      split.
      { apply NoDup_app; [assumption | assumption |].
        intros a Ha1 Ha2. apply (D1 a Ha2).
        apply set_of_acc_In. now right. }
      split.
      { intros a Hin. apply in_app_or in Hin. destruct Hin as [Hin | Hin].
        - now apply Ha.
        - intros Hc. apply (D1 a Hin). apply set_of_acc_In. now left. }
      split.
      { constructor; [| assumption]. intros Hin. apply in_map_iff in Hin.
        destruct Hin as (w & Ew & Hw). apply (D2 w Hw).
        apply set_add_In. now left. }
      split.
      { intros w [<- | Hw]; [assumption |]. intros Hc. apply (D2 w Hw).
        apply set_add_In. now right. }
      split.
      { intros w [<- | Hw]; [assumption | now apply E2]. }
      intros w d [<- | Hw]; [apply Hd | now apply K2].
    + intros (N1 & D1 & N2 & D2 & E2 & K2).
      assert (E1 : validate_one existsSync all ws (aliases, paths)
                   = Ok (fold_left (fun s x => set_add x s) (own_alias ws) aliases,
                         set_add (path ws) paths)).
      { apply validate_one_iff. split.
        - intros a Ha. apply D1. apply in_or_app. now left.
        - split; [apply D2; now left |]. split; [apply E2; now left |].
          split; [| reflexivity]. intros d Hd. apply (K2 ws d); [now left | assumption]. }
      rewrite E1. cbn [bind]. apply IH.
      split; [now apply NoDup_app_remove_l in N1 |].
      split.
      { intros a Hin Hc. apply set_of_acc_In in Hc. destruct Hc as [Hc | Hc].
        - apply (D1 a); [apply in_or_app; now right | assumption].
        - apply (NoDup_app_disjoint _ _ a N1 Hc Hin). }
      split; [now inversion N2 |].
      split.
      { intros w Hw Hc. apply set_add_In in Hc. destruct Hc as [Hc | Hc].
        - inversion N2 as [| ? ? Hnin _]. subst. apply Hnin.
          apply in_map_iff. exists w. now split.
        - apply (D2 w); [now right | assumption]. }
      split; [intros w Hw; apply E2; now right |].
      intros w d Hw. apply K2. now right.
Qed.

(** X9.  [validateWorkspaces] accepts a configuration exactly when no
    two declarations carry the same non-empty alias, no two carry the same
    path, every path exists on disk and every entry of every [dependsOn]
    is the alias of some declaration. *)
Theorem validateWorkspaces_accepts_iff :
  forall (existsSync : string -> bool) (config : spinxConfig),
    validateWorkspaces existsSync config = Ok tt <->
    NoDup (declared_aliases (workspace config)) /\
    NoDup (map path (workspace config)) /\
    (forall ws, In ws (workspace config) -> existsSync (path ws) = true) /\
    (forall ws d, In ws (workspace config) -> In d (dependsOn_list ws) ->
                  alias_declared (workspace config) d = true).
Proof.
  intros existsSync config. unfold validateWorkspaces.
  rewrite validate_loop_iff. split.
  - intros (N1 & _ & N2 & _ & E & K). auto.
  - intros (N1 & N2 & E & K).
    split; [assumption |]. split; [intros a _ [] |].
    split; [assumption |]. split; [intros w _ [] |]. now split.
Qed.

(** ** From a validated configuration to a schedule *)

Lemma validateWorkspaces_accepts_deps existsSync config :
  validateWorkspaces existsSync config = Ok tt ->
  forall ws d, In ws (workspace config) -> In d (dependsOn_list ws) ->
               alias_declared (workspace config) d = true.
Proof.
  unfold validateWorkspaces. rewrite validate_loop_iff.
  intros (_ & _ & _ & _ & _ & K). exact K.
Qed.

Lemma buildGraph_depends_declared config a b :
  depends (buildGraph config) a b ->
  exists ws, In ws (workspace config) /\ identity ws = a /\
             In b (dependsOn_list ws).
Proof.
  rewrite depends_getDependencies, buildGraph_getDependencies.
  destruct (declaration (workspace config) a) as [ws |] eqn:E; [| intros []].
  apply declaration_In in E. destruct E as [Hin Hid].
  rewrite set_of_In. intros Hb. now exists ws.
Qed.

Lemma validated_deps_known existsSync config :
  validateWorkspaces existsSync config = Ok tt ->
  (forall ws, In ws (workspace config) -> ~ In "" (dependsOn_list ws)) ->
  deps_known (buildGraph config).
Proof.
  intros Hval Hne a b Hd.
  pose proof (validateWorkspaces_accepts_deps existsSync config Hval) as Hdecl'.
  apply buildGraph_depends_declared in Hd. destruct Hd as (ws & Hin & _ & Hb).
  apply buildGraph_keys, in_map_iff.
  pose proof (Hdecl' ws b Hin Hb) as Hdecl. apply alias_declared_iff in Hdecl.
  destruct Hdecl as (w & Hw & Ea). exists w. split; [| assumption].
  unfold identity. rewrite Ea.
  destruct (String.eqb b "") eqn:Eb; [| reflexivity].
  apply String.eqb_eq in Eb. subst b. exfalso. now apply (Hne ws Hin).
Qed.

(** X10.  When the entry point accepts a configuration (the validation
    passes and the constructor finds no cycle) and no [dependsOn] holds
    the empty string, every dependency of the graph names a node, the
    graph is acyclic, and both [getParallelBatches] and
    [getTopologicalOrder] return: the errors "Unable to determine parallel
    batches" and "Graph contains cycles" cannot occur afterwards. *)
Theorem loadGraph_schedulable :
  forall (existsSync : string -> bool) (config : spinxConfig) (g : Graph),
    loadGraph existsSync config = Ok g ->
    (forall ws, In ws (workspace config) -> ~ In "" (dependsOn_list ws)) ->
    g = buildGraph config /\ deps_known g /\ acyclic g /\
    (exists batches, getParallelBatches g = Ok batches) /\
    (exists order, getTopologicalOrder g = Ok order).
Proof.
  intros existsSync config g Hload Hne. unfold loadGraph in Hload.
  destruct (validateWorkspaces existsSync config) as [[] | e] eqn:Hval;
    [| discriminate].
  cbn [bind] in Hload. unfold newDependencyGraph in Hload.
  pose proof (validated_deps_known existsSync config Hval Hne) as Hk.
  pose proof (detectCycles_spec (buildGraph config) Hk) as Hspec.
  destruct (detectCycles (buildGraph config)) as [[] | e]; [| discriminate].
  cbn [bind] in Hload. injection Hload as <-.
  pose proof (buildGraph_wf config) as Hwf.
  split; [reflexivity |]. split; [assumption |]. split; [assumption |]. split.
  - destruct (getParallelBatches_spec _ Hwf Hk Hspec) as (bs & Hrun & _).
    now exists bs.
  - destruct (getTopologicalOrder_spec _ Hwf Hk Hspec) as (o & Hrun & _).
    now exists o.
Qed.

Lemma loadGraph_schedulable_witness :
  buildGraph ex_config = buildGraph ex_config /\
  deps_known (buildGraph ex_config) /\ acyclic (buildGraph ex_config) /\
  (exists batches, getParallelBatches (buildGraph ex_config) = Ok batches) /\
  (exists order, getTopologicalOrder (buildGraph ex_config) = Ok order).
Proof.
  apply (loadGraph_schedulable (fun _ => true) ex_config (buildGraph ex_config)).
  - reflexivity.
  - intros ws Hin Hc. cbn in Hin.
    destruct Hin as [<- | [<- | [<- | []]]]; cbn in Hc;
      repeat (destruct Hc as [Hc | Hc]; [discriminate |]); exact Hc.
Defined.

(** ** The check of [spinx run] *)

Lemma NoDup_map_injective {A B : Type} (f : A -> B) : forall (l : list A) x y,
  NoDup (map f l) -> In x l -> In y l -> f x = f y -> x = y.
Proof.
  induction l as [| z l IH]; intros x y Hnd Hx Hy E; [destruct Hx |].
  cbn [map] in Hnd. inversion Hnd as [| ? ? Hz Hnd']; subst.
  destruct Hx as [-> | Hx], Hy as [-> | Hy].
  - reflexivity.
  - exfalso. apply Hz. rewrite E. now apply in_map.
  - exfalso. apply Hz. rewrite <- E. now apply in_map.
  - now apply IH.
Qed.

Lemma declaration_distinct wss ws :
  NoDup (map identity wss) -> In ws wss ->
  declaration wss (identity ws) = Some ws.
Proof.
  intros Hnd Hin. unfold declaration.
  destruct (find (fun w => String.eqb (identity w) (identity ws)) (rev wss))
    as [w |] eqn:E.
  - apply find_some in E. destruct E as [Hw E].
    apply in_rev in Hw. apply String.eqb_eq in E.
    now rewrite (NoDup_map_injective identity wss w ws Hnd Hw Hin E).
  - apply in_rev in Hin. apply (find_none _ _ E) in Hin.
    now rewrite String.eqb_refl in Hin.
Qed.

Lemma hasCommand_false config c :
  hasCommand config c = false <->
  forall ws, In ws (workspace config) ->
             truthy (getCommand ws c config) = false.
Proof.
  unfold hasCommand, getCommand. split.
  - intros Hno ws Hin.
    destruct (truthy (or_else (opt_index (command ws) c)
                              (opt_index (defaults config) c))) eqn:E;
      [| reflexivity].
    assert (Hex : existsb
                    (fun ws => truthy (or_else (opt_index (command ws) c)
                                               (opt_index (defaults config) c)))
                    (workspace config) = true).
    { apply existsb_exists. exists ws. now split. }
    congruence.
  - intros Hall. apply not_true_iff_false. intros Hex.
    apply existsb_exists in Hex. destruct Hex as (ws & Hin & Ht).
    specialize (Hall ws Hin). congruence.
Qed.

(** X11.  The check [hasCommand] of [spinx run] fails exactly when, for
    every declared workspace, neither its own commands nor the defaults
    give anything for the name: the object is missing, or holds the empty
    string, or has no such property while the name is none of the members
    that every object inherits.  When it fails, [runTask] would have
    skipped every workspace of the graph with a successful result of
    duration 0, on any host.  When it holds and the identities of the
    declarations are pairwise distinct, some declared workspace is not
    skipped: [runTask] hands what [getCommand] found for it to the process
    executor. *)
Theorem hasCommand_false_all_skipped :
  forall (config : spinxConfig) (h : Host) (commandName nodeOpts : string),
    let r := mkRunner config (buildGraph config) nodeOpts in
    (hasCommand config commandName = false <->
     forall ws, In ws (workspace config) ->
                no_command (command ws) commandName /\
                no_command (defaults config) commandName) /\
    (hasCommand config commandName = false ->
     forall alias, has (buildGraph config) alias = true ->
       runTask r h alias commandName = Ok (mkTaskResult alias true 0 None)) /\
    (hasCommand config commandName = true ->
     NoDup (map identity (workspace config)) ->
     exists ws,
       In ws (workspace config) /\
       has (buildGraph config) (identity ws) = true /\
       ~ (no_command (command ws) commandName /\
          no_command (defaults config) commandName) /\
       runTask r h (identity ws) commandName
       = Ok (executed h (identity ws)
               (execa h (getCommand ws commandName config) (path ws)
                      (task_env r h)))).
Proof.
  intros config h c nodeOpts r. split; [| split].
  - rewrite hasCommand_false. split.
    + intros Hall ws Hin. specialize (Hall ws Hin).
      unfold getCommand in Hall. rewrite truthy_or_else in Hall.
      apply orb_false_iff in Hall. destruct Hall as [H1 H2].
      split; now apply opt_index_falsy.
    + intros Hall ws Hin. destruct (Hall ws Hin) as [H1 H2].
      apply getCommand_falsy; now apply opt_index_falsy.
  - intros Hno a Ha.
    apply has_In in Ha. apply map_keys_get in Ha. destruct Ha as [n En].
    assert (Hws : getWorkspace (buildGraph config) a = Some (node_workspace n)).
    { unfold getWorkspace. now rewrite En. }
    apply (runTask_no_command r h a c (node_workspace n)); [exact Hws |].
    cbn [r runner_config]. rewrite buildGraph_getWorkspace in Hws.
    apply declaration_In in Hws. destruct Hws as [Hin _].
    now apply (proj1 (hasCommand_false config c) Hno).
  - intros Hyes Hnd. unfold hasCommand in Hyes.
    apply existsb_exists in Hyes. destruct Hyes as (ws & Hin & Ht).
    assert (Hws : getWorkspace (buildGraph config) (identity ws) = Some ws).
    { rewrite buildGraph_getWorkspace. now apply declaration_distinct. }
    exists ws. split; [exact Hin |]. split; [| split].
    + unfold has, map_has. unfold getWorkspace in Hws.
      destruct (map_get (identity ws) (buildGraph config)); [reflexivity |].
      discriminate.
    + intros [H1 H2]. apply opt_index_falsy in H1, H2.
      rewrite truthy_or_else, H1, H2 in Ht. discriminate.
    + apply (runTask_command r h (identity ws) c ws Hws). exact Ht.
Qed.

Lemma hasCommand_false_all_skipped_witness :
  hasCommand ex_config "test" = false /\
  runTask ex_runner ex_host "@cart" "test"
  = Ok (mkTaskResult "@cart" true 0 None) /\
  hasCommand ex_config "toString" = true /\
  exists ws,
    In ws (workspace ex_config) /\
    runTask ex_runner ex_host (identity ws) "toString"
    = Ok (executed ex_host (identity ws)
            (execa ex_host (getCommand ws "toString" ex_config) (path ws)
                   (task_env ex_runner ex_host))).
Proof.
  pose proof (hasCommand_false_all_skipped ex_config ex_host "test"
                "--require /repo/.spinx/resolver.js") as Ht.
  pose proof (hasCommand_false_all_skipped ex_config ex_host "toString"
                "--require /repo/.spinx/resolver.js") as Hs.
  cbv zeta in Ht, Hs.
  split; [reflexivity |]. split; [| split; [reflexivity |]].
  - apply (proj1 (proj2 Ht)); reflexivity.
  - destruct (proj2 (proj2 Hs) eq_refl) as (ws & Hin & _ & _ & Hrun).
    + cbn. repeat constructor; cbn; intuition discriminate.
    + exists ws. split; [exact Hin | exact Hrun].
Defined.

(** ** runSingle *)

Lemma runTask_unknown r h a commandType :
  has (runner_graph r) a = false ->
  runTask r h a commandType = Err (WorkspaceNotFound a).
Proof.
  unfold has, map_has, runTask, getWorkspace.
  destruct (map_get a (runner_graph r)); [discriminate | reflexivity].
Qed.

Lemma runTask_has r h a commandType :
  has (runner_graph r) a = true ->
  exists res, runTask r h a commandType = Ok res.
Proof.
  intros H. apply has_In in H.
  destruct (runTask_known r h a commandType H) as (res & E & _). now exists res.
Qed.

Lemma run_deps_ok r h commandType : forall deps started,
  (forall d, In d deps -> has (runner_graph r) d = true) ->
  run_deps r h commandType deps started = (Ok tt, started ++ deps).
Proof.
  induction deps as [| d deps IH]; intros started Hk.
  - cbn. now rewrite app_nil_r.
  - cbn [run_deps].
    destruct (runTask_has r h d commandType) as [res E].
    { apply Hk. now left. }
    rewrite E, IH.
    + now rewrite <- app_assoc.
    + intros x Hx. apply Hk. now right.
Qed.

Lemma run_deps_err r h commandType : forall deps started e started',
  run_deps r h commandType deps started = (Err e, started') ->
  exists pre d post,
    deps = pre ++ d :: post /\
    (forall x, In x pre -> has (runner_graph r) x = true) /\
    has (runner_graph r) d = false /\
    e = WorkspaceNotFound d /\ started' = started ++ pre ++ [d].
Proof.
  induction deps as [| d deps IH]; intros started e started' H.
  - cbn in H. discriminate.
  - cbn [run_deps] in H.
    destruct (has (runner_graph r) d) eqn:Hd.
    + destruct (runTask_has r h d commandType Hd) as [res E].
      rewrite E in H. apply IH in H.
      destruct H as (pre & x & post & -> & Hpre & Hx & -> & ->).
      exists (d :: pre), x, post. split; [reflexivity |].
      split; [intros y [<- | Hy]; auto |]. split; [assumption |].
      split; [reflexivity |]. now rewrite <- app_assoc.
    + rewrite (runTask_unknown r h d commandType Hd) in H.
      injection H as <- <-.
      exists [], d, deps. split; [reflexivity |].
      split; [intros y [] |]. now split.
Qed.

(** X12.  For a workspace of the graph whose direct dependencies are
    all nodes, [runSingle] with [withDeps] hands to [runTask] the direct
    dependencies, in the order of [dependsOn], and then the workspace
    itself, and returns normally: it runs no dependency of a dependency,
    and a failing dependency neither stops the sequence nor makes the call
    fail.  Without [withDeps] only the workspace itself is run. *)
Theorem runSingle_runs_direct_dependencies :
  forall (r : TaskRunner) (h : Host) (alias commandType : string),
    has (runner_graph r) alias = true ->
    (forall d, In d (getDependencies (runner_graph r) alias) ->
               has (runner_graph r) d = true) ->
    runSingle r h alias commandType true
      = (Ok tt, getDependencies (runner_graph r) alias ++ [alias]) /\
    runSingle r h alias commandType false = (Ok tt, [alias]).
Proof.
  intros r h alias commandType Ha Hd. unfold runSingle. rewrite Ha. cbn [negb].
  destruct (runTask_has r h alias commandType Ha) as [res E].
  rewrite (run_deps_ok r h commandType _ [] Hd), E. now split.
Qed.

Lemma runSingle_runs_direct_dependencies_witness :
  runSingle ex_runner ex_host_failing "@cart" "build" true
    = (Ok tt, ["@orders"; "@utils"; "@cart"]) /\
  task_failed ex_runner ex_host_failing "build" "@orders" /\
  runSingle ex_runner ex_host_failing "@cart" "build" false
    = (Ok tt, ["@cart"]).
Proof.
  destruct (runSingle_runs_direct_dependencies ex_runner ex_host_failing
              "@cart" "build") as [H1 H2].
  - reflexivity.
  - intros d Hd. cbn in Hd. destruct Hd as [<- | [<- | []]]; reflexivity.
  - split; [exact H1 |]. split; [| exact H2].
    eexists. split; reflexivity.
Defined.

(** X13.  [runSingle] only ever fails with "Workspace not found": for
    the requested alias when it is no node of the graph, before anything
    is run; or, with [withDeps], for the first direct dependency that is
    no node, after the dependencies before it were run and without
    running the workspace itself after it. *)
Theorem runSingle_errors :
  forall (r : TaskRunner) (h : Host) (alias commandType : string)
         (withDeps : bool) (e : Error) (started : list string),
    runSingle r h alias commandType withDeps = (Err e, started) ->
    (has (runner_graph r) alias = false /\
     e = WorkspaceNotFound alias /\ started = []) \/
    (has (runner_graph r) alias = true /\ withDeps = true /\
     exists pre d post,
       getDependencies (runner_graph r) alias = pre ++ d :: post /\
       (forall x, In x pre -> has (runner_graph r) x = true) /\
       has (runner_graph r) d = false /\
       e = WorkspaceNotFound d /\ started = pre ++ [d]).
Proof.
  intros r h alias commandType withDeps e started. unfold runSingle.
  destruct (has (runner_graph r) alias) eqn:Ha; cbn [negb].
  2:{ intros H. injection H as <- <-. now left. }
  destruct (runTask_has r h alias commandType Ha) as [res E]. rewrite E.
  destruct withDeps.
  - destruct (run_deps r h commandType
                (getDependencies (runner_graph r) alias) [])
      as [[[] | e'] started'] eqn:Hrun; [discriminate |].
    intros H. injection H as <- <-. right.
    apply run_deps_err in Hrun.
    destruct Hrun as (pre & d & post & Hsplit & Hpre & Hd & -> & ->).
    split; [reflexivity |]. split; [reflexivity |].
    exists pre, d, post. now split.
  - discriminate.
Qed.

Lemma runSingle_errors_witness :
  let r := mkRunner ex_dangling_config (buildGraph ex_dangling_config) "" in
  runSingle r ex_host "A" "build" true = (Err (WorkspaceNotFound "X"), ["X"]) /\
  ((has (runner_graph r) "A" = false /\
    WorkspaceNotFound "X" = WorkspaceNotFound "A" /\ ["X"] = []) \/
   (has (runner_graph r) "A" = true /\ true = true /\
    exists pre d post,
      getDependencies (runner_graph r) "A" = pre ++ d :: post /\
      (forall x, In x pre -> has (runner_graph r) x = true) /\
      has (runner_graph r) d = false /\
      WorkspaceNotFound "X" = WorkspaceNotFound d /\ ["X"] = pre ++ [d])).
Proof.
  intros r. split; [reflexivity |].
  apply (runSingle_errors r ex_host "A" "build" true
           (WorkspaceNotFound "X") ["X"]).
  reflexivity.
Defined.

(** ** runAll and the dependency order *)

Lemma apply_filter_In_iff filter_ batch a :
  In a (apply_filter filter_ batch) <-> In a batch /\ passes filter_ a.
Proof.
  unfold apply_filter, passes. destruct filter_ as [f |]; [| tauto].
  rewrite filter_In, mem_In. reflexivity.
Qed.

Lemma in_batch_filtered filter_ (bs : list (list string)) i a :
  in_batch (map (apply_filter filter_) bs) i a <->
  in_batch bs i a /\ passes filter_ a.
Proof.
  unfold in_batch. rewrite nth_error_map. split.
  - intros (b & Hb & Ha). destruct (nth_error bs i) as [b0 |]; [| discriminate].
    cbn in Hb. injection Hb as <-. apply apply_filter_In_iff in Ha.
    split; [exists b0 |]; tauto.
  - intros [(b & Hb & Ha) Hp]. exists (apply_filter filter_ b). rewrite Hb.
    split; [reflexivity |]. now apply apply_filter_In_iff.
Qed.

Lemma selected_in_batch filter_ (bs : list (list string)) a :
  In a (selected filter_ bs) <->
  exists i, in_batch bs i a /\ passes filter_ a.
Proof.
  unfold selected. rewrite in_batch_concat. split.
  - intros [i Hi]. exists i. now apply in_batch_filtered.
  - intros [i Hi]. exists i. now apply in_batch_filtered.
Qed.

Lemma in_batch_app_prefix (l1 l2 : list (list string)) i a :
  in_batch l1 i a -> in_batch (l1 ++ l2) i a.
Proof.
  intros (b & Hb & Ha). exists b. split; [| assumption].
  rewrite nth_error_app1; [assumption |].
  apply nth_error_Some. congruence.
Qed.

Lemma in_batch_app_restrict (l1 l2 : list (list string)) i a :
  in_batch (l1 ++ l2) i a -> i < length l1 -> in_batch l1 i a.
Proof.
  intros (b & Hb & Ha) Hi. exists b. split; [| assumption].
  now rewrite nth_error_app1 in Hb.
Qed.

(** The aliases that [runAll] handed to [runTask] are the selected
    members of the batches up to a point before which every selected task
    succeeded. *)
Lemma runAll_started r h commandType filter_ batches :
  getParallelBatches (runner_graph r) = Ok batches ->
  exists done rest,
    batches = done ++ rest /\
    snd (runAll r h commandType filter_) = selected filter_ done /\
    (forall i a, in_batch done i a -> passes filter_ a -> S i < length done ->
       task_ok r h commandType a) /\
    ((exists results, fst (runAll r h commandType filter_) = Ok results) ->
     rest = [] /\
     forall a, In a (selected filter_ done) -> task_ok r h commandType a).
Proof.
  intros Hb.
  destruct (getParallelBatches_keys _ _ Hb) as [_ Hkeys].
  destruct (first_failure r h commandType filter_ batches) as [Hok | Hfail].
  { intros a Ha. apply Hkeys. eapply selected_In, Ha. }
  - destruct (runAll_success r h commandType filter_ batches Hb Hok)
      as [results E].
    exists batches, []. rewrite app_nil_r, E. cbn [fst snd].
    split; [reflexivity |]. split; [reflexivity |]. split.
    + intros i a Hi Hp _. apply Hok. apply selected_in_batch. now exists i.
    + intros _. now split.
  - destruct Hfail as (pre & b & post & -> & Hpre & Hbad).
    rewrite (runAll_failure r h commandType filter_ pre b post Hb Hpre Hbad).
    exists (pre ++ [b]), post. cbn [fst snd].
    split; [now rewrite <- app_assoc |]. split; [reflexivity |]. split.
    + intros i a Hi Hp Hlt. rewrite length_app in Hlt. cbn in Hlt.
      apply Hpre. apply selected_in_batch. exists i. split; [| assumption].
      apply (in_batch_app_restrict pre [b]); [assumption | lia].
    + intros [results E]. discriminate.
Qed.

(** X14.  Whatever [runAll] starts on the graph built from a
    configuration, it starts in dependency order and only after success:
    when a task was handed to [runTask], each of its dependencies that
    passes the filter (every dependency, when there is no filter) was
    handed to [runTask] before it, and succeeded. *)
Theorem runAll_respects_dependencies :
  forall (config : spinxConfig) (h : Host) (commandType nodeOpts : string)
         (filter_ : option (list string)),
    let g := buildGraph config in
    let r := mkRunner config g nodeOpts in
    forall a b,
      In a (snd (runAll r h commandType filter_)) ->
      depends g a b -> passes filter_ b ->
      before (snd (runAll r h commandType filter_)) b a /\
      task_ok r h commandType b.
Proof.
  intros config h commandType nodeOpts filter_ g r a b Ha Hd Hp.
  pose proof (buildGraph_wf config) as Hwf. fold g in Hwf.
  destruct (getParallelBatches g) as [batches | e] eqn:Hb.
  2:{ unfold runAll in Ha. cbn [runner_graph r] in Ha.
      fold g in Ha. rewrite Hb in Ha. destruct Ha. }
  destruct (getParallelBatches_sound g batches Hwf Hb)
    as (Hnd & _ & Hord & _).
  destruct (runAll_started r h commandType filter_ batches Hb)
    as (done & rest & -> & Es & Hok & _).
  rewrite Es in *. apply selected_in_batch in Ha. destruct Ha as (i & Hi & Hpa).
  destruct (Hord i a b (in_batch_app_prefix done rest i a Hi) Hd)
    as (j & Hlt & Hj).
  pose proof (in_batch_lt _ _ _ Hi) as Hi'.
  apply in_batch_app_restrict in Hj; [| lia].
  split.
  - unfold selected.
    apply (in_batch_before (map (apply_filter filter_) done) i j a b);
      [now apply in_batch_filtered | now apply in_batch_filtered | assumption].
  - apply (Hok j b Hj Hp). lia.
Qed.

Lemma runAll_respects_dependencies_witness :
  before (snd (runAll ex_runner ex_host "lint" None)) "@orders" "@cart" /\
  task_ok ex_runner ex_host "lint" "@orders".
Proof.
  apply (runAll_respects_dependencies ex_config ex_host "lint"
           "--require /repo/.spinx/resolver.js" None "@cart" "@orders").
  - vm_compute. right. right. left. reflexivity.
  - eexists. split; [reflexivity |]. cbn. left. reflexivity.
  - exact I.
Defined.

(** *** A filter that names no node *)

Lemma run_batches_none r h commandType filter_ concurrency :
  forall batches results started,
    (forall b, In b batches -> apply_filter filter_ b = []) ->
    run_batches r h commandType filter_ concurrency batches results started
    = (Ok results, started).
Proof.
  induction batches as [| b batches IH]; intros results started Hnil;
    [reflexivity |].
  rewrite run_batches_skip by (apply Hnil; now left).
  apply IH. intros b' Hb'. apply Hnil. now right.
Qed.

(** X15.  When the batches can be computed and the filter names no
    node of the graph (an empty list, or only unknown aliases), [runAll]
    hands nothing to [runTask] and returns an empty map of results,
    without any error. *)
Theorem runAll_filter_without_nodes :
  forall (r : TaskRunner) (h : Host) (commandType : string) (f : list string)
         (batches : list (list string)),
    getParallelBatches (runner_graph r) = Ok batches ->
    (forall a, In a f -> has (runner_graph r) a = false) ->
    runAll r h commandType (Some f) = (Ok [], []).
Proof.
  intros r h commandType f batches Hb Hf.
  destruct (getParallelBatches_keys _ _ Hb) as [_ Hkeys].
  rewrite (runAll_batches r h commandType (Some f) batches Hb).
  apply run_batches_none. intros b Hin.
  apply filter_nil. intros a Ha.
  destruct (mem a f) eqn:Em; [| reflexivity]. exfalso.
  apply mem_In in Em. apply Hf in Em.
  assert (Hk : has (runner_graph r) a = true).
  { apply has_In, Hkeys. apply in_concat. now exists b. }
  congruence.
Qed.

Lemma runAll_filter_without_nodes_witness :
  runAll ex_runner ex_host_failing "build" (Some ["@payments"]) = (Ok [], []).
Proof.
  apply (runAll_filter_without_nodes ex_runner ex_host_failing "build"
           ["@payments"] [["@utils"]; ["@orders"]; ["@cart"]]).
  - reflexivity.
  - intros a [<- | []]. reflexivity.
Defined.

(** ** runAffected *)

(** X16.  On the graph built from a configuration, [runAffected] is
    [runAll] filtered by the set that [getAffected] returns.  It hands to
    [runTask] only affected workspaces of the graph; and when it returns
    normally it has run every affected workspace of the graph, so that
    with a workspace it has also run each workspace depending on it. *)
Theorem runAffected_runs_affected :
  forall (config : spinxConfig) (h : Host) (nodeOpts : string)
         (changedAliases : list string) (commandType : string),
    let g := buildGraph config in
    let r := mkRunner config g nodeOpts in
    let started := snd (runAffected r h changedAliases commandType) in
    exists affected,
      getAffected g changedAliases = Ok affected /\
      runAffected r h changedAliases commandType
        = runAll r h commandType (Some affected) /\
      (forall a, In a started -> In a affected /\ has g a = true) /\
      ((exists results,
          fst (runAffected r h changedAliases commandType) = Ok results) ->
       (forall a, In a affected -> has g a = true -> In a started) /\
       (forall a b, In a started -> depends g b a -> In b started)).
Proof.
  intros config h nodeOpts X commandType g r started.
  pose proof (buildGraph_wf config) as Hwf. fold g in Hwf.
  destruct (getAffected_members g X) as (s & Hrun & _ & Hmem).
  exists s. split; [exact Hrun |].
  assert (E : runAffected r h X commandType = runAll r h commandType (Some s)).
  { unfold runAffected. cbn [runner_graph r]. fold g. now rewrite Hrun. }
  split; [exact E |]. unfold started. rewrite E.
  destruct (getParallelBatches g) as [batches | e] eqn:Hb.
  2:{ unfold runAll. cbn [runner_graph r]. fold g. rewrite Hb. cbn [fst snd].
      split; [intros a [] |]. intros [results Hr]. discriminate. }
  destruct (getParallelBatches_sound g batches Hwf Hb)
    as (_ & Hall & _ & _ & _).
  destruct (runAll_started r h commandType (Some s) batches Hb)
    as (done & rest & -> & Es & _ & Hfin).
  rewrite Es.
  assert (Hsel : forall a, In a (selected (Some s) done) ->
                           In a s /\ has g a = true).
  { intros a Ha. apply selected_in_batch in Ha. destruct Ha as (i & Hi & Hp).
    split; [exact Hp |]. apply has_In, Hall, in_batch_concat.
    exists i. now apply in_batch_app_prefix. }
  split; [exact Hsel |].
  intros Hok. destruct (Hfin Hok) as [-> _]. rewrite app_nil_r in Hall.
  assert (Hconv : forall a, In a s -> has g a = true ->
                            In a (selected (Some s) done)).
  { intros a Ha Hk. apply has_In, Hall, in_batch_concat in Hk.
    destruct Hk as [i Hi]. apply selected_in_batch. now exists i. }
  split; [exact Hconv |].
  intros a b Ha Hd. destruct (Hsel a Ha) as [Has Hak].
  apply Hconv.
  - apply Hmem. apply Hmem in Has. destruct Has as (x & Hx & Hc).
    exists x. split; [assumption |].
    eapply rt_trans; [exact Hc |]. apply rt_step.
    apply (proj2 (proj2 Hwf)). split; [assumption | now apply has_In].
  - apply has_In. destruct Hd as (n & En & _). now apply map_get_Some_keys in En.
Qed.

(** ** mapFilesToWorkspaces *)

Lemma first_workspace_findWorkspace : forall wss p,
  first_workspace wss p
  = findWorkspace (map (fun ws => mkRoot (identity ws) (path ws)) wss) p.
Proof.
  induction wss as [| ws wss IH]; intros p; [reflexivity |].
  cbn [first_workspace map findWorkspace root_path root_alias].
  now rewrite IH.
Qed.

Lemma mapFiles_acc (join : string -> string -> string) wss rootDir :
  forall files acc,
  let res := fold_left
               (fun changedWorkspaces file =>
                  match first_workspace wss (join rootDir file) with
                  | Some a => set_add a changedWorkspaces
                  | None => changedWorkspaces
                  end) files acc in
  (NoDup acc -> NoDup res) /\
  forall a, In a res <->
            In a acc \/
            exists file, In file files /\
                         first_workspace wss (join rootDir file) = Some a.
Proof.
  induction files as [| f files IH]; intros acc; cbn [fold_left].
  - split; [auto |]. intros a. split; [auto |].
    intros [H | (file & [] & _)]. exact H.
  - specialize (IH (match first_workspace wss (join rootDir f) with
                    | Some a => set_add a acc
                    | None => acc
                    end)).
    cbv zeta in IH. destruct IH as [IHnd IHin]. split.
    + intros Hnd. apply IHnd.
      destruct (first_workspace wss (join rootDir f)); [| assumption].
      now apply set_add_NoDup.
    + intros a. rewrite IHin. split.
      * intros [Hin | (file & Hf & E)].
        -- destruct (first_workspace wss (join rootDir f)) as [x |] eqn:Ex.
           ++ apply set_add_In in Hin. destruct Hin as [-> | Hin]; [| now left].
              right. exists f. split; [now left | assumption].
           ++ now left.
        -- right. exists file. split; [now right | assumption].
      * intros [Hin | (file & [<- | Hf] & E)].
        -- left. destruct (first_workspace wss (join rootDir f));
             [apply set_add_In; now right | assumption].
        -- left. rewrite E. apply set_add_In. now left.
        -- right. now exists file.
Qed.

(** The workspace that [findWorkspace] names for a path is a node of the
    graph built from the configuration. *)
Lemma findWorkspace_node config p a :
  findWorkspace (workspaceRoots config) p = Some a ->
  has (buildGraph config) a = true.
Proof.
  intros E. apply findWorkspace_first in E.
  destruct E as (pre & root & post & Hroots & _ & Hal & _).
  apply has_In, buildGraph_keys.
  assert (Hr : In root (workspaceRoots config)).
  { rewrite Hroots. apply in_or_app. right. now left. }
  unfold workspaceRoots in Hr. apply in_map_iff in Hr.
  destruct Hr as (ws & <- & Hws). cbn in Hal. subst a.
  apply in_map_iff. now exists ws.
Qed.

Lemma mapFilesToWorkspaces_nodes (join : string -> string -> string)
    (files : list string) (config : spinxConfig) (rootDir : string) a :
  In a (mapFilesToWorkspaces join files (workspace config) rootDir) ->
  has (buildGraph config) a = true.
Proof.
  intros Ha.
  apply (proj2 (mapFiles_acc join (workspace config) rootDir files [])) in Ha.
  destruct Ha as [[] | (file & _ & E)].
  rewrite first_workspace_findWorkspace in E.
  now apply (findWorkspace_node config (join rootDir file)).
Qed.

(** X17.  [mapFilesToWorkspaces] attributes a changed file to the
    workspace that the resolver hook would find for the joined path: the
    first declared workspace whose [path] is a string prefix of it.  The
    result holds each such workspace once, holds nothing else, and every
    member is a node of the graph built from the configuration; files
    under no workspace are dropped. *)
Theorem mapFilesToWorkspaces_first_match :
  forall (join : string -> string -> string) (changedFiles : list string)
         (config : spinxConfig) (rootDir : string),
    let changed :=
      mapFilesToWorkspaces join changedFiles (workspace config) rootDir in
    NoDup changed /\
    (forall a, In a changed <->
               exists file, In file changedFiles /\
                 findWorkspace (workspaceRoots config) (join rootDir file)
                 = Some a) /\
    (forall a, In a changed -> has (buildGraph config) a = true).
Proof.
  intros join files config rootDir changed.
  destruct (mapFiles_acc join (workspace config) rootDir files []) as [Hnd Hin].
  fold (mapFilesToWorkspaces join files (workspace config) rootDir) in Hnd, Hin.
  fold changed in Hnd, Hin.
  split; [apply Hnd; constructor |]. split.
  - intros a. rewrite Hin. unfold workspaceRoots. split.
    + intros [[] | (file & Hf & E)]. exists file.
      now rewrite <- first_workspace_findWorkspace.
    + intros (file & Hf & E). right. exists file.
      now rewrite first_workspace_findWorkspace.
  - intros a Ha. apply Hin in Ha. destruct Ha as [[] | (file & _ & E)].
    rewrite first_workspace_findWorkspace in E.
    now apply (findWorkspace_node config (join rootDir file)).
Qed.

(** ** parseFilter *)

Lemma split_on_nonempty sep s : split_on sep s <> [].
Proof.
  destruct s as [| c s]; cbn [split_on]; [discriminate |].
  destruct (Ascii.eqb c sep); [discriminate |].
  destruct (split_on sep s); discriminate.
Qed.

Lemma split_on_plain sep : forall s,
  mentions sep s = false -> split_on sep s = [s].
Proof.
  induction s as [| c s IH]; intros H; [reflexivity |].
  cbn [mentions] in H. apply orb_false_iff in H. destruct H as [Hc Hs].
  cbn [split_on]. rewrite Hc, (IH Hs). reflexivity.
Qed.

Lemma split_on_app sep : forall a rest,
  mentions sep a = false ->
  split_on sep (String.append a (String sep rest)) = a :: split_on sep rest.
Proof.
  induction a as [| c a IH]; intros rest H.
  - cbn [String.append split_on]. now rewrite Ascii.eqb_refl.
  - cbn [mentions] in H. apply orb_false_iff in H. destruct H as [Hc Hs].
    cbn [String.append split_on]. rewrite Hc, (IH rest Hs). reflexivity.
Qed.

Lemma concat_cons2 sep a b l :
  String.concat sep (a :: b :: l)
  = String.append a (String.append sep (String.concat sep (b :: l))).
Proof. reflexivity. Qed.

Lemma split_on_concat sep : forall l,
  l <> [] -> (forall a, In a l -> mentions sep a = false) ->
  split_on sep (String.concat (String sep "") l) = l.
Proof.
  induction l as [| a l IH]; intros Hne Hl; [contradiction |].
  destruct l as [| b l].
  - cbn [String.concat]. apply split_on_plain. apply Hl. now left.
  - rewrite concat_cons2. cbn [String.append].
    rewrite split_on_app by (apply Hl; now left).
    rewrite IH; [reflexivity | discriminate |].
    intros x Hx. apply Hl. now right.
Qed.

Lemma concat_not_empty sep a l :
  a <> "" -> String.concat sep (a :: l) <> "".
Proof.
  intros Ha. destruct l as [| b l]; [exact Ha |].
  rewrite concat_cons2. destruct a; [contradiction | discriminate].
Qed.

(** X18.  [parseFilter] returns [undefined] exactly for a missing or
    empty argument, never returns an empty alias, and inverts the joining
    of aliases by commas: for a non-empty list of non-empty aliases
    without commas that [trim] leaves unchanged, parsing their
    comma-separated join gives the list back. *)
Theorem parseFilter_round_trip :
  forall (trim : string -> string),
    (forall arg, parseFilter trim arg = None <-> arg = None \/ arg = Some "") /\
    (forall arg aliases, parseFilter trim arg = Some aliases ->
                         ~ In "" aliases) /\
    (forall aliases,
       aliases <> [] ->
       (forall a, In a aliases ->
          a <> "" /\ mentions "," a = false /\ trim a = a) ->
       parseFilter trim (Some (String.concat "," aliases)) = Some aliases).
Proof.
  intros trim. split; [| split].
  - intros [s |]; cbn [parseFilter].
    + destruct (String.eqb s "") eqn:E.
      * apply String.eqb_eq in E. subst. split; auto.
      * apply String.eqb_neq in E. split; [discriminate |].
        intros [H | H]; [discriminate | injection H as ->; contradiction].
    + split; auto.
  - intros [s |] aliases; cbn [parseFilter]; [| discriminate].
    destruct (String.eqb s ""); [discriminate |].
    intros H. injection H as <-. rewrite filter_In.
    intros [_ H]. discriminate.
  - intros aliases Hne Hl. cbn [parseFilter].
    destruct aliases as [| a l]; [contradiction |].
    destruct (String.eqb (String.concat "," (a :: l)) "") eqn:E.
    { apply String.eqb_eq in E. exfalso.
      apply (concat_not_empty "," a l); [| exact E]. apply Hl. now left. }
    rewrite split_on_concat; [| discriminate | intros x Hx; apply Hl, Hx].
    f_equal.
    assert (Hmap : map trim (a :: l) = a :: l).
    { rewrite <- (map_id (a :: l)) at 2. apply map_ext_in.
      intros x Hx. apply Hl, Hx. }
    rewrite Hmap. apply filter_all. intros x Hx.
    destruct (Hl x Hx) as (Hx' & _). apply String.eqb_neq in Hx'.
    now rewrite Hx'.
Qed.

Lemma parseFilter_round_trip_witness :
  parseFilter (fun s => s) (Some "@utils,@cart") = Some ["@utils"; "@cart"].
Proof.
  apply (proj2 (proj2 (parseFilter_round_trip (fun s => s)))
           ["@utils"; "@cart"]).
  - discriminate.
  - intros a [<- | [<- | []]];
      (split; [discriminate | split; reflexivity]).
Defined.

(** ** The resolver hook *)

Lemma string_app_assoc : forall a b c,
  String.append (String.append a b) c = String.append a (String.append b c).
Proof.
  induction a as [| x a IH]; intros b c; [reflexivity |].
  cbn [String.append]. now rewrite IH.
Qed.

Lemma string_app_empty : forall a, String.append a "" = a.
Proof.
  induction a as [| x a IH]; [reflexivity |]. cbn [String.append]. now rewrite IH.
Qed.

Lemma string_length_app : forall a b,
  String.length (String.append a b) = String.length a + String.length b.
Proof.
  induction a as [| x a IH]; intros b; [reflexivity |].
  cbn [String.append String.length]. now rewrite IH.
Qed.

Lemma substring_all : forall s, String.substring 0 (String.length s) s = s.
Proof.
  induction s as [| c s IH]; [reflexivity |].
  cbn [String.length String.substring]. now rewrite IH.
Qed.

Lemma substring_skip : forall p r,
  String.substring (String.length p)
    (String.length (String.append p r) - String.length p) (String.append p r)
  = r.
Proof.
  induction p as [| c p IH]; intros r.
  - cbn [String.append String.length]. rewrite Nat.sub_0_r. apply substring_all.
  - cbn [String.append String.length String.substring].
    replace (S (String.length (String.append p r)) - S (String.length p))
      with (String.length (String.append p r) - String.length p) by lia.
    apply IH.
Qed.

Lemma split_slash_nonempty s : split_slash s <> [].
Proof.
  destruct s as [| c s]; cbn [split_slash]; [discriminate |].
  destruct (Ascii.eqb c "/"); [discriminate |].
  destruct (split_slash s); discriminate.
Qed.

Lemma concat_push c sep p ps :
  String.concat sep (String c p :: ps) = String c (String.concat sep (p :: ps)).
Proof. destruct ps; reflexivity. Qed.

Lemma concat_split_slash : forall s, String.concat "/" (split_slash s) = s.
Proof.
  induction s as [| c s IH]; [reflexivity |].
  cbn [split_slash]. destruct (Ascii.eqb c "/") eqn:Ec.
  - apply Ascii.eqb_eq in Ec. subst c.
    destruct (split_slash s) as [| p ps] eqn:Es.
    + now apply split_slash_nonempty in Es.
    + rewrite concat_cons2, IH. reflexivity.
  - destruct (split_slash s) as [| p ps] eqn:Es.
    + now apply split_slash_nonempty in Es.
    + now rewrite concat_push, IH.
Qed.

Lemma prefix_slash x : String.prefix "/" (String.append "/" x) = true.
Proof.
  cbn [String.append String.prefix].
  destruct (ascii_dec "/" "/"); [apply prefix_empty | contradiction].
Qed.

(** The join of the first [n] segments, for [n >= 1], is a prefix of the
    join of all of them, and what follows is empty or starts with the
    separator. *)
Lemma concat_firstn : forall parts n,
  parts <> [] ->
  exists r,
    String.concat "/" parts
    = String.append (String.concat "/" (firstn (S n) parts)) r /\
    (r = "" \/ String.prefix "/" r = true).
Proof.
  induction parts as [| p ps IH]; intros n Hne; [contradiction |].
  destruct ps as [| q ps].
  - exists "". cbn [firstn]. rewrite firstn_nil. cbn [String.concat].
    rewrite string_app_empty. auto.
  - destruct n as [| n].
    + exists (String.append "/" (String.concat "/" (q :: ps))).
      cbn [firstn]. rewrite concat_cons2. split; [reflexivity |].
      right. apply prefix_slash.
    + destruct (IH n) as (r & E & Hr); [discriminate |].
      exists r. split; [| exact Hr].
      change (firstn (S (S n)) (p :: q :: ps)) with (p :: firstn (S n) (q :: ps)).
      rewrite concat_cons2, E.
      destruct (firstn (S n) (q :: ps)) as [| x xs] eqn:Ef; [discriminate |].
      rewrite concat_cons2, !string_app_assoc. reflexivity.
Qed.

Lemma package_of_prefix request :
  exists r,
    request = String.append (package_of request) r /\
    (r = "" \/ String.prefix "/" r = true).
Proof.
  unfold package_of.
  pose proof (split_slash_nonempty request) as Hne.
  destruct (String.prefix "@" request).
  - destruct (concat_firstn (split_slash request) 1 Hne) as (r & E & Hr).
    exists r. rewrite concat_split_slash in E. now split.
  - destruct (concat_firstn (split_slash request) 0 Hne) as (r & E & Hr).
    exists r. rewrite concat_split_slash in E. split; [| exact Hr].
    destruct (split_slash request) as [| p ps]; [contradiction |].
    exact E.
Qed.

(** X19.  The hook splits a request into the package name and the rest
    without losing anything: the name followed by the sub-path is the
    request again, and the sub-path is empty or starts with a slash.  So
    the redirected request is the resolved directory of the package
    followed by the path inside the package that the caller asked for. *)
Theorem package_of_sub_path_round_trip :
  forall (request : string),
    String.append (package_of request)
                  (sub_path request (package_of request)) = request /\
    (sub_path request (package_of request) = "" \/
     String.prefix "/" (sub_path request (package_of request)) = true).
Proof.
  intros request.
  destruct (package_of_prefix request) as (r & E & Hr).
  assert (Hs : sub_path request (package_of request) = r).
  { transitivity (sub_path (String.append (package_of request) r)
                           (package_of request)).
    - now rewrite <- E.
    - apply substring_skip. }
  rewrite Hs. split; [now symmetry | exact Hr].
Qed.

Lemma resolution_at_spec member_index (rmap : ResolutionMap) ws pkg :
  match resolution_at member_index rmap ws pkg with
  | FoundThrows => lookup_throws member_index rmap ws pkg
  | FoundNothing =>
      ~ lookup_throws member_index rmap ws pkg /\
      ~ finds_member member_index rmap ws pkg /\
      forall table, map_get ws rmap = Some table -> map_get pkg table = None
  | FoundEntry resolution =>
      exists table, map_get ws rmap = Some table /\
                    map_get pkg table = Some resolution
  | FoundMember => finds_member member_index rmap ws pkg
  end.
Proof.
  unfold resolution_at, js_get, lookup_throws, finds_member.
  destruct (map_get ws rmap) as [table |] eqn:Et.
  - destruct (map_get pkg table) as [r |] eqn:Er.
    + now exists table.
    + destruct (mem pkg Object_prototype_names) eqn:Em.
      * left. exists table. apply mem_In in Em. now split.
      * apply mem_false in Em. split; [intros [H _]; discriminate |].
        split.
        -- intros [(t & E & _ & Hin) | [H _]]; [now apply Em | discriminate].
        -- intros t E. congruence.
  - destruct (mem ws Object_prototype_names) eqn:Em.
    + apply mem_In in Em. destruct (member_index ws pkg) eqn:Ei.
      * now split.
      * split; [intros (_ & _ & H); discriminate |]. split.
        -- intros [(t & E & _) | (_ & _ & H)]; discriminate.
        -- intros t E. discriminate.
      * right. now split.
    + apply mem_false in Em. split; [intros (_ & H & _); now apply Em |].
      split.
      * intros [(t & E & _) | (_ & H & _)]; [discriminate | now apply Em].
      * intros t E. discriminate.
Qed.

(** X20.  The replacement of [Module._resolveFilename] passes requests
    starting with a dot, a slash or [node:] and every request of a caller
    outside all workspace roots to the loader unchanged.  It breaks an
    import that the loader resolves in one case only: the first workspace
    root matching the caller has no entry in the resolution map, its name
    is the name of a member that every object inherits, and indexing that
    member by the package name throws.  Whatever the hook returns is the
    loader's answer for the request itself, or its answer for the
    redirected request built from the entry that the resolution map holds
    for the package under that workspace, or its answer for the text
    [undefined] followed by the sub-path when the lookup ended at an
    inherited member instead of an entry. *)
Theorem resolveFilename_falls_back :
  forall (member_index : string -> string -> MemberIndex)
         (originalResolve : string -> option string)
         (resolutions : ResolutionMap) (roots : list WorkspaceRoot)
         (cwd request : string) (parentFilename : option string),
    let answer := resolveFilename member_index originalResolve resolutions
                                  roots cwd request parentFilename in
    let callerPath := caller_path cwd parentFilename in
    let pkgName := package_of request in
    (bypassed request = true -> answer = originalResolve request) /\
    (findWorkspace roots callerPath = None ->
     answer = originalResolve request) /\
    (forall ws, bypassed request = false ->
                findWorkspace roots callerPath = Some ws ->
                lookup_throws member_index resolutions ws pkgName ->
                answer = None) /\
    (forall file,
       originalResolve request = Some file ->
       (forall ws, findWorkspace roots callerPath = Some ws ->
                   ~ lookup_throws member_index resolutions ws pkgName) ->
       exists file', answer = Some file') /\
    (forall file, answer = Some file ->
       originalResolve request = Some file \/
       exists ws,
         findWorkspace roots callerPath = Some ws /\
         ((exists table resolution,
             map_get ws resolutions = Some table /\
             map_get pkgName table = Some resolution /\
             originalResolve
               (String.append (resolvedPath resolution)
                              (sub_path request pkgName))
             = Some file) \/
          (finds_member member_index resolutions ws pkgName /\
           originalResolve
             (String.append "undefined" (sub_path request pkgName))
           = Some file))).
Proof.
  intros mi o res roots cwd request parent answer callerPath pkgName.
  unfold answer, resolveFilename. fold (bypassed request).
  fold (caller_path cwd parent). fold callerPath. fold pkgName.
  destruct (bypassed request).
  { split; [reflexivity |]. split; [reflexivity |].
    split; [discriminate |]. split; eauto. }
  split; [discriminate |].
  destruct (findWorkspace roots callerPath) as [ws |].
  2:{ split; [reflexivity |]. split; [discriminate |]. split; eauto. }
  split; [discriminate |].
  pose proof (resolution_at_spec mi res ws pkgName) as Hspec.
  destruct (String.eqb_spec ws "") as [-> | Hne].
  { split; [| split; eauto].
    intros ws' _ E (_ & Hin & _). injection E as <-.
    cbn in Hin. intuition discriminate. }
  destruct (resolution_at mi res ws pkgName) as [| | r |].
  - split; [reflexivity |]. split; [| discriminate].
    intros file _ Hno. exfalso. now apply (Hno ws).
  - destruct Hspec as (Hnt & _ & _). split; [| split; eauto].
    intros ws' _ E Ht. injection E as <-. contradiction.
  - destruct Hspec as (table & Et & Er). split; [| split].
    + intros ws' _ E (Hn & _). injection E as <-. congruence.
    + intros file Ho _. unfold try_redirect.
      destruct (o (String.append (resolvedPath r) (sub_path request pkgName)));
        eauto.
    + intros file. unfold try_redirect.
      destruct (o (String.append (resolvedPath r) (sub_path request pkgName)))
        as [f |] eqn:Eo; [| now left].
      intros H. injection H as <-. right. exists ws.
      split; [reflexivity |]. left. exists table, r. auto.
  - split; [| split].
    + intros ws' _ E (Hn & _ & Hthrow). injection E as <-.
      destruct Hspec as [(t & Et & _) | (_ & _ & Ht)]; congruence.
    + intros file Ho _. unfold try_redirect.
      destruct (o (String.append "undefined" (sub_path request pkgName)));
        eauto.
    + intros file. unfold try_redirect.
      destruct (o (String.append "undefined" (sub_path request pkgName)))
        as [f |] eqn:Eo; [| now left].
      intros H. injection H as <-. right. exists ws.
      split; [reflexivity |]. right. now split.
Qed.

(** ** The resolution map that [analyze] builds *)

Lemma analyze_deps_fst d ws a : forall allDeps resolved allPackages,
  NoDup (map_keys allDeps) ->
  forall p,
    map_get p (fst (analyze_deps d ws a allDeps (resolved, allPackages)))
    = match map_get p allDeps with
      | Some range =>
          if String.prefix "workspace:" range then map_get p resolved
          else match resolveInstalledVersion d (path ws) p range with
               | Some (ver, dir) => Some (mkResolution ver dir)
               | None => map_get p resolved
               end
      | None => map_get p resolved
      end.
Proof.
  induction allDeps as [| [p0 range0] rest IH];
    intros resolved allPackages Hnd p; [reflexivity |].
  rewrite analyze_deps_cons. cbn [map_keys map fst] in Hnd.
  inversion Hnd as [| ? ? Hp0 Hnd']; subst.
  cbn [map_get].
  destruct (String.eqb_spec p p0) as [-> | Np].
  - assert (Hnone : map_get p0 rest = None) by now apply map_get_None_keys.
    destruct (String.prefix "workspace:" range0).
    + rewrite (IH _ _ Hnd'), Hnone. reflexivity.
    + destruct (resolveInstalledVersion d (path ws) p0 range0) as [[ver dir] |].
      * rewrite (IH _ _ Hnd'), Hnone. apply map_get_set_eq.
      * rewrite (IH _ _ Hnd'), Hnone. reflexivity.
  - assert (Hsame : forall st',
              (st' = (resolved, allPackages) \/
               exists ver dir,
                 st' = (map_set p0 (mkResolution ver dir) resolved,
                        track p0 ver a allPackages)) ->
              map_get p (fst (analyze_deps d ws a rest st'))
              = match map_get p rest with
                | Some range =>
                    if String.prefix "workspace:" range then map_get p resolved
                    else match resolveInstalledVersion d (path ws) p range with
                         | Some (ver, dir) => Some (mkResolution ver dir)
                         | None => map_get p resolved
                         end
                | None => map_get p resolved
                end).
    { intros st' [-> | (ver & dir & ->)]; rewrite (IH _ _ Hnd');
        [reflexivity |].
      now rewrite (map_get_set_neq p0 p _ resolved Np). }
    apply Hsame.
    destruct (String.prefix "workspace:" range0); [now left |].
    destruct (resolveInstalledVersion d (path ws) p0 range0) as [[ver dir] |];
      [right; eauto | now left].
Qed.

Lemma analyze_deps_fst_NoDup d ws a : forall allDeps resolved allPackages,
  NoDup (map_keys resolved) ->
  NoDup (map_keys (fst (analyze_deps d ws a allDeps (resolved, allPackages)))).
Proof.
  induction allDeps as [| [p0 range0] rest IH];
    intros resolved allPackages Hnd; [assumption |].
  rewrite analyze_deps_cons.
  destruct (String.prefix "workspace:" range0); [now apply IH |].
  destruct (resolveInstalledVersion d (path ws) p0 range0) as [[ver dir] |];
    [| now apply IH].
  apply IH. now apply map_keys_set_NoDup.
Qed.

Lemma analyze_table d ws pkgJson allPackages :
  let table := fst (analyze_deps d ws (identity ws)
                      (spread (pkg_dependencies pkgJson)
                              (pkg_devDependencies pkgJson))
                      ([], allPackages)) in
  NoDup (map_keys table) /\
  forall p, map_get p table = expected_resolution d ws pkgJson p.
Proof.
  intros table. split.
  - apply analyze_deps_fst_NoDup. constructor.
  - intros p. unfold table, expected_resolution.
    rewrite analyze_deps_fst by apply spread_NoDup.
    destruct (map_get p _) as [range |]; [| reflexivity].
    destruct (String.prefix "workspace:" range); [reflexivity |].
    now destruct (resolveInstalledVersion d (path ws) p range) as [[ver dir] |].
Qed.

Lemma analyze_workspaces_other d : forall wss rmap allPackages a,
  ~ In a (map identity wss) ->
  map_get a (fst (analyze_workspaces d wss (rmap, allPackages)))
  = map_get a rmap.
Proof.
  induction wss as [| ws rest IH]; intros rmap allPackages a Ha; [reflexivity |].
  rewrite analyze_workspaces_cons. cbn [map] in Ha.
  assert (Ha1 : identity ws <> a) by (intros E; apply Ha; now left).
  assert (Ha2 : ~ In a (map identity rest)) by (intros E; apply Ha; now right).
  destruct (readManifest d (path ws)) as [pkgJson |]; [| now apply IH].
  cbv zeta. rewrite (IH _ _ a Ha2).
  apply map_get_set_neq. now apply not_eq_sym.
Qed.


Lemma analyze_workspaces_fst d : forall wss rmap allPackages,
  NoDup (map identity wss) ->
  forall ws pkgJson,
    In ws wss -> readManifest d (path ws) = Some pkgJson ->
    exists table,
      map_get (identity ws) (fst (analyze_workspaces d wss (rmap, allPackages)))
      = Some table /\
      NoDup (map_keys table) /\
      forall p, map_get p table = expected_resolution d ws pkgJson p.
Proof.
  induction wss as [| w rest IH]; intros rmap allPackages Hnd ws pkgJson Hin Hm;
    [destruct Hin |].
  rewrite analyze_workspaces_cons. cbn [map] in Hnd.
  inversion Hnd as [| ? ? Hid Hnd']; subst.
  destruct Hin as [-> | Hin].
  - rewrite Hm. cbv zeta. rewrite (analyze_workspaces_other d rest _ _ _ Hid).
    rewrite map_get_set_eq. eexists. split; [reflexivity |].
    apply analyze_table.
  - destruct (readManifest d (path w)); now apply IH.
Qed.

Lemma analyze_fresh_table config d ws pkgJson :
  NoDup (map identity (workspace config)) ->
  In ws (workspace config) -> readManifest d (path ws) = Some pkgJson ->
  exists table,
    map_get (identity ws) (resolutionMap (analyze config d newPackageResolver))
    = Some table /\
    NoDup (map_keys table) /\
    forall p, map_get p table = expected_resolution d ws pkgJson p.
Proof.
  intros Hnd Hin Hm. rewrite (proj1 (analyze_fresh config d)).
  now apply (analyze_workspaces_fst d (workspace config) [] [] Hnd).
Qed.



(** ** From the analysis to the hook *)

(** X22.  End to end: after [analyze] on a fresh resolver for
    workspaces with pairwise distinct identities, when the hook
    attributes the caller to a workspace with a manifest and the request
    is not passed through, the hook first asks the loader for the path
    inside the copy of the package that the analysis recorded for that
    workspace, and falls back to the loader's own resolution only when
    that fails.  When the analysis recorded nothing for the package under
    that workspace, the request is resolved by the loader unchanged,
    unless the package name is the name of a member that every object
    inherits: then the hook first asks the loader for the text
    [undefined] followed by the sub-path.  The workspace and the package
    are not called [__proto__]: an assignment to that key replaces the
    prototype of the object and does not reach [resolutions.json]. *)
Theorem hook_uses_workspace_version :
  forall (member_index : string -> string -> MemberIndex)
         (config : spinxConfig) (d : Disk)
         (originalResolve : string -> option string)
         (cwd request : string) (parentFilename : option string)
         (ws : Workspace) (pkgJson : PackageJson),
    NoDup (map identity (workspace config)) ->
    In ws (workspace config) -> identity ws <> "" ->
    identity ws <> "__proto__" -> package_of request <> "__proto__" ->
    readManifest d (path ws) = Some pkgJson ->
    bypassed request = false ->
    findWorkspace (workspaceRoots config) (caller_path cwd parentFilename)
      = Some (identity ws) ->
    resolveFilename member_index originalResolve
      (resolutionMap (analyze config d newPackageResolver))
      (workspaceRoots config) cwd request parentFilename
    = match expected_resolution d ws pkgJson (package_of request) with
      | Some resolution =>
          match originalResolve
                  (String.append (resolvedPath resolution)
                                 (sub_path request (package_of request))) with
          | Some file => Some file
          | None => originalResolve request
          end
      | None =>
          if mem (package_of request) Object_prototype_names then
            match originalResolve
                    (String.append "undefined"
                                   (sub_path request (package_of request))) with
            | Some file => Some file
            | None => originalResolve request
            end
          else originalResolve request
      end.
Proof.
  intros mi config d o cwd request parent ws pkgJson Hnd Hin Hid _ _ Hm Hby
         Hfind.
  destruct (analyze_fresh_table config d ws pkgJson Hnd Hin Hm)
    as (table & Et & _ & Htable).
  unfold resolveFilename. fold (bypassed request). rewrite Hby.
  fold (caller_path cwd parent). rewrite Hfind.
  apply String.eqb_neq in Hid. rewrite Hid. cbv zeta.
  unfold resolution_at, js_get. rewrite Et, Htable.
  destruct (expected_resolution d ws pkgJson (package_of request)) as [r |];
    [reflexivity |].
  now destruct (mem (package_of request) Object_prototype_names).
Qed.

Lemma hook_uses_workspace_version_witness :
  resolveFilename ex_member_index (fun file => Some file)
    (resolutionMap (analyze ex_config ex_disk newPackageResolver))
    (workspaceRoots ex_config) "/" "express/lib/router"
    (Some "/repo/@cart/src/index.js")
  = Some "/repo/@cart/node_modules/express/lib/router" /\
  resolveFilename ex_member_index
    (fun file => if String.prefix "undefined" file then None else Some file)
    (resolutionMap (analyze ex_config ex_disk newPackageResolver))
    (workspaceRoots ex_config) "/" "constructor/index"
    (Some "/repo/@cart/src/index.js")
  = Some "constructor/index".
Proof.
  split.
  - apply (hook_uses_workspace_version ex_member_index ex_config ex_disk
             (fun file => Some file)
             "/" "express/lib/router" (Some "/repo/@cart/src/index.js")
             (ex_workspace "@cart" ["@orders"; "@utils"]
                           (Some [("build", "make")]))
             (mkPackageJson
                (Some [("express", "^4.18.0"); ("@utils", "workspace:*")])
                None)).
    + repeat constructor; cbn; intuition discriminate.
    + cbn. auto.
    + discriminate.
    + discriminate.
    + discriminate.
    + reflexivity.
    + reflexivity.
    + reflexivity.
  - apply (hook_uses_workspace_version ex_member_index ex_config ex_disk
             (fun file => if String.prefix "undefined" file then None
                          else Some file)
             "/" "constructor/index" (Some "/repo/@cart/src/index.js")
             (ex_workspace "@cart" ["@orders"; "@utils"]
                           (Some [("build", "make")]))
             (mkPackageJson
                (Some [("express", "^4.18.0"); ("@utils", "workspace:*")])
                None)).
    + repeat constructor; cbn; intuition discriminate.
    + cbn. auto.
    + discriminate.
    + discriminate.
    + discriminate.
    + reflexivity.
    + reflexivity.
    + reflexivity.
Defined.

(** ** The merged dependencies *)

Lemma spread_fold_get : forall (l acc : jsmap string) p,
  NoDup (map_keys l) ->
  map_get p (fold_left (fun obj e => map_set (fst e) (snd e) obj) l acc)
  = match map_get p l with
    | Some r => Some r
    | None => map_get p acc
    end.
Proof.
  intros l acc p Hnd.
  exact (fold_set_get (fun r : string => r) l acc p Hnd).
Qed.

(** X23.  In the object [{...dependencies, ...devDependencies}] that
    [analyze] goes through, a package declared in both takes the range of
    [devDependencies]; a package declared in one of them takes that
    range; no package occurs twice. *)
Theorem spread_dev_range_wins :
  forall (deps devDeps : jsmap string) (p : string),
    NoDup (map_keys deps) -> NoDup (map_keys devDeps) ->
    map_get p (spread (Some deps) (Some devDeps))
    = match map_get p devDeps with
      | Some range => Some range
      | None => map_get p deps
      end /\
    NoDup (map_keys (spread (Some deps) (Some devDeps))).
Proof.
  intros deps devDeps p Hd Hv. split; [| apply spread_NoDup].
  unfold spread. rewrite fold_left_app, !spread_fold_get by assumption.
  destruct (map_get p devDeps); [reflexivity |].
  now destruct (map_get p deps).
Qed.

Lemma spread_dev_range_wins_witness :
  map_get "express"
    (spread (Some [("express", "workspace:*"); ("left-pad", "^1.0.0")])
            (Some [("express", "^5.0.0")]))
  = Some "^5.0.0".
Proof.
  apply (proj1 (spread_dev_range_wins
                  [("express", "workspace:*"); ("left-pad", "^1.0.0")]
                  [("express", "^5.0.0")] "express"
                  ltac:(repeat constructor; cbn; intuition discriminate)
                  ltac:(repeat constructor; cbn; intuition discriminate))).
Defined.

(** ** The shape of the conflict records *)

Lemma analyze_deps_users P d ws a : forall allDeps resolved allPackages,
  P a ->
  packages_wf allPackages -> users_satisfy P allPackages ->
  packages_wf (snd (analyze_deps d ws a allDeps (resolved, allPackages))) /\
  users_satisfy P (snd (analyze_deps d ws a allDeps (resolved, allPackages))).
Proof.
  induction allDeps as [| [p0 range0] rest IH];
    intros resolved allPackages Ha Hwf Hus; [now split |].
  rewrite analyze_deps_cons.
  destruct (String.prefix "workspace:" range0); [now apply IH |].
  destruct (resolveInstalledVersion d (path ws) p0 range0) as [[ver dir] |];
    [| now apply IH].
  apply IH; [assumption | now apply track_wf |].
  intros p v w Hl. apply track_listed in Hl.
  destruct Hl as [Hl | (_ & _ & ->)]; [now apply (Hus p v w) | assumption].
Qed.

Lemma analyze_workspaces_users P d : forall wss rmap allPackages,
  (forall ws, In ws wss -> readManifest d (path ws) <> None -> P (identity ws)) ->
  packages_wf allPackages -> users_satisfy P allPackages ->
  packages_wf (snd (analyze_workspaces d wss (rmap, allPackages))) /\
  users_satisfy P (snd (analyze_workspaces d wss (rmap, allPackages))).
Proof.
  induction wss as [| ws rest IH]; intros rmap allPackages HP Hwf Hus;
    [now split |].
  rewrite analyze_workspaces_cons.
  assert (HP' : forall w, In w rest -> readManifest d (path w) <> None ->
                          P (identity w)).
  { intros w Hw. apply HP. now right. }
  destruct (readManifest d (path ws)) as [pkgJson |] eqn:Em; [| now apply IH].
  cbv zeta.
  destruct (analyze_deps_users P d ws (identity ws)
              (spread (pkg_dependencies pkgJson) (pkg_devDependencies pkgJson))
              [] allPackages) as [Hwf1 Hus1]; try assumption.
  { apply HP; [now left | congruence]. }
  now apply IH.
Qed.

Lemma packages_wf_nil : packages_wf [].
Proof. split; [constructor |]. intros p vm H. discriminate. Qed.

(** X24.  Whatever the configuration, every conflict record that
    [analyze] adds to a fresh resolver has at least two version groups
    with pairwise distinct versions, no group is empty, every member of a
    group is the identity of a declared workspace whose [package.json]
    exists, and no package has two records. *)
Theorem analyze_conflict_groups :
  forall (config : spinxConfig) (d : Disk),
    let st := analyze config d newPackageResolver in
    NoDup (map packageName (conflicts st)) /\
    forall c, In c (conflicts st) ->
      1 < length (versions c) /\
      NoDup (map_keys (versions c)) /\
      forall v users, map_get v (versions c) = Some users ->
        users <> [] /\
        forall w, In w users ->
          exists ws, In ws (workspace config) /\ identity ws = w /\
                     readManifest d (path ws) <> None.
Proof.
  intros config d st. unfold st.
  rewrite (proj2 (analyze_fresh config d)).
  set (P := fun w => exists ws, In ws (workspace config) /\ identity ws = w /\
                                readManifest d (path ws) <> None).
  destruct (analyze_workspaces_users P d (workspace config) [] [])
    as [[Hnd Hwf] Hus].
  { intros ws Hin Hm. exists ws. now split. }
  { apply packages_wf_nil. }
  { intros p v w (vm & users & H & _). discriminate. }
  split; [now apply detect_conflicts_NoDup |].
  intros c Hc. apply detect_conflicts_In in Hc. destruct Hc as [Hin Hlen].
  apply (map_In_get _ _ _ Hnd) in Hin.
  destruct (Hwf _ _ Hin) as [Hvm Hne].
  split; [assumption |]. split; [assumption |].
  intros v users Hv. split; [now apply (Hne v) |].
  intros w Hw. apply (Hus (packageName c) v w).
  exists (versions c), users. now split.
Qed.

(** ** The errors of validateWorkspaces *)

Lemma validate_one_err existsSync all ws aliases paths e :
  validate_one existsSync all ws (aliases, paths) = Err e ->
  (exists a, e = DuplicateAlias a /\ alias ws = Some a /\ a <> "" /\
             In a aliases) \/
  (e = DuplicatePath (path ws) /\ In (path ws) paths) \/
  (e = PathMissing (path ws) /\ existsSync (path ws) = false) \/
  (exists d, e = UnknownAlias (identity ws) d /\ In d (dependsOn_list ws) /\
             alias_declared all d = false).
Proof.
  unfold validate_one, dependsOn_list.
  assert (Htail : forall (aliases' : list string) e',
            (if mem (path ws) paths then Err (DuplicatePath (path ws))
             else if negb (existsSync (path ws)) then Err (PathMissing (path ws))
                  else _ <- (match dependsOn ws with
                             | Some deps => validate_deps all ws deps
                             | None => Ok tt
                             end) ;;
                       Ok (aliases', set_add (path ws) paths)) = Err e' ->
            (e' = DuplicatePath (path ws) /\ In (path ws) paths) \/
            (e' = PathMissing (path ws) /\ existsSync (path ws) = false) \/
            (exists d, e' = UnknownAlias (identity ws) d /\
                       In d (match dependsOn ws with
                             | Some l => l
                             | None => []
                             end) /\
                       alias_declared all d = false)).
  { intros aliases' e'.
    destruct (mem (path ws) paths) eqn:Ep.
    { intros H. injection H as <-. left. split; [reflexivity |].
      now apply mem_In. }
    destruct (existsSync (path ws)) eqn:Ex; cbn [negb].
    2:{ intros H. injection H as <-. right. left. now split. }
    destruct (dependsOn ws) as [deps |]; [| discriminate].
    destruct (validate_deps all ws deps) as [[] | e0] eqn:Ev; [discriminate |].
    cbn [bind]. intros H. injection H as <-.
    right. right. now apply validate_deps_kind. }
  destruct (alias ws) as [a |]; [destruct (String.eqb a "") eqn:Ea |];
    cbn [negb bind].
  - intros H. right. exact (Htail _ _ H).
  - destruct (mem a aliases) eqn:Em; cbn [bind].
    + intros H. injection H as <-. left. exists a.
      split; [reflexivity |]. split; [reflexivity |].
      split; [now apply String.eqb_neq | now apply mem_In].
    + intros H. right. exact (Htail _ _ H).
  - intros H. right. exact (Htail _ _ H).
Qed.

Lemma validate_loop_err existsSync all : forall wss seen aliases paths e,
  (forall a, In a aliases -> exists w, In w seen /\ alias w = Some a) ->
  (forall p, In p paths -> exists w, In w seen /\ path w = p) ->
  validate_loop existsSync all wss (aliases, paths) = Err e ->
  match e with
  | DuplicateAlias a =>
      a <> "" /\
      exists pre w1 mid w2 post,
        seen ++ wss = pre ++ w1 :: mid ++ w2 :: post /\
        alias w1 = Some a /\ alias w2 = Some a
  | DuplicatePath p =>
      exists pre w1 mid w2 post,
        seen ++ wss = pre ++ w1 :: mid ++ w2 :: post /\
        path w1 = p /\ path w2 = p
  | PathMissing p =>
      exists ws, In ws wss /\ path ws = p /\ existsSync p = false
  | UnknownAlias who dep =>
      exists ws, In ws wss /\ identity ws = who /\
                 In dep (dependsOn_list ws) /\ alias_declared all dep = false
  | _ => False
  end.
Proof.
  induction wss as [| ws rest IH]; intros seen aliases paths e Hal Hpa H;
    [discriminate |].
  cbn [validate_loop] in H.
  destruct (validate_one existsSync all ws (aliases, paths))
    as [[aliases' paths'] | e1] eqn:E1; cbn [bind] in H.
  - apply validate_one_iff in E1.
    destruct E1 as (_ & _ & _ & _ & Est). injection Est as -> ->.
    specialize (IH (seen ++ [ws])
                   (fold_left (fun s x => set_add x s) (own_alias ws) aliases)
                   (set_add (path ws) paths) e).
    rewrite <- app_assoc in IH. cbn [app] in IH.
    assert (Hal' : forall a,
              In a (fold_left (fun s x => set_add x s) (own_alias ws) aliases) ->
              exists w, In w (seen ++ [ws]) /\ alias w = Some a).
    { intros a Ha. apply set_of_acc_In in Ha. destruct Ha as [Ha | Ha].
      - destruct (Hal a Ha) as (w & Hw & Ew). exists w.
        split; [apply in_or_app; now left | assumption].
      - apply own_alias_In in Ha. exists ws.
        split; [apply in_or_app; right; now left | tauto]. }
    assert (Hpa' : forall p, In p (set_add (path ws) paths) ->
                             exists w, In w (seen ++ [ws]) /\ path w = p).
    { intros p Hp. apply set_add_In in Hp. destruct Hp as [-> | Hp].
      - exists ws. split; [apply in_or_app; right; now left | reflexivity].
      - destruct (Hpa p Hp) as (w & Hw & Ew). exists w.
        split; [apply in_or_app; now left | assumption]. }
    specialize (IH Hal' Hpa' H).
    destruct e; try exact IH.
    + destruct IH as (w & Hw & IH). exists w. split; [now right | exact IH].
    + destruct IH as (w & Hw & IH). exists w. split; [now right | exact IH].
  - injection H as <-. apply validate_one_err in E1.
    destruct E1 as [(a & -> & Ea & Hne & Hin) | [(-> & Hin) | [(-> & Hex)
                   | (dd & -> & Hd & Hnd)]]].
    + split; [assumption |].
      destruct (Hal a Hin) as (w & Hw & Ew).
      apply in_split in Hw. destruct Hw as (s1 & s2 & ->).
      exists s1, w, s2, ws, rest. rewrite <- app_assoc. now split.
    + destruct (Hpa _ Hin) as (w & Hw & Ew).
      apply in_split in Hw. destruct Hw as (s1 & s2 & ->).
      exists s1, w, s2, ws, rest. rewrite <- app_assoc. now split.
    + exists ws. split; [now left | now split].
    + exists ws. split; [now left | now split].
Qed.

(** X25.  Every error of [validateWorkspaces] is truthful and of one of
    four kinds: "Duplicate alias" names a non-empty alias that two
    declarations carry, "Duplicate path" a path that two declarations
    carry, "Workspace path does not exist" the path of a declaration that
    is not on disk, and "depends on unknown alias" a declaration, by its
    identity, together with one of its dependencies that no declaration
    has as its alias. *)
Theorem validateWorkspaces_errors_truthful :
  forall (existsSync : string -> bool) (config : spinxConfig) (e : Error),
    validateWorkspaces existsSync config = Err e ->
    truthful existsSync (workspace config) e.
Proof.
  intros existsSync config e H. unfold validateWorkspaces in H.
  apply (validate_loop_err existsSync (workspace config) (workspace config)
           [] [] [] e) in H.
  - exact H.
  - intros a [].
  - intros p [].
Qed.

Lemma validateWorkspaces_errors_truthful_witness :
  truthful (fun _ => true) (workspace ex_duplicate_config) (DuplicateAlias "@a").
Proof.
  apply (validateWorkspaces_errors_truthful (fun _ => true) ex_duplicate_config).
  reflexivity.
Defined.

(** ** detectCycles lets no cycle through *)

Lemma clos_trans_first_step (R : relation string) x y :
  clos_trans string R x y ->
  exists d, R x d /\ clos_refl_trans string R d y.
Proof.
  intros H. apply clos_trans_t1n in H.
  induction H as [x y Hxy | x d y Hxd Hdy _].
  - exists y. split; [assumption | apply rt_refl].
  - exists d. split; [assumption |].
    apply clos_trans_refl_trans. now apply clos_t1n_trans.
Qed.

Lemma clos_refl_trans_first_step (R : relation string) x y :
  clos_refl_trans string R x y ->
  x = y \/ exists d, R x d /\ clos_refl_trans string R d y.
Proof.
  intros H. apply clos_rt_rt1n in H.
  destruct H as [| d y Hxd Hdy]; [now left |].
  right. exists d. split; [assumption | now apply clos_rt1n_rt].
Qed.

Section DfsSafe.
Variable g : Graph.

Lemma finished_keeps st st' x :
  dfs_keeps g st st' -> In x (map_keys g) -> finished st x -> finished st' x.
Proof.
  intros [Hv Hr] Hk [Hx Hn]. split; [now apply Hv |].
  intros Hc. apply Hn. now apply (Hr x Hk).
Qed.

Lemma dfs_keeps_refl st : dfs_keeps g st st.
Proof. split; [auto |]. intros x _. reflexivity. Qed.

Lemma dfs_keeps_trans st1 st2 st3 :
  dfs_keeps g st1 st2 -> dfs_keeps g st2 st3 -> dfs_keeps g st1 st3.
Proof.
  intros [V1 R1] [V2 R2]. split; [auto |].
  intros x Hk. rewrite (R2 x Hk). now apply R1.
Qed.

Lemma dfs_safe_enter st a :
  dfs_safe g st -> ~ In a (visited st) ->
  let st1 := mkDfs (set_add a (visited st)) (set_add a (recStack st))
                   (dfs_path st ++ [a]) in
  dfs_safe g st1 /\
  (forall x, finished st1 x <-> finished st x) /\
  (forall x, In x (recStack st1) <-> x = a \/ In x (recStack st)).
Proof.
  intros (J1 & J2 & J3 & J4) Ha st1.
  assert (Hfin : forall x, finished st1 x <-> finished st x).
  { intros x. unfold finished, st1. cbn [visited recStack].
    rewrite !set_add_In. split.
    - intros [[-> | Hx] Hn]; [exfalso; apply Hn; now left |].
      split; [assumption |]. intros Hc. apply Hn. now right.
    - intros [Hx Hn]. split; [now right |].
      intros [-> | Hc]; [contradiction | contradiction]. }
  split; [| split; [exact Hfin |]].
  - split; [| split; [| split]].
    + intros x. unfold st1. cbn [visited recStack]. rewrite !set_add_In.
      intros [-> | Hx]; [now left | right; now apply J1].
    + intros x Hx. apply J2. now apply Hfin.
    + intros x y Hx Hd Hy. apply Hfin. apply (J3 x y); [now apply Hfin | |];
        assumption.
    + intros x Hx. apply J4. now apply Hfin.
  - intros x. unfold st1. cbn [recStack]. apply set_add_In.
Qed.

(** From a finished node, following dependencies through nodes only
    reaches finished nodes. *)
Lemma finished_reach_keys st :
  dfs_safe g st ->
  forall x y, clos_refl_trans string (depends g) x y ->
    finished st x -> In y (map_keys g) -> finished st y.
Proof.
  intros (_ & _ & J3 & _) x y H. apply clos_rt_rtn1 in H.
  induction H as [| y z Hyz Hxy IH]; intros Hx Hz; [assumption |].
  apply (J3 y z); [| assumption | assumption].
  apply IH; [assumption |].
  destruct Hyz as (n & E & _). now apply map_get_Some_keys in E.
Qed.

Lemma dfs_safe_leave st st2 a node :
  dfs_safe g st -> ~ In a (visited st) ->
  map_get a g = Some node ->
  dfs_keeps g (mkDfs (set_add a (visited st)) (set_add a (recStack st))
                     (dfs_path st ++ [a])) st2 ->
  dfs_safe g st2 ->
  (forall d, In d (dependencies node) -> In d (map_keys g) -> finished st2 d) ->
  let st' := mkDfs (visited st2) (set_delete a (recStack st2))
                   (removelast (dfs_path st2)) in
  dfs_keeps g st st' /\ dfs_safe g st' /\ finished st' a.
Proof.
  intros Hst Ha Hget [Kv Kr] (J1 & J2 & J3 & J4) Hdeps st'.
  assert (Hak : In a (map_keys g)) by (eapply map_get_Some_keys; eassumption).
  assert (Hna : ~ In a (recStack st)).
  { intros Hc. apply Ha. now apply (proj1 Hst). }
  assert (Ha2 : In a (recStack st2)).
  { apply (Kr a Hak). cbn [recStack]. apply set_add_In. now left. }
  assert (Hav : In a (visited st2)).
  { apply Kv. cbn [visited]. apply set_add_In. now left. }
  assert (Hfa : finished st' a).
  { split; [exact Hav |]. unfold st'. cbn [recStack].
    rewrite set_delete_In. tauto. }
  assert (Hfin : forall x, finished st' x <-> x = a \/ finished st2 x).
  { intros x. unfold finished, st'. cbn [visited recStack].
    rewrite set_delete_In. split.
    - intros [Hx Hn]. destruct (string_dec x a) as [-> | Ne]; [now left |].
      right. split; [assumption |]. intros Hc. apply Hn. now split.
    - intros [-> | [Hx Hn]]; [split; [assumption | tauto] |].
      split; [assumption | tauto]. }
  split; [| split; [| exact Hfa]].
  - split.
    + intros x Hx. unfold st'. cbn [visited]. apply Kv. cbn [visited].
      apply set_add_In. now right.
    + intros x Hk. unfold st'. cbn [recStack]. rewrite set_delete_In.
      rewrite (Kr x Hk). cbn [recStack]. rewrite set_add_In. split.
      * intros [[-> | Hx] Ne]; [contradiction | assumption].
      * intros Hx. split; [now right |]. intros ->. contradiction.
  - split; [| split; [| split]].
    + intros x. unfold st'. cbn [visited recStack]. rewrite set_delete_In.
      intros [Hx _]. now apply J1.
    + intros x Hx. apply Hfin in Hx. destruct Hx as [-> | Hx];
        [assumption | now apply J2].
    + intros x y Hx Hd Hy. apply Hfin. right.
      apply Hfin in Hx. destruct Hx as [-> | Hx].
      * apply Hdeps; [| assumption].
        destruct Hd as (n & E & Hin). congruence.
      * now apply (J3 x y).
    + intros x Hx Hc. apply Hfin in Hx. destruct Hx as [-> | Hx];
        [| now apply (J4 x)].
      (* a cycle through [a] starts with a dependency of [a], which is
         finished, and comes back to [a], which is on the stack *)
      destruct (clos_trans_first_step (depends g) a a Hc) as (d & Hd & Hback).
      assert (Hdk : In d (map_keys g)).
      { destruct (clos_refl_trans_first_step (depends g) d a Hback)
          as [-> | (y & Hdy & _)]; [assumption |].
        destruct Hdy as (n & E & _). now apply map_get_Some_keys in E. }
      assert (Hfd : finished st2 d).
      { apply Hdeps; [| assumption]. destruct Hd as (n & E & Hin). congruence. }
      pose proof (finished_reach_keys st2 (conj J1 (conj J2 (conj J3 J4)))
                    d a Hback Hfd Hak) as [_ Hn].
      contradiction.
Qed.

Lemma dfs_loop_sound (rec : string -> DfsState -> DfsOutcome) (bound : nat) :
  (forall d st,
     dfs_safe g st -> In d (dfs_universe g) -> ~ In d (visited st) ->
     unvisited_in (dfs_universe g) st <= bound ->
     dfs_sound g st [d] (rec d st)) ->
  forall deps st,
    dfs_safe g st ->
    (forall d, In d deps -> In d (dfs_universe g)) ->
    unvisited_in (dfs_universe g) st <= bound ->
    dfs_sound g st deps (dfs_loop rec deps st).
Proof.
  intros Hrec. induction deps as [| dep rest IH]; intros st Hst Hdeps Hb.
  - cbn. split; [apply dfs_keeps_refl |]. split; [assumption |]. intros d [].
  - rewrite dfs_loop_cons.
    assert (Hrest : forall d, In d rest -> In d (dfs_universe g)).
    { intros d Hd. apply Hdeps. now right. }
    destruct (mem dep (visited st)) eqn:Ev; cbn [negb].
    + destruct (mem dep (recStack st)) eqn:Er; [exact I |].
      apply mem_In in Ev. apply mem_false in Er.
      specialize (IH st Hst Hrest Hb).
      destruct (dfs_loop rec rest st) as [[|] st' | cycle |]; cbn in *;
        try assumption.
      destruct IH as (Hk & Hs & Hf). split; [assumption |].
      split; [assumption |].
      intros d [<- | Hd] Hdk; [| now apply Hf].
      apply (finished_keeps st st'); [assumption | assumption | now split].
    + apply mem_false in Ev.
      pose proof (Hrec dep st Hst (Hdeps dep (or_introl eq_refl)) Ev Hb) as Hcall.
      destruct (rec dep st) as [[|] st1 | cycle |]; cbn in Hcall;
        try assumption; try contradiction.
      destruct Hcall as (Hk1 & Hs1 & Hf1).
      assert (Hb1 : unvisited_in (dfs_universe g) st1 <= bound).
      { pose proof (filter_length_mono (visited st) (visited st1)
                      (dfs_universe g) (proj1 Hk1)).
        unfold unvisited_in in *. lia. }
      specialize (IH st1 Hs1 Hrest Hb1).
      destruct (dfs_loop rec rest st1) as [[|] st' | cycle |]; cbn in *;
        try assumption.
      destruct IH as (Hk & Hs & Hf).
      split; [now apply (dfs_keeps_trans st st1 st') |].
      split; [assumption |].
      intros d [<- | Hd] Hdk; [| now apply Hf].
      apply (finished_keeps st1 st'); [assumption | assumption |].
      apply Hf1; [now left | assumption].
Qed.

Lemma dfs_sound_spec : forall fuel a st,
  dfs_safe g st -> In a (dfs_universe g) -> ~ In a (visited st) ->
  unvisited_in (dfs_universe g) st <= fuel ->
  dfs_sound g st [a] (dfs g fuel a st).
Proof.
  induction fuel as [| fuel IH]; intros a st Hst Hu Ha Hb.
  - exfalso. unfold unvisited_in in Hb.
    assert (Hin : In a (filter (fun k => negb (mem k (visited st)))
                               (dfs_universe g))).
    { apply filter_In. split; [assumption |].
      apply negb_true_iff. now apply mem_false. }
    destruct (filter (fun k => negb (mem k (visited st))) (dfs_universe g));
      [destruct Hin | simpl in Hb; lia].
  - cbn [dfs].
    destruct (dfs_safe_enter st a Hst Ha) as (Hs1 & Hfin1 & Hrec1).
    set (st1 := mkDfs (set_add a (visited st)) (set_add a (recStack st))
                      (dfs_path st ++ [a])) in *.
    destruct (map_get a g) as [node |] eqn:Hget.
    2:{ cbn. split; [| split; [assumption |]].
        - split.
          + intros x Hx. unfold st1. cbn [visited]. apply set_add_In. now right.
          + intros x Hk. rewrite Hrec1. split; [| auto].
            intros [-> | Hx]; [| assumption].
            apply map_keys_get in Hk. destruct Hk as [n En]. congruence.
        - intros d [<- | []] Hk.
          apply map_keys_get in Hk. destruct Hk as [n En]. congruence. }
    assert (Hb1 : unvisited_in (dfs_universe g) st1 <= fuel).
    { assert (Hlt : unvisited_in (dfs_universe g) st1
                    < unvisited_in (dfs_universe g) st).
      { unfold unvisited_in. apply (filter_length_strict _ _ _ a); try assumption.
        - intros x Hx. unfold st1. cbn [visited]. apply set_add_In. now right.
        - unfold st1. cbn [visited]. apply set_add_In. now left. }
      lia. }
    assert (Hdeps : forall d, In d (dependencies node) -> In d (dfs_universe g)).
    { intros d Hd. unfold dfs_universe. apply in_or_app. right.
      apply in_concat. exists (dependencies node). split; [| assumption].
      apply in_map_iff. exists (a, node). split; [reflexivity |].
      now apply map_get_In. }
    pose proof (dfs_loop_sound (dfs g fuel) fuel IH (dependencies node) st1
                  Hs1 Hdeps Hb1) as Hloop.
    destruct (dfs_loop (dfs g fuel) (dependencies node) st1)
      as [[|] st2 | cycle |]; cbn in Hloop; try assumption.
    destruct Hloop as (Hk2 & Hs2 & Hf2).
    destruct (dfs_safe_leave st st2 a node Hst Ha Hget Hk2 Hs2 Hf2)
      as (Hk & Hs & Hf).
    cbn. split; [assumption |]. split; [assumption |].
    intros d [<- | []] _. exact Hf.
Qed.

Lemma detect_loop_sound : forall keys st,
  (forall k, In k keys -> In k (map_keys g)) ->
  dfs_safe g st ->
  (forall x, In x (map_keys g) -> ~ In x (recStack st)) ->
  match detect_loop g keys st with
  | DfsReturn _ st' =>
      dfs_safe g st' /\
      (forall x, In x (map_keys g) -> ~ In x (recStack st')) /\
      (forall x, In x (visited st) -> In x (visited st')) /\
      forall k, In k keys -> In k (visited st')
  | DfsThrow _ => True
  | DfsFuel => False
  end.
Proof.
  induction keys as [| k keys IH]; intros st Hkeys Hst Htop.
  - cbn. split; [assumption |]. split; [assumption |]. split; [auto |].
    intros k [].
  - cbn [detect_loop].
    assert (Hkeys' : forall x, In x keys -> In x (map_keys g)).
    { intros x Hx. apply Hkeys. now right. }
    destruct (mem k (visited st)) eqn:Ev; cbn [negb].
    + apply mem_In in Ev. specialize (IH st Hkeys' Hst Htop).
      destruct (detect_loop g keys st) as [b st' | cycle |]; try assumption.
      destruct IH as (Hs & Ht & Hv & Hall).
      split; [assumption |]. split; [assumption |]. split; [assumption |].
      intros x [<- | Hx]; [now apply Hv | now apply Hall].
    + apply mem_false in Ev.
      assert (Hb : unvisited_in (dfs_universe g) st <= dfs_fuel g).
      { unfold unvisited_in, dfs_fuel, dfs_universe.
        pose proof (filter_length_le (fun k0 => negb (mem k0 (visited st)))
                      (map_keys g ++ concat (map (fun e => dependencies (snd e)) g)))
          as H.
        rewrite length_app in H.
        assert (El : length (map_keys g) = length g) by apply length_map.
        lia. }
      assert (Hu : In k (dfs_universe g)).
      { unfold dfs_universe. apply in_or_app. left. apply Hkeys. now left. }
      pose proof (dfs_sound_spec (dfs_fuel g) k st Hst Hu Ev Hb) as Hcall.
      destruct (dfs g (dfs_fuel g) k st) as [[|] st1 | cycle |]; cbn in Hcall;
        try contradiction; [| exact I].
      destruct Hcall as ([Kv Kr] & Hs1 & Hf1).
      assert (Htop1 : forall x, In x (map_keys g) -> ~ In x (recStack st1)).
      { intros x Hk Hc. apply (Htop x Hk). now apply (Kr x Hk). }
      specialize (IH st1 Hkeys' Hs1 Htop1).
      destruct (detect_loop g keys st1) as [b st' | cycle |]; try assumption.
      destruct IH as (Hs & Ht & Hv & Hall).
      split; [assumption |]. split; [assumption |]. split; [auto |].
      intros x [<- | Hx]; [| now apply Hall].
      apply Hv. apply (Hf1 k); [now left |]. apply Hkeys. now left.
Qed.

End DfsSafe.

Lemma dfs_safe_start g : dfs_safe g (mkDfs [] [] []).
Proof.
  split; [intros x [] |]. split; [intros x [[] _] |].
  split; [intros x y [[] _] | intros x [[] _]].
Qed.

Lemma detectCycles_sound g : detectCycles g = Ok tt -> acyclic g.
Proof.
  unfold detectCycles. intros H.
  pose proof (detect_loop_sound g (map_keys g) (mkDfs [] [] [])
                (fun k Hk => Hk) (dfs_safe_start g)) as Hloop.
  destruct (detect_loop g (map_keys g) (mkDfs [] [] [])) as [b st | c |];
    try discriminate.
  destruct Hloop as ((_ & _ & _ & J4) & Htop & _ & Hall).
  { intros x _ []. }
  intros a Hc. apply (J4 a); [| assumption].
  assert (Hk : In a (map_keys g)) by (eapply depends_clos_key; eassumption).
  split; [now apply Hall | now apply Htop].
Qed.

(** X26.  [detectCycles] lets no cycle through, also when dependencies
    name no node: if it returns, the graph is acyclic, and on every graph
    with a cycle it throws the cycle error.  So every graph that the
    constructor of [DependencyGraph] returns is acyclic. *)
Theorem detectCycles_lets_no_cycle_through :
  forall (g : Graph),
    (detectCycles g = Ok tt -> acyclic g) /\
    ((exists a, clos_trans string (depends g) a a) ->
     exists cycle, detectCycles g = Err (CycleDetected cycle)) /\
    (forall config, newDependencyGraph config = Ok g ->
                    g = buildGraph config /\ acyclic g).
Proof.
  intros g. split; [apply detectCycles_sound |]. split.
  - intros (a & Hc).
    pose proof (detectCycles_sound g) as Hs.
    pose proof (detectCycles_total g) as Ht.
    unfold detectCycles in *.
    destruct (detect_loop g (map_keys g) (mkDfs [] [] [])) as [b st | c |].
    + exfalso. apply (Hs eq_refl a Hc).
    + now exists c.
    + now destruct Ht.
  - intros config H. unfold newDependencyGraph in H.
    pose proof (detectCycles_sound (buildGraph config)) as Hs.
    destruct (detectCycles (buildGraph config)) as [[] | e]; [| discriminate].
    cbn [bind] in H. injection H as <-. split; [reflexivity | now apply Hs].
Qed.

(** ** explainResolution after analyze *)

Lemma analyze_inverse config d :
  NoDup (map identity (workspace config)) ->
  exists allPackages,
    conflicts (analyze config d newPackageResolver)
    = detect_conflicts allPackages /\
    packages_wf allPackages /\
    inverse_of allPackages (resolutionMap (analyze config d newPackageResolver)).
Proof.
  intros Hnd. destruct (analyze_fresh config d) as [-> ->].
  exists (snd (analyze_workspaces d (workspace config) ([], []))).
  split; [reflexivity |].
  apply (analyze_workspaces_spec d (workspace config) [] [] Hnd).
  - reflexivity.
  - apply packages_wf_nil.
  - intros p v w. unfold listed_in, resolved_version. cbn.
    split; [intros (? & ? & ? & _) |]; discriminate.
Qed.

Lemma resolved_version_lookup (rmap : ResolutionMap) w p :
  resolved_version rmap w p
  = option_map version
      (match map_get w rmap with
       | Some table => map_get p table
       | None => None
       end).
Proof. unfold resolved_version. now destruct (map_get w rmap). Qed.

Lemma listed_in_get (allPackages : jsmap (jsmap (list string))) p vm v w :
  map_get p allPackages = Some vm ->
  (listed_in allPackages p v w <->
   exists users, map_get v vm = Some users /\ In w users).
Proof.
  intros E. unfold listed_in. split.
  - intros (vm' & users & E' & Ev & Hw).
    assert (vm' = vm) by congruence. subst. eauto.
  - intros (users & Ev & Hw). eauto.
Qed.

Lemma explain_found_printed st pkg ws ver dir :
  In (ExplainVersion ver)
     (ExplainHeader pkg ws :: explain_found st pkg ver dir) /\
  In (ExplainPath dir)
     (ExplainHeader pkg ws :: explain_found st pkg ver dir) /\
  ~ In (ExplainNotFound ws)
       (ExplainHeader pkg ws :: explain_found st pkg ver dir).
Proof.
  unfold explain_found. split; [cbn; auto | split; [cbn; auto |]].
  cbn. intros [H | [H | [H | H]]]; try discriminate.
  apply in_app_or in H. destruct H as [H | [H | []]]; [| discriminate].
  destruct (find (fun c => String.eqb (packageName c) pkg) (conflicts st)).
  - destruct H as [H | H]; [discriminate |].
    apply in_map_iff in H. destruct H as (e & H & _). discriminate.
  - destruct H as [H | []]. discriminate.
Qed.

Lemma explain_found_group st pkg ws ver dir marked v users :
  In (ExplainGroup marked v users)
     (ExplainHeader pkg ws :: explain_found st pkg ver dir) <->
  exists c,
    find (fun c => String.eqb (packageName c) pkg) (conflicts st) = Some c /\
    In (v, users) (versions c) /\ marked = same_version v ver.
Proof.
  unfold explain_found. cbn. split.
  - intros [H | [H | [H | H]]]; try discriminate.
    apply in_app_or in H. destruct H as [H | [H | []]]; [| discriminate].
    destruct (find (fun c => String.eqb (packageName c) pkg) (conflicts st))
      as [c |].
    + destruct H as [H | H]; [discriminate |].
      apply in_map_iff in H. destruct H as ([v0 u0] & H & Hin0).
      cbn in H. injection H as <- <- <-. exists c. now split.
    + destruct H as [H | []]. discriminate.
  - intros (c & -> & Hin0 & ->). right. right. right.
    apply in_or_app. left. right. apply in_map_iff. now exists (v, users).
Qed.

Lemma explain_found_no_conflict st pkg ws ver dir :
  In ExplainNoConflict
     (ExplainHeader pkg ws :: explain_found st pkg ver dir) <->
  find (fun c => String.eqb (packageName c) pkg) (conflicts st) = None.
Proof.
  unfold explain_found. cbn. split.
  - intros [H | [H | [H | H]]]; try discriminate.
    apply in_app_or in H. destruct H as [H | [H | []]]; [| discriminate].
    destruct (find (fun c => String.eqb (packageName c) pkg) (conflicts st));
      [| reflexivity].
    destruct H as [H | H]; [discriminate |].
    apply in_map_iff in H. destruct H as (e & H & _). discriminate.
  - intros ->. cbn. auto.
Qed.

(** X27.  After [analyze] on a fresh resolver for workspaces with
    pairwise distinct identities, none of whose assignments went to the key
    [__proto__]: [explainResolution] prints "Package not found" exactly
    when the resolution map has no entry for the package under the
    workspace and the lookup does not end at a member that every object
    inherits; it throws exactly when the workspace is only the name of
    such a member and indexing the member by the package throws.  When
    the map has an entry, it prints the recorded version; it prints "No
    conflicts" exactly when every workspace that resolves the package
    resolves it to that version; and in the table of a conflict each line
    lists exactly the workspaces that resolve the package to the version
    of the line, the arrow marks exactly the line of the recorded version,
    and that line lists the workspace itself.  When the lookup ends at an
    inherited member, the version and the path are printed as
    [undefined] and no line is marked. *)
Theorem explainResolution_marks_own_version :
  forall (member_index : string -> string -> MemberIndex)
         (config : spinxConfig) (d : Disk) (ws pkg : string),
    NoDup (map identity (workspace config)) ->
    let st := analyze config d newPackageResolver in
    no_proto_key (resolutionMap st) ->
    let outcome := fst (explainResolution member_index st ws pkg) in
    let lines := snd (explainResolution member_index st ws pkg) in
    (In (ExplainNotFound ws) lines <->
     resolved_version (resolutionMap st) ws pkg = None /\
     ~ finds_member member_index (resolutionMap st) ws pkg /\
     ~ lookup_throws member_index (resolutionMap st) ws pkg) /\
    (outcome <> Ok tt <->
     lookup_throws member_index (resolutionMap st) ws pkg) /\
    match resolved_version (resolutionMap st) ws pkg with
    | Some v =>
        In (ExplainVersion (Some v)) lines /\
        (In ExplainNoConflict lines <->
         forall w' v', resolved_version (resolutionMap st) w' pkg = Some v' ->
                       v' = v) /\
        (forall marked v' users, In (ExplainGroup marked v' users) lines ->
           (marked = true <-> v' = v) /\
           forall u, In u users <->
                     resolved_version (resolutionMap st) u pkg = Some v') /\
        (~ In ExplainNoConflict lines ->
         exists users, In (ExplainGroup true v users) lines /\ In ws users)
    | None =>
        finds_member member_index (resolutionMap st) ws pkg ->
        In (ExplainVersion None) lines /\ In (ExplainPath None) lines /\
        forall marked v' users, In (ExplainGroup marked v' users) lines ->
          marked = false /\
          forall u, In u users <->
                    resolved_version (resolutionMap st) u pkg = Some v'
    end.
Proof.
  intros mi config d ws pkg Hnd st _ outcome lines.
  destruct (analyze_inverse config d Hnd) as (ap & Ec & [Hkeys Hvm] & Hinv).
  fold st in Ec, Hinv.
  assert (Husers : forall c v' users u,
            find (fun c => String.eqb (packageName c) pkg) (conflicts st)
            = Some c ->
            In (v', users) (versions c) ->
            (In u users <->
             resolved_version (resolutionMap st) u pkg = Some v')).
  { intros c v' users u Ef Hin0. rewrite Ec in Ef.
    apply find_some in Ef. destruct Ef as [Hc En].
    apply String.eqb_eq in En. apply detect_conflicts_In in Hc.
    destruct Hc as [Hin _]. apply (map_In_get _ _ _ Hkeys) in Hin.
    rewrite En in Hin. destruct (Hvm _ _ Hin) as [Hndv _].
    rewrite <- (Hinv pkg v' u), (listed_in_get ap pkg _ v' u Hin).
    apply (map_In_get _ _ _ Hndv) in Hin0. split.
    - intros Hu. now exists users.
    - intros (users' & E' & Hu).
      assert (users' = users) by congruence. now subst. }
  pose proof (resolution_at_spec mi (resolutionMap st) ws pkg) as Hspec.
  unfold outcome, lines, explainResolution.
  destruct (resolution_at mi (resolutionMap st) ws pkg) as [| | r |];
    cbn [fst snd].
  - (* the lookup throws *)
    assert (Hnone : resolved_version (resolutionMap st) ws pkg = None).
    { rewrite resolved_version_lookup. destruct Hspec as [-> _]. reflexivity. }
    rewrite Hnone. split; [| split].
    + split; [| tauto]. intros [H | []]. discriminate.
    + split; [intros _; exact Hspec | discriminate].
    + intros [(t & Et & _) | (_ & _ & Ht)];
        destruct Hspec as (Hn & _ & Hthrow); congruence.
  - (* nothing is found *)
    destruct Hspec as (Hnt & Hnm & Hnone').
    assert (Hnone : resolved_version (resolutionMap st) ws pkg = None).
    { rewrite resolved_version_lookup.
      destruct (map_get ws (resolutionMap st)) as [t |]; [| reflexivity].
      now rewrite (Hnone' t eq_refl). }
    rewrite Hnone. split; [| split].
    + split; [now intros _ | intros _; cbn; auto].
    + split; [intros H; now destruct H | intros H; contradiction].
    + intros H. contradiction.
  - (* an entry of the map *)
    destruct Hspec as (table & Et & Er).
    assert (Hown : resolved_version (resolutionMap st) ws pkg
                   = Some (version r)).
    { rewrite resolved_version_lookup, Et, Er. reflexivity. }
    rewrite Hown.
    destruct (explain_found_printed st pkg ws (Some (version r))
                (Some (resolvedPath r))) as (Hv & _ & Hnf).
    split; [| split].
    + split; [intros H; contradiction | intros [H _]; discriminate].
    + split; [intros H; now destruct H | intros (Hn & _); congruence].
    + split; [exact Hv |]. split; [| split].
      * rewrite explain_found_no_conflict. split.
        -- intros Ef w' v' Hw'.
           destruct (string_dec v' (version r)) as [E | N]; [exact E |].
           exfalso. rewrite Ec in Ef.
           apply Hinv in Hw'. apply Hinv in Hown.
           destruct Hw' as (vm & u1 & Ep & E1 & _).
           apply (listed_in_get ap pkg vm _ _ Ep) in Hown.
           destruct Hown as (u2 & E2 & _).
           assert (Hc : In (mkConflict pkg vm) (detect_conflicts ap)).
           { apply detect_conflicts_In. cbn.
             split; [now apply map_get_In |].
             exact (two_keys_length vm v' (version r) u1 u2 E1 E2 N). }
           apply (find_none _ _ Ef) in Hc. cbn in Hc.
           now rewrite String.eqb_refl in Hc.
        -- intros Hall.
           destruct (find (fun c => String.eqb (packageName c) pkg)
                          (conflicts st)) as [c |] eqn:Ef; [| reflexivity].
           exfalso. rewrite Ec in Ef.
           apply find_some in Ef. destruct Ef as [Hc En].
           apply String.eqb_eq in En. apply detect_conflicts_In in Hc.
           destruct Hc as [Hin Hlen]. apply (map_In_get _ _ _ Hkeys) in Hin.
           rewrite En in Hin. destruct (Hvm _ _ Hin) as [Hndv Hne].
           destruct (length_two_keys _ Hndv Hlen)
             as (v1 & v2 & u1 & u2 & N & E1 & E2).
           destruct u1 as [| w1 u1]; [now apply Hne in E1 |].
           destruct u2 as [| w2 u2]; [now apply Hne in E2 |].
           assert (H1 : resolved_version (resolutionMap st) w1 pkg = Some v1).
           { apply Hinv. exists (versions c), (w1 :: u1). cbn. auto. }
           assert (H2 : resolved_version (resolutionMap st) w2 pkg = Some v2).
           { apply Hinv. exists (versions c), (w2 :: u2). cbn. auto. }
           apply Hall in H1. apply Hall in H2. congruence.
      * intros marked v' users Hl. apply explain_found_group in Hl.
        destruct Hl as (c & Ef & Hin0 & ->). split.
        -- cbn [same_version]. apply String.eqb_eq.
        -- intros u. exact (Husers c v' users u Ef Hin0).
      * intros Hc. rewrite explain_found_no_conflict in Hc.
        destruct (find (fun c => String.eqb (packageName c) pkg)
                       (conflicts st)) as [c |] eqn:Ef; [| now destruct Hc].
        pose proof Ef as Ef'. rewrite Ec in Ef'.
        apply find_some in Ef'. destruct Ef' as [Hcin En].
        apply String.eqb_eq in En. apply detect_conflicts_In in Hcin.
        destruct Hcin as [Hin _]. apply (map_In_get _ _ _ Hkeys) in Hin.
        rewrite En in Hin.
        apply Hinv in Hown. apply (listed_in_get ap pkg _ _ _ Hin) in Hown.
        destruct Hown as (users & Ev & Hw). exists users.
        split; [| assumption].
        apply explain_found_group. exists c. split; [exact Ef |].
        split; [now apply map_get_In |].
        cbn [same_version]. now rewrite String.eqb_refl.
  - (* an inherited member *)
    assert (Hnone : resolved_version (resolutionMap st) ws pkg = None).
    { rewrite resolved_version_lookup.
      destruct Hspec as [(t & -> & -> & _) | (-> & _)]; reflexivity. }
    rewrite Hnone.
    destruct (explain_found_printed st pkg ws None None) as (Hv & Hp & Hnf).
    split; [| split].
    + split; [intros H; contradiction | intros (_ & H & _); contradiction].
    + split; [intros H; now destruct H |].
      intros (Hn & _ & Hthrow).
      destruct Hspec as [(t & Et & _) | (_ & _ & Ht)]; congruence.
    + intros _. split; [exact Hv |]. split; [exact Hp |].
      intros marked v' users Hl. apply explain_found_group in Hl.
      destruct Hl as (c & Ef & Hin0 & ->). split; [reflexivity |].
      intros u. exact (Husers c v' users u Ef Hin0).
Qed.

Lemma explainResolution_marks_own_version_witness :
  In (ExplainVersion (Some "4.18.3"))
     (snd (explainResolution ex_member_index
             (analyze ex_config ex_disk newPackageResolver)
             "@cart" "express")) /\
  (exists users,
     In (ExplainGroup true "4.18.3" users)
        (snd (explainResolution ex_member_index
                (analyze ex_config ex_disk newPackageResolver)
                "@cart" "express")) /\
     In "@cart" users) /\
  In (ExplainVersion None)
     (snd (explainResolution ex_member_index
             (analyze ex_config ex_disk newPackageResolver)
             "@cart" "toString")).
Proof.
  assert (Hnd : NoDup (map identity (workspace ex_config))).
  { repeat constructor; cbn; intuition discriminate. }
  assert (Hproto : no_proto_key
                     (resolutionMap
                        (analyze ex_config ex_disk newPackageResolver))).
  { split.
    - cbn. intuition discriminate.
    - intros w table E. cbn in E.
      repeat match type of E with
             | (if ?b then _ else _) = _ => destruct b
             end;
        try discriminate; injection E as <-; cbn; intuition discriminate. }
  pose proof (explainResolution_marks_own_version ex_member_index ex_config
                ex_disk "@cart" "express" Hnd Hproto) as H.
  pose proof (explainResolution_marks_own_version ex_member_index ex_config
                ex_disk "@cart" "toString" Hnd Hproto) as Hm.
  cbv zeta in H, Hm.
  change (resolved_version
            (resolutionMap (analyze ex_config ex_disk newPackageResolver))
            "@cart" "express") with (Some "4.18.3") in H.
  change (resolved_version
            (resolutionMap (analyze ex_config ex_disk newPackageResolver))
            "@cart" "toString") with (@None string) in Hm.
  destruct H as (_ & _ & Hv & Hno & _ & Hmark).
  split; [exact Hv |]. split.
  - apply Hmark. intros Hc.
    pose proof (proj1 Hno Hc "@orders" "5.0.0" eq_refl) as Hx. discriminate.
  - apply (proj2 (proj2 Hm)). left.
    eexists. split; [reflexivity |]. split; [reflexivity |]. cbn. auto 20.
Defined.

(** ** The summary of a run *)

Lemma runAll_returns r h commandType filter_ results started :
  runAll r h commandType filter_ = (Ok results, started) ->
  NoDup (map_keys results) /\ NoDup started /\
  (forall a, In a (map_keys results) <-> In a started) /\
  (forall a res, map_get a results = Some res -> success res = true).
Proof.
  intros Hrun. unfold runAll in Hrun.
  destruct (getParallelBatches (runner_graph r)) as [batches | e] eqn:Hb;
    [| discriminate].
  destruct (getParallelBatches_keys _ _ Hb) as [Hnd Hkeys].
  assert (Hsel : forall a, In a (selected filter_ batches) ->
                           In a (map_keys (runner_graph r))).
  { intros a Ha. apply Hkeys. eapply selected_In, Ha. }
  destruct (first_failure r h commandType filter_ batches Hsel) as [Hok | Hfail].
  - destruct (run_batches_prefix r h commandType filter_
                (effective_concurrency (runner_config r)) batches [] [] []
                Hsel (results_sound_nil r h commandType) Hok)
      as (results' & E & [Hnd' Hsound] & Hmem).
    rewrite app_nil_r in E. rewrite E in Hrun. cbn in Hrun.
    injection Hrun as <- <-.
    split; [assumption |]. split.
    + unfold selected.
      assert (Hf : forall (bs : list (list string)),
                NoDup (concat bs) ->
                NoDup (concat (map (apply_filter filter_) bs))).
      { induction bs as [| b bs IHb]; intros Hn; [constructor |].
        cbn [map concat] in *. apply NoDup_app_remove_l in Hn as Hn2.
        apply NoDup_app.
        - apply NoDup_app_remove_r in Hn. unfold apply_filter.
          destruct filter_; [now apply NoDup_filter | assumption].
        - now apply IHb.
        - intros a Ha1 Ha2. apply apply_filter_In in Ha1.
          apply (NoDup_app_disjoint _ _ a Hn Ha1).
          fold (selected filter_ bs) in Ha2. eapply selected_In, Ha2. }
      now apply Hf.
    + split.
      * intros a. rewrite Hmem. cbn. tauto.
      * intros a res Ha. destruct (Hsound a res Ha) as [Hr _].
        assert (Hin : In a (selected filter_ batches)).
        { pose proof (map_get_Some_keys _ _ _ Ha) as Hk. apply Hmem in Hk.
          destruct Hk as [[] | Hk]. exact Hk. }
        destruct (Hok a Hin) as (res' & Hr' & Hs). congruence.
  - destruct Hfail as (pre & b & post & -> & Hpre & Hbad).
    pose proof (runAll_failure r h commandType filter_ pre b post Hb Hpre Hbad)
      as E.
    unfold runAll in E. rewrite Hb in E. congruence.
Qed.

Lemma NoDup_same_length (l1 l2 : list string) :
  NoDup l1 -> NoDup l2 -> (forall a, In a l1 <-> In a l2) ->
  length l1 = length l2.
Proof.
  intros H1 H2 H. apply Permutation_length. now apply NoDup_Permutation.
Qed.

(** X28.  The summary printed at the end of [runAll] never reports a
    failure: [runAll] reaches [printSummary] only with results that are
    all successful, one for each task it started, so "Total" and
    "Successful" are both the number of started tasks and the count behind
    the line "Failed" is zero. *)
Theorem printSummary_reports_no_failure :
  forall (r : TaskRunner) (h : Host) (commandType : string)
         (filter_ : option (list string)) (results : jsmap TaskResult)
         (started : list string),
    runAll r h commandType filter_ = (Ok results, started) ->
    summary_failed (printSummary results) = 0 /\
    summary_total (printSummary results) = length started /\
    summary_successful (printSummary results) = length started.
Proof.
  intros r h commandType filter_ results started Hrun.
  destruct (runAll_returns r h commandType filter_ results started Hrun)
    as (Hnd & Hns & Hmem & Hsucc).
  assert (Hall : forall res, In res (map_values results) -> success res = true).
  { intros res Hin. unfold map_values in Hin. apply in_map_iff in Hin.
    destruct Hin as ([a res'] & <- & Hin). cbn.
    apply (Hsucc a). now apply map_In_get. }
  assert (Hlen : length results = length started).
  { rewrite <- (length_map fst results).
    now apply NoDup_same_length. }
  unfold printSummary. cbn [summary_failed summary_total summary_successful].
  split; [| split; [exact Hlen |]].
  - rewrite filter_nil; [reflexivity |].
    intros res Hin. now rewrite (Hall res Hin).
  - rewrite filter_all by exact Hall.
    unfold map_values. now rewrite length_map.
Qed.

Lemma printSummary_reports_no_failure_witness :
  summary_failed
    (printSummary
       [("@utils", mkTaskResult "@utils" true 0 None);
        ("@orders", mkTaskResult "@orders" true 0 None);
        ("@cart", mkTaskResult "@cart" true 0 None)]) = 0 /\
  summary_total
    (printSummary
       [("@utils", mkTaskResult "@utils" true 0 None);
        ("@orders", mkTaskResult "@orders" true 0 None);
        ("@cart", mkTaskResult "@cart" true 0 None)]) = 3 /\
  summary_successful
    (printSummary
       [("@utils", mkTaskResult "@utils" true 0 None);
        ("@orders", mkTaskResult "@orders" true 0 None);
        ("@cart", mkTaskResult "@cart" true 0 None)]) = 3.
Proof.
  apply (printSummary_reports_no_failure ex_runner ex_host "lint" None
           [("@utils", mkTaskResult "@utils" true 0 None);
            ("@orders", mkTaskResult "@orders" true 0 None);
            ("@cart", mkTaskResult "@cart" true 0 None)]
           ["@utils"; "@orders"; "@cart"]).
  reflexivity.
Defined.

(** ** The filter of a run *)

(** X29.  In [spinx build] and [spinx run], [--since] overrides
    [--filter]: whenever the changed files are given, the selection does
    not depend on the filter option.  The action returns early exactly
    when no changed file lies under a workspace; otherwise the filter it
    passes to [runAll] is not empty, holds only nodes of the graph, and
    holds exactly the changed workspaces and the workspaces that depend on
    one of them, directly or through other workspaces. *)
Theorem selectFilter_since :
  forall (trim : string -> string) (join : string -> string -> string)
         (config : spinxConfig) (rootDir : string)
         (filterOption : option string) (files : list string),
    let g := buildGraph config in
    let changed := mapFilesToWorkspaces join files (workspace config) rootDir in
    selectFilter trim join config g rootDir filterOption (Some files)
      = selectFilter trim join config g rootDir None (Some files) /\
    (changed = [] ->
     selectFilter trim join config g rootDir filterOption (Some files)
       = Ok NothingToDo) /\
    (changed <> [] ->
     exists affected,
       selectFilter trim join config g rootDir filterOption (Some files)
         = Ok (RunWith (Some affected)) /\
       affected <> [] /\
       (forall a, In a affected -> has g a = true) /\
       (forall a, In a affected <->
                  In a changed \/
                  exists x, In x changed /\ clos_trans string (depends g) a x)).
Proof.
  intros trim join config rootDir filterOption files g changed.
  split; [reflexivity |]. unfold selectFilter. fold changed. split.
  - intros ->. reflexivity.
  - intros Hne.
    assert (Hnodes : forall a, In a changed -> has g a = true).
    { intros a. apply mapFilesToWorkspaces_nodes. }
    pose proof (buildGraph_wf config) as Hwf. fold g in Hwf.
    destruct (getAffected_members g changed) as (s & Hrun & _ & Hmem0).
    assert (Hmem : forall a, In a s <->
              In a changed \/
              exists x, In x changed /\ has g x = true /\
                        clos_trans string (depends g) a x).
    { intros a. rewrite Hmem0. now apply dependents_forward. }
    clear Hmem0.
    destruct changed as [| c0 changed'] eqn:Ech; [contradiction |].
    cbn [length Nat.eqb]. rewrite Hrun. cbn [bind].
    exists s. split; [reflexivity |].
    assert (Hchar : forall a, In a s <->
              In a (c0 :: changed') \/
              exists x, In x (c0 :: changed') /\
                        clos_trans string (depends g) a x).
    { intros a. rewrite Hmem. split.
      - intros [H | (x & Hx & _ & Hc)]; [now left | right; eauto].
      - intros [H | (x & Hx & Hc)]; [now left |].
        right. exists x. split; [assumption |]. split; [| assumption].
        now apply Hnodes. }
    split; [| split; [| exact Hchar]].
    + intros E. assert (Hin : In c0 s) by (apply Hchar; left; now left).
      rewrite E in Hin. destruct Hin.
    + intros a Ha. apply Hchar in Ha. destruct Ha as [H | (x & _ & Hc)].
      * now apply Hnodes.
      * apply has_In. eapply depends_clos_key; eassumption.
Qed.

(** ** analyze on a resolver that was analyzed before *)

Lemma analyze_deps_fst_indep d ws a : forall allDeps resolved ap1 ap2,
  fst (analyze_deps d ws a allDeps (resolved, ap1))
  = fst (analyze_deps d ws a allDeps (resolved, ap2)).
Proof.
  induction allDeps as [| [p range] rest IH]; intros resolved ap1 ap2;
    [reflexivity |].
  rewrite !analyze_deps_cons.
  destruct (String.prefix "workspace:" range); [apply IH |].
  destruct (resolveInstalledVersion d (path ws) p range) as [[ver dir] |];
    apply IH.
Qed.

Lemma analyze_deps_snd_indep d ws a : forall allDeps r1 r2 ap,
  snd (analyze_deps d ws a allDeps (r1, ap))
  = snd (analyze_deps d ws a allDeps (r2, ap)).
Proof.
  induction allDeps as [| [p range] rest IH]; intros r1 r2 ap; [reflexivity |].
  rewrite !analyze_deps_cons.
  destruct (String.prefix "workspace:" range); [apply IH |].
  destruct (resolveInstalledVersion d (path ws) p range) as [[ver dir] |];
    apply IH.
Qed.

Lemma analyze_workspaces_snd_indep d : forall wss rm1 rm2 ap,
  snd (analyze_workspaces d wss (rm1, ap))
  = snd (analyze_workspaces d wss (rm2, ap)).
Proof.
  induction wss as [| ws rest IH]; intros rm1 rm2 ap; [reflexivity |].
  rewrite !analyze_workspaces_cons.
  destruct (readManifest d (path ws)) as [pkgJson |]; apply IH.
Qed.

Lemma map_set_same {V} k (v : V) : forall (m : jsmap V),
  map_get k m = Some v -> map_set k v m = m.
Proof.
  induction m as [| [k' v'] m IH]; intros H; [discriminate |].
  cbn [map_get map_set] in *. destruct (String.eqb k k') eqn:E.
  - apply String.eqb_eq in E. subst. now injection H as ->.
  - now rewrite IH.
Qed.

(** Going again through workspaces whose tables are already in the map
    leaves the map as it is. *)
Lemma analyze_workspaces_again d : forall wss rmap ap,
  (forall ws pkgJson ap',
     In ws wss -> readManifest d (path ws) = Some pkgJson ->
     map_get (identity ws) rmap
     = Some (fst (analyze_deps d ws (identity ws)
                    (spread (pkg_dependencies pkgJson)
                            (pkg_devDependencies pkgJson))
                    ([], ap')))) ->
  fst (analyze_workspaces d wss (rmap, ap)) = rmap.
Proof.
  induction wss as [| ws rest IH]; intros rmap ap H; [reflexivity |].
  rewrite analyze_workspaces_cons.
  assert (Hrest : forall w pkgJson ap',
            In w rest -> readManifest d (path w) = Some pkgJson ->
            map_get (identity w) rmap
            = Some (fst (analyze_deps d w (identity w)
                           (spread (pkg_dependencies pkgJson)
                                   (pkg_devDependencies pkgJson))
                           ([], ap')))).
  { intros w pkgJson ap' Hw. apply H. now right. }
  destruct (readManifest d (path ws)) as [pkgJson |] eqn:Em; [| now apply IH].
  cbv zeta. rewrite map_set_same by (apply H; [now left | assumption]).
  now apply IH.
Qed.

Lemma analyze_workspaces_table d : forall wss rmap ap,
  NoDup (map identity wss) ->
  forall ws pkgJson ap',
    In ws wss -> readManifest d (path ws) = Some pkgJson ->
    map_get (identity ws) (fst (analyze_workspaces d wss (rmap, ap)))
    = Some (fst (analyze_deps d ws (identity ws)
                   (spread (pkg_dependencies pkgJson)
                           (pkg_devDependencies pkgJson))
                   ([], ap'))).
Proof.
  induction wss as [| w rest IH]; intros rmap ap Hnd ws pkgJson ap' Hin Hm;
    [destruct Hin |].
  rewrite analyze_workspaces_cons. cbn [map] in Hnd.
  inversion Hnd as [| ? ? Hid Hnd']; subst.
  destruct Hin as [-> | Hin].
  - rewrite Hm. cbv zeta. rewrite (analyze_workspaces_other d rest _ _ _ Hid).
    rewrite map_get_set_eq. f_equal. apply analyze_deps_fst_indep.
  - destruct (readManifest d (path w)); now apply IH.
Qed.

(** X30.  [analyze] resets the tables of the resolution map but not the
    list of conflicts: run a second time on the same resolver, for
    workspaces with pairwise distinct identities and an unchanged disk,
    it leaves the resolution map as it was and appends every conflict
    record once more. *)
Theorem analyze_twice_repeats_conflicts :
  forall (config : spinxConfig) (d : Disk),
    NoDup (map identity (workspace config)) ->
    let once := analyze config d newPackageResolver in
    let twice := analyze config d once in
    resolutionMap twice = resolutionMap once /\
    conflicts twice = conflicts once ++ conflicts once.
Proof.
  intros config d Hnd once twice.
  destruct (analyze_fresh config d) as [Hmap Hconf]. fold once in Hmap, Hconf.
  unfold twice, analyze.
  destruct (analyze_workspaces d (workspace config) (resolutionMap once, []))
    as [rmap ap] eqn:E.
  cbn [resolutionMap conflicts].
  assert (E1 : rmap
               = fst (analyze_workspaces d (workspace config)
                        (resolutionMap once, []))) by now rewrite E.
  assert (E2 : ap
               = snd (analyze_workspaces d (workspace config)
                        (resolutionMap once, []))) by now rewrite E.
  split.
  - rewrite E1. apply analyze_workspaces_again.
    intros ws pkgJson ap' Hin Hm. rewrite Hmap.
    now apply analyze_workspaces_table.
  - rewrite Hconf, E2. f_equal. f_equal.
    apply analyze_workspaces_snd_indep.
Qed.

Lemma analyze_twice_repeats_conflicts_witness :
  conflicts (analyze ex_config ex_disk
               (analyze ex_config ex_disk newPackageResolver))
  = [mkConflict "express" [("5.0.0", ["@orders"]); ("4.18.3", ["@cart"])];
     mkConflict "express" [("5.0.0", ["@orders"]); ("4.18.3", ["@cart"])]].
Proof.
  exact (proj2 (analyze_twice_repeats_conflicts ex_config ex_disk
                  ltac:(repeat constructor; cbn; intuition discriminate))).
Defined.
